(** * MainMemory: the memcache engine and the MPMC ring, embedded in Rocq

    The definitions below follow [src/memcache/memcache.c], the striding
    test of [memcache/table.c] and [src/base/ring.h] function by function.
    Machine integers are [Z] with their wrap-around written out, C strings
    and buffers are [list ascii], heap objects live in a [gmap] from
    addresses to records, and code that may crash (a failed [ASSERT],
    [ABORT], a wild pointer) returns [None]. *)

From Stdlib Require Import ZArith List Lia Bool Ascii String DecimalString.
From stdpp Require Import gmap list strings.
Local Open Scope Z_scope.

(** ** Machine integers and characters *)

Definition u8 (x : Z) : Z := x mod 2 ^ 8.
Definition u32 (x : Z) : Z := x mod 2 ^ 32.
Definition u64 (x : Z) : Z := x mod 2 ^ 64.

(** [(unsigned char) c] *)
Definition byte_val (c : ascii) : Z := Z.of_N (N_of_ascii c).

(** [int c = *s] for a plain (signed) [char] *)
Definition char_val (c : ascii) : Z :=
  if byte_val c <? 128 then byte_val c else byte_val c - 256.

Definition chr (n : Z) : ascii := ascii_of_N (Z.to_N (n mod 256)).

Definition bytes (s : string) : list ascii := list_ascii_of_string s.

Definition NUL : ascii := "000"%char.
Definition CR : ascii := "013"%char.
Definition LF : ascii := "010"%char.
Definition SP : ascii := " "%char.
Definition CRLF : list ascii := [CR; LF].

Definition len {A} (l : list A) : Z := Z.of_nat (length l).
Definition ztake {A} (n : Z) (l : list A) : list A := take (Z.to_nat n) l.
Definition zdrop {A} (n : Z) (l : list A) : list A := drop (Z.to_nat n) l.

(** ** Hash function (FNV-1a, 32 bit) *)

Definition FNV1_32_INIT : Z := 0x811c9dc5.
Definition FNV_32_PRIME : Z := 0x01000193.

Fixpoint mc_hash_loop (h : Z) (p : list ascii) : Z :=
  match p with
  | [] => h
  | c :: p' => mc_hash_loop (u32 (Z.lxor h (byte_val c) * FNV_32_PRIME)) p'
  end.

Definition mc_hash (data : list ascii) (size : Z) : Z :=
  mc_hash_loop FNV1_32_INIT (ztake size data).

(** ** Memcache entries *)

Abbreviation addr := nat (only parsing).

(** [struct mc_entry]; the [next] pointer is the tail of the bucket chain the
    entry sits in, [link] its place in [mc_entry_list], and the flexible
    array [data] is split into the key and the value it holds. *)
Record mc_entry := {
  entry_key_len : Z;
  entry_value_len : Z;
  entry_ref_count : Z;
  entry_flags : Z;
  entry_cas : Z;
  entry_key : list ascii;
  entry_value : list ascii
}.

Definition entry_with_ref_count (r : Z) (e : mc_entry) : mc_entry :=
  {| entry_key_len := entry_key_len e; entry_value_len := entry_value_len e;
     entry_ref_count := r; entry_flags := entry_flags e;
     entry_cas := entry_cas e; entry_key := entry_key e;
     entry_value := entry_value e |}.

Definition entry_with_flags (f : Z) (e : mc_entry) : mc_entry :=
  {| entry_key_len := entry_key_len e; entry_value_len := entry_value_len e;
     entry_ref_count := entry_ref_count e; entry_flags := f;
     entry_cas := entry_cas e; entry_key := entry_key e;
     entry_value := entry_value e |}.

Definition entry_with_key (k : list ascii) (e : mc_entry) : mc_entry :=
  {| entry_key_len := entry_key_len e; entry_value_len := entry_value_len e;
     entry_ref_count := entry_ref_count e; entry_flags := entry_flags e;
     entry_cas := entry_cas e; entry_key := k;
     entry_value := entry_value e |}.

Definition entry_with_value (v : list ascii) (e : mc_entry) : mc_entry :=
  {| entry_key_len := entry_key_len e; entry_value_len := entry_value_len e;
     entry_ref_count := entry_ref_count e; entry_flags := entry_flags e;
     entry_cas := entry_cas e; entry_key := entry_key e;
     entry_value := v |}.

(** ** The table *)

Definition MC_TABLE_STRIDE : Z := 64.
Definition MC_TABLE_SIZE_MIN : Z := 4 * 1024.
Definition MC_TABLE_SIZE_MAX : Z := 512 * 1024 * 1024.

(** [struct mc_table]; [t_table] maps a bucket index to its chain, a bucket
    never written being the [NULL] of a fresh anonymous page. *)
Record mc_table := {
  t_mask : Z;
  t_size : Z;
  t_used : Z;
  t_striding : bool;
  t_nentries : Z;
  t_table : gmap Z (list addr)
}.

(** The process-wide state of the engine: [mc_table], the allocated
    entries, the allocator's next address, the [static uint64_t cas] of
    [mc_entry_create], [mc_entry_list], and the number of stride routines
    handed to [mm_core_post] that have not run yet. *)
Record mc_world := {
  w_table : mc_table;
  w_heap : gmap addr mc_entry;
  w_next : addr;
  w_cas : Z;
  w_entry_list : list addr;
  w_posted : nat
}.

Definition with_table (t : mc_table) (w : mc_world) : mc_world :=
  {| w_table := t; w_heap := w_heap w; w_next := w_next w; w_cas := w_cas w;
     w_entry_list := w_entry_list w; w_posted := w_posted w |}.

Definition with_heap (h : gmap addr mc_entry) (w : mc_world) : mc_world :=
  {| w_table := w_table w; w_heap := h; w_next := w_next w; w_cas := w_cas w;
     w_entry_list := w_entry_list w; w_posted := w_posted w |}.

Definition with_entry_list (l : list addr) (w : mc_world) : mc_world :=
  {| w_table := w_table w; w_heap := w_heap w; w_next := w_next w;
     w_cas := w_cas w; w_entry_list := l; w_posted := w_posted w |}.

Definition with_posted (n : nat) (w : mc_world) : mc_world :=
  {| w_table := w_table w; w_heap := w_heap w; w_next := w_next w;
     w_cas := w_cas w; w_entry_list := w_entry_list w; w_posted := n |}.

(** Computations over the world that may crash. *)
Definition M (A : Type) : Type := mc_world -> option (A * mc_world).

Definition ret {A} (a : A) : M A := fun w => Some (a, w).
Definition bind {A B} (m : M A) (f : A -> M B) : M B :=
  fun w => match m w with Some (a, w') => f a w' | None => None end.
Definition crash {A} : M A := fun _ => None.
Definition get_world : M mc_world := fun w => Some (w, w).
Definition put_world (w : mc_world) : M unit := fun _ => Some (tt, w).
Definition ASSERT (b : bool) : M unit := if b then ret tt else crash.

Notation "x <- m ;; k" := (bind m (fun x => k))
  (at level 100, m at next level, right associativity).
Notation "m ;;; k" := (bind m (fun _ => k))
  (at level 100, right associativity).

(** [*entry] for a pointer that must be live. *)
Definition load_entry (a : addr) : M mc_entry :=
  fun w => match w_heap w !! a with Some e => Some (e, w) | None => None end.

Definition store_entry (a : addr) (e : mc_entry) : M unit :=
  fun w => match w_heap w !! a with
           | Some _ => Some (tt, with_heap (<[a := e]> (w_heap w)) w)
           | None => None
           end.

Definition mc_entry_key (e : mc_entry) : list ascii := entry_key e.
Definition mc_entry_value (e : mc_entry) : list ascii := entry_value e.

(** [memcpy(entry_key, key, entry->key_len)] *)
Definition mc_entry_set_key (a : addr) (k : list ascii) : M unit :=
  e <- load_entry a ;;
  store_entry a (entry_with_key (ztake (entry_key_len e) k) e).

Definition mc_entry_create (key_len value_len : Z) : M addr :=
  fun w =>
    let cas := u64 (w_cas w + 1) in
    let entry :=
      {| entry_key_len := u8 key_len; entry_value_len := u32 value_len;
         entry_ref_count := 1; entry_flags := 0; entry_cas := cas;
         entry_key := replicate (Z.to_nat (u8 key_len)) NUL;
         entry_value := replicate (Z.to_nat (u32 value_len)) NUL |} in
    Some (w_next w,
          {| w_table := w_table w;
             w_heap := <[w_next w := entry]> (w_heap w);
             w_next := S (w_next w); w_cas := cas;
             w_entry_list := w_entry_list w; w_posted := w_posted w |}).

(** [mm_free(entry)]; freeing [NULL] does nothing. *)
Definition mc_entry_destroy (entry : option addr) : M unit :=
  match entry with
  | None => ret tt
  | Some a =>
      fun w => match w_heap w !! a with
               | Some _ => Some (tt, with_heap (delete a (w_heap w)) w)
               | None => None
               end
  end.

Definition mc_entry_ref (a : addr) : M unit :=
  e <- load_entry a ;;
  let ref_count := u32 (entry_ref_count e + 1) in
  store_entry a (entry_with_ref_count ref_count e) ;;;
  if ref_count =? 0 then crash else ret tt.

Definition mc_entry_unref (a : addr) : M unit :=
  e <- load_entry a ;;
  let ref_count := u32 (entry_ref_count e - 1) in
  store_entry a (entry_with_ref_count ref_count e) ;;;
  if ref_count =? 0 then mc_entry_destroy (Some a) else ret tt.

Definition isdigit (c : Z) : bool := (48 <=? c) && (c <=? 57).

Fixpoint mc_entry_value_u64_loop (v : Z) (p : list ascii) : option Z :=
  match p with
  | [] => Some v
  | ch :: p' =>
      let c := char_val ch in
      if negb (isdigit c) then None
      else
        let vv := u64 (v * 10 + c - 48) in
        if vv <? v then None else mc_entry_value_u64_loop vv p'
  end.

Definition mc_entry_value_u64 (e : mc_entry) : option Z :=
  if entry_value_len e =? 0 then None
  else mc_entry_value_u64_loop 0 (ztake (entry_value_len e) (mc_entry_value e)).

(** The first loop of [mc_entry_create_u64]: the digits of [value], least
    significant first, as they land in [buffer].  A 64-bit value has at most
    twenty digits, which bounds the loop. *)
Fixpoint u64_digits (fuel : nat) (value : Z) : list ascii :=
  match fuel with
  | O => []
  | S fuel' =>
      let c := value mod 10 in
      let value' := value / 10 in
      chr (48 + c) :: (if value' =? 0 then [] else u64_digits fuel' value')
  end.

(** The second loop, [v[entry->value_len - value_len--] = buffer[value_len]]
    until [value_len] is zero. *)
Fixpoint copy_digits (value_len : nat) (entry_value_len : Z)
    (buffer v : list ascii) : list ascii :=
  match value_len with
  | O => v
  | S value_len' =>
      let i := entry_value_len - Z.of_nat value_len in
      copy_digits value_len' entry_value_len buffer
        (<[Z.to_nat i := nth value_len' buffer NUL]> v)
  end.

Definition mc_entry_create_u64 (key_len value : Z) : M addr :=
  let buffer := u64_digits 20 value in
  let value_len := length buffer in
  a <- mc_entry_create key_len (Z.of_nat value_len) ;;
  e <- load_entry a ;;
  store_entry a
    (entry_with_value (copy_digits value_len (entry_value_len e) buffer
                  (mc_entry_value e)) e) ;;;
  ret a.

(** ** Table operations *)

Definition modify_table (f : mc_table -> mc_table) : M unit :=
  fun w => Some (tt, with_table (f (w_table w)) w).

Definition set_table_field (m s u : Z) (st : bool) (n : Z)
    (tb : gmap Z (list addr)) : mc_table :=
  {| t_mask := m; t_size := s; t_used := u; t_striding := st;
     t_nentries := n; t_table := tb |}.

Definition with_used (u : Z) (t : mc_table) : mc_table :=
  set_table_field (t_mask t) (t_size t) u (t_striding t) (t_nentries t)
    (t_table t).

Definition with_striding (b : bool) (t : mc_table) : mc_table :=
  set_table_field (t_mask t) (t_size t) (t_used t) b (t_nentries t)
    (t_table t).

Definition with_nentries (n : Z) (t : mc_table) : mc_table :=
  set_table_field (t_mask t) (t_size t) (t_used t) (t_striding t) n
    (t_table t).

Definition with_buckets (tb : gmap Z (list addr)) (t : mc_table) : mc_table :=
  set_table_field (t_mask t) (t_size t) (t_used t) (t_striding t)
    (t_nentries t) tb.

Definition with_size_mask (s m : Z) (t : mc_table) : mc_table :=
  set_table_field m s (t_used t) (t_striding t) (t_nentries t) (t_table t).

(** [mc_table.table[index]] read and written; only the first [size] buckets
    are mapped. *)
Definition table_get (index : Z) : M (list addr) :=
  fun w =>
    let t := w_table w in
    if (0 <=? index) && (index <? t_size t)
    then Some (default [] (t_table t !! index), w)
    else None.

Definition table_set (index : Z) (chain : list addr) : M unit :=
  fun w =>
    let t := w_table w in
    if (0 <=? index) && (index <? t_size t)
    then Some (tt, with_table (with_buckets (<[index := chain]> (t_table t)) t) w)
    else None.

Definition mc_table_index (t : mc_table) (h : Z) : Z :=
  let mask := t_mask t in
  let index := Z.land h mask in
  if index >=? t_used t then Z.land index (Z.shiftr mask 1) else index.

Definition mc_table_key_index (t : mc_table) (key : list ascii)
    (key_len : Z) : Z :=
  mc_table_index t (mc_hash key (u8 key_len)).

Definition mc_table_is_full (t : mc_table) : bool :=
  if (t_size t =? MC_TABLE_SIZE_MAX) && (t_used t =? t_size t) then false
  else u32 (t_size t * 4) <? t_nentries t.

Definition mc_table_expand (size : Z) : M unit :=
  t <- (fun w => Some (w_table w, w)) ;;
  ASSERT (t_size t <? size) ;;;
  ASSERT (Z.land size (size - 1) =? 0) ;;;
  modify_table (with_size_mask (u32 size) (u32 (size - 1))).

(** The inner loop of [mc_table_stride]: the chain of one bucket is taken
    apart entry by entry, each pushed on the front of its new chain. *)
Fixpoint stride_chain (heap : gmap addr mc_entry) (mask source target : Z)
    (entry s_entries t_entries : list addr)
    : option (list addr * list addr) :=
  match entry with
  | [] => Some (s_entries, t_entries)
  | a :: next =>
      match heap !! a with
      | None => None
      | Some e =>
          let h := mc_hash (entry_key e) (entry_key_len e) in
          let index := Z.land h mask in
          if index =? source
          then stride_chain heap mask source target next (a :: s_entries) t_entries
          else if index =? target
          then stride_chain heap mask source target next s_entries (a :: t_entries)
          else None
      end
  end.

Fixpoint stride_loop (count : nat) (mask source target : Z) : M unit :=
  match count with
  | O => ret tt
  | S count' =>
      entry <- table_get source ;;
      w <- get_world ;;
      match stride_chain (w_heap w) mask source target entry [] [] with
      | None => crash
      | Some (s_entries, t_entries) =>
          table_set source s_entries ;;;
          table_set target t_entries ;;;
          stride_loop count' mask (u32 (source + 1)) (u32 (target + 1))
      end
  end.

Definition mc_table_stride : M unit :=
  w <- get_world ;;
  let t := w_table w in
  ASSERT (t_used t <? t_size t) ;;;
  ASSERT (t_size t / 2 <=? t_used t) ;;;
  ASSERT (u32 (t_used t + MC_TABLE_STRIDE) <=? t_size t) ;;;
  let mask := t_mask t in
  let target := t_used t in
  let source := u32 (target - t_size t / 2) in
  stride_loop (Z.to_nat MC_TABLE_STRIDE) mask source target ;;;
  modify_table (fun t => with_used (u32 (t_used t + MC_TABLE_STRIDE)) t).

(** [mm_core_post(false, mc_table_stride_routine, 0)] *)
Definition mc_table_start_striding : M unit :=
  fun w => Some (tt, with_posted (S (w_posted w)) w).

Definition mc_table_stride_routine : M unit :=
  w <- get_world ;;
  ASSERT (t_striding (w_table w)) ;;;
  (if t_used (w_table w) =? t_size (w_table w)
   then mc_table_expand (u32 (t_size (w_table w) * 2))
   else ret tt) ;;;
  mc_table_stride ;;;
  w' <- get_world ;;
  if mc_table_is_full (w_table w')
  then mc_table_start_striding
  else modify_table (with_striding false).

Definition key_matches (key : list ascii) (key_len : Z) (e : mc_entry) : bool :=
  (key_len =? entry_key_len e)
  && bool_decide (ztake key_len key = ztake key_len (mc_entry_key e)).

Fixpoint lookup_chain (heap : gmap addr mc_entry) (entry : list addr)
    (key : list ascii) (key_len : Z) : option (option addr) :=
  match entry with
  | [] => Some None
  | a :: next =>
      match heap !! a with
      | None => None
      | Some e =>
          if key_matches key key_len e then Some (Some a)
          else lookup_chain heap next key key_len
      end
  end.

Definition mc_table_lookup (index : Z) (key : list ascii) (key_len : Z)
    : M (option addr) :=
  entry <- table_get index ;;
  w <- get_world ;;
  match lookup_chain (w_heap w) entry key (u8 key_len) with
  | None => crash
  | Some r => ret r
  end.

(** The chain walk of [mc_table_remove]: the first entry with the key is
    unlinked, the chain without it is what the bucket holds afterwards. *)
Fixpoint remove_chain (heap : gmap addr mc_entry) (entry : list addr)
    (key : list ascii) (key_len : Z) : option (option addr * list addr) :=
  match entry with
  | [] => Some (None, [])
  | a :: next =>
      match heap !! a with
      | None => None
      | Some e =>
          if key_matches key key_len e then Some (Some a, next)
          else
            match remove_chain heap next key key_len with
            | None => None
            | Some (r, next') => Some (r, a :: next')
            end
      end
  end.

(** [mm_list_delete(&entry->link)] and [mm_list_append(&mc_entry_list, ..)] *)
Definition mm_list_delete (a : addr) : M unit :=
  fun w => Some (tt, with_entry_list
                       (filter (fun x => x <> a) (w_entry_list w)) w).

Definition mm_list_append (a : addr) : M unit :=
  fun w => Some (tt, with_entry_list (w_entry_list w ++ [a]) w).

Definition mc_table_remove (index : Z) (key : list ascii) (key_len : Z)
    : M (option addr) :=
  entry <- table_get index ;;
  w <- get_world ;;
  match remove_chain (w_heap w) entry key (u8 key_len) with
  | None => crash
  | Some (None, _) => ret None
  | Some (Some a, chain) =>
      mm_list_delete a ;;;
      table_set index chain ;;;
      modify_table (fun t => with_nentries (u64 (t_nentries t - 1)) t) ;;;
      ret (Some a)
  end.

Definition mc_table_insert (index : Z) (entry : addr) : M unit :=
  mm_list_append entry ;;;
  chain <- table_get index ;;
  table_set index (entry :: chain) ;;;
  modify_table (fun t => with_nentries (u64 (t_nentries t + 1)) t) ;;;
  w <- get_world ;;
  if negb (t_striding (w_table w)) && mc_table_is_full (w_table w)
  then modify_table (with_striding true) ;;; mc_table_start_striding
  else ret tt.

Definition mc_table_init : mc_table :=
  {| t_mask := MC_TABLE_SIZE_MIN - 1; t_size := MC_TABLE_SIZE_MIN;
     t_used := MC_TABLE_SIZE_MIN; t_striding := false; t_nentries := 0;
     t_table := ∅ |}.

Definition mc_world_init : mc_world :=
  {| w_table := mc_table_init; w_heap := ∅; w_next := 1%nat; w_cas := 0;
     w_entry_list := []; w_posted := 0%nat |}.

(** ** Command data *)

(** [struct mc_value]: the payload of a storage command, left in the receive
    buffer.  [value_seg] is the chain of segments from [seg] on (each with
    its [size] bytes of [data]), [value_start] the offset of [start] in the
    first of them. *)
Record mc_value := {
  value_seg : list (list ascii);
  value_start : Z;
  value_bytes : Z
}.

Record mc_set_params := {
  set_key : list ascii;
  set_flags : Z;
  set_exptime : Z;
  set_value : mc_value;
  set_noreply : bool
}.

Record mc_cas_params := {
  cas_key : list ascii;
  cas_flags : Z;
  cas_exptime : Z;
  cas_value : mc_value;
  cas_cas : Z;
  cas_noreply : bool
}.

Record mc_inc_params := {
  inc_key : list ascii;
  inc_value : Z;
  inc_noreply : bool
}.

Record mc_del_params := {
  del_key : list ascii;
  del_noreply : bool
}.

Record mc_touch_params := {
  touch_key : list ascii;
  touch_exptime : Z;
  touch_noreply : bool
}.

(** [union mc_params], tagged by the member last written; a [struct
    mc_string] is the [len] bytes it points to. *)
Inductive mc_params :=
  | params_unset
  | params_set (p : mc_set_params)
  | params_get (keys : list (list ascii))
  | params_cas (p : mc_cas_params)
  | params_inc (p : mc_inc_params)
  | params_del (p : mc_del_params)
  | params_touch (p : mc_touch_params).

Inductive mc_result_t :=
  | MC_RESULT_NONE
  | MC_RESULT_BLANK
  | MC_RESULT_REPLY
  | MC_RESULT_ENTRY
  | MC_RESULT_ENTRY_CAS
  | MC_RESULT_VALUE
  | MC_RESULT_QUIT.

Definition mc_result_t_eqb (a b : mc_result_t) : bool :=
  match a, b with
  | MC_RESULT_NONE, MC_RESULT_NONE | MC_RESULT_BLANK, MC_RESULT_BLANK
  | MC_RESULT_REPLY, MC_RESULT_REPLY | MC_RESULT_ENTRY, MC_RESULT_ENTRY
  | MC_RESULT_ENTRY_CAS, MC_RESULT_ENTRY_CAS
  | MC_RESULT_VALUE, MC_RESULT_VALUE | MC_RESULT_QUIT, MC_RESULT_QUIT => true
  | _, _ => false
  end.

(** [union mc_result], tagged by the member last written. *)
Inductive mc_result :=
  | result_unset
  | result_reply (s : list ascii)
  | result_entries (entries : list addr)
  | result_entry (entry : addr).

(** The command descriptors declared with [MC_DESC]. *)
Inductive mc_command_desc :=
  | mc_desc_get | mc_desc_gets | mc_desc_set | mc_desc_add
  | mc_desc_replace | mc_desc_append | mc_desc_prepend | mc_desc_cas
  | mc_desc_incr | mc_desc_decr | mc_desc_delete | mc_desc_touch
  | mc_desc_slabs | mc_desc_stats | mc_desc_flush_all | mc_desc_verbosity.

(** [struct mc_command]; [next] is the rest of the FIFO the command is in,
    [end_ptr] the number of input bytes consumed when it was parsed. *)
Record mc_command := {
  desc : option mc_command_desc;
  params : mc_params;
  end_ptr : option Z;
  result : mc_result;
  result_type : mc_result_t
}.

Definition mc_command_create : mc_command :=
  {| desc := None; params := params_unset; end_ptr := None;
     result := result_unset; result_type := MC_RESULT_NONE |}.

Definition with_result (t : mc_result_t) (r : mc_result) (c : mc_command)
    : mc_command :=
  {| desc := desc c; params := params c; end_ptr := end_ptr c;
     result := r; result_type := t |}.

Definition with_result_type (t : mc_result_t) (c : mc_command) : mc_command :=
  with_result t (result c) c.

Definition with_desc (d : option mc_command_desc) (c : mc_command)
    : mc_command :=
  {| desc := d; params := params c; end_ptr := end_ptr c;
     result := result c; result_type := result_type c |}.

Definition with_params (p : mc_params) (c : mc_command) : mc_command :=
  {| desc := desc c; params := p; end_ptr := end_ptr c;
     result := result c; result_type := result_type c |}.

Definition with_end_ptr (p : option Z) (c : mc_command) : mc_command :=
  {| desc := desc c; params := params c; end_ptr := p;
     result := result c; result_type := result_type c |}.

(** A string literal that ends in [\r\n]. *)
Definition line (s : string) : list ascii := bytes s ++ CRLF.

Definition mc_reply (command : mc_command) (str : list ascii) : mc_command :=
  with_result MC_RESULT_REPLY (result_reply str) command.

Definition mc_blank (command : mc_command) : mc_command :=
  with_result_type MC_RESULT_BLANK command.

(** ** Command processing *)

(** The copy loop of [mc_process_value]: [bytes] bytes from offset [src] of
    the first segment on, continued in the following segments. *)
Fixpoint copy_segments (seg : list (list ascii)) (src bytes : Z)
    : option (list ascii) :=
  match seg with
  | [] => None
  | data :: next =>
      let n := u32 (len data - src) in
      if bytes <=? n then Some (ztake bytes (zdrop src data))
      else
        match copy_segments next 0 (u32 (bytes - n)) with
        | None => None
        | Some rest' => Some (ztake n (zdrop src data) ++ rest')
        end
  end.

(** [memcpy(dst + off, src, |src|)] on a buffer held as a list. *)
Definition memcpy_at (dst : list ascii) (off : Z) (src : list ascii)
    : list ascii :=
  ztake off dst ++ src ++ zdrop (off + len src) dst.

Definition mc_process_value (entry : addr) (value : mc_value) (offset : Z)
    : M unit :=
  match value_seg value with
  | [] => crash
  | data :: _ =>
      ASSERT ((0 <=? value_start value) && (value_start value <=? len data)) ;;;
      match copy_segments (value_seg value) (value_start value)
              (value_bytes value) with
      | None => crash
      | Some copied =>
          e <- load_entry entry ;;
          store_entry entry
            (entry_with_value (memcpy_at (mc_entry_value e) offset copied) e)
      end
  end.

Definition set_entry_flags (a : addr) (f : Z) : M unit :=
  e <- load_entry a ;; store_entry a (entry_with_flags f e).

Definition key_index (key : list ascii) (key_len : Z) : M Z :=
  fun w => Some (mc_table_key_index (w_table w) key key_len, w).

(** The loop of [mc_process_get2] over the keys of the command. *)
Fixpoint process_get_keys (keys : list (list ascii)) (entries : list addr)
    : M (list addr) :=
  match keys with
  | [] => ret entries
  | key :: keys' =>
      let key_len := len key in
      index <- key_index key key_len ;;
      entry <- mc_table_lookup index key key_len ;;
      match entry with
      | Some a =>
          mc_entry_ref a ;;;
          process_get_keys keys' (entries ++ [a])
      | None => process_get_keys keys' entries
      end
  end.

Definition mc_process_get2 (command : mc_command) (res_type : mc_result_t)
    : M mc_command :=
  match params command with
  | params_get keys =>
      entries <- process_get_keys keys [] ;;
      ret (with_result res_type (result_entries entries) command)
  | _ => crash
  end.

Definition mc_process_get (command : mc_command) : M mc_command :=
  mc_process_get2 command MC_RESULT_ENTRY.

Definition mc_process_gets (command : mc_command) : M mc_command :=
  mc_process_get2 command MC_RESULT_ENTRY_CAS.

(** The part shared by the processors that store a fresh entry:
    [mc_entry_create], [mc_entry_set_key], [mc_process_value], the flags,
    [mc_table_insert]. *)
Definition store_new_entry (index : Z) (key : list ascii) (key_len : Z)
    (value : mc_value) (flags : Z) : M addr :=
  new_entry <- mc_entry_create key_len (value_bytes value) ;;
  mc_entry_set_key new_entry key ;;;
  mc_process_value new_entry value 0 ;;;
  set_entry_flags new_entry flags ;;;
  mc_table_insert index new_entry ;;;
  ret new_entry.

Definition non_null (p : option addr) : bool :=
  match p with Some _ => true | None => false end.

Definition mc_process_set (command : mc_command) : M mc_command :=
  match params command with
  | params_set p =>
      let key := set_key p in
      let key_len := len key in
      index <- key_index key key_len ;;
      old_entry <- mc_table_remove index key key_len ;;
      (match old_entry with
       | Some a => mc_entry_unref a
       | None => ret tt
       end) ;;;
      new_entry <- store_new_entry index key key_len (set_value p) (set_flags p) ;;
      mc_entry_ref new_entry ;;;
      ret (if set_noreply p then mc_blank command
           else mc_reply command (line "STORED"))
  | _ => crash
  end.

Definition mc_process_add (command : mc_command) : M mc_command :=
  match params command with
  | params_set p =>
      let key := set_key p in
      let key_len := len key in
      index <- key_index key key_len ;;
      old_entry <- mc_table_lookup index key key_len ;;
      new_entry <-
        (match old_entry with
         | None =>
             a <- store_new_entry index key key_len (set_value p) (set_flags p) ;;
             ret (Some a)
         | Some _ => ret None
         end) ;;
      ret (if set_noreply p then mc_blank command
           else if non_null new_entry then mc_reply command (line "STORED")
           else mc_reply command (line "NOT_STORED"))
  | _ => crash
  end.

Definition mc_process_replace (command : mc_command) : M mc_command :=
  match params command with
  | params_set p =>
      let key := set_key p in
      let key_len := len key in
      index <- key_index key key_len ;;
      old_entry <- mc_table_remove index key key_len ;;
      new_entry <-
        (match old_entry with
         | Some old =>
             mc_entry_unref old ;;;
             a <- store_new_entry index key key_len (set_value p) (set_flags p) ;;
             ret (Some a)
         | None => ret None
         end) ;;
      ret (if set_noreply p then mc_blank command
           else if non_null new_entry then mc_reply command (line "STORED")
           else mc_reply command (line "NOT_STORED"))
  | _ => crash
  end.

Definition mc_process_cas (command : mc_command) : M mc_command :=
  match params command with
  | params_cas p =>
      let key := cas_key p in
      let key_len := len key in
      index <- key_index key key_len ;;
      old_entry <- mc_table_lookup index key key_len ;;
      new_entry <-
        (match old_entry with
         | Some old =>
             e <- load_entry old ;;
             if entry_cas e =? cas_cas p then
               old_entry2 <- mc_table_remove index key key_len ;;
               ASSERT (bool_decide (old_entry = old_entry2)) ;;;
               mc_entry_unref old ;;;
               a <- store_new_entry index key key_len (cas_value p) (cas_flags p) ;;
               ret (Some a)
             else ret None
         | None => ret None
         end) ;;
      ret (if cas_noreply p then mc_blank command
           else if non_null new_entry then mc_reply command (line "STORED")
           else if non_null old_entry then mc_reply command (line "EXISTS")
           else mc_reply command (line "NOT_FOUND"))
  | _ => crash
  end.

(** [mc_process_append] and [mc_process_prepend] build the new value from
    the old one and the payload; [front] tells which comes first. *)
Definition process_concat (front : bool) (command : mc_command) : M mc_command :=
  match params command with
  | params_set p =>
      let key := set_key p in
      let key_len := len key in
      let value := set_value p in
      index <- key_index key key_len ;;
      old_entry <- mc_table_remove index key key_len ;;
      new_entry <-
        (match old_entry with
         | Some old =>
             e <- load_entry old ;;
             let value_len := u32 (entry_value_len e + value_bytes value) in
             let old_value := ztake (entry_value_len e) (mc_entry_value e) in
             a <- mc_entry_create key_len value_len ;;
             mc_entry_set_key a key ;;;
             (if front then
                mc_process_value a value 0 ;;;
                n <- load_entry a ;;
                store_entry a
                  (entry_with_value
                     (memcpy_at (mc_entry_value n) (value_bytes value) old_value) n)
              else
                n <- load_entry a ;;
                store_entry a
                  (entry_with_value (memcpy_at (mc_entry_value n) 0 old_value) n) ;;;
                mc_process_value a value (entry_value_len e)) ;;;
             set_entry_flags a (entry_flags e) ;;;
             mc_table_insert index a ;;;
             mc_entry_unref old ;;;
             ret (Some a)
         | None => ret None
         end) ;;
      ret (if set_noreply p then mc_blank command
           else if non_null new_entry then mc_reply command (line "STORED")
           else mc_reply command (line "NOT_STORED"))
  | _ => crash
  end.

Definition mc_process_append : mc_command -> M mc_command :=
  process_concat false.
Definition mc_process_prepend : mc_command -> M mc_command :=
  process_concat true.

Definition non_numeric_reply : list ascii :=
  line "CLIENT_ERROR cannot increment or decrement non-numeric value".

(** [mc_process_incr] and [mc_process_decr] differ in the new value only. *)
Definition process_arith (compute : Z -> Z -> Z) (command : mc_command)
    : M mc_command :=
  match params command with
  | params_inc p =>
      let key := inc_key p in
      let key_len := len key in
      index <- key_index key key_len ;;
      old_entry <- mc_table_lookup index key key_len ;;
      new_entry <-
        (match old_entry with
         | Some old =>
             e <- load_entry old ;;
             match mc_entry_value_u64 e with
             | Some value =>
                 let value := compute value (inc_value p) in
                 a <- mc_entry_create_u64 key_len value ;;
                 mc_entry_set_key a key ;;;
                 set_entry_flags a (entry_flags e) ;;;
                 old_entry2 <- mc_table_remove index key key_len ;;
                 ASSERT (bool_decide (old_entry = old_entry2)) ;;;
                 mc_entry_unref old ;;;
                 mc_table_insert index a ;;;
                 ret (Some a)
             | None => ret None
             end
         | None => ret None
         end) ;;
      if inc_noreply p then ret (mc_blank command)
      else
        match new_entry with
        | Some a =>
            mc_entry_ref a ;;;
            ret (with_result MC_RESULT_VALUE (result_entry a) command)
        | None =>
            ret (if non_null old_entry then mc_reply command non_numeric_reply
                 else mc_reply command (line "NOT_FOUND"))
        end
  | _ => crash
  end.

(** [value += command->params.inc.value] *)
Definition incr_value (value delta : Z) : Z := u64 (value + delta).

(** [if (value > delta) value -= delta; else value = 0;] *)
Definition decr_value (value delta : Z) : Z :=
  if delta <? value then u64 (value - delta) else 0.

Definition mc_process_incr : mc_command -> M mc_command :=
  process_arith incr_value.
Definition mc_process_decr : mc_command -> M mc_command :=
  process_arith decr_value.

Definition mc_process_delete (command : mc_command) : M mc_command :=
  match params command with
  | params_del p =>
      let key := del_key p in
      let key_len := len key in
      index <- key_index key key_len ;;
      old_entry <- mc_table_remove index key key_len ;;
      let command' :=
        if del_noreply p then mc_blank command
        else if non_null old_entry then mc_reply command (line "DELETED")
        else mc_reply command (line "NOT_FOUND") in
      mc_entry_destroy old_entry ;;;
      ret command'
  | _ => crash
  end.

Definition not_implemented (command : mc_command) : M mc_command :=
  ret (mc_reply command (line "SERVER_ERROR not implemented")).

Definition mc_process_dummy (command : mc_command) : M mc_command :=
  ret command.

(** The [process] member of a descriptor. *)
Definition desc_process (d : mc_command_desc) : mc_command -> M mc_command :=
  match d with
  | mc_desc_get => mc_process_get
  | mc_desc_gets => mc_process_gets
  | mc_desc_set => mc_process_set
  | mc_desc_add => mc_process_add
  | mc_desc_replace => mc_process_replace
  | mc_desc_append => mc_process_append
  | mc_desc_prepend => mc_process_prepend
  | mc_desc_cas => mc_process_cas
  | mc_desc_incr => mc_process_incr
  | mc_desc_decr => mc_process_decr
  | mc_desc_delete => mc_process_delete
  | mc_desc_touch | mc_desc_slabs | mc_desc_stats | mc_desc_flush_all =>
      not_implemented
  | mc_desc_verbosity => mc_process_dummy
  end.

(** ** Connection state and transmission *)

(** What the transmit buffer holds: bytes copied into it, or a splice, the
    value of an entry lent to the buffer until the bytes are written. *)
Inductive chunk :=
  | chunk_data (data : list ascii)
  | chunk_splice (entry : addr) (value_len : Z).

(** [struct mc_state]: the command FIFO from [command_head] to
    [command_tail], the transmit buffer, the quit flag; of the socket, the
    bytes written to it so far, whether it was closed and how often a writer
    was asked for; of the receive buffer, how far it was released. *)
Record mc_state := {
  command_head : list mc_command;
  tbuf : list chunk;
  quit : bool;
  sock_out : list ascii;
  sock_closed : bool;
  sock_writers : nat;
  rbuf_released : option Z
}.

Definition mc_create : mc_state :=
  {| command_head := []; tbuf := []; quit := false; sock_out := [];
     sock_closed := false; sock_writers := 0%nat; rbuf_released := None |}.

Definition with_commands (l : list mc_command) (s : mc_state) : mc_state :=
  {| command_head := l; tbuf := tbuf s; quit := quit s;
     sock_out := sock_out s; sock_closed := sock_closed s;
     sock_writers := sock_writers s; rbuf_released := rbuf_released s |}.

Definition with_tbuf (b : list chunk) (s : mc_state) : mc_state :=
  {| command_head := command_head s; tbuf := b; quit := quit s;
     sock_out := sock_out s; sock_closed := sock_closed s;
     sock_writers := sock_writers s; rbuf_released := rbuf_released s |}.

Definition with_quit (q : bool) (s : mc_state) : mc_state :=
  {| command_head := command_head s; tbuf := tbuf s; quit := q;
     sock_out := sock_out s; sock_closed := sock_closed s;
     sock_writers := sock_writers s; rbuf_released := rbuf_released s |}.

Definition with_sock (out : list ascii) (closed : bool) (writers : nat)
    (s : mc_state) : mc_state :=
  {| command_head := command_head s; tbuf := tbuf s; quit := quit s;
     sock_out := out; sock_closed := closed; sock_writers := writers;
     rbuf_released := rbuf_released s |}.

Definition with_released (p : option Z) (s : mc_state) : mc_state :=
  {| command_head := command_head s; tbuf := tbuf s; quit := quit s;
     sock_out := sock_out s; sock_closed := sock_closed s;
     sock_writers := sock_writers s; rbuf_released := p |}.

Definition mc_queue_command (state : mc_state) (command : mc_command)
    : mc_state :=
  with_commands (command_head state ++ [command]) state.

Definition mm_net_spawn_writer (state : mc_state) : mc_state :=
  with_sock (sock_out state) (sock_closed state) (S (sock_writers state)) state.

Definition mm_net_close (state : mc_state) : mc_state :=
  with_sock (sock_out state) true (sock_writers state) state.

Definition mc_process_command (state : mc_state) (command : mc_command)
    : M mc_state :=
  command' <-
    (match desc command with
     | Some d =>
         if mc_result_t_eqb (result_type command) MC_RESULT_NONE
         then desc_process d command
         else ret command
     | None => ret command
     end) ;;
  ret (mm_net_spawn_writer (mc_queue_command state command')).

(** [printf]'s [%u] and [%llu], and [%.*s], which stops at a NUL. *)
Definition fmt_u (n : Z) : list ascii :=
  list_ascii_of_string (NilZero.string_of_uint (N.to_uint (Z.to_N n))).

Fixpoint until_nul (s : list ascii) : list ascii :=
  match s with
  | [] => []
  | c :: s' => if Ascii.eqb c NUL then [] else c :: until_nul s'
  end.

Definition fmt_s (precision : Z) (s : list ascii) : list ascii :=
  until_nul (ztake precision s).

Definition mm_buffer_append (state : mc_state) (data : list ascii) : mc_state :=
  with_tbuf (tbuf state ++ [chunk_data data]) state.

Definition mm_buffer_splice (state : mc_state) (entry : addr) (value_len : Z)
    : mc_state :=
  with_tbuf (tbuf state ++ [chunk_splice entry value_len]) state.

(** The loop of [mc_transmit_buffer] over the entries of a result. *)
Fixpoint transmit_entries (with_cas : bool) (state : mc_state)
    (entries : list addr) : M mc_state :=
  match entries with
  | [] => ret state
  | entry :: entries' =>
      e <- load_entry entry ;;
      let key := mc_entry_key e in
      let key_len := entry_key_len e in
      let value_len := entry_value_len e in
      let header :=
        bytes "VALUE " ++ fmt_s key_len key ++ [SP] ++ fmt_u (entry_flags e)
        ++ [SP] ++ fmt_u value_len
        ++ (if with_cas then [SP] ++ fmt_u (entry_cas e) else [])
        ++ CRLF in
      let state := mm_buffer_append state header in
      mc_entry_ref entry ;;;
      let state := mm_buffer_splice state entry value_len in
      let state := mm_buffer_append state CRLF in
      transmit_entries with_cas state entries'
  end.

Definition mc_transmit_buffer (state : mc_state) (command : mc_command)
    : M mc_state :=
  match result_type command, result command with
  | MC_RESULT_BLANK, _ => ret state
  | MC_RESULT_REPLY, result_reply str => ret (mm_buffer_append state str)
  | MC_RESULT_ENTRY, result_entries entries =>
      state <- transmit_entries false state entries ;;
      ret (mm_buffer_append state (line "END"))
  | MC_RESULT_ENTRY_CAS, result_entries entries =>
      state <- transmit_entries true state entries ;;
      ret (mm_buffer_append state (line "END"))
  | MC_RESULT_VALUE, result_entry entry =>
      e <- load_entry entry ;;
      mc_entry_ref entry ;;;
      let state := mm_buffer_splice state entry (entry_value_len e) in
      ret (mm_buffer_append state (line "END"))
  | MC_RESULT_QUIT, _ => ret (mm_net_close (with_quit true state))
  | _, _ => crash
  end.

Definition mc_transmit_unref (entry : addr) : M unit := mc_entry_unref entry.

(** Modelled from the spec: [mm_net_writebuf] followed by
    [mm_buffer_rectify], which are not part of the sources at hand.  The
    writer "drains the FIFO into the egress buffer and writes to the
    socket", a splice lends "the entry's value bytes" to the buffer "with a
    release callback that unrefs the entry".  The write is taken to accept
    the whole buffer; on a closed socket it writes nothing. *)
Fixpoint mm_net_writebuf (heap : gmap addr mc_entry) (chunks : list chunk)
    : option (list ascii) :=
  match chunks with
  | [] => Some []
  | chunk_data data :: chunks' =>
      match mm_net_writebuf heap chunks' with
      | Some out => Some (data ++ out)
      | None => None
      end
  | chunk_splice entry value_len :: chunks' =>
      match heap !! entry, mm_net_writebuf heap chunks' with
      | Some e, Some out => Some (ztake value_len (mc_entry_value e) ++ out)
      | _, _ => None
      end
  end.

Fixpoint mm_buffer_rectify (chunks : list chunk) : M unit :=
  match chunks with
  | [] => ret tt
  | chunk_data _ :: chunks' => mm_buffer_rectify chunks'
  | chunk_splice entry _ :: chunks' =>
      mc_transmit_unref entry ;;; mm_buffer_rectify chunks'
  end.

Definition mc_transmit (state : mc_state) : M mc_state :=
  if sock_closed state then ret state
  else
    w <- get_world ;;
    match mm_net_writebuf (w_heap w) (tbuf state) with
    | None => crash
    | Some written =>
        mm_buffer_rectify (tbuf state) ;;;
        ret (with_tbuf [] (with_sock (sock_out state ++ written)
                             (sock_closed state) (sock_writers state) state))
    end.

(** ** Releasing commands *)

Fixpoint unref_all (entries : list addr) : M unit :=
  match entries with
  | [] => ret tt
  | a :: entries' => mc_entry_unref a ;;; unref_all entries'
  end.

Definition mc_destroy_dummy (command : mc_command) : M unit := ret tt.

Definition mc_destroy_get (command : mc_command) : M unit :=
  match result_type command, result command with
  | MC_RESULT_ENTRY, result_entries entries => unref_all entries
  | MC_RESULT_ENTRY, _ => crash
  | _, _ => ret tt
  end.

Definition mc_destroy_gets (command : mc_command) : M unit :=
  match result_type command, result command with
  | MC_RESULT_ENTRY_CAS, result_entries entries => unref_all entries
  | MC_RESULT_ENTRY_CAS, _ => crash
  | _, _ => ret tt
  end.

Definition mc_destroy_incr (command : mc_command) : M unit :=
  match result_type command, result command with
  | MC_RESULT_VALUE, result_entry entry => mc_entry_unref entry
  | MC_RESULT_VALUE, _ => crash
  | _, _ => ret tt
  end.

(** The [destroy] member of a descriptor. *)
Definition desc_destroy (d : mc_command_desc) : mc_command -> M unit :=
  match d with
  | mc_desc_get => mc_destroy_get
  | mc_desc_gets => mc_destroy_gets
  | mc_desc_incr | mc_desc_decr => mc_destroy_incr
  | _ => mc_destroy_dummy
  end.

Definition mc_command_destroy (command : mc_command) : M unit :=
  match desc command with
  | Some d => desc_destroy d command
  | None => ret tt
  end.

(** ** The writer *)

(** The transmit loop of [mc_writer_routine].  [last] is the command at
    position [n] of the FIFO, [rest] the commands behind it; the result is
    the state and the position of [last] when the loop is left. *)
Fixpoint writer_loop (state : mc_state) (last : mc_command)
    (rest : list mc_command) (n : nat) : M (mc_state * nat) :=
  if quit state then ret (state, n)
  else
    state' <- mc_transmit_buffer state last ;;
    match rest with
    | [] => ret (state', n)
    | next :: rest' =>
        if mc_result_t_eqb (result_type next) MC_RESULT_NONE
        then ret (state', n)
        else writer_loop state' next rest' (S n)
    end.

(** The release loop: commands are taken from the head and destroyed until
    [last] has been. *)
Fixpoint release_commands (count : nat) (state : mc_state) : M mc_state :=
  match count with
  | O => ret state
  | S count' =>
      match command_head state with
      | [] => crash
      | head :: next =>
          mc_command_destroy head ;;;
          release_commands count' (with_commands next state)
      end
  end.

Definition mc_release_buffers (state : mc_state) (ptr : option Z) : mc_state :=
  with_released ptr state.

Definition mc_writer_routine (state : mc_state) : M mc_state :=
  match command_head state with
  | [] => ret state
  | last :: rest =>
      if mc_result_t_eqb (result_type last) MC_RESULT_NONE then ret state
      else
        r <- writer_loop state last rest 0 ;;
        let '(state, n) := r in
        state <- mc_transmit state ;;
        let last_end_ptr :=
          match nth_error (command_head state) n with
          | Some c => end_ptr c
          | None => None
          end in
        let state := mc_release_buffers state last_end_ptr in
        release_commands (S n) state
  end.

(** ** The placement invariant of the table *)

Definition bucket (w : mc_world) (b : Z) : list addr :=
  default [] (t_table (w_table w) !! b).

Definition entry_hash (e : mc_entry) : Z :=
  mc_hash (entry_key e) (entry_key_len e).

(** Every chained entry is live and sits in the bucket that [mc_table_index]
    computes for its key when the watermark [used] is [u]. *)
Definition placed (w : mc_world) (u : Z) : Prop :=
  forall b a, a ∈ bucket w b ->
    exists e, w_heap w !! a = Some e /\
              mc_table_index (with_used u (w_table w)) (entry_hash e) = b.

Record table_inv (w : mc_world) : Prop := {
  inv_size : exists k, 12 <= k <= 29 /\ t_size (w_table w) = 2 ^ k;
  inv_mask : t_mask (w_table w) = t_size (w_table w) - 1;
  inv_used : t_size (w_table w) / 2 <= t_used (w_table w) <= t_size (w_table w);
  inv_stride : t_used (w_table w) mod MC_TABLE_STRIDE = 0;
  inv_placed : placed w (t_used (w_table w));
  inv_keys : forall a e, w_heap w !! a = Some e -> 0 <= entry_key_len e < 256
}.

(** An entry is stored when some bucket chain holds it. *)
Definition stored (w : mc_world) (a : addr) : Prop :=
  exists b, a ∈ bucket w b.

(** The table invariant together with what the allocator and the chains
    guarantee: an entry is chained at most once, and addresses at or above
    [w_next] have not been handed out. *)
Record world_inv (w : mc_world) : Prop := {
  winv_table : table_inv w;
  winv_nodup : forall b, NoDup (bucket w b);
  winv_fresh : forall a, is_Some (w_heap w !! a) -> (a < w_next w)%nat
}.

(** [w'] has the table geometry and the counters of [w]. *)
Definition same_geometry (w w' : mc_world) : Prop :=
  t_mask (w_table w') = t_mask (w_table w) /\
  t_size (w_table w') = t_size (w_table w) /\
  t_used (w_table w') = t_used (w_table w).

(** The payload a [struct mc_value] denotes: [value_bytes] bytes of the
    receive buffer from offset [value_start] of the first segment on. *)
Definition value_payload (value : mc_value) : list ascii :=
  ztake (value_bytes value) (zdrop (value_start value) (concat (value_seg value))).

Record value_wf (value : mc_value) : Prop := {
  vwf_start : 0 <= value_start value <= len (hd [] (value_seg value));
  vwf_seg : value_seg value <> [];
  vwf_bytes : 0 <= value_bytes value < 2 ^ 32;
  vwf_room : value_start value + value_bytes value <= len (concat (value_seg value));
  vwf_sizes : Forall (fun data => len data < 2 ^ 32) (value_seg value)
}.

(** The entry [store_new_entry] leaves in the heap. *)
Definition new_entry (key : list ascii) (key_len : Z) (value : mc_value)
    (flags cas : Z) : mc_entry :=
  {| entry_key_len := u8 key_len;
     entry_value_len := u32 (value_bytes value);
     entry_ref_count := 1;
     entry_flags := flags;
     entry_cas := cas;
     entry_key := ztake (u8 key_len) key;
     entry_value := value_payload value |}.

(** Commands as the parser hands them to [mc_process_command]. *)
Definition parsed (d : mc_command_desc) (p : mc_params) : mc_command :=
  with_params p (with_desc (Some d) mc_command_create).

Definition set_command (key : list ascii) (flags exptime : Z)
    (value : mc_value) (noreply : bool) : mc_command :=
  parsed mc_desc_set
    (params_set {| set_key := key; set_flags := flags; set_exptime := exptime;
                   set_value := value; set_noreply := noreply |}).

Definition get_command (keys : list (list ascii)) : mc_command :=
  parsed mc_desc_get (params_get keys).

Definition cas_command (key : list ascii) (flags exptime : Z)
    (value : mc_value) (stamp : Z) (noreply : bool) : mc_command :=
  parsed mc_desc_cas
    (params_cas {| cas_key := key; cas_flags := flags; cas_exptime := exptime;
                   cas_value := value; cas_cas := stamp;
                   cas_noreply := noreply |}).

Definition incr_command (key : list ascii) (delta : Z) (noreply : bool)
    : mc_command :=
  parsed mc_desc_incr
    (params_inc {| inc_key := key; inc_value := delta; inc_noreply := noreply |}).

Definition decr_command (key : list ascii) (delta : Z) (noreply : bool)
    : mc_command :=
  parsed mc_desc_decr
    (params_inc {| inc_key := key; inc_value := delta; inc_noreply := noreply |}).

Definition delete_command (key : list ascii) (noreply : bool) : mc_command :=
  parsed mc_desc_delete
    (params_del {| del_key := key; del_noreply := noreply |}).

(** A key of the protocol: at most 250 bytes, none of them whitespace or a
    control character. *)
Definition key_char (c : ascii) : bool :=
  (32 <? byte_val c) && negb (byte_val c =? 127).

Definition valid_key (key : list ascii) : Prop :=
  len key <= 250 /\ forallb key_char key = true.

(** A connection with nothing queued or buffered, still open. *)
Definition idle (state : mc_state) : Prop :=
  command_head state = [] /\ tbuf state = [] /\ quit state = false /\
  sock_closed state = false.

Definition heap_at (w : mc_world) (a : addr) (e : mc_entry) : Prop :=
  w_heap w !! a = Some e.

(** Stamps handed out so far are at most the counter of
    [mc_entry_create]. *)
Definition stamps_inv (w : mc_world) : Prop :=
  0 <= w_cas w < 2 ^ 64 /\
  forall a e, w_heap w !! a = Some e -> 0 <= entry_cas e <= w_cas w.

(** The entry the table holds for a key, as [mc_table_lookup] finds it. *)
Definition current_entry (w : mc_world) (key : list ascii)
    : option (option addr) :=
  lookup_chain (w_heap w)
    (bucket w (mc_table_key_index (w_table w) key (len key)))
    key (u8 (len key)).

Definition reply_of (c : mc_command) : option (list ascii) :=
  match result_type c, result c with
  | MC_RESULT_REPLY, result_reply s => Some s
  | _, _ => None
  end.

(** ** Decimal numerals

    What it means for a byte string to be the decimal representation of a
    number, stated without reference to the code: every byte is a digit and
    the digits, most significant first, have the number as their value.  The
    representation is canonical when it has no superfluous leading zero. *)
Definition is_digit (c : ascii) : bool :=
  (48 <=? byte_val c) && (byte_val c <=? 57).

Fixpoint decimal_value_from (acc : Z) (s : list ascii) : Z :=
  match s with
  | [] => acc
  | c :: s' => decimal_value_from (acc * 10 + (byte_val c - 48)) s'
  end.

Definition decimal_value (s : list ascii) : Z := decimal_value_from 0 s.

Definition decimal_of (s : list ascii) (v : Z) : Prop :=
  s <> [] /\ forallb is_digit s = true /\ decimal_value s = v.

Definition canonical (s : list ascii) : Prop :=
  s = bytes "0" \/ hd "0"%char s <> "0"%char.

(** An entry whose value is a decimal numeral for [v]. *)
Definition entry_decimal (e : mc_entry) (v : Z) : Prop :=
  entry_value_len e = len (entry_value e) /\ decimal_of (entry_value e) v.

(** ** The multi-producer multi-consumer ring of [base/ring.h] *)

Module Ring.

(** [struct mm_ring_node] *)
Record mm_ring_node := {
  data : Z;
  lock : Z
}.

(** [struct mm_ring_mpmc] with the [head], [tail] and [mask] of its
    [struct mm_ring_base]; [ring] is the node array. *)
Record mm_ring_mpmc := {
  head : Z;
  tail : Z;
  mask : Z;
  ring : list mm_ring_node
}.

(** The number of ring slots: [ring[x & mask]] reaches the slots [0] to
    [mask]. *)
Definition capacity (r : mm_ring_mpmc) : Z := mask r + 1.

(** A memory location of the ring and what an operation does to it, in
    program order. *)
Inductive location :=
  | loc_head
  | loc_tail
  | loc_data (slot : Z)
  | loc_lock (slot : Z).

Inductive event :=
  | ev_load (l : location) (v : Z)
  | ev_store (l : location) (v : Z)
  | ev_cas (l : location) (expected desired : Z) (old : Z)
  | ev_load_fence
  | ev_store_fence
  | ev_fence.

(** Ring operations: the ring is threaded through, every access is logged,
    an access outside the node array crashes. *)
Definition R (A : Type) : Type :=
  mm_ring_mpmc * list event -> option (A * (mm_ring_mpmc * list event)).

Definition rret {A} (a : A) : R A := fun s => Some (a, s).
Definition rbind {A B} (m : R A) (f : A -> R B) : R B :=
  fun s => match m s with Some (a, s') => f a s' | None => None end.

Definition read_loc (r : mm_ring_mpmc) (l : location) : option Z :=
  match l with
  | loc_head => Some (head r)
  | loc_tail => Some (tail r)
  | loc_data i => data <$> ring r !! Z.to_nat i
  | loc_lock i => lock <$> ring r !! Z.to_nat i
  end.

Definition write_loc (r : mm_ring_mpmc) (l : location) (v : Z)
    : option mm_ring_mpmc :=
  match l with
  | loc_head => Some {| head := v; tail := tail r; mask := mask r; ring := ring r |}
  | loc_tail => Some {| head := head r; tail := v; mask := mask r; ring := ring r |}
  | loc_data i =>
      match ring r !! Z.to_nat i with
      | Some n =>
          Some {| head := head r; tail := tail r; mask := mask r;
                  ring := <[Z.to_nat i := {| data := v; lock := lock n |}]> (ring r) |}
      | None => None
      end
  | loc_lock i =>
      match ring r !! Z.to_nat i with
      | Some n =>
          Some {| head := head r; tail := tail r; mask := mask r;
                  ring := <[Z.to_nat i := {| data := data n; lock := v |}]> (ring r) |}
      | None => None
      end
  end.

Definition mm_memory_load (l : location) : R Z :=
  fun '(r, log) =>
    match read_loc r l with
    | Some v => Some (v, (r, log ++ [ev_load l v]))
    | None => None
    end.

Definition mm_memory_store (l : location) (v : Z) : R unit :=
  fun '(r, log) =>
    match write_loc r l v with
    | Some r' => Some (tt, (r', log ++ [ev_store l v]))
    | None => None
    end.

(** [mm_atomic_uintptr_cas(p, expected, desired)]: the old value is returned,
    [desired] is stored when the old value is [expected]. *)
Definition mm_atomic_uintptr_cas (l : location) (expected desired : Z) : R Z :=
  fun '(r, log) =>
    match read_loc r l with
    | Some old =>
        let log' := log ++ [ev_cas l expected desired old] in
        if old =? expected then
          match write_loc r l desired with
          | Some r' => Some (old, (r', log'))
          | None => None
          end
        else Some (old, (r, log'))
    | None => None
    end.

Definition fence (e : event) : R unit :=
  fun '(r, log) => Some (tt, (r, log ++ [e])).
Definition mm_memory_load_fence : R unit := fence ev_load_fence.
Definition mm_memory_store_fence : R unit := fence ev_store_fence.
Definition mm_memory_fence : R unit := fence ev_fence.

Definition get_mask : R Z := fun '(r, log) => Some (mask r, (r, log)).

Local Notation "x <~ m ; k" := (rbind m (fun x => k))
  (at level 100, m at next level, right associativity).
Local Notation "m >> k" := (rbind m (fun _ => k))
  (at level 100, right associativity).

(** Multi-producer enqueue operation without wait. *)
Definition mm_ring_mpmc_put (d : Z) : R bool :=
  tail <~ mm_memory_load loc_tail ;
  mask <~ get_mask ;
  let node := Z.land tail mask in
  mm_memory_load_fence >>
  l <~ mm_memory_load (loc_lock node) ;
  if negb (l =? tail) then rret false
  else
    old <~ mm_atomic_uintptr_cas loc_tail tail (u64 (tail + 1)) ;
    if negb (old =? tail) then rret false
    else
      mm_memory_store (loc_data node) d >>
      mm_memory_store_fence >>
      mm_memory_store (loc_lock node) (u64 (tail + 1)) >>
      rret true.

(** Multi-consumer dequeue operation without wait; the value read is
    returned next to the success flag. *)
Definition mm_ring_mpmc_get : R (bool * Z) :=
  head <~ mm_memory_load loc_head ;
  mask <~ get_mask ;
  let node := Z.land head mask in
  mm_memory_load_fence >>
  l <~ mm_memory_load (loc_lock node) ;
  if negb (l =? u64 (head + 1)) then rret (false, 0)
  else
    old <~ mm_atomic_uintptr_cas loc_head head (u64 (head + 1)) ;
    if negb (old =? head) then rret (false, 0)
    else
      d <~ mm_memory_load (loc_data node) ;
      mm_memory_fence >>
      mm_memory_store (loc_lock node) (u64 (head + 1 + mask)) >>
      rret (true, d).

(** A ring as [mm_ring_mpmc_prepare] leaves it and the operations keep it:
    [size] slots for a power of two [size], [mask = size - 1], counters in
    range. *)
Record ring_wf (r : mm_ring_mpmc) : Prop := {
  wf_mask : exists k, 0 <= k < 64 /\ mask r = 2 ^ k - 1;
  wf_slots : len (ring r) = mask r + 1;
  wf_head : 0 <= head r < 2 ^ 64;
  wf_tail : 0 <= tail r < 2 ^ 64
}.

End Ring.

(** * The partitioned table ([memcache/table.c])

    The later table keeps its counters per partition.  Only the decision to
    start striding is modelled: the counters it reads, the flag it sets and
    the number of stride routines it has posted. *)
Module Tpart.

Record mc_tpart := {
  nbuckets : Z;         (* uint32_t *)
  nentries : Z;         (* uint32_t *)
  nentries_free : Z;    (* uint32_t *)
  nentries_void : Z;    (* uint32_t *)
  striding : bool;
  posted : nat          (* [mm_core_post]s of the stride routine *)
}.

Definition mc_table_check_size (nbuckets_max : Z) (part : mc_tpart) : bool :=
  let nb := nbuckets part in
  let ne := nentries part in
  let ne := u32 (ne - nentries_free part) in
  let ne := u32 (ne - nentries_void part) in
  (u32 (nb * 2) <? ne) && (nb <? nbuckets_max).

Definition mc_table_start_striding (part : mc_tpart) : mc_tpart :=
  {| nbuckets := nbuckets part; nentries := nentries part;
     nentries_free := nentries_free part; nentries_void := nentries_void part;
     striding := striding part; posted := S (posted part) |}.

Definition set_striding (b : bool) (part : mc_tpart) : mc_tpart :=
  {| nbuckets := nbuckets part; nentries := nentries part;
     nentries_free := nentries_free part; nentries_void := nentries_void part;
     striding := b; posted := posted part |}.

Definition mc_table_reserve_entries (nbuckets_max : Z) (part : mc_tpart)
    : mc_tpart :=
  if negb (striding part) && mc_table_check_size nbuckets_max part
  then mc_table_start_striding (set_striding true part)
  else part.

(** The entries of a partition that are in use. *)
Definition entries_in_use (part : mc_tpart) : Z :=
  nentries part - nentries_free part - nentries_void part.

Record tpart_wf (nbuckets_max : Z) (part : mc_tpart) : Prop := {
  twf_max : 0 < nbuckets_max <= 2 ^ 31;
  twf_buckets : 0 <= nbuckets part <= nbuckets_max;
  twf_entries : 0 <= entries_in_use part < 2 ^ 32;
}.

End Tpart.

(** An operation taking the table from [w] to [w'] has started striding:
    the flag went up and the stride routine was posted. *)
Definition striding_started (w w' : mc_world) : Prop :=
  t_striding (w_table w) = false /\ t_striding (w_table w') = true /\
  w_posted w' = S (w_posted w).

Definition tpart_striding_started (part part' : Tpart.mc_tpart) : Prop :=
  Tpart.striding part = false /\ Tpart.striding part' = true /\
  Tpart.posted part' = S (Tpart.posted part).

(** ** What the writer transmits

    The commands [mc_writer_routine] hands to [mc_transmit_buffer], read off
    the FIFO: from the head on, as long as the connection is not quitting,
    up to the first command without result. *)
Definition ready (c : mc_command) : bool :=
  negb (mc_result_t_eqb (result_type c) MC_RESULT_NONE).






(** * The command parser *)

(** Modelled from the spec: the cursor of [mm_buffer] over the receive
    buffer, whose code is not part of the sources at hand.  The buffer is
    "a chain of fixed-size segments; reads land in the last segment; parsed
    commands advance a cursor".  [cursor_seg] is the data received into the
    segment the cursor is in, [cursor_ptr] the offset of [cursor.ptr] in it
    ([cursor.end] is its end) and [cursor_next] the segments behind it.
    The other fields are [parser->command], [parser->state->quit] and
    [parser->error]. *)
Record mc_parser := {
  cursor_seg : list ascii;
  cursor_next : list (list ascii);
  cursor_ptr : Z;
  parser_command : mc_command;
  state_quit : bool;
  parser_error : bool
}.

Definition with_cursor (seg : list ascii) (next : list (list ascii)) (ptr : Z)
    (p : mc_parser) : mc_parser :=
  {| cursor_seg := seg; cursor_next := next; cursor_ptr := ptr;
     parser_command := parser_command p; state_quit := state_quit p;
     parser_error := parser_error p |}.

Definition with_ptr (ptr : Z) (p : mc_parser) : mc_parser :=
  with_cursor (cursor_seg p) (cursor_next p) ptr p.

Definition with_command (c : mc_command) (p : mc_parser) : mc_parser :=
  {| cursor_seg := cursor_seg p; cursor_next := cursor_next p;
     cursor_ptr := cursor_ptr p; parser_command := c;
     state_quit := state_quit p; parser_error := parser_error p |}.

Definition with_state_quit (q : bool) (p : mc_parser) : mc_parser :=
  {| cursor_seg := cursor_seg p; cursor_next := cursor_next p;
     cursor_ptr := cursor_ptr p; parser_command := parser_command p;
     state_quit := q; parser_error := parser_error p |}.

Definition with_error (e : bool) (p : mc_parser) : mc_parser :=
  {| cursor_seg := cursor_seg p; cursor_next := cursor_next p;
     cursor_ptr := cursor_ptr p; parser_command := parser_command p;
     state_quit := state_quit p; parser_error := e |}.

(** Modelled from the spec: [mm_buffer_next_out] moves the cursor to the
    start of the following segment and tells whether there is one. *)
Definition mm_buffer_next_out (p : mc_parser) : bool * mc_parser :=
  match cursor_next p with
  | [] => (false, p)
  | seg :: next => (true, with_cursor seg next 0 p)
  end.

(** Ask for the next input buffer with additional sanity checking. *)
Definition mc_more_input (p : mc_parser) (count : Z) : bool * mc_parser :=
  if 1024 <? count then
    (false,
     with_state_quit true
       (with_command (with_result_type MC_RESULT_QUIT (parser_command p)) p))
  else mm_buffer_next_out p.

(** [memchr(s, c, n)] on the [n] bytes [s]: the offset of the first [c]. *)
Fixpoint memchr (s : list ascii) (c : ascii) : option Z :=
  match s with
  | [] => None
  | x :: s' =>
      if Ascii.eqb x c then Some 0
      else match memchr s' c with
           | Some i => Some (i + 1)
           | None => None
           end
  end.

(** The loop of [mc_parse_error]; [next] is [cursor_next p], on which the
    loop recurs. *)
Fixpoint parse_error_loop (next : list (list ascii)) (p : mc_parser)
    (error_string : list ascii) : bool * mc_parser :=
  let s := cursor_ptr p in
  match memchr (zdrop s (cursor_seg p)) LF with
  | Some i =>
      let p := with_ptr (s + i + 1) p in
      (true, with_command (mc_reply (parser_command p) error_string) p)
  | None =>
      let '(rc, p') := mm_buffer_next_out p in
      if rc then
        match next with
        | [] => (false, p')
        | _ :: next' => parse_error_loop next' p' error_string
        end
      else (false, p')
  end.

Definition mc_parse_error (p : mc_parser) (error_string : list ascii)
    : bool * mc_parser :=
  parse_error_loop (cursor_next p) (with_error true p) error_string.

(** ** [mc_parse_command] *)

Inductive parse_state :=
  | S_START | S_CMD_1 | S_CMD_2 | S_CMD_3 | S_CMD_REST | S_EOL_0 | S_EOL_1.

(** [C(a, b, c, d)] *)
Definition C (a b c d : ascii) : Z :=
  Z.lor (Z.lor (Z.lor (Z.shiftl (char_val a) 24) (Z.shiftl (char_val b) 16))
           (Z.shiftl (char_val c) 8))
    (char_val d).

(** What [S_CMD_3] does with the four chars in [start]: nothing when they
    start no command, else the command as it is left and, unless the scan
    is over, the state and [rest] it goes on with. *)
Definition command_start (start : Z) (command : mc_command)
    : option (mc_command * option (parse_state * list ascii)) :=
  let leave d := Some (with_desc (Some d) command, None) in
  let more d rest :=
    Some (with_desc (Some d) command, Some (S_CMD_REST, bytes rest)) in
  if start =? C "g" "e" "t" " " then leave mc_desc_get
  else if start =? C "s" "e" "t" " " then leave mc_desc_set
  else if start =? C "r" "e" "p" "l" then more mc_desc_replace "ace"
  else if start =? C "d" "e" "l" "e" then more mc_desc_delete "te"
  else if start =? C "a" "d" "d" " " then leave mc_desc_add
  else if start =? C "i" "n" "c" "r" then more mc_desc_incr ""
  else if start =? C "d" "e" "c" "r" then more mc_desc_decr ""
  else if start =? C "g" "e" "t" "s" then more mc_desc_gets ""
  else if start =? C "c" "a" "s" " " then leave mc_desc_cas
  else if start =? C "a" "p" "p" "e" then more mc_desc_append "nd"
  else if start =? C "p" "r" "e" "p" then more mc_desc_prepend "end"
  else if start =? C "t" "o" "u" "c" then more mc_desc_touch "h"
  else if start =? C "s" "l" "a" "b" then more mc_desc_slabs "s"
  else if start =? C "s" "t" "a" "t" then more mc_desc_stats "s"
  else if start =? C "f" "l" "u" "s" then more mc_desc_flush_all "h_all"
  else if start =? C "v" "e" "r" "s" then
    Some (mc_reply command (line "VERSION 0.0"), Some (S_CMD_REST, bytes "ion"))
  else if start =? C "v" "e" "r" "b" then more mc_desc_verbosity "osity"
  else if start =? C "q" "u" "i" "t" then
    Some (with_result_type MC_RESULT_QUIT command, Some (S_EOL_0, []))
  else None.

(** [parser->command->desc != NULL] *)
Definition has_desc (command : mc_command) : bool :=
  match desc command with Some _ => true | None => false end.

(** How the [for] loop over one segment ends: at [leave] or at [error] with
    the [cursor.ptr] set on the way, or at the end of the segment with the
    scanner state to go on with. *)
Inductive scan_end :=
  | scan_leave (ptr : Z) (command : mc_command)
  | scan_error (ptr : Z) (command : mc_command)
  | scan_more (state : parse_state) (start : Z) (rest : list ascii)
      (command : mc_command).

(** The [for] loop: [chars] are the bytes from [s] to [e], [rest] the chars
    [rest] points to, up to the terminating zero. *)
Fixpoint scan (chars : list ascii) (s : Z) (state : parse_state) (start : Z)
    (rest : list ascii) (command : mc_command) : scan_end :=
  match chars with
  | [] => scan_more state start rest command
  | ch :: chars' =>
      let c := char_val ch in
      let eol_1 :=
        if c =? 10 then scan_leave (s + 1) command
        else scan_error (s + 1) command in
      let eol_0 :=
        if c =? 13 then scan chars' (s + 1) S_EOL_1 start rest command
        else if c =? 32 then scan chars' (s + 1) S_EOL_0 start rest command
        else eol_1 in
      match state with
      | S_START =>
          if c =? 10 then scan_error s command
          else if c =? 32 then scan chars' (s + 1) S_START start rest command
          else scan chars' (s + 1) S_CMD_1 (u32 (Z.shiftl c 24)) rest command
      | S_CMD_1 =>
          if c =? 10 then scan_error s command
          else scan chars' (s + 1) S_CMD_2
                 (Z.lor start (u32 (Z.shiftl c 16))) rest command
      | S_CMD_2 =>
          if c =? 10 then scan_error s command
          else scan chars' (s + 1) S_CMD_3
                 (Z.lor start (u32 (Z.shiftl c 8))) rest command
      | S_CMD_3 =>
          let start := Z.lor start (u32 c) in
          match command_start start command with
          | Some (command', None) => scan_leave (s + 1) command'
          | Some (command', Some (state', rest')) =>
              scan chars' (s + 1) state' start rest' command'
          | None => scan_error s command
          end
      | S_CMD_REST =>
          let r := char_val (hd NUL rest) in
          if c =? r then
            if c =? 0 then scan_error (s + 1) command
            else scan chars' (s + 1) S_CMD_REST start (tl rest) command
          else if negb (r =? 0) then scan_error s command
          else if negb (c =? 32) && negb (c =? 13) && negb (c =? 10)
          then scan_error (s + 1) command
          else if has_desc command then scan_leave s command
          else eol_0
      | S_EOL_0 => eol_0
      | S_EOL_1 => eol_1
      end
  end.

(** The [do] loop of [mc_parse_command]; [next] is [cursor_next p], on which
    the loop recurs. *)
Fixpoint parse_command_loop (next : list (list ascii)) (state : parse_state)
    (start : Z) (rest : list ascii) (count : Z) (p : mc_parser)
    : bool * mc_parser :=
  let s := cursor_ptr p in
  match scan (zdrop s (cursor_seg p)) s state start rest (parser_command p) with
  | scan_leave ptr command => (true, with_ptr ptr (with_command command p))
  | scan_error ptr command =>
      mc_parse_error (with_ptr ptr (with_command command p)) (line "ERROR")
  | scan_more state' start' rest' command =>
      let p := with_command command p in
      let count := count + (len (cursor_seg p) - cursor_ptr p) in
      let '(rc, p') := mc_more_input p count in
      if rc then
        match next with
        | [] => (false, p')
        | _ :: next' => parse_command_loop next' state' start' rest' count p'
        end
      else (false, p')
  end.

Definition mc_parse_command (p : mc_parser) : bool * mc_parser :=
  parse_command_loop (cursor_next p) S_START (u32 (-1)) [] 0 p.

(** ** [mc_parse_data] *)

(** The loop of [mc_parse_data] ends with its result, or at the [mc_read]
    it needs when the buffer is used up, with the [bytes] and [cr] it has
    then; what follows that read is not modelled. *)
Inductive data_end :=
  | data_done (rc : bool) (p : mc_parser)
  | data_read (p : mc_parser) (bytes cr : Z).

Definition byte_at (seg : list ascii) (i : Z) : ascii :=
  nth (Z.to_nat i) seg NUL.

Fixpoint parse_data_loop (next : list (list ascii)) (bytes cr : Z)
    (p : mc_parser) : data_end :=
  let seg := cursor_seg p in
  let avail := u32 (len seg - cursor_ptr p) in
  let go_on p bytes cr :=
    let '(rc, p') := mm_buffer_next_out p in
    if rc then
      match next with
      | [] => data_read p' bytes cr
      | _ :: next' => parse_data_loop next' bytes cr p'
      end
    else data_read p' bytes cr in
  if bytes <? avail then
    let ptr := cursor_ptr p + bytes in
    let avail := u32 (avail - bytes) in
    if Ascii.eqb (byte_at seg ptr) LF then data_done true (with_ptr (ptr + 1) p)
    else
      let bad :=
        (cr =? 0) || negb (Ascii.eqb (byte_at seg ptr) CR)
        || ((1 <? avail) && negb (Ascii.eqb (byte_at seg (ptr + 1)) LF)) in
      let p :=
        if bad then
          with_command
            (mc_reply (parser_command p) (line "CLIENT_ERROR bad data chunk"))
            (with_error true p)
        else p in
      if (cr =? 0) || (1 <? avail) then
        data_done true (with_ptr (if cr =? 0 then ptr + 1 else ptr + 2) p)
      else go_on (with_ptr (ptr + 1) p) 0 0
  else go_on (with_ptr (cursor_ptr p + avail) p) (u32 (bytes - avail)) cr.

Definition mc_parse_data (p : mc_parser) (bytes : Z) : data_end * mc_value :=
  (parse_data_loop (cursor_next p) bytes 1 p,
   {| value_seg := cursor_seg p :: cursor_next p;
      value_start := cursor_ptr p; value_bytes := bytes |}).

(** The input the cursor has not passed yet. *)
Definition cursor_rest (p : mc_parser) : list ascii :=
  zdrop (cursor_ptr p) (cursor_seg p) ++ concat (cursor_next p).

(** A parser at the start of a receive buffer holding [segs]. *)
Definition mc_start_input (segs : list (list ascii)) (command : mc_command)
    : mc_parser :=
  {| cursor_seg := hd [] segs; cursor_next := tl segs; cursor_ptr := 0;
     parser_command := command; state_quit := false; parser_error := false |}.

(** ** What parsing is to achieve *)

(** The input behind the first LF, if there is one. *)
Fixpoint after_newline (l : list ascii) : option (list ascii) :=
  match l with
  | [] => None
  | c :: l' => if Ascii.eqb c LF then Some l' else after_newline l'
  end.

Definition cursor_wf (p : mc_parser) : Prop :=
  0 <= cursor_ptr p <= len (cursor_seg p).

(** The [cursor.ptr] a scan sets lies between [lo] and [hi]. *)
Definition scan_within (lo hi : Z) (r : scan_end) : Prop :=
  match r with
  | scan_leave ptr _ | scan_error ptr _ => lo <= ptr <= hi
  | scan_more _ _ _ _ => True
  end.

(** The ways [mc_parse_command] ends, for a scan that had passed [count]
    chars when the cursor was at [p]: it has found where the command name
    ends; it has found the line malformed and skipped it, replying [ERROR];
    it has found it malformed before the end of line was received; it has
    passed more than 1024 chars and quits; or it needs more input. *)
Definition command_outcome (count : Z) (p : mc_parser) (rc : bool)
    (p' : mc_parser) : Prop :=
  (rc = true /\ parser_error p' = false /\ state_quit p' = state_quit p /\
   exists consumed, cursor_rest p = consumed ++ cursor_rest p') \/
  (rc = true /\ parser_error p' = true /\ state_quit p' = state_quit p /\
   reply_of (parser_command p') = Some (line "ERROR") /\
   exists consumed, cursor_rest p = consumed ++ LF :: cursor_rest p') \/
  (rc = false /\ parser_error p' = true /\ state_quit p' = state_quit p /\
   exists consumed behind,
     cursor_rest p = consumed ++ behind /\ LF ∉ behind) \/
  (rc = false /\ parser_error p' = false /\ state_quit p' = true /\
   result_type (parser_command p') = MC_RESULT_QUIT /\
   1024 < count + len (cursor_rest p)) \/
  (rc = false /\ parser_error p' = false /\ state_quit p' = state_quit p /\
   count + len (cursor_rest p) <= 1024).

(** The receive buffer of the examples: a [set] whose payload is longer
    than announced, a line that is no command followed by a [get], and
    junk. *)
Definition long_payload_input : list (list ascii) :=
  [bytes "set k 0 0 1" ++ CRLF ++ bytes "abcdef" ++ CRLF].

Definition malformed_input : list (list ascii) :=
  [bytes "foo bar" ++ CRLF ++ bytes "get k" ++ CRLF].

Definition junk_input : list (list ascii) := [replicate 2000 "x"%char].

(** * Auxiliary definitions of the proofs and the worlds of the examples *)

(** [w'] differs from [w] in the bucket array only. *)
Definition same_but_buckets (w w' : mc_world) : Prop :=
  exists tb, w' = with_table (with_buckets tb (w_table w)) w.

(** [w] with the chain [c] in bucket [i]. *)
Definition set_bucket (w : mc_world) (i : Z) (c : list addr) : mc_world :=
  with_table (with_buckets (<[i := c]> (t_table (w_table w))) (w_table w)) w.

(** [w] after [mm_alloc] has handed out [w_next w] for [e] and the stamp
    counter has moved to [cas]. *)
Definition alloc (w : mc_world) (e : mc_entry) (cas : Z) : mc_world :=
  {| w_table := w_table w; w_heap := <[w_next w := e]> (w_heap w);
     w_next := S (w_next w); w_cas := cas;
     w_entry_list := w_entry_list w; w_posted := w_posted w |}.

(** The header line of one entry of a [get] reply. *)
Definition value_header (e : mc_entry) : list ascii :=
  bytes "VALUE " ++ fmt_s (entry_key_len e) (mc_entry_key e) ++ [SP]
  ++ fmt_u (entry_flags e) ++ [SP] ++ fmt_u (entry_value_len e) ++ [] ++ CRLF.

(** The payload [bar] of [set foo 0 0 3], as it lies in the receive
    buffer. *)
Definition bar_value : mc_value :=
  {| value_seg := [bytes "bar" ++ CRLF]; value_start := 0; value_bytes := 3 |}.

(** The value of digits held least significant first, as the first loop of
    [mc_entry_create_u64] leaves them in [buffer]. *)
Fixpoint buffer_value (ds : list ascii) : Z :=
  match ds with
  | [] => 0
  | c :: ds' => (byte_val c - 48) + 10 * buffer_value ds'
  end.

(** The numeral [mc_entry_create_u64] writes for a 64-bit value. *)
Definition numeral (v : Z) : list ascii := rev (u64_digits 20 v).

(** An entry holding the numeral of [v]. *)
Definition numeral_entry (key : list ascii) (key_len v flags cas ref_count : Z)
    : mc_entry :=
  {| entry_key_len := u8 key_len;
     entry_value_len := len (numeral v);
     entry_ref_count := ref_count;
     entry_flags := flags;
     entry_cas := cas;
     entry_key := key;
     entry_value := numeral v |}.

(** The payload [5]; the table after [set n 0 0 1] with that payload into
    a table just initialised, and the entry it holds. *)
Definition five_value : mc_value :=
  {| value_seg := [bytes "5" ++ CRLF]; value_start := 0; value_bytes := 1 |}.

Definition world_after_set (key : list ascii) (value : mc_value) : mc_world :=
  match mc_process_set (set_command key 0 0 value false) mc_world_init with
  | Some (_, w) => w
  | None => mc_world_init
  end.

Definition counter_world : mc_world := world_after_set (bytes "n") five_value.

Definition counter_entry : mc_entry :=
  entry_with_ref_count 2 (new_entry (bytes "n") 1 five_value 0 1).

(** The table after [set k 0 0 3] with payload [abc], and the value [0]. *)
Definition abc_value : mc_value :=
  {| value_seg := [bytes "abc" ++ CRLF]; value_start := 0; value_bytes := 3 |}.

Definition zero_value : mc_value :=
  {| value_seg := [bytes "0" ++ CRLF]; value_start := 0; value_bytes := 1 |}.

Definition abc_world : mc_world := world_after_set (bytes "k") abc_value.

(** [n] commands [set <i> 0 0 1] with payload [0], for the keys [1] to [n]
    in decimal, on the table [w]. *)
Fixpoint fill_table (n : nat) (w : mc_world) : option mc_world :=
  match n with
  | O => Some w
  | S n' =>
      match fill_table n' w with
      | Some w1 =>
          match mc_process_set
                  (set_command (numeral (Z.of_nat n)) 0 0 zero_value false)
                  w1 with
          | Some (_, w2) => Some w2
          | None => None
          end
      | None => None
      end
  end.

(** What the striding test reads of a table, and whether striding was
    started. *)
Definition table_counters (w : mc_world) : Z * Z * Z * bool * nat :=
  (t_nentries (w_table w), t_size (w_table w), t_used (w_table w),
   t_striding (w_table w), w_posted w).

(** A table of 4096 buckets counting 16384 entries, with one more entry
    created and about to be inserted; a partition of 4096 buckets with 8193
    entries in use. *)
Definition brim_entry : mc_entry := new_entry (bytes "k") 1 zero_value 0 1.

Definition brim_world : mc_world :=
  alloc (with_table (with_nentries 16384 mc_table_init) mc_world_init)
    brim_entry 1.

Definition brim_part : Tpart.mc_tpart :=
  {| Tpart.nbuckets := 4096; Tpart.nentries := 8200;
     Tpart.nentries_free := 4; Tpart.nentries_void := 3;
     Tpart.striding := false; Tpart.posted := 0 |}.

(** A connection whose second command has no result yet. *)
Definition stalled_state : mc_state :=
  with_commands
    [mc_reply (set_command (bytes "k") 0 0 zero_value false) (line "STORED");
     get_command [bytes "k"];
     mc_reply (delete_command (bytes "k") false) (line "NOT_FOUND")]
    mc_create.

(** The ring after a successful put of [d] and after a successful get. *)
Definition after_put (r : Ring.mm_ring_mpmc) (d : Z) : Ring.mm_ring_mpmc :=
  let t := Ring.tail r in
  {| Ring.head := Ring.head r; Ring.tail := u64 (t + 1);
     Ring.mask := Ring.mask r;
     Ring.ring := <[Z.to_nat (Z.land t (Ring.mask r)) :=
                     {| Ring.data := d; Ring.lock := u64 (t + 1) |}]>
                    (Ring.ring r) |}.

Definition after_get (r : Ring.mm_ring_mpmc) (d : Z) : Ring.mm_ring_mpmc :=
  let h := Ring.head r in
  {| Ring.head := u64 (h + 1); Ring.tail := Ring.tail r;
     Ring.mask := Ring.mask r;
     Ring.ring := <[Z.to_nat (Z.land h (Ring.mask r)) :=
                     {| Ring.data := d;
                        Ring.lock := u64 (h + 1 + Ring.mask r) |}]>
                    (Ring.ring r) |}.

(** A ring of four slots as [mm_ring_mpmc_prepare] leaves it: the lock of
    slot [i] is [i]. *)
Definition ring4 : Ring.mm_ring_mpmc :=
  {| Ring.head := 0; Ring.tail := 0; Ring.mask := 3;
     Ring.ring := [ {| Ring.data := 0; Ring.lock := 0 |};
                    {| Ring.data := 0; Ring.lock := 1 |};
                    {| Ring.data := 0; Ring.lock := 2 |};
                    {| Ring.data := 0; Ring.lock := 3 |} ] |}.

(** The table of [counter_world] while it is striding. *)
Definition striding_world : mc_world :=
  with_table (with_striding true (w_table counter_world)) counter_world.

(** A table filled by [fill_table n]: [n] entries, the geometry and the
    flags of a table just initialised, every chained entry under one of the
    keys [1] to [n]. *)
Definition filled (n : nat) (w : mc_world) : Prop :=
  world_inv w /\
  table_counters w = (Z.of_nat n, 4096, 4096, false, 0%nat) /\
  forall a e, stored w a -> heap_at w a e ->
    exists i, (1 <= i <= n)%nat /\
      entry_key e = numeral (Z.of_nat i) /\
      entry_key_len e = len (numeral (Z.of_nat i)).

(** ** The other storage commands *)

Definition add_command (key : list ascii) (flags exptime : Z)
    (value : mc_value) (noreply : bool) : mc_command :=
  parsed mc_desc_add
    (params_set {| set_key := key; set_flags := flags; set_exptime := exptime;
                   set_value := value; set_noreply := noreply |}).

Definition replace_command (key : list ascii) (flags exptime : Z)
    (value : mc_value) (noreply : bool) : mc_command :=
  parsed mc_desc_replace
    (params_set {| set_key := key; set_flags := flags; set_exptime := exptime;
                   set_value := value; set_noreply := noreply |}).

Definition append_command (key : list ascii) (flags exptime : Z)
    (value : mc_value) (noreply : bool) : mc_command :=
  parsed mc_desc_append
    (params_set {| set_key := key; set_flags := flags; set_exptime := exptime;
                   set_value := value; set_noreply := noreply |}).

Definition prepend_command (key : list ascii) (flags exptime : Z)
    (value : mc_value) (noreply : bool) : mc_command :=
  parsed mc_desc_prepend
    (params_set {| set_key := key; set_flags := flags; set_exptime := exptime;
                   set_value := value; set_noreply := noreply |}).

Definition gets_command (keys : list (list ascii)) : mc_command :=
  parsed mc_desc_gets (params_get keys).

(** Two entries carry the same key. *)
Definition same_key (e e' : mc_entry) : Prop :=
  entry_key_len e = entry_key_len e' /\
  ztake (entry_key_len e) (mc_entry_key e)
    = ztake (entry_key_len e') (mc_entry_key e').

(** No two chained entries carry the same key. *)
Definition keys_unique (w : mc_world) : Prop :=
  forall a b ea eb,
    stored w a -> stored w b -> heap_at w a ea -> heap_at w b eb ->
    same_key ea eb -> a = b.

(** The value buffer of an entry has the length the entry records. *)
Definition entry_wf (e : mc_entry) : Prop :=
  len (mc_entry_value e) = entry_value_len e.

(** The entry [mc_process_append] and [mc_process_prepend] leave in the
    heap: the key, a value put together from the old value and the payload,
    the flags of the old entry. *)
Definition concat_entry (key : list ascii) (key_len : Z)
    (value : list ascii) (flags cas : Z) : mc_entry :=
  {| entry_key_len := u8 key_len;
     entry_value_len := len value;
     entry_ref_count := 1;
     entry_flags := flags;
     entry_cas := cas;
     entry_key := ztake (u8 key_len) key;
     entry_value := value |}.

(** The entries a [get] of [keys] finds, in the order of the keys. *)
Fixpoint found (w : mc_world) (keys : list (list ascii)) : list addr :=
  match keys with
  | [] => []
  | key :: keys' =>
      match current_entry w key with
      | Some (Some a) => a :: found w keys'
      | _ => found w keys'
      end
  end.

(** How many times [a] occurs in [l]. *)
Definition occurrences (a : addr) (l : list addr) : Z :=
  len (filter (fun x => x = a) l).

(** ** The rings as queues *)

(** The slot of the node array that position [p] of the ring uses. *)
Definition slot (r : Ring.mm_ring_mpmc) (p : Z) : nat :=
  Z.to_nat (Z.land p (Ring.mask r)).

(** The ring holds the queue [q], oldest element first: the positions from
    [head] on carry the elements of [q], each with the lock of its slot one
    above the position; the positions behind them, up to one lap from
    [head], have the lock of their slot at the position, which is how a slot
    tells a producer that it is free. *)
Definition holds (r : Ring.mm_ring_mpmc) (q : list Z) : Prop :=
  Ring.tail r = Ring.head r + len q /\
  len q <= Ring.capacity r /\
  (forall (i : nat) x, q !! i = Some x ->
     Ring.ring r !! slot r (Ring.head r + Z.of_nat i)
       = Some {| Ring.data := x;
                 Ring.lock := Ring.head r + Z.of_nat i + 1 |}) /\
  (forall i, len q <= i < Ring.capacity r ->
     Ring.lock <$> Ring.ring r !! slot r (Ring.head r + i)
       = Some (Ring.head r + i)).

(** The ring of four slots after [put 7]. *)
Definition ring4_one : Ring.mm_ring_mpmc :=
  {| Ring.head := 0; Ring.tail := 1; Ring.mask := 3;
     Ring.ring := [ {| Ring.data := 7; Ring.lock := 1 |};
                    {| Ring.data := 0; Ring.lock := 1 |};
                    {| Ring.data := 0; Ring.lock := 2 |};
                    {| Ring.data := 0; Ring.lock := 3 |} ] |}.

(** *** The single-producer single-consumer ring of [base/ring.h] *)

Module Spsc.

(** [struct mm_ring_spsc] with the [head], [tail] and [mask] of its
    [struct mm_ring_base]; [ring] is the array of pointers, [NULL] marking
    a free slot. *)
Record mm_ring_spsc := {
  head : Z;
  tail : Z;
  mask : Z;
  ring : list Z
}.

Definition NULL : Z := 0.

(** [ring->ring[i]]; an access outside the array crashes. *)
Definition load (r : mm_ring_spsc) (i : Z) : option Z :=
  if (0 <=? i) && (i <? len (ring r)) then ring r !! Z.to_nat i else None.

Definition store (r : mm_ring_spsc) (i : Z) (v : Z) : list Z :=
  <[Z.to_nat i := v]> (ring r).

(** Single-producer enqueue operation. *)
Definition mm_ring_spsc_put (r : mm_ring_spsc) (data : Z)
    : option (bool * mm_ring_spsc) :=
  let tail := tail r in
  match load r tail with
  | None => None
  | Some prev =>
      if prev =? NULL then
        Some (true,
              {| head := head r;
                 tail := Z.land (u64 (tail + 1)) (mask r);
                 mask := mask r;
                 ring := store r tail data |})
      else Some (false, r)
  end.

(** Single-consumer dequeue operation; the pointer read is returned next to
    the ring when the operation succeeds. *)
Definition mm_ring_spsc_get (r : mm_ring_spsc)
    : option (option Z * mm_ring_spsc) :=
  let head := head r in
  match load r head with
  | None => None
  | Some data =>
      if negb (data =? NULL) then
        Some (Some data,
              {| head := Z.land (u64 (head + 1)) (mask r);
                 tail := tail r;
                 mask := mask r;
                 ring := store r head NULL |})
      else Some (None, r)
  end.

Definition capacity (r : mm_ring_spsc) : Z := mask r + 1.

(** The ring holds the queue [q], oldest element first: [capacity] slots
    for a power of two [capacity], the elements of [q] in the slots from
    [head] on, [NULL] in the others, [tail] behind the last element. *)
Record holds (r : mm_ring_spsc) (q : list Z) : Prop := {
  h_mask : exists k, 0 <= k < 64 /\ mask r = 2 ^ k - 1;
  h_slots : len (ring r) = capacity r;
  h_head : 0 <= head r < capacity r;
  h_tail : tail r = (head r + len q) mod capacity r;
  h_len : len q <= capacity r;
  h_data : forall (i : nat) x, q !! i = Some x ->
             x <> NULL /\
             ring r !! Z.to_nat ((head r + Z.of_nat i) mod capacity r) = Some x;
  h_free : forall i, len q <= i < capacity r ->
             ring r !! Z.to_nat ((head r + i) mod capacity r) = Some NULL
}.

(** An empty ring of four slots. *)
Definition ring4 : mm_ring_spsc :=
  {| head := 0; tail := 0; mask := 3; ring := [0; 0; 0; 0] |}.

End Spsc.

(** A ring of four slots holding one pointer. *)
Definition spsc_ring4_one : Spsc.mm_ring_spsc :=
  {| Spsc.head := 3; Spsc.tail := 0; Spsc.mask := 3;
     Spsc.ring := [0; 0; 0; 7] |}.

(** *** Relaxed access to the multi-producer multi-consumer ring *)

Module Relaxed.

Local Notation "x <~ m ; k" := (Ring.rbind m (fun x => k))
  (at level 100, m at next level, right associativity).
Local Notation "m >> k" := (Ring.rbind m (fun _ => k))
  (at level 100, right associativity).

(** The plain accesses [ring->base.tail] and [ring->base.head]: they go
    through no [mm_memory_load] or [mm_memory_store] and leave no event. *)
Definition get_tail : Ring.R Z :=
  fun '(r, log) => Some (Ring.tail r, (r, log)).

Definition get_head : Ring.R Z :=
  fun '(r, log) => Some (Ring.head r, (r, log)).

Definition set_tail (v : Z) : Ring.R unit :=
  fun '(r, log) =>
    Some (tt, ({| Ring.head := Ring.head r; Ring.tail := v;
                  Ring.mask := Ring.mask r; Ring.ring := Ring.ring r |}, log)).

Definition set_head (v : Z) : Ring.R unit :=
  fun '(r, log) =>
    Some (tt, ({| Ring.head := v; Ring.tail := Ring.tail r;
                  Ring.mask := Ring.mask r; Ring.ring := Ring.ring r |}, log)).

(** Single-producer enqueue operation for MPMC without wait. *)
Definition mm_ring_relaxed_put (d : Z) : Ring.R bool :=
  tail <~ get_tail ;
  mask <~ Ring.get_mask ;
  let node := Z.land tail mask in
  Ring.mm_memory_load_fence >>
  l <~ Ring.mm_memory_load (Ring.loc_lock node) ;
  if negb (l =? tail) then Ring.rret false
  else
    set_tail (u64 (tail + 1)) >>
    Ring.mm_memory_store (Ring.loc_data node) d >>
    Ring.mm_memory_store_fence >>
    Ring.mm_memory_store (Ring.loc_lock node) (u64 (tail + 1)) >>
    Ring.rret true.

(** Single-consumer dequeue operation for MPMC without wait. *)
Definition mm_ring_relaxed_get : Ring.R (bool * Z) :=
  head <~ get_head ;
  mask <~ Ring.get_mask ;
  let node := Z.land head mask in
  Ring.mm_memory_load_fence >>
  l <~ Ring.mm_memory_load (Ring.loc_lock node) ;
  if negb (l =? u64 (head + 1)) then Ring.rret (false, 0)
  else
    set_head (u64 (head + 1)) >>
    d <~ Ring.mm_memory_load (Ring.loc_data node) ;
    Ring.mm_memory_fence >>
    Ring.mm_memory_store (Ring.loc_lock node) (u64 (head + 1 + mask)) >>
    Ring.rret (true, d).

End Relaxed.

Definition is_cas (e : Ring.event) : bool :=
  match e with Ring.ev_cas _ _ _ _ => true | _ => false end.

(** *** The operations with busy wait *)

Module Busy.

Local Notation "x <~ m ; k" := (Ring.rbind m (fun x => k))
  (at level 100, m at next level, right associativity).
Local Notation "m >> k" := (Ring.rbind m (fun _ => k))
  (at level 100, right associativity).

(** [mm_atomic_uintptr_fetch_and_add(p, 1)] on the tail and on the head:
    the old value is returned, the counter is one up.  The log, which
    records loads, stores, compare-and-swaps and fences, is left as it
    is. *)
Definition fetch_and_add_tail : Ring.R Z :=
  fun '(r, log) =>
    Some (Ring.tail r,
          ({| Ring.head := Ring.head r; Ring.tail := u64 (Ring.tail r + 1);
              Ring.mask := Ring.mask r; Ring.ring := Ring.ring r |}, log)).

Definition fetch_and_add_head : Ring.R Z :=
  fun '(r, log) =>
    Some (Ring.head r,
          ({| Ring.head := u64 (Ring.head r + 1); Ring.tail := Ring.tail r;
              Ring.mask := Ring.mask r; Ring.ring := Ring.ring r |}, log)).

(** [mm_ring_mpmc_busywait]: the lock is loaded until it has the value
    waited for.  [fuel] bounds the number of loads, and the result tells
    whether the wait came to an end within the bound; [mm_backoff] pauses
    and touches nothing. *)
Fixpoint mm_ring_mpmc_busywait (fuel : nat) (node lock : Z) : Ring.R bool :=
  match fuel with
  | O => Ring.rret false
  | S fuel' =>
      l <~ Ring.mm_memory_load (Ring.loc_lock node) ;
      if negb (l =? lock) then mm_ring_mpmc_busywait fuel' node lock
      else Ring.rret true
  end.

(** Multi-producer enqueue operation with busy wait; the result is false
    when the wait has not come to an end. *)
Definition mm_ring_mpmc_enqueue (fuel : nat) (d : Z) : Ring.R bool :=
  tail <~ fetch_and_add_tail ;
  mask <~ Ring.get_mask ;
  let node := Z.land tail mask in
  ready <~ mm_ring_mpmc_busywait fuel node tail ;
  if negb ready then Ring.rret false
  else
    Ring.mm_memory_fence >>
    Ring.mm_memory_store (Ring.loc_data node) d >>
    Ring.mm_memory_store_fence >>
    Ring.mm_memory_store (Ring.loc_lock node) (u64 (tail + 1)) >>
    Ring.rret true.

(** Multi-consumer dequeue operation with busy wait; there is no result
    when the wait has not come to an end. *)
Definition mm_ring_mpmc_dequeue (fuel : nat) : Ring.R (option Z) :=
  head <~ fetch_and_add_head ;
  mask <~ Ring.get_mask ;
  let node := Z.land head mask in
  ready <~ mm_ring_mpmc_busywait fuel node (u64 (head + 1)) ;
  if negb ready then Ring.rret None
  else
    Ring.mm_memory_load_fence >>
    d <~ Ring.mm_memory_load (Ring.loc_data node) ;
    Ring.mm_memory_fence >>
    Ring.mm_memory_store (Ring.loc_lock node) (u64 (head + 1 + mask)) >>
    Ring.rret (Some d).

End Busy.

(** A ring of two slots that is full. *)
Definition ring2_full : Ring.mm_ring_mpmc :=
  {| Ring.head := 0; Ring.tail := 2; Ring.mask := 1;
     Ring.ring := [ {| Ring.data := 7; Ring.lock := 1 |};
                    {| Ring.data := 9; Ring.lock := 2 |} ] |}.

(** ** Growing a partition of the later table *)

Module TableC.

Definition UINT32_MAX : Z := 2 ^ 32 - 1.

(** [mc_table_expand(part, n)] of [memcache/table.c]: the counters it
    leaves and its result.  [mc_table_entries_resize] maps the memory of the
    new entries and touches no counter. *)
Definition mc_table_expand (nentries_max : Z) (part : Tpart.mc_tpart)
    (n : Z) : bool * Tpart.mc_tpart :=
  let old_nentries := Tpart.nentries part in
  let new_nentries := u32 (old_nentries + n) in
  let new_nentries :=
    if new_nentries <? old_nentries then UINT32_MAX else new_nentries in
  let new_nentries :=
    if nentries_max <? new_nentries then nentries_max else new_nentries in
  let n := u32 (new_nentries - old_nentries) in
  if negb (n =? 0) then
    (true,
     {| Tpart.nbuckets := Tpart.nbuckets part;
        Tpart.nentries := u32 (Tpart.nentries part + n);
        Tpart.nentries_free := Tpart.nentries_free part;
        Tpart.nentries_void := u32 (Tpart.nentries_void part + n);
        Tpart.striding := Tpart.striding part;
        Tpart.posted := Tpart.posted part |})
  else (false, part).

End TableC.

(** ** What the scanner of command names leaves for [mc_parse] *)

(** [mc_parse] goes on with [parser->command->desc->parse] when the result
    type is still [MC_RESULT_NONE]: the command needs a descriptor then. *)
Definition dispatchable (command : mc_command) : bool :=
  has_desc command
  || negb (mc_result_t_eqb (result_type command) MC_RESULT_NONE).

(** The scanner states behind the first four chars. *)
Definition late (state : parse_state) : bool :=
  match state with
  | S_CMD_REST | S_EOL_0 | S_EOL_1 => true
  | _ => false
  end.

(** ** [mc_parse_space] *)

(** The [for] loop of [mc_parse_space] over the bytes from [s] on: the
    position of the first byte that is no space. *)
Fixpoint skip_space (chars : list ascii) (s : Z) : option Z :=
  match chars with
  | [] => None
  | ch :: chars' =>
      if negb (char_val ch =? 32) then Some s else skip_space chars' (s + 1)
  end.

(** The [do] loop of [mc_parse_space]; [next] is [cursor_next p], on which
    the loop recurs. *)
Fixpoint parse_space_loop (next : list (list ascii)) (count : Z)
    (p : mc_parser) : bool * mc_parser :=
  let s := cursor_ptr p in
  match skip_space (zdrop s (cursor_seg p)) s with
  | Some ptr => (true, with_ptr ptr p)
  | None =>
      let count := count + (len (cursor_seg p) - cursor_ptr p) in
      let '(rc, p') := mc_more_input p count in
      if rc then
        match next with
        | [] => (false, p')
        | _ :: next' => parse_space_loop next' count p'
        end
      else (false, p')
  end.

Definition mc_parse_space (p : mc_parser) : bool * mc_parser :=
  parse_space_loop (cursor_next p) 0 p.

(** ** [mc_parse_eol] *)

Definition unexpected_parameter : list ascii :=
  line "CLIENT_ERROR unexpected parameter".

(** What [mc_parse_eol] does behind a CR, [s] being the position behind
    it and [chars] the bytes from there to the end of the segment. *)
Definition eol_after_cr (chars : list ascii) (s : Z) (p : mc_parser)
    : bool * mc_parser :=
  let check (ch : ascii) (p : mc_parser) :=
    if negb (char_val ch =? 10) then mc_parse_error p unexpected_parameter
    else (true, p) in
  match chars with
  | ch :: _ => check ch (with_ptr (s + 1) p)
  | [] =>
      let '(rc, p') := mm_buffer_next_out p in
      if negb rc then (false, p')
      else
        match zdrop (cursor_ptr p') (cursor_seg p') with
        | [] => (false, p')
        | ch :: _ => check ch (with_ptr (cursor_ptr p' + 1) p')
        end
  end.

(** The [for] loop of [mc_parse_eol] over the bytes from [s] on: where it
    leaves, if it does before the end of the segment. *)
Fixpoint eol_scan (chars : list ascii) (s : Z) (p : mc_parser)
    : option (bool * mc_parser) :=
  match chars with
  | [] => None
  | ch :: chars' =>
      let c := char_val ch in
      if c =? 13 then Some (eol_after_cr chars' (s + 1) p)
      else if c =? 10 then Some (true, with_ptr (s + 1) p)
      else if negb (c =? 32) then
        Some (mc_parse_error (with_ptr (s + 1) p) unexpected_parameter)
      else eol_scan chars' (s + 1) p
  end.

(** The [do] loop of [mc_parse_eol]; [next] is [cursor_next p], on which
    the loop recurs. *)
Fixpoint parse_eol_loop (next : list (list ascii)) (count : Z)
    (p : mc_parser) : bool * mc_parser :=
  let s := cursor_ptr p in
  match eol_scan (zdrop s (cursor_seg p)) s p with
  | Some r => r
  | None =>
      let count := count + (len (cursor_seg p) - cursor_ptr p) in
      let '(rc, p') := mc_more_input p count in
      if rc then
        match next with
        | [] => (false, p')
        | _ :: next' => parse_eol_loop next' count p'
        end
      else (false, p')
  end.

Definition mc_parse_eol (p : mc_parser) : bool * mc_parser :=
  parse_eol_loop (cursor_next p) 0 p.

(** ** [mc_parse_noreply] *)

Definition noreply_word : list ascii := bytes "noreply".

(** [memcmp(s, t, n) != 0] on two areas of at least [n] bytes. *)
Definition memcmp_differs (s t : list ascii) (n : Z) : bool :=
  negb (bool_decide (ztake n s = ztake n t)).

(** The end of [mc_parse_noreply]: the [n] bytes at the cursor are compared
    with [t], and passed when they are the same. *)
Definition noreply_compare (p : mc_parser) (t : list ascii) (n : Z)
    : bool * bool * mc_parser :=
  if memcmp_differs (zdrop (cursor_ptr p) (cursor_seg p)) t n
  then (true, false, p)
  else (true, true, with_ptr (cursor_ptr p + n) p).

(** [value] is what [*value] holds at the call; the result is [rc], what
    [*value] holds at the return, and the parser. *)
Definition mc_parse_noreply (p : mc_parser) (value : bool)
    : bool * bool * mc_parser :=
  let '(rc, p) := mc_parse_space p in
  if negb rc then (rc, value, p)
  else
    let t := noreply_word in
    let n := len (cursor_seg p) - cursor_ptr p in
    if 7 <? n then noreply_compare p t 7
    else if n <? 7 then
      if memcmp_differs (zdrop (cursor_ptr p) (cursor_seg p)) t n
      then (rc, false, p)
      else
        let '(rc, p) := mm_buffer_next_out p in
        if negb rc then (rc, value, p)
        else
          let t := zdrop n t in
          let n := 7 - n in
          if len (cursor_seg p) - cursor_ptr p <? n then (false, value, p)
          else noreply_compare p t n
    else noreply_compare p t n.

(** Inputs of the examples. *)
Definition get_input : list (list ascii) := [bytes "get k" ++ CRLF].
Definition spaces_input : list (list ascii) :=
  [bytes "   "; bytes "  k" ++ CRLF].
Definition eol_input : list (list ascii) :=
  [bytes "  " ++ [CR]; LF :: bytes "get k" ++ CRLF].
Definition noreply_input : list (list ascii) := [bytes " noreply" ++ CRLF].
Definition split_noreply_input : list (list ascii) :=
  [bytes "  nor"; bytes "eply" ++ CRLF].

(** The entry of [abc_world], and the payload [de]. *)
Definition abc_entry : mc_entry :=
  entry_with_ref_count 2 (new_entry (bytes "k") 1 abc_value 0 1).

Definition de_value : mc_value :=
  {| value_seg := [bytes "de" ++ CRLF]; value_start := 0; value_bytes := 2 |}.

(** A partition of 8200 entries, three of them void. *)
Definition small_part : Tpart.mc_tpart :=
  {| Tpart.nbuckets := 4096; Tpart.nentries := 8200;
     Tpart.nentries_free := 4; Tpart.nentries_void := 3;
     Tpart.striding := false; Tpart.posted := 0 |}.

(** ** What a retrieval puts on the connection *)

(** The lines of one entry in the reply to [get] or, with the stamp, to
    [gets]. *)
Definition value_block (with_cas : bool) (e : mc_entry) : list ascii :=
  bytes "VALUE " ++ fmt_s (entry_key_len e) (mc_entry_key e) ++ [SP]
  ++ fmt_u (entry_flags e) ++ [SP] ++ fmt_u (entry_value_len e)
  ++ (if with_cas then [SP] ++ fmt_u (entry_cas e) else [])
  ++ CRLF ++ ztake (entry_value_len e) (mc_entry_value e) ++ CRLF.

Fixpoint blocks (with_cas : bool) (heap : gmap addr mc_entry)
    (entries : list addr) : list ascii :=
  match entries with
  | [] => []
  | a :: entries' =>
      match heap !! a with
      | Some e => value_block with_cas e
      | None => []
      end ++ blocks with_cas heap entries'
  end.

(** The chunks [mc_transmit_buffer] appends for the entries of a result. *)
Fixpoint entry_chunks (with_cas : bool) (heap : gmap addr mc_entry)
    (entries : list addr) : list chunk :=
  match entries with
  | [] => []
  | a :: entries' =>
      match heap !! a with
      | Some e =>
          [chunk_data
             (bytes "VALUE " ++ fmt_s (entry_key_len e) (mc_entry_key e)
              ++ [SP] ++ fmt_u (entry_flags e) ++ [SP]
              ++ fmt_u (entry_value_len e)
              ++ (if with_cas then [SP] ++ fmt_u (entry_cas e) else [])
              ++ CRLF);
           chunk_splice a (entry_value_len e);
           chunk_data CRLF]
      | None => []
      end ++ entry_chunks with_cas heap entries'
  end.

(** [w'] is [w] with [n a] references more on every entry [a]. *)
Definition bump (n : Z) (e : mc_entry) : mc_entry :=
  entry_with_ref_count (entry_ref_count e + n) e.

Definition bumped (n : addr -> Z) (w w' : mc_world) : Prop :=
  w' = with_heap (w_heap w') w /\
  forall a, w_heap w' !! a = bump (n a) <$> (w_heap w !! a).

(** [get] or [gets], as the parser hands it on. *)
Definition retrieval (with_cas : bool) (keys : list (list ascii))
    : mc_command :=
  parsed (if with_cas then mc_desc_gets else mc_desc_get) (params_get keys).

(** ** What the writer puts on the connection *)











(** ** The names of the commands *)

(** The bytes that end the name of a command. *)
Definition is_delimiter (c : ascii) : bool :=
  Ascii.eqb c SP || Ascii.eqb c CR || Ascii.eqb c LF.

(** The names [mc_parse_command] knows, and the four bytes each of them is
    recognised by. *)
Definition command_names : list (list ascii) :=
  map bytes
    ["get"; "set"; "replace"; "delete"; "add"; "incr"; "decr"; "gets";
     "cas"; "append"; "prepend"; "touch"; "slabs"; "stats"; "flush_all";
     "version"; "verbosity"; "quit"]%string.

Definition command_starts : list (list ascii) :=
  map bytes
    ["get "; "set "; "repl"; "dele"; "add "; "incr"; "decr"; "gets";
     "cas "; "appe"; "prep"; "touc"; "slab"; "stat"; "flus"; "vers";
     "verb"; "quit"]%string.

(** The first four bytes of a line as the scanner of [mc_parse_command]
    gathers them in [start]. *)
Definition packed (c1 c2 c3 c4 : ascii) : Z :=
  Z.lor
    (Z.lor
       (Z.lor (u32 (Z.shiftl (char_val c1) 24))
          (u32 (Z.shiftl (char_val c2) 16)))
       (u32 (Z.shiftl (char_val c3) 8)))
    (u32 (char_val c4)).

(** A byte a name is made of: no delimiter and not the zero that ends the
    string [rest] points to. *)
Definition plain (c : ascii) : bool :=
  negb (is_delimiter c) && negb (Ascii.eqb c NUL).

(** * Proofs *)

(** ** Running the monad *)

Ltac munfold :=
  unfold bind, ret, crash, get_world, put_world, ASSERT, modify_table,
    load_entry, store_entry in *.

Lemma bind_Some {A B} (m : M A) (f : A -> M B) w a w' :
  m w = Some (a, w') -> bind m f w = f a w'.
Proof. intros H. unfold bind. now rewrite H. Qed.

(** ** Masks and indices *)

Section Index.
Variable k : Z.
Hypothesis Hk : 1 <= k.

Lemma land_mask (h : Z) : Z.land h (2 ^ k - 1) = h mod 2 ^ k.
Proof.
  replace (2 ^ k - 1) with (Z.ones k) by (rewrite Z.ones_equiv; lia).
  apply Z.land_ones. lia.
Qed.

Lemma half_mask : Z.shiftr (2 ^ k - 1) 1 = 2 ^ (k - 1) - 1.
Proof.
  rewrite Z.shiftr_div_pow2 by lia.
  replace (2 ^ k) with (2 * 2 ^ (k - 1)).
  2:{ rewrite <- Z.pow_succ_r by lia. f_equal. lia. }
  change (2 ^ 1) with 2.
  assert (0 < 2 ^ (k - 1)) by (apply Z.pow_pos_nonneg; lia).
  symmetry. apply Z.div_unique with (r := 1); lia.
Qed.

Lemma pow_double : 2 ^ k = 2 * 2 ^ (k - 1).
Proof. rewrite <- Z.pow_succ_r by lia. f_equal. lia. Qed.

Lemma index_mod (t : mc_table) (h : Z) :
  t_mask t = 2 ^ k - 1 ->
  mc_table_index t h =
    if h mod 2 ^ k >=? t_used t then (h mod 2 ^ k) mod 2 ^ (k - 1)
    else h mod 2 ^ k.
Proof.
  intros Hm. unfold mc_table_index. rewrite Hm, land_mask.
  destruct (h mod 2 ^ k >=? t_used t); [|reflexivity].
  rewrite half_mask.
  replace (2 ^ (k - 1) - 1) with (Z.ones (k - 1))
    by (rewrite Z.ones_equiv; lia).
  apply Z.land_ones. lia.
Qed.

Lemma low_cases (x : Z) :
  0 <= x < 2 ^ k ->
  (x < 2 ^ (k - 1) /\ x mod 2 ^ (k - 1) = x) \/
  (2 ^ (k - 1) <= x /\ x mod 2 ^ (k - 1) = x - 2 ^ (k - 1)).
Proof.
  intros Hx. rewrite pow_double in Hx.
  assert (0 < 2 ^ (k - 1)) by (apply Z.pow_pos_nonneg; lia).
  destruct (Z_lt_le_dec x (2 ^ (k - 1))).
  - left. split; [lia|]. apply Z.mod_small. lia.
  - right. split; [lia|].
    symmetry. apply Z.mod_unique with (q := 1); lia.
Qed.

Lemma mod_range (h : Z) : 0 <= h mod 2 ^ k < 2 ^ k.
Proof. apply Z.mod_pos_bound. apply Z.pow_pos_nonneg; lia. Qed.
End Index.

(** ** Splitting one bucket *)

Lemma stride_chain_spec heap mask s t c :
  (forall a, a ∈ c -> exists e, heap !! a = Some e /\
     (Z.land (entry_hash e) mask = s \/ Z.land (entry_hash e) mask = t)) ->
  forall S T, exists S' T',
    stride_chain heap mask s t c S T = Some (S', T') /\
    (forall a, a ∈ S' <-> a ∈ S \/
       (a ∈ c /\ exists e, heap !! a = Some e /\ Z.land (entry_hash e) mask = s)) /\
    (forall a, a ∈ T' <-> a ∈ T \/
       (a ∈ c /\ exists e, heap !! a = Some e /\ Z.land (entry_hash e) mask <> s)).
Proof.
  induction c as [|a c IH]; intros Hc S T.
  - exists S, T. split; [reflexivity|].
    split; intros x; split; auto; intros [?|[Hx _]]; auto; inversion Hx.
  - destruct (Hc a) as (e & He & Hidx); [left|].
    assert (Hc' : forall a, a ∈ c -> exists e, heap !! a = Some e /\
              (Z.land (entry_hash e) mask = s \/ Z.land (entry_hash e) mask = t)).
    { intros x Hx. apply Hc. now right. }
    simpl. rewrite He. fold (entry_hash e).
    destruct (Z.eqb_spec (Z.land (entry_hash e) mask) s) as [Hs|Hs].
    + destruct (IH Hc' (a :: S) T) as (S' & T' & -> & HS & HT).
      exists S', T'. split; [reflexivity|]. split; intros x.
      * rewrite HS, !elem_of_cons. split.
        -- intros [[->|?]|[? ?]]; eauto 10.
        -- intros [?|[[->|?] ?]]; eauto 10.
      * rewrite HT, !elem_of_cons. split.
        -- intros [?|[? ?]]; eauto 10.
        -- intros [?|[[->|?] (e' & He' & Hne)]]; eauto 10.
           rewrite He in He'. injection He' as <-. contradiction.
    + destruct Hidx as [?|Ht]; [contradiction|].
      rewrite <- Ht, Z.eqb_refl.
      destruct (IH Hc' S (a :: T)) as (S' & T' & Heq & HS & HT).
      rewrite Ht. rewrite Heq.
      exists S', T'. split; [reflexivity|]. split; intros x.
      * rewrite HS, !elem_of_cons. split.
        -- intros [?|[? ?]]; eauto 10.
        -- intros [?|[[->|?] (e' & He' & Heq')]]; eauto 10.
           rewrite He in He'. injection He' as <-. contradiction.
      * rewrite HT, !elem_of_cons. split.
        -- intros [[->|?]|[? ?]]; eauto 10.
        -- intros [?|[[->|?] ?]]; eauto 10.
Qed.

(** ** One stride over the table *)

Lemma same_but_buckets_refl w : same_but_buckets w w.
Proof. exists (t_table (w_table w)). now destruct w as [[] ?]. Qed.

Lemma same_but_buckets_trans w1 w2 w3 :
  same_but_buckets w1 w2 -> same_but_buckets w2 w3 -> same_but_buckets w1 w3.
Proof. intros [tb ->] [tb' ->]. now exists tb'. Qed.

Section Stride.
Variable k : Z.
Hypothesis Hk : 1 <= k <= 30.

Let half := 2 ^ (k - 1).

Lemma half_pos : 0 < half.
Proof. apply Z.pow_pos_nonneg; lia. Qed.

Lemma half_small : half < 2 ^ 30.
Proof. apply Z.pow_lt_mono_r; lia. Qed.

Lemma index_below (t : mc_table) (h : Z) :
  t_mask t = 2 ^ k - 1 -> half <= t_used t ->
  mc_table_index t h < t_used t.
Proof.
  intros Hm Hu. rewrite index_mod with (k := k) by lia.
  pose proof (mod_range k ltac:(lia) h) as Hr.
  pose proof (pow_double k ltac:(lia)) as Hd.
  destruct (Z.geb_spec (h mod 2 ^ k) (t_used t)); [|lia].
  destruct (low_cases k ltac:(lia) _ Hr) as [[? ->]|[? ->]]; unfold half in *; lia.
Qed.

(** Entries of the bucket being split hash to the bucket or its twin. *)
Lemma split_candidates (w : mc_world) (s : Z) (a : addr) :
  t_mask (w_table w) = 2 ^ k - 1 -> 0 <= s < half ->
  placed w (s + half) -> a ∈ bucket w s ->
  exists e, w_heap w !! a = Some e /\
    (Z.land (entry_hash e) (t_mask (w_table w)) = s \/
     Z.land (entry_hash e) (t_mask (w_table w)) = s + half).
Proof.
  intros Hm Hs Hp Ha. destruct (Hp _ _ Ha) as (e & He & Hi).
  exists e. split; [exact He|].
  rewrite index_mod with (k := k) in Hi by (try lia; exact Hm).
  rewrite Hm, land_mask by lia. simpl in Hi.
  pose proof (mod_range k ltac:(lia) (entry_hash e)) as Hr.
  pose proof (pow_double k ltac:(lia)) as Hd.
  destruct (Z.geb_spec (entry_hash e mod 2 ^ k) (s + half)); [|now left].
  destruct (low_cases k ltac:(lia) _ Hr) as [[? E]|[? E]];
    unfold half in *; rewrite E in Hi; lia.
Qed.

Lemma placed_step (w : mc_world) (s : Z) (S' T' : list addr) :
  let c := bucket w s in
  let m := t_mask (w_table w) in
  let w1 := with_table (with_buckets
              (<[s + half := T']> (<[s := S']> (t_table (w_table w))))
              (w_table w)) w in
  m = 2 ^ k - 1 -> 0 <= s < half ->
  placed w (s + half) ->
  (forall a, a ∈ S' <-> a ∈ [] \/
     (a ∈ c /\ exists e, w_heap w !! a = Some e /\ Z.land (entry_hash e) m = s)) ->
  (forall a, a ∈ T' <-> a ∈ [] \/
     (a ∈ c /\ exists e, w_heap w !! a = Some e /\ Z.land (entry_hash e) m <> s)) ->
  placed w1 (s + half + 1) /\ (forall a, stored w a -> stored w1 a).
Proof.
  intros c m w1 Hm Hs Hp HS HT.
  assert (Hbt : forall b, bucket w1 b =
            if decide (b = s + half) then T'
            else if decide (b = s) then S' else bucket w b).
  { intros b. unfold bucket, w1. simpl.
    destruct (decide (b = s + half)) as [->|Hne].
    - now rewrite lookup_insert_eq.
    - rewrite lookup_insert_ne by congruence.
      destruct (decide (b = s)) as [->|Hne'].
      + now rewrite lookup_insert_eq.
      + now rewrite lookup_insert_ne by congruence. }
  assert (Hidx : forall e u,
            mc_table_index (with_used u (w_table w1)) (entry_hash e) =
            if entry_hash e mod 2 ^ k >=? u
            then (entry_hash e mod 2 ^ k) mod half
            else entry_hash e mod 2 ^ k).
  { intros e u. now rewrite index_mod with (k := k) by (try lia; exact Hm). }
  assert (Hidx0 : forall e u,
            mc_table_index (with_used u (w_table w)) (entry_hash e) =
            if entry_hash e mod 2 ^ k >=? u
            then (entry_hash e mod 2 ^ k) mod half
            else entry_hash e mod 2 ^ k).
  { intros e u. now rewrite index_mod with (k := k) by (try lia; exact Hm). }
  assert (Hland : forall e, Z.land (entry_hash e) m = entry_hash e mod 2 ^ k).
  { intros e. rewrite Hm. apply land_mask. lia. }
  split.
  - intros b a. rewrite Hbt.
    destruct (decide (b = s + half)) as [->|Hbt'].
    + rewrite HT. intros [Hin|[Hin (e & He & Hne)]]; [inversion Hin|].
      exists e. split; [exact He|]. rewrite Hidx.
      destruct (split_candidates w s a Hm Hs Hp Hin) as (e' & He' & Hc).
      rewrite He in He'. injection He' as <-.
      fold m in Hc. rewrite Hland in Hc, Hne.
      destruct Hc as [?|Hc]; [contradiction|].
      destruct (Z.geb_spec (entry_hash e mod 2 ^ k) (s + half + 1)); lia.
    + destruct (decide (b = s)) as [->|Hbs].
      * rewrite HS. intros [Hin|[Hin (e & He & Heq)]]; [inversion Hin|].
        exists e. split; [exact He|]. rewrite Hidx. rewrite Hland in Heq.
        destruct (Z.geb_spec (entry_hash e mod 2 ^ k) (s + half + 1)); lia.
      * intros Hin. destruct (Hp _ _ Hin) as (e & He & Hi).
        exists e. split; [exact He|]. rewrite Hidx. rewrite Hidx0 in Hi.
        pose proof (mod_range k ltac:(lia) (entry_hash e)) as Hr.
        pose proof (pow_double k ltac:(lia)) as Hd.
        destruct (Z.geb_spec (entry_hash e mod 2 ^ k) (s + half + 1));
          destruct (Z.geb_spec (entry_hash e mod 2 ^ k) (s + half));
          try lia.
        destruct (low_cases k ltac:(lia) _ Hr) as [[? E]|[? E]];
          unfold half in *; rewrite E in Hi; lia.
  - intros a [b Hin].
    destruct (decide (b = s)) as [->|Hbs].
    + destruct (split_candidates w s a Hm Hs Hp Hin) as (e & He & Hc).
      fold m in Hc.
      destruct (decide (Z.land (entry_hash e) m = s)) as [Heq|Hne].
      * exists s. rewrite Hbt.
        destruct (decide (s = s + half)); [pose proof half_pos; lia|].
        destruct (decide (s = s)); [|congruence].
        apply HS. right. eauto.
      * exists (s + half). rewrite Hbt.
        destruct (decide (s + half = s + half)); [|congruence].
        apply HT. right. eauto.
    + destruct (decide (b = s + half)) as [->|Hbt'].
      * destruct (Hp _ _ Hin) as (e & He & Hi).
        pose proof (index_below (with_used (s + half) (w_table w))
                      (entry_hash e) Hm) as Hlt.
        simpl in Hlt. lia.
      * exists b. rewrite Hbt.
        destruct (decide (b = s + half)); [congruence|].
        destruct (decide (b = s)); [congruence|]. exact Hin.
Qed.
End Stride.

Section StrideLoop.
Variable k : Z.
Hypothesis Hk : 1 <= k <= 30.

Let half := 2 ^ (k - 1).

Lemma u32_small (x : Z) : 0 <= x < 2 ^ 32 -> u32 x = x.
Proof. intros H. unfold u32. now apply Z.mod_small. Qed.

Lemma stride_loop_ok (n : nat) : forall w s,
  t_size (w_table w) = 2 ^ k -> t_mask (w_table w) = 2 ^ k - 1 ->
  0 <= s -> s + Z.of_nat n <= half ->
  placed w (s + half) ->
  exists w',
    stride_loop n (t_mask (w_table w)) s (s + half) w = Some (tt, w') /\
    same_but_buckets w w' /\
    placed w' (s + half + Z.of_nat n) /\
    (forall a, stored w a -> stored w' a).
Proof.
  pose proof (half_pos k Hk) as Hpos. pose proof (half_small k Hk) as Hsm.
  pose proof (pow_double k ltac:(lia)) as Hd. unfold half in *.
  induction n as [|n IH]; intros w s Hsz Hm Hs Hn Hp.
  - exists w. split; [reflexivity|]. split; [apply same_but_buckets_refl|].
    split; [|auto]. now rewrite Z.add_0_r.
  - cbn [stride_loop]. unfold bind at 1. unfold table_get.
    rewrite Hsz.
    replace ((0 <=? s) && (s <? 2 ^ k)) with true
      by (symmetry; apply andb_true_iff; split;
          [apply Z.leb_le|apply Z.ltb_lt]; lia).
    unfold bind at 1. unfold get_world.
    destruct (stride_chain_spec (w_heap w) (t_mask (w_table w)) s
                (s + 2 ^ (k - 1)) (bucket w s)) with (S := @nil addr) (T := @nil addr)
      as (S' & T' & Hsc & HS & HT).
    { intros a Ha. apply (split_candidates k Hk w s a Hm); auto. lia. }
    unfold bucket in Hsc. rewrite Hsc.
    unfold bind at 1. unfold table_set at 1. rewrite Hsz.
    replace ((0 <=? s) && (s <? 2 ^ k)) with true
      by (symmetry; apply andb_true_iff; split;
          [apply Z.leb_le|apply Z.ltb_lt]; lia).
    unfold bind at 1. unfold table_set at 1. cbn [w_table with_table t_size with_buckets set_table_field].
    rewrite Hsz.
    replace ((0 <=? s + 2 ^ (k - 1)) && (s + 2 ^ (k - 1) <? 2 ^ k)) with true
      by (symmetry; apply andb_true_iff; split;
          [apply Z.leb_le|apply Z.ltb_lt]; lia).
    cbn [t_table with_buckets set_table_field t_mask t_size t_used
         t_striding t_nentries].
    set (w1 := with_table _ _).
    assert (Hw1 : w1 = with_table (with_buckets
              (<[s + 2 ^ (k - 1) := T']> (<[s := S']> (t_table (w_table w))))
              (w_table w)) w) by reflexivity.
    destruct (placed_step k Hk w s S' T' Hm ltac:(lia) Hp HS HT)
      as [Hp1 Hst1].
    cbv zeta in Hp1, Hst1. rewrite <- Hw1 in Hp1, Hst1.
    rewrite !u32_small by lia.
    replace (s + 2 ^ (k - 1) + 1) with (s + 1 + 2 ^ (k - 1)) in * by lia.
    assert (Hm1 : t_mask (w_table w1) = t_mask (w_table w)) by reflexivity.
    rewrite <- Hm1.
    destruct (IH w1 (s + 1)) as (w' & Hrun & Hsame & Hp' & Hst');
      try (rewrite Hw1; cbn; assumption); try lia; try assumption.
    exists w'. split; [exact Hrun|]. split.
    + eapply same_but_buckets_trans; [|exact Hsame]. now eexists.
    + split; [|auto].
      replace (s + 2 ^ (k - 1) + Z.of_nat (S n))
        with (s + 1 + 2 ^ (k - 1) + Z.of_nat n) by lia.
      exact Hp'.
Qed.
End StrideLoop.

(** ** The stride routine *)

Lemma pow_half (k : Z) : 1 <= k -> 2 ^ k / 2 = 2 ^ (k - 1).
Proof.
  intros Hk. rewrite (pow_double k Hk).
  rewrite Z.mul_comm. apply Z.div_mul. lia.
Qed.

Lemma andb_range (x hi : Z) : 0 <= x < hi -> (0 <=? x) && (x <? hi) = true.
Proof.
  intros H. apply andb_true_iff. split; [apply Z.leb_le|apply Z.ltb_lt]; lia.
Qed.

Lemma mc_table_stride_ok (k : Z) (w : mc_world) :
  1 <= k <= 30 ->
  t_size (w_table w) = 2 ^ k -> t_mask (w_table w) = 2 ^ k - 1 ->
  2 ^ (k - 1) <= t_used (w_table w) ->
  t_used (w_table w) + MC_TABLE_STRIDE <= 2 ^ k ->
  placed w (t_used (w_table w)) ->
  exists tb,
    let w' := with_table (with_used (t_used (w_table w) + MC_TABLE_STRIDE)
                            (with_buckets tb (w_table w))) w in
    mc_table_stride w = Some (tt, w') /\
    placed w' (t_used (w_table w) + MC_TABLE_STRIDE) /\
    (forall a, stored w a -> stored w' a).
Proof.
  intros Hk Hsz Hm Hu Hs Hp.
  pose proof (half_pos k Hk) as Hpos. pose proof (half_small k Hk) as Hsm.
  pose proof (pow_double k ltac:(lia)) as Hd.
  unfold MC_TABLE_STRIDE in *.
  set (u := t_used (w_table w)) in *.
  destruct (stride_loop_ok k Hk 64 w (u - 2 ^ (k - 1)))
    as (w1 & Hrun & [tb ->] & Hp1 & Hst1); try assumption; try lia.
  { now replace (u - 2 ^ (k - 1) + 2 ^ (k - 1)) with u by lia. }
  replace (u - 2 ^ (k - 1) + 2 ^ (k - 1)) with u in * by lia.
  exists tb. cbv zeta. split; [|split].
  - unfold mc_table_stride, MC_TABLE_STRIDE. unfold bind at 1.
    unfold get_world. fold u. rewrite Hsz, pow_half by lia.
    replace (u <? 2 ^ k) with true by (symmetry; apply Z.ltb_lt; lia).
    replace (2 ^ (k - 1) <=? u) with true by (symmetry; apply Z.leb_le; lia).
    rewrite !u32_small by lia.
    replace (u + 64 <=? 2 ^ k) with true by (symmetry; apply Z.leb_le; lia).
    cbn [ASSERT]. unfold bind at 1. unfold ret at 1.
    unfold bind at 1. unfold ret at 1. unfold bind at 1. unfold ret at 1.
    unfold bind at 1. change (Z.to_nat 64) with 64%nat. rewrite Hrun.
    unfold modify_table. cbn. rewrite u32_small by (fold u; lia).
    reflexivity.
  - intros b a Ha. destruct (Hp1 b a Ha) as (e & He & Hi).
    exists e. split; [exact He|exact Hi].
  - intros a Ha. destruct (Hst1 a Ha) as [b Hb]. now exists b.
Qed.

(** Doubling [size] and [mask] moves no entry: with [used] at the old size
    every hash still selects its old bucket. *)
Lemma placed_double (k : Z) (w : mc_world) :
  1 <= k -> t_mask (w_table w) = 2 ^ k - 1 -> placed w (2 ^ k) ->
  placed (with_table (with_size_mask (2 ^ (k + 1)) (2 ^ (k + 1) - 1)
            (w_table w)) w) (2 ^ k).
Proof.
  intros Hk Hm Hp b a Ha. destruct (Hp b a Ha) as (e & He & Hi).
  exists e. split; [exact He|].
  rewrite index_mod with (k := k) in Hi by (try lia; exact Hm).
  rewrite index_mod with (k := k + 1) by (try lia; reflexivity).
  cbn [t_used with_used set_table_field] in *.
  replace (k + 1 - 1) with k by lia.
  pose proof (mod_range k ltac:(lia) (entry_hash e)) as Hr.
  pose proof (mod_range (k + 1) ltac:(lia) (entry_hash e)) as Hr'.
  assert (Hmm : (entry_hash e mod 2 ^ (k + 1)) mod 2 ^ k = entry_hash e mod 2 ^ k).
  { apply Z.mod_mod_divide. exists 2. rewrite Z.pow_add_r by lia. lia. }
  destruct (Z.geb_spec (entry_hash e mod 2 ^ k) (2 ^ k)); [lia|].
  destruct (Z.geb_spec (entry_hash e mod 2 ^ (k + 1)) (2 ^ k)).
  - now rewrite Hmm.
  - rewrite <- Hi, <- Hmm. symmetry. apply Z.mod_small. lia.
Qed.

Lemma land_pow2 (k : Z) : 1 <= k -> Z.land (2 ^ k) (2 ^ k - 1) = 0.
Proof.
  intros Hk. rewrite land_mask by lia. apply Z_mod_same_full.
Qed.

Lemma stride_multiple (k u : Z) :
  6 <= k -> u mod 64 = 0 -> u < 2 ^ k -> u + 64 <= 2 ^ k.
Proof.
  intros Hk Hu Hlt.
  assert (H64 : 2 ^ k = 64 * 2 ^ (k - 6)).
  { change 64 with (2 ^ 6). rewrite <- Z.pow_add_r by lia. f_equal. lia. }
  assert (0 < 2 ^ (k - 6)) by (apply Z.pow_pos_nonneg; lia).
  apply Z.mod_divide in Hu; [|lia]. destruct Hu as [q ->]. nia.
Qed.

Lemma placed_same (w w' : mc_world) (u : Z) :
  w_heap w = w_heap w' ->
  t_table (w_table w) = t_table (w_table w') ->
  t_mask (w_table w) = t_mask (w_table w') ->
  placed w u -> placed w' u.
Proof.
  intros Hh Ht Hm Hp b a Ha. unfold bucket in Ha. rewrite <- Ht in Ha.
  destruct (Hp b a Ha) as (e & He & Hi). exists e. rewrite <- Hh.
  split; [exact He|]. unfold mc_table_index in *. cbn in *.
  now rewrite <- Hm.
Qed.

Lemma stored_same (w w' : mc_world) (a : addr) :
  t_table (w_table w) = t_table (w_table w') -> stored w a -> stored w' a.
Proof. intros Ht [b Hb]. exists b. unfold bucket in *. now rewrite <- Ht. Qed.

Lemma pow2_lt_inv (a b : Z) : 0 <= a -> 0 <= b -> 2 ^ a < 2 ^ b -> a < b.
Proof. intros Ha Hb H. apply (Z.pow_lt_mono_r_iff 2); lia. Qed.

Lemma mc_table_stride_routine_ok (w : mc_world) :
  table_inv w -> t_striding (w_table w) = true ->
  (t_used (w_table w) = t_size (w_table w) ->
   t_size (w_table w) < MC_TABLE_SIZE_MAX) ->
  exists w',
    mc_table_stride_routine w = Some (tt, w') /\
    table_inv w' /\
    w_heap w' = w_heap w /\
    t_size (w_table w') =
      (if t_used (w_table w) =? t_size (w_table w)
       then 2 * t_size (w_table w) else t_size (w_table w)) /\
    t_used (w_table w') = t_used (w_table w) + MC_TABLE_STRIDE /\
    (forall a, stored w a -> stored w' a).
Proof.
  intros [(k & Hk & Hsz) Hm Hu Hs Hp Hkeys] Hstr Hmax.
  rewrite Hsz in Hm.
  pose proof (pow_half k ltac:(lia)) as Hh.
  pose proof (pow_double k ltac:(lia)) as Hd.
  pose proof (half_pos k ltac:(lia)) as Hpos.
  pose proof (half_small k ltac:(lia)) as Hsm.
  assert (H64 : 64 <= 2 ^ (k - 1)).
  { change 64 with (2 ^ 6). apply Z.pow_le_mono_r; lia. }
  rewrite Hsz, Hh in Hu.
  unfold mc_table_stride_routine. unfold bind at 1. unfold get_world.
  rewrite Hstr. cbn [ASSERT]. unfold bind at 1. unfold ret at 1.
  unfold bind at 1.
  (* the world after the optional doubling *)
  assert (Hexp : exists w1 k1,
    (if t_used (w_table w) =? t_size (w_table w)
     then mc_table_expand (u32 (t_size (w_table w) * 2)) else ret tt) w
      = Some (tt, w1) /\
    12 <= k1 <= 29 /\ t_size (w_table w1) = 2 ^ k1 /\
    t_mask (w_table w1) = 2 ^ k1 - 1 /\
    2 ^ (k1 - 1) <= t_used (w_table w) /\
    t_used (w_table w) + MC_TABLE_STRIDE <= 2 ^ k1 /\
    placed w1 (t_used (w_table w)) /\
    w_heap w1 = w_heap w /\ t_used (w_table w1) = t_used (w_table w) /\
    t_table (w_table w1) = t_table (w_table w) /\
    2 ^ k1 = (if t_used (w_table w) =? t_size (w_table w)
              then 2 * t_size (w_table w) else t_size (w_table w))).
  { destruct (Z.eqb_spec (t_used (w_table w)) (t_size (w_table w))) as [E|E].
    - specialize (Hmax E). rewrite Hsz in Hmax, E.
      change MC_TABLE_SIZE_MAX with (2 ^ 29) in Hmax.
      apply pow2_lt_inv in Hmax; try lia.
      assert (Hd' : 2 ^ (k + 1) = 2 * 2 ^ k)
        by (rewrite Z.pow_add_r by lia; lia).
      eexists _, (k + 1). split.
      + unfold mc_table_expand. unfold bind at 1.
        rewrite Hsz. rewrite !u32_small by lia.
        replace (2 ^ k <? 2 ^ k * 2) with true
          by (symmetry; apply Z.ltb_lt; lia).
        cbn [ASSERT]. unfold bind at 1. unfold ret at 1.
        replace (2 ^ k * 2) with (2 ^ (k + 1)) by lia.
        rewrite land_pow2 by lia. cbn [Z.eqb ASSERT].
        unfold bind at 1. unfold ret at 1. unfold modify_table.
        reflexivity.
      + cbn [w_table with_table t_size t_mask t_used t_table with_size_mask
             set_table_field w_heap].
        replace (k + 1 - 1) with k by lia. rewrite E, Hsz.
        unfold MC_TABLE_STRIDE.
        repeat split; try lia.
        apply placed_double; [lia|exact Hm|rewrite <- E; exact Hp].
    - exists w, k. split; [reflexivity|].
      rewrite Hsz in E.
      repeat split; try lia; try assumption.
      apply stride_multiple; try lia. exact Hs. }
  destruct Hexp as (w1 & k1 & -> & Hk1 & Hsz1 & Hm1 & Hu1 & Hs1 & Hp1 &
                    Hheap1 & Hused1 & Htab1 & Hsize1).
  rewrite <- Hused1 in Hu1, Hs1, Hp1.
  destruct (mc_table_stride_ok k1 w1 ltac:(lia) Hsz1 Hm1 Hu1 Hs1 Hp1)
    as (tb & Hrun & Hp2 & Hst2).
  cbv zeta in Hrun, Hp2, Hst2. set (w2 := with_table _ w1) in *.
  unfold bind at 1. rewrite Hrun. unfold bind at 1. unfold get_world.
  assert (Hinv2 : forall w3, w_heap w3 = w_heap w2 ->
            t_table (w_table w3) = t_table (w_table w2) ->
            t_mask (w_table w3) = t_mask (w_table w2) ->
            t_size (w_table w3) = t_size (w_table w2) ->
            t_used (w_table w3) = t_used (w_table w2) ->
            table_inv w3).
  { intros w3 Eh Et Em Es Eu. split.
    - exists k1. rewrite Es. cbn. now rewrite Hsz1.
    - rewrite Em, Es. cbn. rewrite Hm1, Hsz1. reflexivity.
    - rewrite Es, Eu. cbn. rewrite Hsz1, pow_half by lia.
      unfold MC_TABLE_STRIDE in *. lia.
    - rewrite Eu. cbn. rewrite Hused1. unfold MC_TABLE_STRIDE in *.
      rewrite <- (Z.mul_1_l 64) at 1. rewrite Z_mod_plus_full. exact Hs.
    - rewrite Eu. apply (placed_same w2); auto.
    - intros a e He. rewrite Eh in He. cbn in He. rewrite Hheap1 in He.
      eauto. }
  assert (Hst : forall a, stored w a -> stored w2 a).
  { intros a Ha. apply Hst2. apply (stored_same w); auto. }
  destruct (mc_table_is_full (w_table w2)).
  - eexists. split; [reflexivity|]. split; [now apply Hinv2|].
    cbn. rewrite Hsz1, Hused1, Hsize1.
    repeat split; auto; intros a Ha; apply (stored_same w2); auto.
  - eexists. split; [reflexivity|]. split; [now apply Hinv2|].
    cbn. rewrite Hsz1, Hused1, Hsize1.
    repeat split; auto; intros a Ha; apply (stored_same w2); auto.
Qed.

(** ** Lookups under the invariant *)

Lemma index_range (w : mc_world) (h : Z) :
  table_inv w ->
  0 <= mc_table_index (w_table w) h < t_size (w_table w).
Proof.
  intros [(k & Hk & Hsz) Hm Hu _ _ _]. rewrite Hsz in *.
  rewrite pow_half in Hu by lia.
  pose proof (index_below k ltac:(lia) (w_table w) h Hm ltac:(lia)).
  split; [|lia].
  rewrite index_mod with (k := k) by (try lia; exact Hm).
  pose proof (mod_range k ltac:(lia) h).
  destruct (_ >=? _); [|lia].
  apply Z.mod_pos_bound. apply Z.pow_pos_nonneg; lia.
Qed.

Lemma table_get_inv (w : mc_world) (h : Z) :
  table_inv w ->
  table_get (mc_table_index (w_table w) h) w
    = Some (bucket w (mc_table_index (w_table w) h), w).
Proof.
  intros Hinv. unfold table_get.
  now rewrite andb_range by (apply index_range; exact Hinv).
Qed.

Lemma lookup_chain_finds heap c key key_len a e :
  (forall x, x ∈ c -> is_Some (heap !! x)) ->
  a ∈ c -> heap !! a = Some e -> key_matches key key_len e = true ->
  exists a' e', lookup_chain heap c key key_len = Some (Some a') /\
    a' ∈ c /\ heap !! a' = Some e' /\ key_matches key key_len e' = true.
Proof.
  induction c as [|x c IH]; intros Hlive Ha He Hk; [inversion Ha|].
  destruct (Hlive x) as [ex Hex]; [left|]. simpl. rewrite Hex.
  destruct (key_matches key key_len ex) eqn:Hm.
  - exists x, ex. repeat split; auto. left.
  - apply elem_of_cons in Ha as [->|Ha]; [congruence|].
    destruct IH as (a' & e' & Hl & Hin & He' & Hk'); auto.
    { intros y Hy. apply Hlive. now right. }
    exists a', e'. repeat split; auto. now right.
Qed.

Lemma key_matches_self (e : mc_entry) :
  key_matches (entry_key e) (entry_key_len e) e = true.
Proof.
  unfold key_matches. rewrite Z.eqb_refl. simpl.
  apply bool_decide_eq_true. reflexivity.
Qed.

Lemma u8_small (x : Z) : 0 <= x < 256 -> u8 x = x.
Proof. intros H. unfold u8. apply Z.mod_small. simpl. lia. Qed.

Lemma stored_findable (w : mc_world) (a : addr) (e : mc_entry) :
  table_inv w -> stored w a -> w_heap w !! a = Some e ->
  let index := mc_table_key_index (w_table w) (entry_key e) (entry_key_len e) in
  a ∈ bucket w index /\
  exists a' e',
    mc_table_lookup index (entry_key e) (entry_key_len e) w = Some (Some a', w) /\
    w_heap w !! a' = Some e' /\
    key_matches (entry_key e) (entry_key_len e) e' = true.
Proof.
  intros Hinv [b Hb] He index.
  pose proof (inv_placed w Hinv b a Hb) as (e0 & He0 & Hidx).
  rewrite He in He0. injection He0 as <-.
  pose proof (inv_keys w Hinv a e He) as Hkl.
  assert (Hindex : index = b).
  { unfold index, mc_table_key_index. rewrite u8_small by exact Hkl.
    rewrite <- Hidx. unfold mc_table_index. reflexivity. }
  rewrite Hindex. split; [exact Hb|].
  destruct (lookup_chain_finds (w_heap w) (bucket w b) (entry_key e)
              (entry_key_len e) a e) as (a' & e' & Hl & Hin & He' & Hk');
    auto using key_matches_self.
  { intros x Hx. destruct (inv_placed w Hinv b x Hx) as (ex & Hex & _).
    now exists ex. }
  exists a', e'. split; [|auto].
  unfold mc_table_lookup. unfold bind at 1.
  assert (Hget : table_get b w = Some (bucket w b, w)).
  { rewrite <- Hidx.
    change (mc_table_index (with_used (t_used (w_table w)) (w_table w)) (entry_hash e))
      with (mc_table_index (w_table w) (entry_hash e)).
    now apply table_get_inv. }
  rewrite Hget. unfold bind at 1. unfold get_world.
  rewrite u8_small by exact Hkl. now rewrite Hl.
Qed.

Lemma mc_table_index_claim (w : mc_world) (h : Z) :
  table_inv w ->
  mc_table_index (w_table w) h =
    let size := t_size (w_table w) in
    if Z.land h (size - 1) <? t_used (w_table w) then Z.land h (size - 1)
    else Z.land h (Z.shiftr (size - 1) 1).
Proof.
  intros [(k & Hk & Hsz) Hm _ _ _ _]. cbv zeta. rewrite Hsz in *.
  rewrite index_mod with (k := k) by (try lia; exact Hm).
  rewrite land_mask, half_mask by lia.
  replace (2 ^ (k - 1) - 1) with (Z.ones (k - 1))
    by (rewrite Z.ones_equiv; lia).
  rewrite Z.land_ones by lia.
  rewrite Z.geb_leb, Z.ltb_antisym.
  destruct (t_used (w_table w) <=? h mod 2 ^ k); [|reflexivity].
  simpl. apply Z.mod_mod_divide. exists 2. rewrite (pow_double k); lia.
Qed.

(** C4: a lookup of hash [h] examines bucket [h & (size-1)] when that index
    is below [used] and bucket [h & ((size-1) >> 1)] otherwise; a stride
    step (doubling [size] and [mask] first when [used = size], then
    splitting [MC_TABLE_STRIDE] buckets and advancing [used]) keeps the
    invariant, and every entry stored before the step is afterwards in the
    bucket computed for its key, where a lookup of the key succeeds. *)
Theorem stride_keeps_entries_findable (w : mc_world) :
  table_inv w ->
  (forall h,
     mc_table_index (w_table w) h =
       let size := t_size (w_table w) in
       if Z.land h (size - 1) <? t_used (w_table w) then Z.land h (size - 1)
       else Z.land h (Z.shiftr (size - 1) 1)) /\
  (t_striding (w_table w) = true ->
   (t_used (w_table w) = t_size (w_table w) ->
    t_size (w_table w) < MC_TABLE_SIZE_MAX) ->
   exists w',
     mc_table_stride_routine w = Some (tt, w') /\
     table_inv w' /\
     t_size (w_table w') =
       (if t_used (w_table w) =? t_size (w_table w)
        then 2 * t_size (w_table w) else t_size (w_table w)) /\
     t_mask (w_table w') = t_size (w_table w') - 1 /\
     t_used (w_table w') = t_used (w_table w) + MC_TABLE_STRIDE /\
     forall a e, stored w a -> w_heap w !! a = Some e ->
       let index :=
         mc_table_key_index (w_table w') (entry_key e) (entry_key_len e) in
       w_heap w' !! a = Some e /\
       a ∈ bucket w' index /\
       exists a' e',
         mc_table_lookup index (entry_key e) (entry_key_len e) w'
           = Some (Some a', w') /\
         w_heap w' !! a' = Some e' /\
         key_matches (entry_key e) (entry_key_len e) e' = true).
Proof.
  intros Hinv. split.
  - intros h. now apply mc_table_index_claim.
  - intros Hstr Hmax.
    destruct (mc_table_stride_routine_ok w Hinv Hstr Hmax)
      as (w' & Hrun & Hinv' & Hheap & Hsize & Hused & Hst).
    exists w'. split; [exact Hrun|]. split; [exact Hinv'|].
    split; [exact Hsize|]. split; [apply (inv_mask w' Hinv')|].
    split; [exact Hused|]. intros a e Ha He index.
    split; [now rewrite Hheap|].
    apply stored_findable; auto. now rewrite Hheap.
Qed.

(** ** Entries, chains and the world invariant *)

Lemma bucket_with_heap h w b : bucket (with_heap h w) b = bucket w b.
Proof. reflexivity. Qed.

Lemma placed_update (w : mc_world) (a : addr) (e e' : mc_entry) (u : Z) :
  w_heap w !! a = Some e ->
  entry_key e' = entry_key e -> entry_key_len e' = entry_key_len e ->
  placed w u -> placed (with_heap (<[a := e']> (w_heap w)) w) u.
Proof.
  intros He Hk Hl Hp b x Hx. rewrite bucket_with_heap in Hx.
  destruct (Hp b x Hx) as (ex & Hex & Hi). cbn.
  destruct (decide (x = a)) as [->|Hne].
  - exists e'. rewrite lookup_insert_eq. split; [reflexivity|].
    rewrite He in Hex. injection Hex as <-.
    unfold entry_hash in *. now rewrite Hk, Hl.
  - exists ex. now rewrite lookup_insert_ne by congruence.
Qed.

Lemma world_inv_update (w : mc_world) (a : addr) (e e' : mc_entry) :
  w_heap w !! a = Some e ->
  entry_key e' = entry_key e -> entry_key_len e' = entry_key_len e ->
  world_inv w -> world_inv (with_heap (<[a := e']> (w_heap w)) w).
Proof.
  intros He Hk Hl [[Hsz Hm Hu Hs Hp Hkeys] Hnd Hfr].
  split; [split|..]; cbn; auto.
  - now apply placed_update with (e := e).
  - intros x ex. destruct (decide (x = a)) as [->|Hne].
    + rewrite lookup_insert_eq. intros [= <-]. rewrite Hl. eauto.
    + rewrite lookup_insert_ne by congruence. eauto.
  - intros x. destruct (decide (x = a)) as [->|Hne].
    + intros _. apply Hfr. now exists e.
    + rewrite lookup_insert_ne by congruence. apply Hfr.
Qed.

Lemma world_inv_delete (w : mc_world) (a : addr) :
  ~ stored w a -> world_inv w ->
  world_inv (with_heap (delete a (w_heap w)) w).
Proof.
  intros Hns [[Hsz Hm Hu Hs Hp Hkeys] Hnd Hfr].
  split; [split|..]; cbn; auto.
  - intros b x Hx. rewrite bucket_with_heap in Hx.
    destruct (Hp b x Hx) as (ex & Hex & Hi). exists ex. cbn.
    rewrite lookup_delete_ne; [auto|]. intros ->. apply Hns. now exists b.
  - intros x ex Hx. apply lookup_delete_Some in Hx as [_ Hx]. eauto.
  - intros x [ex Hx]. apply lookup_delete_Some in Hx as [_ Hx].
    apply Hfr. now exists ex.
Qed.

(** *** Reference counts *)

Lemma mc_entry_ref_ok (w : mc_world) (a : addr) (e : mc_entry) :
  w_heap w !! a = Some e -> 0 <= entry_ref_count e < 2 ^ 32 - 1 ->
  mc_entry_ref a w =
    Some (tt, with_heap
                (<[a := entry_with_ref_count (entry_ref_count e + 1) e]> (w_heap w)) w).
Proof.
  intros He Hr. unfold mc_entry_ref, bind, load_entry, store_entry.
  rewrite He. cbv beta. rewrite He. rewrite u32_small by lia.
  destruct (Z.eqb_spec (entry_ref_count e + 1) 0); [lia|]. reflexivity.
Qed.

Lemma mc_entry_unref_ok (w : mc_world) (a : addr) (e : mc_entry) :
  w_heap w !! a = Some e ->
  mc_entry_unref a w =
    Some (tt,
          if u32 (entry_ref_count e - 1) =? 0
          then with_heap (delete a (w_heap w)) w
          else with_heap
                 (<[a := entry_with_ref_count (u32 (entry_ref_count e - 1)) e]>
                    (w_heap w)) w).
Proof.
  intros He. unfold mc_entry_unref, bind, load_entry, store_entry.
  rewrite He. cbv beta. rewrite He.
  destruct (Z.eqb_spec (u32 (entry_ref_count e - 1)) 0); [|reflexivity].
  cbn. rewrite lookup_insert_eq. unfold with_heap. cbn.
  now rewrite delete_insert_eq.
Qed.

Lemma mc_entry_unref_inv (w : mc_world) (a : addr) :
  world_inv w -> is_Some (w_heap w !! a) -> ~ stored w a ->
  exists w', mc_entry_unref a w = Some (tt, w') /\ world_inv w' /\
    w_table w' = w_table w /\ w_next w' = w_next w /\ w_cas w' = w_cas w /\
    (forall x, x <> a -> w_heap w' !! x = w_heap w !! x) /\
    (forall x ex, w_heap w' !! x = Some ex ->
       exists ex0, w_heap w !! x = Some ex0 /\ entry_cas ex0 = entry_cas ex).
Proof.
  intros Hinv [e He] Hns. rewrite (mc_entry_unref_ok w a e He).
  eexists. split; [reflexivity|].
  destruct (u32 (entry_ref_count e - 1) =? 0).
  - split; [now apply world_inv_delete|]. split_and!; auto.
    + intros x Hx. cbn. now rewrite lookup_delete_ne by congruence.
    + intros x ex Hx. cbn in Hx. apply lookup_delete_Some in Hx as [_ Hx].
      eauto.
  - split; [now apply world_inv_update with (e := e)|]. split_and!; auto.
    + intros x Hx. cbn. now rewrite lookup_insert_ne by congruence.
    + intros x ex. cbn. destruct (decide (x = a)) as [->|Hne].
      * rewrite lookup_insert_eq. intros [= <-]. eauto.
      * rewrite lookup_insert_ne by congruence. eauto.
Qed.

(** *** Chains *)

Lemma lookup_chain_spec heap c key key_len :
  (forall x, x ∈ c -> is_Some (heap !! x)) ->
  exists r, lookup_chain heap c key key_len = Some r /\
    match r with
    | Some a => a ∈ c /\ exists e, heap !! a = Some e /\
                                 key_matches key key_len e = true
    | None => forall x e, x ∈ c -> heap !! x = Some e ->
                          key_matches key key_len e = false
    end.
Proof.
  induction c as [|x c IH]; intros Hlive.
  - exists None. split; [reflexivity|]. intros x e Hx. inversion Hx.
  - destruct (Hlive x) as [ex Hex]; [left|]. simpl. rewrite Hex.
    destruct (key_matches key key_len ex) eqn:Hm.
    + exists (Some x). split; [reflexivity|]. split; [left|eauto].
    + destruct IH as (r & -> & Hr). { intros y Hy. apply Hlive. now right. }
      exists r. split; [reflexivity|]. destruct r as [a|].
      * destruct Hr as [Ha He]. split; [now right|exact He].
      * intros y e Hy He. apply elem_of_cons in Hy as [->|Hy]; [congruence|].
        eauto.
Qed.

Lemma remove_chain_spec heap c key key_len :
  (forall x, x ∈ c -> is_Some (heap !! x)) ->
  exists r c', remove_chain heap c key key_len = Some (r, c') /\
    lookup_chain heap c key key_len = Some r /\
    (forall x, x ∈ c' -> x ∈ c) /\
    (NoDup c -> NoDup c') /\
    match r with
    | Some a => a ∈ c /\ (NoDup c -> a ∉ c')
    | None => c' = c
    end.
Proof.
  induction c as [|x c IH]; intros Hlive.
  - exists None, []. repeat split; auto.
  - destruct (Hlive x) as [ex Hex]; [left|]. simpl. rewrite Hex.
    destruct (key_matches key key_len ex) eqn:Hm.
    + exists (Some x), c. repeat split; auto.
      * intros y Hy. now right.
      * intros Hnd. now apply NoDup_cons in Hnd.
      * left.
      * intros Hnd. now apply NoDup_cons in Hnd.
    + destruct IH as (r & c' & -> & -> & Hsub & Hnd & Hr).
      { intros y Hy. apply Hlive. now right. }
      exists r, (x :: c'). repeat split; auto.
      * intros y Hy. apply elem_of_cons in Hy as [->|Hy]; [left|right; auto].
      * intros Hn. apply NoDup_cons in Hn as [Hx Hn].
        apply NoDup_cons. split; auto.
      * destruct r as [a|]; [|now rewrite Hr].
        destruct Hr as [Hin Hr]. split; [now right|].
        intros Hn. apply NoDup_cons in Hn as [Hx Hn].
        intros Ha. apply elem_of_cons in Ha as [->|Ha]; [contradiction|].
        now apply Hr.
Qed.

(** *** Bucket updates and the invariant *)

Lemma bucket_set_bucket w i c b :
  bucket (set_bucket w i c) b = if decide (b = i) then c else bucket w b.
Proof.
  unfold bucket, set_bucket. cbn. destruct (decide (b = i)) as [->|Hne].
  - now rewrite lookup_insert_eq.
  - now rewrite lookup_insert_ne by congruence.
Qed.

Lemma table_set_ok w i c :
  0 <= i < t_size (w_table w) -> table_set i c w = Some (tt, set_bucket w i c).
Proof. intros Hi. unfold table_set. now rewrite andb_range. Qed.

Lemma table_get_ok w i :
  0 <= i < t_size (w_table w) -> table_get i w = Some (bucket w i, w).
Proof. intros Hi. unfold table_get. now rewrite andb_range. Qed.

(** The invariant looks at the heap, the allocator, the geometry and the
    buckets only. *)
Lemma world_inv_same (w w' : mc_world) :
  w_heap w' = w_heap w -> w_next w' = w_next w ->
  t_table (w_table w') = t_table (w_table w) -> same_geometry w w' ->
  world_inv w -> world_inv w'.
Proof.
  intros Hh Hn Ht (Hm & Hs & Hu) [[Hsz Hmk Hus Hst Hp Hkeys] Hnd Hfr].
  assert (Hb : forall b, bucket w' b = bucket w b).
  { intros b. unfold bucket. now rewrite Ht. }
  split; [split|..].
  - now rewrite Hs.
  - now rewrite Hm, Hs.
  - now rewrite Hs, Hu.
  - now rewrite Hu.
  - rewrite Hu. apply (placed_same w); auto.
  - intros a e. rewrite Hh. eauto.
  - intros b. rewrite Hb. auto.
  - intros a. rewrite Hh, Hn. auto.
Qed.

Lemma world_inv_set_bucket (w : mc_world) (i : Z) (c : list addr) :
  world_inv w -> NoDup c ->
  (forall x, x ∈ c -> x ∈ bucket w i \/
     exists e, w_heap w !! x = Some e /\
               mc_table_index (w_table w) (entry_hash e) = i) ->
  world_inv (set_bucket w i c).
Proof.
  intros [[Hsz Hmk Hus Hst Hp Hkeys] Hnd Hfr] Hc Hin.
  split; [split|..]; auto.
  - intros b x. rewrite bucket_set_bucket.
    destruct (decide (b = i)) as [->|Hne]; [|apply Hp].
    intros Hx. destruct (Hin x Hx) as [Hold|(e & He & Hi)].
    + apply Hp. exact Hold.
    + exists e. split; [exact He|exact Hi].
  - intros b. rewrite bucket_set_bucket. destruct (decide (b = i)); auto.
Qed.

Lemma stored_unique (w : mc_world) (a : addr) (b b' : Z) :
  world_inv w -> a ∈ bucket w b -> a ∈ bucket w b' -> b = b'.
Proof.
  intros [[_ _ _ _ Hp _] _ _] Hb Hb'.
  destruct (Hp b a Hb) as (e & He & Hi).
  destruct (Hp b' a Hb') as (e' & He' & Hi').
  rewrite He in He'. injection He' as <-. congruence.
Qed.

Lemma chain_live (w : mc_world) (b : Z) :
  world_inv w -> forall x, x ∈ bucket w b -> is_Some (w_heap w !! x).
Proof.
  intros [[_ _ _ _ Hp _] _ _] x Hx. destruct (Hp b x Hx) as (e & He & _).
  now exists e.
Qed.

(** *** [mc_table_remove] *)

Lemma mc_table_remove_ok (w : mc_world) (index : Z) key key_len :
  world_inv w -> 0 <= index < t_size (w_table w) ->
  exists r w',
    mc_table_remove index key key_len w = Some (r, w') /\
    lookup_chain (w_heap w) (bucket w index) key (u8 key_len) = Some r /\
    world_inv w' /\ w_heap w' = w_heap w /\ same_geometry w w' /\
    t_striding (w_table w') = t_striding (w_table w) /\
    w_next w' = w_next w /\ w_cas w' = w_cas w /\
    (forall b x, x ∈ bucket w' b -> x ∈ bucket w b) /\
    match r with
    | Some a =>
        a ∈ bucket w index /\ ~ stored w' a /\
        t_nentries (w_table w') = u64 (t_nentries (w_table w) - 1)
    | None => w' = w
    end.
Proof.
  intros Hinv Hi.
  destruct (remove_chain_spec (w_heap w) (bucket w index) key (u8 key_len))
    as (r & c' & Hrm & Hlk & Hsub & Hnd & Hr).
  { now apply chain_live. }
  unfold mc_table_remove. unfold bind at 1. rewrite table_get_ok by exact Hi.
  unfold bind at 1. unfold get_world. rewrite Hrm.
  destruct r as [a|].
  - destruct Hr as [Hin Hnot].
    unfold bind at 1. unfold mm_list_delete.
    unfold bind at 1. rewrite table_set_ok by exact Hi.
    unfold bind at 1. unfold modify_table. unfold ret.
    eexists (Some a), _. split; [reflexivity|]. split; [exact Hlk|].
    set (w1 := set_bucket _ index c').
    assert (Hinv1 : world_inv (set_bucket w index c')).
    { apply world_inv_set_bucket; auto. apply Hnd, Hinv. }
    assert (Hb : forall b x, x ∈ bucket (set_bucket w index c') b ->
                             x ∈ bucket w b).
    { intros b x. rewrite bucket_set_bucket.
      destruct (decide (b = index)) as [->|]; auto. }
    split; [|split_and!; auto].
    + eapply world_inv_same; [..|exact Hinv1]; try reflexivity.
      split_and!; reflexivity.
    + split_and!; reflexivity.
    + intros [b Hst].
      change (a ∈ bucket (set_bucket w index c') b) in Hst.
      assert (b = index).
      { apply (stored_unique w a); auto. }
      subst b. rewrite bucket_set_bucket in Hst.
      destruct (decide (index = index)); [|congruence].
      apply Hnot; auto. apply Hinv.
  - subst c'. unfold ret. exists None, w. split; [reflexivity|].
    split; [exact Hlk|]. split_and!; auto; try reflexivity.
    split_and!; reflexivity.
Qed.

(** *** Allocation and updates of entries not yet chained *)

Lemma fresh_not_stored (w : mc_world) (a : addr) :
  world_inv w -> (w_next w <= a)%nat -> ~ stored w a.
Proof.
  intros Hinv Ha [b Hb]. pose proof (chain_live w b Hinv a Hb) as Hl.
  apply (winv_fresh w Hinv) in Hl. lia.
Qed.

Lemma world_inv_update_free (w : mc_world) (a : addr) (e' : mc_entry) :
  is_Some (w_heap w !! a) -> ~ stored w a -> 0 <= entry_key_len e' < 256 ->
  world_inv w -> world_inv (with_heap (<[a := e']> (w_heap w)) w).
Proof.
  intros [e He] Hns Hl [[Hsz Hm Hu Hs Hp Hkeys] Hnd Hfr].
  split; [split|..]; cbn; auto.
  - intros b x Hx. rewrite bucket_with_heap in Hx.
    destruct (Hp b x Hx) as (ex & Hex & Hi). exists ex. cbn.
    rewrite lookup_insert_ne; [auto|]. intros <-. apply Hns. now exists b.
  - intros x ex. destruct (decide (x = a)) as [->|Hne].
    + rewrite lookup_insert_eq. now intros [= <-].
    + rewrite lookup_insert_ne by congruence. eauto.
  - intros x. destruct (decide (x = a)) as [->|Hne].
    + intros _. apply Hfr. now exists e.
    + rewrite lookup_insert_ne by congruence. apply Hfr.
Qed.

Lemma world_inv_alloc (w : mc_world) (e : mc_entry) (cas : Z) :
  0 <= entry_key_len e < 256 -> world_inv w -> world_inv (alloc w e cas).
Proof.
  intros Hl Hinv. pose proof Hinv as [[Hsz Hm Hu Hs Hp Hkeys] Hnd Hfr].
  split; [split|..]; cbn; auto.
  - intros b x Hx. change (x ∈ bucket w b) in Hx.
    destruct (Hp b x Hx) as (ex & Hex & Hi). exists ex. cbn.
    rewrite lookup_insert_ne; [auto|]. intros <-.
    apply (fresh_not_stored w (w_next w)); auto. now exists b.
  - intros x ex. destruct (decide (x = w_next w)) as [->|Hne].
    + rewrite lookup_insert_eq. now intros [= <-].
    + rewrite lookup_insert_ne by congruence. eauto.
  - intros x. destruct (decide (x = w_next w)) as [->|Hne]; [lia|].
    rewrite lookup_insert_ne by congruence. intros Hx. apply Hfr in Hx. lia.
Qed.

Lemma u8_range (x : Z) : 0 <= u8 x < 256.
Proof. unfold u8. apply Z.mod_pos_bound. reflexivity. Qed.

Lemma u32_range (x : Z) : 0 <= u32 x < 2 ^ 32.
Proof. unfold u32. apply Z.mod_pos_bound. reflexivity. Qed.

Lemma u64_range (x : Z) : 0 <= u64 x < 2 ^ 64.
Proof. unfold u64. apply Z.mod_pos_bound. reflexivity. Qed.

Lemma u64_small (x : Z) : 0 <= x < 2 ^ 64 -> u64 x = x.
Proof. intros H. unfold u64. now apply Z.mod_small. Qed.

(** *** [mc_table_insert] *)

Lemma is_full_counts (t t' : mc_table) :
  t_size t' = t_size t -> t_used t' = t_used t ->
  t_nentries t' = t_nentries t ->
  mc_table_is_full t' = mc_table_is_full t.
Proof. intros Hs Hu Hn. unfold mc_table_is_full. now rewrite Hs, Hu, Hn. Qed.

Lemma mc_table_insert_ok (w : mc_world) (index : Z) (a : addr) (e : mc_entry) :
  world_inv w -> 0 <= index < t_size (w_table w) ->
  w_heap w !! a = Some e ->
  mc_table_index (w_table w) (entry_hash e) = index ->
  ~ stored w a ->
  exists w',
    mc_table_insert index a w = Some (tt, w') /\
    world_inv w' /\ w_heap w' = w_heap w /\ same_geometry w w' /\
    w_next w' = w_next w /\ w_cas w' = w_cas w /\
    (forall b, bucket w' b =
       if decide (b = index) then a :: bucket w index else bucket w b) /\
    t_nentries (w_table w') = u64 (t_nentries (w_table w) + 1) /\
    let full := mc_table_is_full
                  (with_nentries (u64 (t_nentries (w_table w) + 1)) (w_table w)) in
    t_striding (w_table w') = t_striding (w_table w) || full /\
    w_posted w' =
      (if negb (t_striding (w_table w)) && full
       then S (w_posted w) else w_posted w).
Proof.
  intros Hinv Hi He Hidx Hns.
  unfold mc_table_insert. unfold bind at 1. unfold mm_list_append.
  unfold bind at 1. rewrite table_get_ok by exact Hi.
  unfold bind at 1. rewrite table_set_ok by exact Hi.
  unfold bind at 1. unfold modify_table. unfold bind at 1. unfold get_world.
  set (w1 := set_bucket (with_entry_list _ w) index _).
  assert (Hinv1 : world_inv (set_bucket w index (a :: bucket w index))).
  { apply world_inv_set_bucket; auto.
    - apply NoDup_cons. split; [|apply Hinv].
      intros Hin. apply Hns. now exists index.
    - intros x Hx. apply elem_of_cons in Hx as [->|Hx]; [right|now left].
      exists e. auto. }
  assert (Hb1 : forall b, bucket w1 b =
            if decide (b = index) then a :: bucket w index else bucket w b).
  { intros b. unfold w1. rewrite bucket_set_bucket. reflexivity. }
  cbv zeta.
  match goal with
  | |- context [if ?c then _ else _] =>
      replace c with
        (negb (t_striding (w_table w)) &&
         mc_table_is_full
           (with_nentries (u64 (t_nentries (w_table w) + 1)) (w_table w)))
        by reflexivity
  end.
  destruct (negb (t_striding (w_table w)) && mc_table_is_full _) eqn:Hfull.
  - unfold bind, modify_table, mc_table_start_striding.
    eexists. split; [reflexivity|]. split_and!; try reflexivity.
    + eapply world_inv_same; [..|exact Hinv1]; try reflexivity.
      split_and!; reflexivity.
    + split_and!; reflexivity.
    + exact Hb1.
    + cbn. apply andb_true_iff in Hfull as [_ ->]. now rewrite orb_true_r.
  - unfold ret. eexists. split; [reflexivity|]. split_and!; try reflexivity.
    + eapply world_inv_same; [..|exact Hinv1]; try reflexivity.
      split_and!; reflexivity.
    + split_and!; reflexivity.
    + exact Hb1.
    + cbn. apply andb_false_iff in Hfull as [Hs| ->].
      * apply negb_false_iff in Hs. now rewrite Hs.
      * now rewrite orb_false_r.
Qed.

(** *** Copying a payload out of the receive buffer *)

Lemma len_nonneg {A} (l : list A) : 0 <= len l.
Proof. unfold len. lia. Qed.

Lemma len_app {A} (l1 l2 : list A) : len (l1 ++ l2) = len l1 + len l2.
Proof. unfold len. rewrite length_app. lia. Qed.

Lemma len_ztake {A} (n : Z) (l : list A) :
  0 <= n <= len l -> len (ztake n l) = n.
Proof. unfold len, ztake. intros H. rewrite length_take. lia. Qed.

Lemma len_zdrop {A} (n : Z) (l : list A) :
  0 <= n <= len l -> len (zdrop n l) = len l - n.
Proof. unfold len, zdrop. intros H. rewrite length_drop. lia. Qed.

Lemma zdrop_app_le {A} (n : Z) (l1 l2 : list A) :
  0 <= n <= len l1 -> zdrop n (l1 ++ l2) = zdrop n l1 ++ l2.
Proof. unfold len, zdrop. intros H. apply drop_app_le. lia. Qed.

Lemma ztake_app_le {A} (n : Z) (l1 l2 : list A) :
  0 <= n <= len l1 -> ztake n (l1 ++ l2) = ztake n l1.
Proof. unfold len, ztake. intros H. apply take_app_le. lia. Qed.

Lemma ztake_app_ge {A} (n : Z) (l1 l2 : list A) :
  len l1 <= n -> ztake n (l1 ++ l2) = l1 ++ ztake (n - len l1) l2.
Proof.
  unfold len, ztake. intros H. rewrite take_app_ge by lia.
  do 2 f_equal. lia.
Qed.

Lemma ztake_all {A} (n : Z) (l : list A) : len l <= n -> ztake n l = l.
Proof. unfold len, ztake. intros H. apply take_ge. lia. Qed.

Lemma zdrop_0 {A} (l : list A) : zdrop 0 l = l.
Proof. reflexivity. Qed.

Lemma copy_segments_cons data next src bytes :
  copy_segments (data :: next) src bytes =
    if bytes <=? u32 (len data - src) then Some (ztake bytes (zdrop src data))
    else
      match copy_segments next 0 (u32 (bytes - u32 (len data - src))) with
      | None => None
      | Some rest' => Some (ztake (u32 (len data - src)) (zdrop src data) ++ rest')
      end.
Proof. reflexivity. Qed.

Lemma copy_segments_payload (next : list (list ascii)) :
  forall data start bytes,
    0 <= start <= len data -> 0 <= bytes < 2 ^ 32 ->
    start + bytes <= len (concat (data :: next)) ->
    Forall (fun d => len d < 2 ^ 32) (data :: next) ->
    copy_segments (data :: next) start bytes
      = Some (ztake bytes (zdrop start (concat (data :: next)))).
Proof.
  induction next as [|data' next IH]; intros data start bytes Hs Hb Hroom Hsz.
  - cbn [concat] in *. rewrite app_nil_r in *.
    apply Forall_cons in Hsz as [Hd _].
    rewrite copy_segments_cons. rewrite u32_small by lia.
    destruct (Z.leb_spec bytes (len data - start)); [reflexivity|lia].
  - pose proof Hsz as Hsz'. apply Forall_cons in Hsz' as [Hd Hsz'].
    cbn [concat] in *. rewrite len_app in Hroom.
    rewrite copy_segments_cons. rewrite !(u32_small (len data - start)) by lia.
    rewrite zdrop_app_le by lia.
    destruct (Z.leb_spec bytes (len data - start)).
    + rewrite ztake_app_le; [reflexivity|]. rewrite len_zdrop; lia.
    + rewrite u32_small by lia.
      rewrite IH; auto; try lia.
      2:{ split; [lia|]. apply len_nonneg. }
      rewrite zdrop_0.
      rewrite (ztake_all (len data - start)) by (rewrite len_zdrop; lia).
      rewrite (ztake_app_ge bytes) by (rewrite len_zdrop; lia).
      rewrite len_zdrop by lia. reflexivity.
Qed.

Lemma copy_segments_wf (value : mc_value) :
  value_wf value ->
  copy_segments (value_seg value) (value_start value) (value_bytes value)
    = Some (value_payload value).
Proof.
  intros [Hs Hseg Hb Hroom Hsz]. unfold value_payload.
  destruct (value_seg value) as [|data next]; [congruence|].
  now apply copy_segments_payload.
Qed.

Lemma value_payload_len (value : mc_value) :
  value_wf value -> len (value_payload value) = value_bytes value.
Proof.
  intros [Hs Hseg Hb Hroom Hsz]. unfold value_payload.
  destruct (value_seg value) as [|data next]; [congruence|].
  cbn [hd] in Hs. rewrite len_ztake; [reflexivity|].
  rewrite len_zdrop; [lia|]. cbn [concat]. rewrite len_app.
  pose proof (len_nonneg (concat next)). lia.
Qed.

Lemma memcpy_at_full (dst src : list ascii) :
  len src = len dst -> memcpy_at dst 0 src = src.
Proof.
  intros H. unfold memcpy_at. cbn [ztake Z.to_nat take app].
  unfold zdrop. rewrite drop_ge; [apply app_nil_r|].
  unfold len in *. lia.
Qed.

(** *** Storing a fresh entry *)

Lemma load_entry_ok w a e :
  w_heap w !! a = Some e -> load_entry a w = Some (e, w).
Proof. intros H. unfold load_entry. now rewrite H. Qed.

Lemma store_entry_ok w a e e' :
  w_heap w !! a = Some e ->
  store_entry a e' w = Some (tt, with_heap (<[a := e']> (w_heap w)) w).
Proof. intros H. unfold store_entry. now rewrite H. Qed.

Lemma update_entry_ok w a e (f : mc_entry -> mc_entry) :
  w_heap w !! a = Some e ->
  (e0 <- load_entry a ;; store_entry a (f e0)) w
    = Some (tt, with_heap (<[a := f e]> (w_heap w)) w).
Proof.
  intros H. unfold bind. rewrite (load_entry_ok w a e H).
  now rewrite (store_entry_ok w a e).
Qed.

Lemma with_heap_alloc w e e' cas :
  with_heap (<[w_next w := e']> (w_heap (alloc w e cas))) (alloc w e cas)
    = alloc w e' cas.
Proof. unfold with_heap, alloc. cbn. now rewrite insert_insert_eq. Qed.

Lemma mc_hash_take key n : mc_hash (ztake n key) n = mc_hash key n.
Proof. unfold mc_hash, ztake. now rewrite take_take, Nat.min_id. Qed.

Lemma entry_hash_new key key_len value flags cas :
  entry_hash (new_entry key key_len value flags cas) = mc_hash key (u8 key_len).
Proof. unfold entry_hash. cbn. apply mc_hash_take. Qed.

Lemma mc_process_value_ok w a e value :
  value_wf value -> w_heap w !! a = Some e ->
  len (mc_entry_value e) = value_bytes value ->
  mc_process_value a value 0 w =
    Some (tt, with_heap (<[a := entry_with_value (value_payload value) e]>
                           (w_heap w)) w).
Proof.
  intros Hwf He Hlen. unfold mc_process_value.
  pose proof (copy_segments_wf value Hwf) as Hcopy.
  destruct Hwf as [Hs Hseg Hb Hroom Hsz].
  destruct (value_seg value) as [|data next] eqn:Hsegs; [congruence|].
  cbn [hd] in Hs. unfold bind at 1.
  replace ((0 <=? value_start value) && (value_start value <=? len data))
    with true by (symmetry; apply andb_true_iff; split; apply Z.leb_le; lia).
  cbn [ASSERT]. unfold ret at 1. rewrite Hcopy.
  rewrite (update_entry_ok w a e
             (fun e0 => entry_with_value
                          (memcpy_at (mc_entry_value e0) 0 (value_payload value)) e0)
             He).
  rewrite memcpy_at_full; [reflexivity|].
  rewrite Hlen. apply value_payload_len.
  split; auto. rewrite Hsegs. exact Hs. rewrite Hsegs. congruence.
  rewrite Hsegs. exact Hroom. rewrite Hsegs. exact Hsz.
Qed.

Lemma len_replicate {A} (n : Z) (x : A) :
  0 <= n -> len (replicate (Z.to_nat n) x) = n.
Proof. intros H. unfold len. rewrite length_replicate. lia. Qed.

Lemma store_new_entry_ok (w : mc_world) key key_len value flags :
  world_inv w -> value_wf value ->
  let index := mc_table_key_index (w_table w) key key_len in
  let a := w_next w in
  let e := new_entry key key_len value flags (u64 (w_cas w + 1)) in
  exists w',
    store_new_entry index key key_len value flags w = Some (a, w') /\
    world_inv w' /\ w_heap w' = <[a := e]> (w_heap w) /\
    same_geometry w w' /\ w_next w' = S a /\ w_cas w' = u64 (w_cas w + 1) /\
    (forall b, bucket w' b =
       if decide (b = index) then a :: bucket w index else bucket w b) /\
    t_nentries (w_table w') = u64 (t_nentries (w_table w) + 1) /\
    let full := mc_table_is_full
                  (with_nentries (u64 (t_nentries (w_table w) + 1)) (w_table w)) in
    t_striding (w_table w') = t_striding (w_table w) || full /\
    w_posted w' =
      (if negb (t_striding (w_table w)) && full
       then S (w_posted w) else w_posted w).
Proof.
  intros Hinv Hwf index a e.
  pose proof (vwf_bytes value Hwf) as Hb.
  set (cas := u64 (w_cas w + 1)).
  set (e0 := {| entry_key_len := u8 key_len;
                entry_value_len := u32 (value_bytes value);
                entry_ref_count := 1; entry_flags := 0; entry_cas := cas;
                entry_key := replicate (Z.to_nat (u8 key_len)) NUL;
                entry_value := replicate (Z.to_nat (u32 (value_bytes value))) NUL |}).
  assert (Hcreate : mc_entry_create key_len (value_bytes value) w
                    = Some (a, alloc w e0 cas)) by reflexivity.
  assert (Hl0 : w_heap (alloc w e0 cas) !! a = Some e0)
    by (cbn; apply lookup_insert_eq).
  set (e1 := entry_with_key (ztake (entry_key_len e0) key) e0).
  set (e2 := entry_with_value (value_payload value) e1).
  assert (He : entry_with_flags flags e2 = e) by reflexivity.
  assert (Hinv3 : world_inv (alloc w e cas)).
  { apply world_inv_alloc; auto. cbn. apply u8_range. }
  assert (Hindex : 0 <= index < t_size (w_table w)).
  { apply index_range, Hinv. }
  destruct (mc_table_insert_ok (alloc w e cas) index a e Hinv3 Hindex)
    as (w' & Hins & Hinv' & Hheap & Hgeo & Hnext & Hcas & Hbk & Hn & Hstr);
    auto.
  { cbn. apply lookup_insert_eq. }
  { unfold e. rewrite entry_hash_new. reflexivity. }
  { intros [b Hb']. apply (fresh_not_stored w a Hinv); [unfold a; lia|].
    now exists b. }
  assert (Hstep1 : mc_entry_set_key a key (alloc w e0 cas)
                   = Some (tt, alloc w e1 cas)).
  { unfold mc_entry_set_key. rewrite (update_entry_ok _ a e0 _ Hl0).
    cbv beta. fold e1. unfold a. now rewrite with_heap_alloc. }
  assert (Hstep2 : mc_process_value a value 0 (alloc w e1 cas)
                   = Some (tt, alloc w e2 cas)).
  { rewrite (mc_process_value_ok _ a e1 value Hwf).
    - fold e2. unfold a. now rewrite with_heap_alloc.
    - cbn. apply lookup_insert_eq.
    - change (len (replicate (Z.to_nat (u32 (value_bytes value))) NUL)
              = value_bytes value).
      rewrite len_replicate by apply u32_range. now apply u32_small. }
  assert (Hstep3 : set_entry_flags a flags (alloc w e2 cas)
                   = Some (tt, alloc w e cas)).
  { unfold set_entry_flags. rewrite (update_entry_ok _ a e2).
    - cbv beta. rewrite He. unfold a. now rewrite with_heap_alloc.
    - cbn. apply lookup_insert_eq. }
  exists w'. split.
  - unfold store_new_entry. rewrite (bind_Some _ _ _ _ _ Hcreate).
    rewrite (bind_Some _ _ _ _ _ Hstep1).
    rewrite (bind_Some _ _ _ _ _ Hstep2).
    rewrite (bind_Some _ _ _ _ _ Hstep3).
    rewrite (bind_Some _ _ _ _ _ Hins). reflexivity.
  - split; [exact Hinv'|]. split; [exact Hheap|].
    split; [exact Hgeo|]. split; [exact Hnext|]. split; [exact Hcas|].
    split; [exact Hbk|]. split; [exact Hn|]. exact Hstr.
Qed.

(** ** Set followed by get *)

Lemma ref_at (w : mc_world) (a : addr) (e : mc_entry) :
  heap_at w a e -> 0 <= entry_ref_count e < 2 ^ 32 - 1 ->
  exists w', mc_entry_ref a w = Some (tt, w') /\
    heap_at w' a (entry_with_ref_count (entry_ref_count e + 1) e) /\
    w_table w' = w_table w.
Proof.
  intros He Hr. rewrite (mc_entry_ref_ok w a e He Hr).
  eexists. split; [reflexivity|]. split; [|reflexivity].
  unfold heap_at. cbn. apply lookup_insert_eq.
Qed.

Lemma unref_at (w : mc_world) (a : addr) (e : mc_entry) :
  heap_at w a e -> 2 <= entry_ref_count e < 2 ^ 32 ->
  exists w', mc_entry_unref a w = Some (tt, w') /\
    heap_at w' a (entry_with_ref_count (entry_ref_count e - 1) e) /\
    w_table w' = w_table w.
Proof.
  intros He Hr. rewrite (mc_entry_unref_ok w a e He).
  rewrite u32_small by lia.
  destruct (Z.eqb_spec (entry_ref_count e - 1) 0); [lia|].
  eexists. split; [reflexivity|]. split; [|reflexivity].
  unfold heap_at. cbn. apply lookup_insert_eq.
Qed.

Lemma until_nul_key (key : list ascii) :
  forallb key_char key = true -> until_nul key = key.
Proof.
  induction key as [|c key IH]; [reflexivity|].
  cbn [forallb until_nul]. intros H. apply andb_true_iff in H as [Hc Hk].
  destruct (Ascii.eqb_spec c NUL) as [->|_]; [discriminate|].
  now rewrite IH.
Qed.

(** Reduce the projections of connection states built by the buffer and
    socket operations. *)
Ltac st :=
  cbv beta iota delta
    [mm_buffer_append mm_buffer_splice with_tbuf with_commands with_quit
     with_sock with_released mm_net_close mm_net_spawn_writer
     mc_queue_command mc_release_buffers command_head tbuf quit sock_out
     sock_closed sock_writers rbuf_released].

Ltac list_norm :=
  repeat (progress (cbn [app]; rewrite <- ?app_assoc, ?app_nil_r)).

Lemma writer_reply_entry (w : mc_world) (state : mc_state) (a : addr)
    (e : mc_entry) (c1 c2 : mc_command) (reply : list ascii) :
  heap_at w a e -> entry_ref_count e = 3 ->
  command_head state = [c1; c2] -> tbuf state = [] ->
  quit state = false -> sock_closed state = false ->
  desc c1 = Some mc_desc_set ->
  result_type c1 = MC_RESULT_REPLY -> result c1 = result_reply reply ->
  desc c2 = Some mc_desc_get ->
  result_type c2 = MC_RESULT_ENTRY -> result c2 = result_entries [a] ->
  exists state' w',
    mc_writer_routine state w = Some (state', w') /\
    command_head state' = [] /\
    heap_at w' a (entry_with_ref_count 2 e) /\
    sock_out state' =
      sock_out state ++ reply ++ value_header e
      ++ ztake (entry_value_len e) (mc_entry_value e) ++ CRLF ++ line "END".
Proof.
  intros He Hrc Hfifo Htbuf Hquit Hclosed Hd1 Ht1 Hr1 Hd2 Ht2 Hr2.
  destruct state as [fifo tb q out closed writers released].
  cbn [command_head tbuf quit sock_closed sock_out] in *. subst.
  destruct (ref_at w a e He ltac:(lia)) as (w1 & Href & He1 & _).
  destruct (unref_at w1 a _ He1 ltac:(cbn; lia)) as (w2 & Hun & He2 & _).
  destruct (unref_at w2 a _ He2 ltac:(cbn; lia)) as (w3 & Hun3 & He3 & _).
  unfold mc_writer_routine. st. rewrite Ht1.
  cbn [mc_result_t_eqb].
  (* the transmit loop *)
  unfold bind at 1. cbn [writer_loop]. st.
  unfold bind at 1. unfold mc_transmit_buffer at 1. rewrite Ht1, Hr1.
  unfold ret at 1. rewrite Ht2. cbn [mc_result_t_eqb]. st.
  unfold bind at 1. unfold mc_transmit_buffer. rewrite Ht2, Hr2.
  unfold bind at 1. cbn [transmit_entries].
  unfold bind at 1. rewrite (load_entry_ok w a e He).
  rewrite (bind_Some _ _ _ _ _ Href). unfold ret at 1. unfold ret at 1.
  unfold ret at 1. st. cbn [app].
  (* the write *)
  unfold bind at 1. unfold mc_transmit at 1. st.
  unfold bind at 1. unfold get_world.
  cbn [mm_net_writebuf]. rewrite He1.
  cbn [mm_buffer_rectify]. unfold mc_transmit_unref.
  unfold bind at 1. rewrite (bind_Some _ _ _ _ _ Hun).
  unfold ret at 1. unfold ret at 1. st.
  (* the release of the two commands *)
  cbn [nth_error release_commands]. st.
  unfold mc_command_destroy. rewrite Hd1, Hd2. cbn [desc_destroy].
  unfold mc_destroy_dummy, mc_destroy_get. rewrite Ht2, Hr2.
  cbn [unref_all]. unfold bind, ret. rewrite Hun3.
  eexists _, w3. split; [reflexivity|]. split; [reflexivity|]. split.
  - cbn in He3. rewrite Hrc in He3. exact He3.
  - st.
    cbn [mc_entry_value entry_value entry_with_ref_count entry_value_len].
    unfold value_header, mc_entry_value, mc_entry_key. list_norm.
    reflexivity.
Qed.

Lemma same_geometry_refl w : same_geometry w w.
Proof. now split_and!. Qed.

Lemma same_geometry_trans w1 w2 w3 :
  same_geometry w1 w2 -> same_geometry w2 w3 -> same_geometry w1 w3.
Proof. intros (?&?&?) (?&?&?). split_and!; congruence. Qed.

Lemma same_geometry_table w w' :
  w_table w' = w_table w -> same_geometry w w'.
Proof. intros H. unfold same_geometry. now rewrite H. Qed.

Lemma key_index_geometry w w' key key_len :
  same_geometry w w' ->
  mc_table_key_index (w_table w') key key_len
    = mc_table_key_index (w_table w) key key_len.
Proof.
  intros (Hm & _ & Hu). unfold mc_table_key_index, mc_table_index.
  now rewrite Hm, Hu.
Qed.

Lemma key_index_ok w key key_len :
  key_index key key_len w
    = Some (mc_table_key_index (w_table w) key key_len, w).
Proof. reflexivity. Qed.

(** What [mc_process_set] does to a world that satisfies the invariant. *)
Lemma mc_process_set_ok (w : mc_world) key flags exptime value noreply :
  world_inv w -> value_wf value ->
  let command := set_command key flags exptime value noreply in
  let index := mc_table_key_index (w_table w) key (len key) in
  let a := w_next w in
  let e := new_entry key (len key) value flags (u64 (w_cas w + 1)) in
  exists w',
    mc_process_set command w
      = Some (if noreply then mc_blank command
              else mc_reply command (line "STORED"), w') /\
    world_inv w' /\ same_geometry w w' /\
    heap_at w' a (entry_with_ref_count 2 e) /\
    (exists rest, bucket w' index = a :: rest) /\
    w_cas w' = u64 (w_cas w + 1).
Proof.
  intros Hinv Hwf command index a e.
  assert (Hindex : 0 <= index < t_size (w_table w)) by apply index_range, Hinv.
  destruct (mc_table_remove_ok w index key (len key) Hinv Hindex)
    as (r & w1 & Hrm & Hlk & Hinv1 & Hheap1 & Hgeo1 & Hstr1 & Hnext1 & Hcas1
        & Hsub1 & Hr).
  (* the old entry, if any, is released *)
  assert (Hrel : exists w2,
    match r with Some old => mc_entry_unref old | None => ret tt end w1
      = Some (tt, w2) /\
    world_inv w2 /\ w_table w2 = w_table w1 /\ w_next w2 = w_next w1 /\
    w_cas w2 = w_cas w1).
  { destruct r as [old|].
    - destruct Hr as (Hin & Hns & _).
      destruct (mc_entry_unref_inv w1 old Hinv1) as (w2 & Hun & Hinv2 & Ht & Hn & Hc & _).
      + rewrite Hheap1. now apply (chain_live w index).
      + exact Hns.
      + exists w2. auto.
    - exists w1. auto. }
  destruct Hrel as (w2 & Hrel & Hinv2 & Htab2 & Hnext2 & Hcas2).
  assert (Hgeo2 : same_geometry w w2).
  { eapply same_geometry_trans; [exact Hgeo1|]. now apply same_geometry_table. }
  destruct (store_new_entry_ok w2 key (len key) value flags Hinv2 Hwf)
    as (w3 & Hst & Hinv3 & Hheap3 & Hgeo3 & Hnext3 & Hcas3 & Hbk3 & _).
  rewrite (key_index_geometry w w2) in Hst, Hbk3 by exact Hgeo2.
  fold index in Hst, Hbk3.
  rewrite Hnext2, Hnext1 in Hst, Hheap3, Hbk3. fold a in Hst, Hheap3, Hbk3.
  rewrite Hcas2, Hcas1 in Hheap3, Hcas3.
  assert (He3 : heap_at w3 a e).
  { unfold heap_at. rewrite Hheap3. apply lookup_insert_eq. }
  destruct (ref_at w3 a e He3 ltac:(cbn; lia)) as (w4 & Href & He4 & Htab4).
  assert (Hw4 : w4 = with_heap
            (<[a := entry_with_ref_count (entry_ref_count e + 1) e]> (w_heap w3)) w3).
  { rewrite (mc_entry_ref_ok w3 a e He3) in Href by (cbn; lia). congruence. }
  exists w4. split; [|split_and!].
  - unfold mc_process_set, command, set_command, parsed.
    cbn [params with_params set_key set_value set_flags set_noreply].
    rewrite (bind_Some _ _ _ _ _ (key_index_ok w key (len key))).
    fold index. rewrite (bind_Some _ _ _ _ _ Hrm).
    rewrite (bind_Some _ _ _ _ _ Hrel).
    rewrite (bind_Some _ _ _ _ _ Hst).
    rewrite (bind_Some _ _ _ _ _ Href). reflexivity.
  - rewrite Hw4. now apply world_inv_update with (e := e).
  - eapply same_geometry_trans; [exact Hgeo2|].
    eapply same_geometry_trans; [exact Hgeo3|].
    now apply same_geometry_table.
  - exact He4.
  - exists (bucket w2 index). rewrite Hw4, bucket_with_heap, Hbk3.
    destruct (decide (index = index)); [reflexivity|congruence].
  - rewrite Hw4. exact Hcas3.
Qed.

Lemma key_matches_new key value flags cas :
  key_matches key (u8 (len key))
    (entry_with_ref_count 2 (new_entry key (len key) value flags cas)) = true.
Proof.
  unfold key_matches. cbn. rewrite Z.eqb_refl. cbn.
  apply bool_decide_eq_true. unfold ztake. now rewrite take_take, Nat.min_id.
Qed.

(** A [get] of one key whose entry heads its bucket. *)
Lemma mc_process_get_hit (w : mc_world) (a : addr) (e : mc_entry) key rest :
  world_inv w -> heap_at w a e ->
  bucket w (mc_table_key_index (w_table w) key (len key)) = a :: rest ->
  key_matches key (u8 (len key)) e = true ->
  0 <= entry_ref_count e < 2 ^ 32 - 1 ->
  exists w',
    mc_process_get (get_command [key]) w
      = Some (with_result MC_RESULT_ENTRY (result_entries [a])
                (get_command [key]), w') /\
    heap_at w' a (entry_with_ref_count (entry_ref_count e + 1) e).
Proof.
  intros Hinv He Hbk Hkm Hrc.
  set (index := mc_table_key_index (w_table w) key (len key)) in *.
  assert (Hindex : 0 <= index < t_size (w_table w)) by apply index_range, Hinv.
  destruct (ref_at w a e He Hrc) as (w' & Href & He' & _).
  exists w'. split; [|exact He'].
  unfold mc_process_get, mc_process_get2, get_command, parsed.
  cbn [params with_params process_get_keys].
  unfold bind at 1.
  rewrite (bind_Some _ _ _ _ _ (key_index_ok w key (len key))). fold index.
  assert (Hlook : mc_table_lookup index key (len key) w = Some (Some a, w)).
  { unfold mc_table_lookup. unfold bind at 1. rewrite table_get_ok by exact Hindex.
    unfold bind at 1. unfold get_world. rewrite Hbk. cbn [lookup_chain].
    unfold heap_at in He. rewrite He, Hkm. reflexivity. }
  rewrite (bind_Some _ _ _ _ _ Hlook).
  rewrite (bind_Some _ _ _ _ _ Href). reflexivity.
Qed.

Lemma valid_key_u8 key : valid_key key -> u8 (len key) = len key.
Proof.
  intros [Hl _]. apply u8_small. pose proof (len_nonneg key). lia.
Qed.

Lemma world_inv_init : world_inv mc_world_init.
Proof.
  split; [split|..]; cbn.
  - exists 12. split; [lia|reflexivity].
  - reflexivity.
  - unfold MC_TABLE_SIZE_MIN. change (4 * 1024) with 4096.
    change (4096 / 2) with 2048. lia.
  - reflexivity.
  - intros b a Ha. unfold bucket in Ha. cbn in Ha.
    rewrite lookup_empty in Ha. inversion Ha.
  - intros a e Ha. rewrite lookup_empty in Ha. discriminate.
  - intros b. unfold bucket. cbn. rewrite lookup_empty. constructor.
  - intros a [e Ha]. rewrite lookup_empty in Ha. discriminate.
Qed.

(** C1: [set k 0 0 n] with payload [v] followed by [get k] puts
    [STORED\r\n], then [VALUE k 0 n\r\n], the [n] bytes of [v], [\r\n] and
    [END\r\n] on the connection. *)
Theorem set_get_round_trip (w : mc_world) (state : mc_state)
    (k : list ascii) (value : mc_value) :
  world_inv w -> idle state -> valid_key k -> value_wf value ->
  let v := value_payload value in
  let n := value_bytes value in
  exists state' w',
    (s1 <- mc_process_command state (set_command k 0 0 value false) ;;
     s2 <- mc_process_command s1 (get_command [k]) ;;
     mc_writer_routine s2) w = Some (state', w') /\
    len v = n /\
    sock_out state' =
      sock_out state ++ line "STORED"
      ++ bytes "VALUE " ++ k ++ bytes " 0 " ++ fmt_u n ++ CRLF
      ++ v ++ CRLF ++ line "END".
Proof.
  intros Hinv (Hfifo & Htbuf & Hquit & Hclosed) Hkey Hwf v n.
  destruct state as [fifo tb q out closed writers released].
  cbn [command_head tbuf quit sock_closed sock_out] in *. subst.
  set (state := {| command_head := []; tbuf := []; quit := false;
                   sock_out := out; sock_closed := false;
                   sock_writers := writers; rbuf_released := released |}).
  destruct (mc_process_set_ok w k 0 0 value false Hinv Hwf)
    as (w1 & Hset & Hinv1 & Hgeo1 & He1 & (rest & Hbk1) & Hcas1).
  cbv zeta in Hset, He1, Hbk1.
  set (a := w_next w) in *.
  set (e := new_entry k (len k) value 0 (u64 (w_cas w + 1))) in *.
  rewrite <- (key_index_geometry w w1) in Hbk1 by exact Hgeo1.
  destruct (mc_process_get_hit w1 a _ k rest Hinv1 He1 Hbk1)
    as (w2 & Hget & He2); [apply key_matches_new|cbn; lia|].
  set (c1 := mc_reply (set_command k 0 0 value false) (line "STORED")) in *.
  set (c2 := with_result MC_RESULT_ENTRY (result_entries [a])
               (get_command [k])) in *.
  set (s2 := mm_net_spawn_writer
               (mc_queue_command
                  (mm_net_spawn_writer (mc_queue_command state c1)) c2)).
  destruct (writer_reply_entry w2 s2 a _ c1 c2 (line "STORED") He2)
    as (state' & w3 & Hwr & _ & _ & Hout); try reflexivity.
  exists state', w3. split; [|split].
  - unfold mc_process_command at 1.
    cbn [desc result_type set_command parsed with_params with_desc
         mc_command_create mc_result_t_eqb desc_process].
    unfold bind at 1. unfold bind at 1.
    change (mc_process_set (set_command k 0 0 value false) w = Some (c1, w1))
      in Hset.
    rewrite Hset. unfold ret at 1.
    unfold bind at 1. unfold mc_process_command at 1.
    cbn [desc result_type get_command parsed with_params with_desc
         mc_command_create mc_result_t_eqb desc_process].
    unfold bind at 1.
    change (mc_process_get (get_command [k]) w1 = Some (c2, w2)) in Hget.
    rewrite Hget. unfold ret at 1.
    exact Hwr.
  - now apply value_payload_len.
  - rewrite Hout. unfold s2, state. st.
    unfold value_header. cbn [entry_with_ref_count entry_key_len mc_entry_key
      entry_key entry_flags entry_value_len mc_entry_value entry_value e
      new_entry].
    rewrite (valid_key_u8 k Hkey).
    unfold fmt_s. rewrite !(ztake_all (len k) k) by lia.
    rewrite until_nul_key by apply Hkey.
    rewrite u32_small by apply (vwf_bytes value Hwf).
    rewrite ztake_all by (rewrite value_payload_len by exact Hwf; lia).
    change (fmt_u 0) with (bytes "0").
    change (bytes " 0 ") with ([SP] ++ bytes "0" ++ [SP]).
    list_norm. reflexivity.
Qed.

(** The round trip on the first scenario of the protocol: [set foo 0 0 3]
    with payload [bar] into a table just initialised. *)
Lemma bar_value_wf : value_wf bar_value.
Proof.
  split.
  - vm_compute. split; discriminate.
  - discriminate.
  - vm_compute. split; [discriminate|reflexivity].
  - vm_compute. discriminate.
  - constructor; [vm_compute; reflexivity|constructor].
Qed.

Lemma set_get_round_trip_witness :
  exists state' w',
    (s1 <- mc_process_command mc_create
             (set_command (bytes "foo") 0 0 bar_value false) ;;
     s2 <- mc_process_command s1 (get_command [bytes "foo"]) ;;
     mc_writer_routine s2) mc_world_init = Some (state', w') /\
    len (value_payload bar_value) = 3 /\
    sock_out state' =
      [] ++ line "STORED"
      ++ bytes "VALUE " ++ bytes "foo" ++ bytes " 0 " ++ fmt_u 3 ++ CRLF
      ++ value_payload bar_value ++ CRLF ++ line "END".
Proof.
  apply (set_get_round_trip mc_world_init mc_create (bytes "foo") bar_value).
  - apply world_inv_init.
  - repeat split.
  - split; [vm_compute; discriminate|reflexivity].
  - apply bar_value_wf.
Defined.

(** ** Compare and swap *)

Lemma mc_table_lookup_ok (w : mc_world) (index : Z) key key_len :
  world_inv w -> 0 <= index < t_size (w_table w) ->
  exists r,
    mc_table_lookup index key key_len w = Some (r, w) /\
    lookup_chain (w_heap w) (bucket w index) key (u8 key_len) = Some r /\
    match r with
    | Some a => a ∈ bucket w index /\
                exists e, heap_at w a e /\ key_matches key (u8 key_len) e = true
    | None => forall x e, x ∈ bucket w index -> heap_at w x e ->
                          key_matches key (u8 key_len) e = false
    end.
Proof.
  intros Hinv Hi.
  destruct (lookup_chain_spec (w_heap w) (bucket w index) key (u8 key_len))
    as (r & Hl & Hr); [now apply chain_live|].
  exists r. split; [|split; [exact Hl|exact Hr]].
  unfold mc_table_lookup. unfold bind at 1. rewrite table_get_ok by exact Hi.
  unfold bind at 1. unfold get_world. now rewrite Hl.
Qed.

Lemma key_matches_hash key key_len e :
  key_matches key key_len e = true -> entry_hash e = mc_hash key key_len.
Proof.
  unfold key_matches. intros H. apply andb_true_iff in H as [Hl Hk].
  apply Z.eqb_eq in Hl. apply bool_decide_eq_true in Hk.
  unfold entry_hash, mc_hash, mc_entry_key in *. rewrite <- Hl. now rewrite Hk.
Qed.

(** An entry with the key can only be chained where the key is looked up. *)
Lemma stored_in_key_bucket (w : mc_world) (a : addr) (e : mc_entry) key :
  world_inv w -> stored w a -> heap_at w a e ->
  key_matches key (u8 (len key)) e = true ->
  a ∈ bucket w (mc_table_key_index (w_table w) key (len key)).
Proof.
  intros Hinv [b Hb] He Hk.
  destruct (inv_placed w (winv_table w Hinv) b a Hb) as (e' & He' & Hi).
  unfold heap_at in He. rewrite He in He'. injection He' as <-.
  rewrite (key_matches_hash _ _ _ Hk) in Hi.
  unfold mc_table_key_index.
  change (mc_table_index (w_table w) (mc_hash key (u8 (len key))) = b) in Hi.
  now rewrite Hi.
Qed.

Lemma current_entry_none (w : mc_world) key :
  world_inv w -> current_entry w key = Some None ->
  forall a e, stored w a -> heap_at w a e ->
              key_matches key (u8 (len key)) e = false.
Proof.
  intros Hinv Hcur a e Hst He.
  destruct (key_matches key (u8 (len key)) e) eqn:Hk; [|reflexivity].
  pose proof (stored_in_key_bucket w a e key Hinv Hst He Hk) as Hin.
  unfold current_entry in Hcur.
  destruct (lookup_chain_spec (w_heap w)
              (bucket w (mc_table_key_index (w_table w) key (len key)))
              key (u8 (len key))) as (r & Hl & Hr); [now apply chain_live|].
  rewrite Hcur in Hl. injection Hl as <-. rewrite (Hr a e Hin He) in Hk.
  discriminate.
Qed.

Lemma stamps_inv_alloc (w : mc_world) (e : mc_entry) :
  stamps_inv w -> w_cas w + 1 < 2 ^ 64 -> entry_cas e = w_cas w + 1 ->
  stamps_inv (alloc w e (w_cas w + 1)).
Proof.
  intros [Hc Hall] Hlt He. split; cbn; [lia|].
  intros a x. destruct (decide (a = w_next w)) as [->|Hne].
  - rewrite lookup_insert_eq. intros [= <-]. lia.
  - rewrite lookup_insert_ne by congruence. intros Hx.
    specialize (Hall a x Hx). lia.
Qed.

(** Every entry [mc_entry_create] makes carries a stamp one above the last
    one handed out. *)
Lemma mc_entry_create_stamp (w : mc_world) key_len value_len :
  stamps_inv w -> w_cas w + 1 < 2 ^ 64 ->
  exists a w' e,
    mc_entry_create key_len value_len w = Some (a, w') /\
    heap_at w' a e /\ entry_cas e = w_cas w + 1 /\ w_cas w' = w_cas w + 1 /\
    (forall x ex, heap_at w x ex -> entry_cas ex < entry_cas e) /\
    stamps_inv w'.
Proof.
  intros Hst Hlt. pose proof Hst as [Hc Hall].
  eexists _, _, _. split; [reflexivity|]. cbn [w_cas].
  rewrite u64_small by lia. split_and!.
  - unfold heap_at. cbn. apply lookup_insert_eq.
  - reflexivity.
  - reflexivity.
  - intros x ex Hx. cbn. specialize (Hall x ex Hx). lia.
  - refine (stamps_inv_alloc w _ Hst Hlt _). reflexivity.
Qed.

Lemma key_matches_new_entry key value flags cas :
  key_matches key (u8 (len key)) (new_entry key (len key) value flags cas) = true.
Proof.
  unfold key_matches. cbn. rewrite Z.eqb_refl. cbn.
  apply bool_decide_eq_true. unfold ztake. now rewrite take_take, Nat.min_id.
Qed.

Lemma current_entry_head (w : mc_world) (a : addr) (e : mc_entry) key rest :
  heap_at w a e ->
  bucket w (mc_table_key_index (w_table w) key (len key)) = a :: rest ->
  key_matches key (u8 (len key)) e = true ->
  current_entry w key = Some (Some a).
Proof.
  intros He Hbk Hk. unfold current_entry. rewrite Hbk. cbn [lookup_chain].
  unfold heap_at in He. now rewrite He, Hk.
Qed.

(** C6: [cas k f 0 n S] stores its value if and only if the table holds an
    entry for [k] whose stamp is [S]; it replies [STORED] then, [EXISTS]
    when the entry has another stamp and [NOT_FOUND] when there is none; the
    stored entry's stamp is above [S]; the stamps [mc_entry_create] assigns
    grow with every entry. *)
Theorem cas_stores_iff_stamp_matches (w : mc_world) (k : list ascii)
    (f : Z) (value : mc_value) (S : Z) :
  world_inv w -> stamps_inv w -> w_cas w + 1 < 2 ^ 64 -> value_wf value ->
  (exists r command' w',
     current_entry w k = Some r /\
     mc_process_cas (cas_command k f 0 value S false) w = Some (command', w') /\
     stamps_inv w' /\
     match r with
     | None =>
         (forall a e, stored w a -> heap_at w a e ->
                      key_matches k (u8 (len k)) e = false) /\
         reply_of command' = Some (line "NOT_FOUND") /\ w' = w
     | Some old =>
         exists e_old,
           stored w old /\ heap_at w old e_old /\
           key_matches k (u8 (len k)) e_old = true /\
           if entry_cas e_old =? S then
             let a := w_next w in
             let e := new_entry k (len k) value f (w_cas w + 1) in
             reply_of command' = Some (line "STORED") /\
             heap_at w' a e /\ current_entry w' k = Some (Some a) /\
             ~ stored w' old /\ S < entry_cas e
           else reply_of command' = Some (line "EXISTS") /\ w' = w
     end) /\
  (forall key_len value_len,
     exists a w' e,
       mc_entry_create key_len value_len w = Some (a, w') /\
       heap_at w' a e /\ entry_cas e = w_cas w + 1 /\
       w_cas w' = w_cas w + 1 /\
       (forall x ex, heap_at w x ex -> entry_cas ex < entry_cas e) /\
       stamps_inv w').
Proof.
  intros Hinv Hst Hlt Hwf. split; [|intros; now apply mc_entry_create_stamp].
  set (index := mc_table_key_index (w_table w) k (len k)).
  assert (Hindex : 0 <= index < t_size (w_table w)) by apply index_range, Hinv.
  destruct (mc_table_lookup_ok w index k (len k) Hinv Hindex)
    as (r & Hlook & Hcur & Hr).
  exists r.
  assert (Hrun : forall new_entry w',
    (match r with
     | Some old =>
         e <- load_entry old ;;
         if entry_cas e =? S then
           old_entry2 <- mc_table_remove index k (len k) ;;
           ASSERT (bool_decide (r = old_entry2)) ;;;
           mc_entry_unref old ;;;
           a <- store_new_entry index k (len k) value f ;;
           ret (Some a)
         else ret None
     | None => ret None
     end) w = Some (new_entry, w') ->
    mc_process_cas (cas_command k f 0 value S false) w =
      Some (if non_null new_entry
            then mc_reply (cas_command k f 0 value S false) (line "STORED")
            else if non_null r
            then mc_reply (cas_command k f 0 value S false) (line "EXISTS")
            else mc_reply (cas_command k f 0 value S false) (line "NOT_FOUND"),
            w')).
  { intros ne w' Hbody. unfold mc_process_cas.
    cbn [params cas_command parsed with_params cas_key cas_value cas_flags
         cas_cas cas_noreply].
    rewrite (bind_Some _ _ _ _ _ (key_index_ok w k (len k))). fold index.
    rewrite (bind_Some _ _ _ _ _ Hlook).
    unfold bind at 1. destruct r as [old|]; rewrite Hbody; reflexivity. }
  destruct r as [old|].
  - destruct Hr as (Hin & e_old & He_old & Hk).
    assert (Hload : load_entry old w = Some (e_old, w)) by now apply load_entry_ok.
    destruct (Z.eqb_spec (entry_cas e_old) S) as [Hs|Hs].
    + (* the stamps agree: the entry is replaced *)
      destruct (mc_table_remove_ok w index k (len k) Hinv Hindex)
        as (r' & w1 & Hrm & Hlk & Hinv1 & Hheap1 & Hgeo1 & Hstr1 & Hnext1
            & Hcas1 & Hsub1 & Hr').
      rewrite Hcur in Hlk. injection Hlk as <-.
      destruct Hr' as (_ & Hns1 & _).
      destruct (mc_entry_unref_inv w1 old Hinv1) as
        (w2 & Hun & Hinv2 & Htab2 & Hnext2 & Hcas2 & Hsame2 & Hfrom2); auto.
      { rewrite Hheap1. now exists e_old. }
      assert (Hgeo2 : same_geometry w w2).
      { eapply same_geometry_trans; [exact Hgeo1|].
        now apply same_geometry_table. }
      destruct (store_new_entry_ok w2 k (len k) value f Hinv2 Hwf)
        as (w3 & Hsto & Hinv3 & Hheap3 & Hgeo3 & Hnext3 & Hcas3 & Hbk3 & _).
      rewrite (key_index_geometry w w2) in Hsto, Hbk3 by exact Hgeo2.
      fold index in Hsto, Hbk3.
      rewrite Hnext2, Hnext1 in Hsto, Hheap3, Hbk3.
      rewrite Hcas2, Hcas1 in Hheap3, Hcas3.
      destruct Hst as [Hc Hall].
      rewrite u64_small in Hheap3, Hcas3 by lia.
      exists (mc_reply (cas_command k f 0 value S false) (line "STORED")), w3.
      split; [exact Hcur|]. split; [|split].
      * apply (Hrun (Some (w_next w))).
        rewrite (bind_Some _ _ _ _ _ Hload).
        destruct (Z.eqb_spec (entry_cas e_old) S); [|contradiction].
        rewrite (bind_Some _ _ _ _ _ Hrm).
        rewrite bool_decide_true by reflexivity. cbn [ASSERT].
        unfold bind at 1. unfold ret at 1.
        rewrite (bind_Some _ _ _ _ _ Hun).
        rewrite (bind_Some _ _ _ _ _ Hsto). reflexivity.
      * split; [lia|]. intros x ex. rewrite Hheap3.
        destruct (decide (x = w_next w)) as [->|Hne].
        -- rewrite lookup_insert_eq. intros [= <-]. cbn. lia.
        -- rewrite lookup_insert_ne by congruence. intros Hx.
           destruct (Hfrom2 x ex Hx) as (ex0 & Hx0 & Hc0).
           rewrite Hheap1 in Hx0. specialize (Hall x ex0 Hx0). lia.
      * exists e_old. split; [now exists index|]. split; [exact He_old|].
        split; [exact Hk|]. cbv zeta.
        assert (He3 : heap_at w3 (w_next w)
                        (new_entry k (len k) value f (w_cas w + 1))).
        { unfold heap_at. rewrite Hheap3. apply lookup_insert_eq. }
        destruct (Z.eqb_spec (entry_cas e_old) S); [|contradiction].
        split; [reflexivity|]. split; [exact He3|]. split; [|split].
        -- eapply current_entry_head; [exact He3| |apply key_matches_new_entry].
           rewrite (key_index_geometry w w3).
           2:{ eapply same_geometry_trans; [exact Hgeo2|exact Hgeo3]. }
           fold index. rewrite Hbk3.
           destruct (decide (index = index)); [reflexivity|congruence].
        -- intros [b Hb]. rewrite Hbk3 in Hb.
           assert (Hold2 : ~ stored w2 old).
           { intros [b' Hb']. apply Hns1. exists b'.
             unfold bucket in *. now rewrite <- Htab2. }
           destruct (decide (b = index)) as [->|Hne].
           ++ apply elem_of_cons in Hb as [->|Hb].
              ** pose proof (winv_fresh w Hinv _ (ex_intro _ e_old He_old)). lia.
              ** apply Hold2. now exists index.
           ++ apply Hold2. now exists b.
        -- cbn. specialize (Hall old e_old He_old). lia.
    + (* another stamp: nothing changes *)
      exists (mc_reply (cas_command k f 0 value S false) (line "EXISTS")), w.
      split; [exact Hcur|]. split; [|split; [exact Hst|]].
      * apply (Hrun None). rewrite (bind_Some _ _ _ _ _ Hload).
        destruct (Z.eqb_spec (entry_cas e_old) S); [contradiction|reflexivity].
      * exists e_old. split; [now exists index|]. split; [exact He_old|].
        split; [exact Hk|].
        destruct (Z.eqb_spec (entry_cas e_old) S); [contradiction|].
        split; reflexivity.
  - exists (mc_reply (cas_command k f 0 value S false) (line "NOT_FOUND")), w.
    split; [exact Hcur|]. split; [|split; [exact Hst|]].
    + now apply (Hrun None).
    + split; [|split; reflexivity].
      apply current_entry_none; auto.
Qed.

(** ** Decimal numerals in entries *)

Lemma is_digit_byte (c : ascii) :
  is_digit c = true -> 48 <= byte_val c <= 57.
Proof.
  unfold is_digit. intros H. apply andb_true_iff in H as [H1 H2].
  apply Z.leb_le in H1, H2. lia.
Qed.

Lemma byte_val_range (c : ascii) : 0 <= byte_val c < 256.
Proof.
  unfold byte_val. pose proof (N_ascii_bounded c). lia.
Qed.

Lemma char_val_digit (c : ascii) : is_digit c = true -> char_val c = byte_val c.
Proof.
  intros H. apply is_digit_byte in H. unfold char_val.
  destruct (Z.ltb_spec (byte_val c) 128); [reflexivity|lia].
Qed.

Lemma isdigit_char (c : ascii) : isdigit (char_val c) = is_digit c.
Proof.
  unfold isdigit, is_digit, char_val. pose proof (byte_val_range c).
  destruct (Z.ltb_spec (byte_val c) 128); [reflexivity|].
  destruct (Z.leb_spec 48 (byte_val c - 256)); [lia|].
  destruct (Z.leb_spec (byte_val c) 57); [lia|].
  cbn. now rewrite andb_false_r.
Qed.

Lemma decimal_value_from_ge (s : list ascii) :
  forall acc, 0 <= acc -> forallb is_digit s = true ->
              acc <= decimal_value_from acc s.
Proof.
  induction s as [|c s IH]; intros acc Hacc Hd; [cbn; lia|].
  cbn [forallb] in Hd. apply andb_true_iff in Hd as [Hc Hs].
  apply is_digit_byte in Hc. cbn [decimal_value_from].
  specialize (IH (acc * 10 + (byte_val c - 48)) ltac:(lia) Hs). lia.
Qed.

(** The parsing loop of [mc_entry_value_u64] computes the value of a digit
    string that fits 64 bits. *)
Lemma mc_entry_value_u64_loop_ok (s : list ascii) :
  forall v, 0 <= v -> forallb is_digit s = true ->
            decimal_value_from v s < 2 ^ 64 ->
            mc_entry_value_u64_loop v s = Some (decimal_value_from v s).
Proof.
  induction s as [|c s IH]; intros v Hv Hd Hlt; [reflexivity|].
  cbn [forallb] in Hd. apply andb_true_iff in Hd as [Hc Hs].
  cbn [mc_entry_value_u64_loop decimal_value_from] in *.
  rewrite isdigit_char, Hc. cbn [negb].
  rewrite (char_val_digit c Hc).
  pose proof (is_digit_byte c Hc) as Hb.
  pose proof (decimal_value_from_ge s (v * 10 + (byte_val c - 48))
                ltac:(lia) Hs) as Hge.
  replace (v * 10 + byte_val c - 48) with (v * 10 + (byte_val c - 48)) by lia.
  rewrite u64_small by lia.
  destruct (Z.ltb_spec (v * 10 + (byte_val c - 48)) v); [lia|].
  apply IH; auto. lia.
Qed.

(** A byte that is no digit makes the loop give up. *)
Lemma mc_entry_value_u64_loop_non_digit (s : list ascii) :
  forall v, forallb is_digit s = false -> mc_entry_value_u64_loop v s = None.
Proof.
  induction s as [|c s IH]; intros v Hd; [discriminate|].
  cbn [forallb] in Hd. cbn [mc_entry_value_u64_loop].
  rewrite isdigit_char. destruct (is_digit c); [|reflexivity].
  cbn [negb andb] in *. destruct (_ <? _); [reflexivity|]. now apply IH.
Qed.

Lemma mc_entry_value_u64_decimal (e : mc_entry) (v : Z) :
  entry_decimal e v -> 0 <= v < 2 ^ 64 -> mc_entry_value_u64 e = Some v.
Proof.
  intros [Hlen (Hne & Hd & Hv)] Hr. unfold mc_entry_value_u64.
  rewrite Hlen. unfold mc_entry_value.
  destruct (Z.eqb_spec (len (entry_value e)) 0) as [H0|_].
  { destruct (entry_value e); [congruence|]. unfold len in H0. cbn in H0. lia. }
  rewrite ztake_all by lia. unfold decimal_value in Hv.
  rewrite mc_entry_value_u64_loop_ok; [now rewrite Hv|lia|exact Hd|lia].
Qed.

(** *** Printing a number into an entry *)

Lemma byte_val_chr (n : Z) : 0 <= n < 256 -> byte_val (chr n) = n.
Proof.
  intros H. unfold byte_val, chr. rewrite Z.mod_small by lia.
  rewrite N_ascii_embedding by lia. lia.
Qed.

Lemma is_digit_chr (c : Z) : 0 <= c < 10 -> is_digit (chr (48 + c)) = true.
Proof.
  intros H. unfold is_digit. rewrite byte_val_chr by lia.
  apply andb_true_iff. split; apply Z.leb_le; lia.
Qed.

Lemma u64_digits_spec (fuel : nat) :
  forall v, 0 <= v < 10 ^ Z.of_nat fuel -> (1 <= fuel)%nat ->
    let ds := u64_digits fuel v in
    ds <> [] /\ forallb is_digit ds = true /\ buffer_value ds = v /\
    (length ds <= fuel)%nat /\
    (v = 0 -> ds = bytes "0") /\
    (v <> 0 -> last ds <> Some "0"%char).
Proof.
  induction fuel as [|fuel IH]; intros v Hv Hf; [lia|].
  cbn [u64_digits]. cbv zeta.
  assert (Hc : 0 <= v mod 10 < 10) by (apply Z.mod_pos_bound; lia).
  assert (Hdiv : v = 10 * (v / 10) + v mod 10) by (apply Z.div_mod; lia).
  destruct (Z.eqb_spec (v / 10) 0) as [Hz|Hnz].
  - (* the last digit *)
    split; [discriminate|]. cbn [forallb buffer_value length last].
    rewrite is_digit_chr, byte_val_chr by lia. split_and!; try reflexivity.
    + lia.
    + lia.
    + intros ->. reflexivity.
    + intros Hne [= Heq]. apply (f_equal byte_val) in Heq.
      rewrite byte_val_chr in Heq by lia.
      change (byte_val "0") with 48 in Heq. lia.
  - assert (Hv' : 0 <= v / 10 < 10 ^ Z.of_nat fuel).
    { split; [apply Z.div_pos; lia|].
      apply Z.div_lt_upper_bound; [lia|].
      rewrite Nat2Z.inj_succ, Z.pow_succ_r in Hv by lia. lia. }
    assert (Hfuel : (1 <= fuel)%nat).
    { destruct fuel; [|lia]. cbn in Hv'. lia. }
    destruct (IH (v / 10) Hv' Hfuel) as (Hne & Hd & Hval & Hlen & _ & Hlast).
    split; [discriminate|]. cbn [forallb buffer_value length].
    rewrite is_digit_chr, byte_val_chr, Hd, Hval by lia.
    split_and!; try reflexivity.
    + lia.
    + lia.
    + intros ->. exfalso. apply Hnz. reflexivity.
    + intros _. specialize (Hlast Hnz).
      destruct (u64_digits fuel (v / 10)) as [|d ds]; [congruence|].
      exact Hlast.
Qed.

Lemma decimal_value_from_snoc (s : list ascii) (c : ascii) :
  forall acc, decimal_value_from acc (s ++ [c])
              = decimal_value_from acc s * 10 + (byte_val c - 48).
Proof.
  induction s as [|x s IH]; intros acc; [reflexivity|].
  cbn [app decimal_value_from]. apply IH.
Qed.

Lemma decimal_value_rev (ds : list ascii) :
  decimal_value (rev ds) = buffer_value ds.
Proof.
  induction ds as [|c ds IH]; [reflexivity|].
  cbn [rev buffer_value]. unfold decimal_value in *.
  rewrite decimal_value_from_snoc, IH. lia.
Qed.

Lemma forallb_rev {A} (f : A -> bool) (l : list A) :
  forallb f (rev l) = forallb f l.
Proof.
  induction l as [|x l IH]; [reflexivity|].
  cbn [rev forallb]. rewrite forallb_app, IH. cbn. 
  rewrite andb_true_r. apply andb_comm.
Qed.

Lemma hd_rev (ds : list ascii) (d : ascii) :
  hd d (rev ds) = match last ds with Some c => c | None => d end.
Proof.
  induction ds as [|c ds IH]; [reflexivity|].
  cbn [rev]. destruct ds as [|c' ds]; [reflexivity|].
  change (last (c :: c' :: ds)) with (last (c' :: ds)).
  rewrite <- IH. cbn [rev]. destruct (rev ds); reflexivity.
Qed.

(** The second loop of [mc_entry_create_u64] turns the buffer around. *)
Lemma copy_digits_rev (buffer : list ascii) (n : nat) :
  forall v, length v = length buffer -> (n <= length buffer)%nat ->
    copy_digits n (Z.of_nat (length buffer)) buffer v
      = take (length buffer - n) v ++ rev (take n buffer).
Proof.
  induction n as [|n IH]; intros v Hv Hn.
  - cbn [copy_digits take rev]. rewrite Nat.sub_0_r, app_nil_r.
    symmetry. apply take_ge. lia.
  - cbn [copy_digits].
    replace (Z.to_nat (Z.of_nat (length buffer) - Z.of_nat (S n)))
      with (length buffer - S n)%nat by lia.
    rewrite IH by (rewrite ?length_insert; lia).
    destruct (lookup_lt_is_Some_2 buffer n ltac:(lia)) as [b Hb].
    rewrite (take_S_r buffer n b Hb), rev_app_distr. cbn [rev app].
    rewrite (nth_lookup_Some buffer n NUL b Hb).
    rewrite insert_take_drop by lia.
    replace (length buffer - n)%nat with (S (length buffer - S n)) by lia.
    rewrite take_app_ge by (rewrite length_take; lia).
    rewrite length_take. 
    replace (S (length buffer - S n) - (length buffer - S n) `min` length v)%nat
      with 1%nat by lia.
    cbn [take]. rewrite <- app_assoc. reflexivity.
Qed.

Lemma copy_digits_all (buffer v : list ascii) :
  length v = length buffer ->
  copy_digits (length buffer) (Z.of_nat (length buffer)) buffer v = rev buffer.
Proof.
  intros Hv. rewrite copy_digits_rev by lia.
  rewrite Nat.sub_diag. cbn [take app].
  rewrite (take_ge buffer (length buffer)); [reflexivity|]. lia.
Qed.

Lemma numeral_spec (v : Z) :
  0 <= v < 2 ^ 64 ->
  decimal_of (numeral v) v /\ canonical (numeral v) /\
  0 < len (numeral v) <= 20.
Proof.
  intros Hv.
  destruct (u64_digits_spec 20 v) as (Hne & Hd & Hval & Hlen & Hz & Hnz).
  { change (10 ^ Z.of_nat 20) with 100000000000000000000. 
    change (2 ^ 64) with 18446744073709551616 in Hv. lia. }
  { lia. }
  unfold numeral. split; [split_and!|split].
  - intros H. apply (f_equal (@rev ascii)) in H. rewrite rev_involutive in H.
    cbn in H. congruence.
  - now rewrite forallb_rev.
  - now rewrite decimal_value_rev.
  - destruct (Z.eq_dec v 0) as [H0|H0].
    + left. now rewrite (Hz H0).
    + right. rewrite hd_rev. specialize (Hnz H0).
      destruct (last (u64_digits 20 v)) as [c|] eqn:Hl; [congruence|].
      exfalso. destruct (u64_digits 20 v) as [|d ds]; [congruence|].
      apply last_None in Hl. discriminate.
  - unfold len. rewrite length_rev.
    destruct (u64_digits 20 v); [congruence|]. cbn [length] in *. lia.
Qed.

(** *** [mc_entry_create_u64] and the arithmetic commands *)

Lemma mc_entry_create_u64_ok (w : mc_world) (key_len v : Z) :
  0 <= v < 2 ^ 64 ->
  mc_entry_create_u64 key_len v w =
    Some (w_next w,
          alloc w (numeral_entry (replicate (Z.to_nat (u8 key_len)) NUL)
                     key_len v 0 (u64 (w_cas w + 1)) 1)
                (u64 (w_cas w + 1))).
Proof.
  intros Hv. destruct (numeral_spec v Hv) as (_ & _ & Hlen).
  unfold numeral, len in Hlen. rewrite length_rev in Hlen.
  unfold mc_entry_create_u64.
  set (buffer := u64_digits 20 v) in *.
  set (e0 := {| entry_key_len := u8 key_len;
                entry_value_len := u32 (Z.of_nat (length buffer));
                entry_ref_count := 1; entry_flags := 0;
                entry_cas := u64 (w_cas w + 1);
                entry_key := replicate (Z.to_nat (u8 key_len)) NUL;
                entry_value :=
                  replicate (Z.to_nat (u32 (Z.of_nat (length buffer)))) NUL |}).
  assert (Hcreate : mc_entry_create key_len (Z.of_nat (length buffer)) w
                    = Some (w_next w, alloc w e0 (u64 (w_cas w + 1))))
    by reflexivity.
  rewrite (bind_Some _ _ _ _ _ Hcreate).
  assert (Hl0 : w_heap (alloc w e0 (u64 (w_cas w + 1))) !! w_next w = Some e0)
    by (cbn; apply lookup_insert_eq).
  unfold bind at 1. rewrite (load_entry_ok _ _ _ Hl0).
  unfold bind at 1. rewrite (store_entry_ok _ _ e0 _ Hl0).
  rewrite with_heap_alloc. unfold ret. do 3 f_equal.
  assert (Hnum : numeral v = rev buffer) by reflexivity.
  unfold numeral_entry. rewrite Hnum. unfold e0. clearbody buffer.
  assert (Hu : u32 (Z.of_nat (length buffer)) = Z.of_nat (length buffer))
    by (apply u32_small; lia).
  unfold entry_with_value, mc_entry_value. cbn. rewrite Hu.
  rewrite copy_digits_all.
  - unfold len. now rewrite length_rev.
  - rewrite length_replicate. lia.
Qed.

Lemma lookup_chain_ext (h h' : gmap addr mc_entry) c key key_len :
  (forall x, x ∈ c -> h' !! x = h !! x) ->
  lookup_chain h' c key key_len = lookup_chain h c key key_len.
Proof.
  induction c as [|x c IH]; intros Hc; [reflexivity|].
  cbn [lookup_chain]. rewrite (Hc x) by left.
  destruct (h !! x); [|reflexivity].
  destruct (key_matches _ _ _); [reflexivity|].
  apply IH. intros y Hy. apply Hc. now right.
Qed.

Lemma process_arith_ok (compute : Z -> Z -> Z) (d : mc_command_desc)
    (w : mc_world) (k : list ascii) (delta : Z) :
  world_inv w ->
  let command :=
    parsed d (params_inc {| inc_key := k; inc_value := delta;
                            inc_noreply := false |}) in
  exists r, current_entry w k = Some r /\
    match r with
    | None =>
        (forall a e, stored w a -> heap_at w a e ->
                     key_matches k (u8 (len k)) e = false) /\
        process_arith compute command w
          = Some (mc_reply command (line "NOT_FOUND"), w)
    | Some old =>
        exists e_old, stored w old /\ heap_at w old e_old /\
          key_matches k (u8 (len k)) e_old = true /\
          match mc_entry_value_u64 e_old with
          | None =>
              process_arith compute command w
                = Some (mc_reply command non_numeric_reply, w)
          | Some v =>
              0 <= compute v delta < 2 ^ 64 ->
              let a := w_next w in
              let e := numeral_entry (ztake (u8 (len k)) k) (len k)
                         (compute v delta) (entry_flags e_old)
                         (u64 (w_cas w + 1)) 2 in
              exists w',
                process_arith compute command w
                  = Some (with_result MC_RESULT_VALUE (result_entry a) command,
                          w') /\
                world_inv w' /\ heap_at w' a e /\
                current_entry w' k = Some (Some a) /\ ~ stored w' old
          end
    end.
Proof.
  intros Hinv command.
  set (index := mc_table_key_index (w_table w) k (len k)).
  assert (Hindex : 0 <= index < t_size (w_table w)) by apply index_range, Hinv.
  destruct (mc_table_lookup_ok w index k (len k) Hinv Hindex)
    as (r & Hlook & Hcur & Hr).
  exists r. split; [exact Hcur|].
  assert (Hhead : forall X,
    process_arith compute command w =
      (new_entry <- X r ;;
       if false then ret (mc_blank command)
       else match new_entry with
            | Some a => mc_entry_ref a ;;;
                        ret (with_result MC_RESULT_VALUE (result_entry a) command)
            | None => ret (if non_null r then mc_reply command non_numeric_reply
                           else mc_reply command (line "NOT_FOUND"))
            end) w ->
    True) by auto.
  clear Hhead.
  unfold process_arith.
  cbn [params command parsed with_params inc_key inc_value inc_noreply].
  rewrite (bind_Some _ _ _ _ _ (key_index_ok w k (len k))). fold index.
  rewrite (bind_Some _ _ _ _ _ Hlook).
  destruct r as [old|].
  2:{ split; [now apply current_entry_none|]. reflexivity. }
  destruct Hr as (Hin & e_old & He_old & Hk).
  exists e_old. split; [now exists index|]. split; [exact He_old|].
  split; [exact Hk|].
  assert (Hload : load_entry old w = Some (e_old, w)) by now apply load_entry_ok.
  destruct (mc_entry_value_u64 e_old) as [v|] eqn:Hval.
  2:{ rewrite (bind_Some _ _ w None w); [reflexivity|].
      rewrite (bind_Some _ _ _ _ _ Hload). now rewrite Hval. }
  intros Hrange. set (a := w_next w).
  (* the new entry is built off the table *)
  set (cas := u64 (w_cas w + 1)).
  set (e1 := numeral_entry (replicate (Z.to_nat (u8 (len k))) NUL) (len k)
               (compute v delta) 0 cas 1).
  set (e3 := numeral_entry (ztake (u8 (len k)) k) (len k) (compute v delta)
               (entry_flags e_old) cas 1).
  pose proof (mc_entry_create_u64_ok w (len k) (compute v delta) Hrange)
    as Hcreate. fold cas e1 in Hcreate. fold a in Hcreate.
  assert (Hkey : mc_entry_set_key a k (alloc w e1 cas)
                 = Some (tt, alloc w (entry_with_key (ztake (u8 (len k)) k) e1) cas)).
  { unfold mc_entry_set_key. rewrite (update_entry_ok _ a e1).
    - cbv beta. unfold a. now rewrite with_heap_alloc.
    - cbn. apply lookup_insert_eq. }
  assert (Hflags : set_entry_flags a (entry_flags e_old)
                     (alloc w (entry_with_key (ztake (u8 (len k)) k) e1) cas)
                   = Some (tt, alloc w e3 cas)).
  { unfold set_entry_flags. rewrite (update_entry_ok _ a _ _ (lookup_insert_eq _ _ _)).
    cbv beta. unfold a. now rewrite with_heap_alloc. }
  set (wA := alloc w e3 cas).
  assert (HinvA : world_inv wA).
  { apply world_inv_alloc; [|exact Hinv]. cbn. apply u8_range. }
  assert (HindexA : 0 <= index < t_size (w_table wA)) by exact Hindex.
  destruct (mc_table_remove_ok wA index k (len k) HinvA HindexA)
    as (r' & w1 & Hrm & Hlk & Hinv1 & Hheap1 & Hgeo1 & Hstr1 & Hnext1
        & Hcas1 & Hsub1 & Hr').
  assert (r' = Some old) as ->.
  { change (bucket wA index) with (bucket w index) in Hlk.
    rewrite (lookup_chain_ext (w_heap w)) in Hlk.
    - rewrite Hcur in Hlk. congruence.
    - intros x Hx. cbn. apply lookup_insert_ne. intros <-.
      apply (fresh_not_stored w (w_next w) Hinv); [lia|]. now exists index. }
  destruct Hr' as (_ & Hns1 & _).
  assert (Hold_ne : old <> a).
  { intros ->. pose proof (winv_fresh w Hinv a (ex_intro _ e_old He_old)).
    unfold a in *. lia. }
  destruct (mc_entry_unref_inv w1 old Hinv1) as
    (w2 & Hun & Hinv2 & Htab2 & Hnext2 & Hcas2 & Hsame2 & _); auto.
  { rewrite Hheap1. cbn. rewrite lookup_insert_ne by (intros E; now apply Hold_ne).
    now exists e_old. }
  assert (He2 : w_heap w2 !! a = Some e3).
  { rewrite Hsame2 by (intros E; now apply Hold_ne). rewrite Hheap1. cbn.
    apply lookup_insert_eq. }
  assert (Hgeo2 : same_geometry w w2).
  { eapply same_geometry_trans; [exact Hgeo1|]. now apply same_geometry_table. }
  assert (Hold2 : ~ stored w2 old).
  { intros [b' Hb']. apply Hns1. exists b'. unfold bucket in *.
    now rewrite <- Htab2. }
  destruct (mc_table_insert_ok w2 index a e3 Hinv2) as
    (w3 & Hins & Hinv3 & Hheap3 & Hgeo3 & Hnext3 & Hcas3 & Hbk3 & _); auto.
  { destruct Hgeo2 as (_ & -> & _). exact Hindex. }
  { unfold index. rewrite <- (key_index_geometry w w2 k (len k) Hgeo2).
    unfold mc_table_key_index. f_equal. unfold entry_hash. cbn.
    apply mc_hash_take. }
  { intros [b Hb]. unfold bucket in Hb. rewrite Htab2 in Hb.
    apply (Hsub1 b a) in Hb.
    apply (fresh_not_stored w (w_next w) Hinv); [lia|]. now exists b. }
  assert (He3 : heap_at w3 a e3) by (unfold heap_at; now rewrite Hheap3).
  destruct (ref_at w3 a e3 He3 ltac:(cbn; lia)) as (w4 & Href & He4 & Htab4).
  assert (Hw4 : w4 = with_heap
            (<[a := entry_with_ref_count (entry_ref_count e3 + 1) e3]> (w_heap w3)) w3).
  { rewrite (mc_entry_ref_ok w3 a e3 He3) in Href by (cbn; lia). congruence. }
  exists w4. split_and!.
  - rewrite (bind_Some _ _ w (Some a) w3).
    2:{ rewrite (bind_Some _ _ _ _ _ Hload). rewrite Hval. cbv zeta.
        rewrite (bind_Some _ _ _ _ _ Hcreate).
        rewrite (bind_Some _ _ _ _ _ Hkey).
        rewrite (bind_Some _ _ _ _ _ Hflags).
        fold wA. rewrite (bind_Some _ _ _ _ _ Hrm).
        rewrite bool_decide_true by reflexivity.
        erewrite bind_Some; [|reflexivity].
        rewrite (bind_Some _ _ _ _ _ Hun).
        rewrite (bind_Some _ _ _ _ _ Hins). reflexivity. }
    cbv beta iota. rewrite (bind_Some _ _ _ _ _ Href). reflexivity.
  - rewrite Hw4. now apply world_inv_update with (e := e3).
  - exact He4.
  - eapply current_entry_head; [exact He4| |].
    + rewrite (key_index_geometry w w4).
      2:{ eapply same_geometry_trans; [exact Hgeo2|].
          eapply same_geometry_trans; [exact Hgeo3|].
          now apply same_geometry_table. }
      fold index. rewrite Hw4, bucket_with_heap, Hbk3.
      destruct (decide (index = index)); [reflexivity|congruence].
    + unfold key_matches. cbn. rewrite Z.eqb_refl. cbn.
      apply bool_decide_eq_true. unfold ztake.
      now rewrite take_take, Nat.min_id.
  - intros [b Hb]. rewrite Hw4, bucket_with_heap, Hbk3 in Hb.
    destruct (decide (b = index)) as [->|Hne].
    + apply elem_of_cons in Hb as [Heq|Hb]; [congruence|].
      apply Hold2. now exists index.
    + apply Hold2. now exists b.
Qed.

(** ** [incr] and [decr] on the connection *)

(** The writer on a FIFO of a plain reply followed by the [VALUE] result of
    an [incr] or [decr] command. *)
Lemma writer_reply_value (w : mc_world) (state : mc_state) (a : addr)
    (e : mc_entry) (c1 c2 : mc_command) (d1 d2 : mc_command_desc)
    (reply : list ascii) :
  heap_at w a e -> entry_ref_count e = 2 ->
  command_head state = [c1; c2] -> tbuf state = [] ->
  quit state = false -> sock_closed state = false ->
  desc c1 = Some d1 -> desc_destroy d1 = mc_destroy_dummy ->
  result_type c1 = MC_RESULT_REPLY -> result c1 = result_reply reply ->
  desc c2 = Some d2 -> desc_destroy d2 = mc_destroy_incr ->
  result_type c2 = MC_RESULT_VALUE -> result c2 = result_entry a ->
  exists state' w',
    mc_writer_routine state w = Some (state', w') /\
    command_head state' = [] /\
    heap_at w' a (entry_with_ref_count 1 e) /\
    sock_out state' =
      sock_out state ++ reply
      ++ ztake (entry_value_len e) (mc_entry_value e) ++ line "END".
Proof.
  intros He Hrc Hfifo Htbuf Hquit Hclosed Hd1 Hdd1 Ht1 Hr1 Hd2 Hdd2 Ht2 Hr2.
  destruct state as [fifo tb q out closed writers released].
  cbn [command_head tbuf quit sock_closed sock_out] in *. subst.
  destruct (ref_at w a e He ltac:(lia)) as (w1 & Href & He1 & _).
  destruct (unref_at w1 a _ He1 ltac:(cbn; lia)) as (w2 & Hun & He2 & _).
  destruct (unref_at w2 a _ He2 ltac:(cbn; lia)) as (w3 & Hun3 & He3 & _).
  unfold mc_writer_routine. st. rewrite Ht1.
  cbn [mc_result_t_eqb].
  unfold bind at 1. cbn [writer_loop]. st.
  unfold bind at 1. unfold mc_transmit_buffer at 1. rewrite Ht1, Hr1.
  unfold ret at 1. rewrite Ht2. cbn [mc_result_t_eqb]. st.
  unfold bind at 1. unfold mc_transmit_buffer. rewrite Ht2, Hr2.
  unfold bind at 1. rewrite (load_entry_ok w a e He).
  rewrite (bind_Some _ _ _ _ _ Href). unfold ret at 1. unfold ret at 1.
  st. cbn [app].
  unfold bind at 1. unfold mc_transmit at 1. st.
  unfold bind at 1. unfold get_world.
  cbn [mm_net_writebuf]. rewrite He1.
  cbn [mm_buffer_rectify]. unfold mc_transmit_unref.
  unfold bind at 1. rewrite (bind_Some _ _ _ _ _ Hun).
  unfold ret at 1. unfold ret at 1. st.
  cbn [nth_error release_commands]. st.
  unfold mc_command_destroy. rewrite Hd1, Hd2, Hdd1, Hdd2.
  unfold mc_destroy_dummy, mc_destroy_incr. rewrite Ht2, Hr2.
  unfold bind, ret. rewrite Hun3.
  eexists _, w3. split; [reflexivity|]. split; [reflexivity|]. split.
  - cbn in He3. rewrite Hrc in He3. exact He3.
  - st.
    cbn [mc_entry_value entry_value entry_with_ref_count entry_value_len].
    unfold mc_entry_value. list_norm. reflexivity.
Qed.

Lemma world_inv_after_set (w w' : mc_world) key flags exptime value noreply c :
  world_inv w -> value_wf value ->
  mc_process_set (set_command key flags exptime value noreply) w = Some (c, w') ->
  world_inv w'.
Proof.
  intros Hinv Hwf Hrun.
  destruct (mc_process_set_ok w key flags exptime value noreply Hinv Hwf)
    as (w1 & Hset & Hinv1 & _).
  cbv zeta in Hset. rewrite Hset in Hrun. now injection Hrun as _ <-.
Qed.

Lemma heap_at_inj (w : mc_world) (a : addr) (e e' : mc_entry) :
  heap_at w a e -> heap_at w a e' -> e = e'.
Proof. unfold heap_at. congruence. Qed.

Lemma numeral_entry_decimal key key_len v flags cas rc :
  0 <= v < 2 ^ 64 ->
  entry_decimal (numeral_entry key key_len v flags cas rc) v /\
  canonical (entry_value (numeral_entry key key_len v flags cas rc)).
Proof.
  intros Hv. destruct (numeral_spec v Hv) as (Hd & Hc & _).
  split; [split|]; cbn; auto.
Qed.

Lemma decr_value_range (v d : Z) :
  0 <= v < 2 ^ 64 -> 0 <= d ->
  decr_value v d = (if v >? d then v - d else 0) /\
  0 <= decr_value v d <= v.
Proof.
  intros Hv Hd. unfold decr_value. rewrite Z.gtb_ltb.
  destruct (Z.ltb_spec d v).
  - rewrite u64_small by lia. lia.
  - lia.
Qed.

(** C10: when the entry of [k] holds the decimal representation of an
    unsigned 64-bit number [v], [decr k d] replaces it by an entry holding
    the decimal representation, without superfluous zeros, of [v - d] when
    [v > d] and of [0] otherwise; the stored number is never above [v], so
    it does not wrap around below zero. *)
Theorem decr_clamps_at_zero (w : mc_world) (k : list ascii) (d : Z)
    (old : addr) (e_old : mc_entry) (v : Z) :
  world_inv w ->
  current_entry w k = Some (Some old) -> heap_at w old e_old ->
  entry_decimal e_old v -> 0 <= v < 2 ^ 64 -> 0 <= d < 2 ^ 64 ->
  let v' := if v >? d then v - d else 0 in
  exists a e w',
    mc_process_decr (decr_command k d false) w
      = Some (with_result MC_RESULT_VALUE (result_entry a)
                (decr_command k d false), w') /\
    world_inv w' /\
    current_entry w' k = Some (Some a) /\ heap_at w' a e /\
    ~ stored w' old /\
    entry_decimal e v' /\ canonical (entry_value e) /\
    0 <= v' <= v.
Proof.
  intros Hinv Hcur He_old Hdec Hv Hd v'.
  destruct (process_arith_ok decr_value mc_desc_decr w k d Hinv)
    as (r & Hr & Hcase).
  rewrite Hcur in Hr. injection Hr as <-.
  destruct Hcase as (e0 & _ & He0 & _ & Hcase).
  rewrite <- (heap_at_inj w old _ _ He_old He0) in Hcase.
  rewrite (mc_entry_value_u64_decimal e_old v Hdec Hv) in Hcase.
  destruct (decr_value_range v d Hv ltac:(lia)) as (Heq & Hle).
  fold v' in Heq. rewrite Heq in Hle, Hcase.
  destruct Hcase as (w' & Hrun & Hinv' & He' & Hcur' & Hold); [lia|].
  destruct (numeral_entry_decimal (ztake (u8 (len k)) k) (len k) v'
              (entry_flags e_old) (u64 (w_cas w + 1)) 2 ltac:(lia))
    as (Hdec' & Hcan).
  eexists _, _, w'. split_and!; eauto; lia.
Qed.

Lemma five_value_wf : value_wf five_value.
Proof.
  split.
  - vm_compute. split; discriminate.
  - discriminate.
  - vm_compute. split; [discriminate|reflexivity].
  - vm_compute. discriminate.
  - repeat constructor.
Qed.

Lemma world_after_set_inv (key : list ascii) (value : mc_value) :
  value_wf value -> world_inv (world_after_set key value).
Proof.
  intros Hwf. unfold world_after_set.
  destruct (mc_process_set (set_command key 0 0 value false) mc_world_init)
    as [[c w]|] eqn:Hrun; [|apply world_inv_init].
  eapply world_inv_after_set; [apply world_inv_init|exact Hwf|exact Hrun].
Qed.

Lemma decr_clamps_at_zero_witness :
  let w := counter_world in
  let k := bytes "n" in
  let v' := if 5 >? 7 then 5 - 7 else 0 in
  exists a e w',
    mc_process_decr (decr_command k 7 false) w
      = Some (with_result MC_RESULT_VALUE (result_entry a)
                (decr_command k 7 false), w') /\
    world_inv w' /\
    current_entry w' k = Some (Some a) /\ heap_at w' a e /\
    ~ stored w' 1%nat /\
    entry_decimal e v' /\ canonical (entry_value e) /\
    0 <= v' <= 5.
Proof.
  apply (decr_clamps_at_zero counter_world (bytes "n") 7 1%nat counter_entry 5).
  - apply world_after_set_inv, five_value_wf.
  - vm_compute. reflexivity.
  - vm_compute. reflexivity.
  - split; [vm_compute; reflexivity|].
    split; [discriminate|]. split; vm_compute; reflexivity.
  - lia.
  - lia.
Defined.

Lemma mc_process_command_ok (state : mc_state) (c c' : mc_command)
    (d : mc_command_desc) (w w' : mc_world) :
  desc c = Some d -> result_type c = MC_RESULT_NONE ->
  desc_process d c w = Some (c', w') ->
  mc_process_command state c w
    = Some (mm_net_spawn_writer (mc_queue_command state c'), w').
Proof.
  intros Hd Ht Hrun. unfold mc_process_command. rewrite Hd, Ht.
  cbn [mc_result_t_eqb]. now rewrite (bind_Some _ _ _ _ _ Hrun).
Qed.

(** The writer on a FIFO holding the plain reply of one [incr] or [decr]
    command. *)
Lemma writer_reply (w : mc_world) (state : mc_state) (c : mc_command)
    (d : mc_command_desc) (reply : list ascii) :
  command_head state = [c] -> tbuf state = [] ->
  quit state = false -> sock_closed state = false ->
  desc c = Some d -> desc_destroy d = mc_destroy_incr ->
  result_type c = MC_RESULT_REPLY -> result c = result_reply reply ->
  exists state',
    mc_writer_routine state w = Some (state', w) /\
    command_head state' = [] /\
    sock_out state' = sock_out state ++ reply.
Proof.
  intros Hfifo Htbuf Hquit Hclosed Hd Hdd Ht Hr.
  destruct state as [fifo tb q out closed writers released].
  cbn [command_head tbuf quit sock_closed sock_out] in *. subst.
  unfold mc_writer_routine. st. rewrite Ht. cbn [mc_result_t_eqb].
  unfold bind at 1. cbn [writer_loop]. st.
  unfold bind at 1. unfold mc_transmit_buffer at 1. rewrite Ht, Hr.
  unfold ret at 1. unfold ret at 1. st. cbn [app].
  match goal with
  | |- context [mc_transmit ?s] =>
      assert (Htr : mc_transmit s w
                    = Some (with_tbuf [] (with_sock (out ++ reply ++ []) false
                                            writers s), w))
        by reflexivity
  end.
  rewrite (bind_Some _ _ _ _ _ Htr). st.
  cbn [nth_error release_commands]. st.
  unfold mc_command_destroy. rewrite Hd, Hdd.
  unfold mc_destroy_incr. rewrite Ht.
  unfold bind, ret.
  eexists. split; [reflexivity|]. split; [reflexivity|].
  st. list_norm. reflexivity.
Qed.

(** What an [incr] or [decr] command puts on an idle connection when it
    ends in a plain reply. *)
Lemma arith_reply_on_wire (compute : Z -> Z -> Z) (d : mc_command_desc)
    (w : mc_world) (state : mc_state) (k : list ascii) (delta : Z)
    (reply : list ascii) :
  let command :=
    parsed d (params_inc {| inc_key := k; inc_value := delta;
                            inc_noreply := false |}) in
  idle state ->
  desc_process d = process_arith compute -> desc_destroy d = mc_destroy_incr ->
  process_arith compute command w = Some (mc_reply command reply, w) ->
  exists state',
    (s1 <- mc_process_command state command ;; mc_writer_routine s1) w
      = Some (state', w) /\
    sock_out state' = sock_out state ++ reply.
Proof.
  intros command (Hfifo & Htbuf & Hquit & Hclosed) Hp Hdd Hrun.
  rewrite <- Hp in Hrun.
  pose proof (mc_process_command_ok state command _ d w w eq_refl eq_refl Hrun)
    as Hpc.
  destruct state as [fifo tb q out closed writers released].
  cbn [command_head tbuf quit sock_closed sock_out] in *. subst.
  match type of Hpc with _ = Some (?s, _) => set (s1 := s) in * end.
  destruct (writer_reply w s1 (mc_reply command reply) d reply)
    as (state' & Hwr & _ & Hout); try reflexivity; try exact Hdd.
  exists state'. split.
  - now rewrite (bind_Some _ _ _ _ _ Hpc).
  - exact Hout.
Qed.

Lemma mc_entry_value_u64_non_digit (e : mc_entry) :
  entry_value_len e = len (entry_value e) ->
  forallb is_digit (entry_value e) = false ->
  mc_entry_value_u64 e = None.
Proof.
  intros Hlen Hd. unfold mc_entry_value_u64.
  destruct (entry_value_len e =? 0); [reflexivity|].
  rewrite Hlen. unfold mc_entry_value. rewrite ztake_all by lia.
  now apply mc_entry_value_u64_loop_non_digit.
Qed.

(** C7: after [set k 0 0 1] with payload [0], [incr k 1] answers with the
    new value [1] (the writer sends the digits and closes the reply with
    [END\r\n]); [incr] and [decr] on an entry whose value has a byte that is
    not a digit reply [CLIENT_ERROR cannot increment or decrement
    non-numeric value], and on a key without entry [NOT_FOUND]. *)
Theorem incr_decr_replies (w : mc_world) (state : mc_state) (k : list ascii) :
  world_inv w -> idle state ->
  (forall value,
     value_wf value -> value_bytes value = 1 ->
     value_payload value = bytes "0" ->
     exists state' w',
       (s1 <- mc_process_command state (set_command k 0 0 value false) ;;
        s2 <- mc_process_command s1 (incr_command k 1 false) ;;
        mc_writer_routine s2) w = Some (state', w') /\
       sock_out state'
         = sock_out state ++ line "STORED" ++ bytes "1" ++ line "END") /\
  (forall command delta,
     command = incr_command k delta false \/
     command = decr_command k delta false ->
     (forall old e,
        current_entry w k = Some (Some old) -> heap_at w old e ->
        entry_value_len e = len (entry_value e) ->
        forallb is_digit (entry_value e) = false ->
        exists state',
          (s1 <- mc_process_command state command ;; mc_writer_routine s1) w
            = Some (state', w) /\
          sock_out state'
            = sock_out state
              ++ line "CLIENT_ERROR cannot increment or decrement non-numeric value") /\
     (current_entry w k = Some None ->
      exists state',
        (s1 <- mc_process_command state command ;; mc_writer_routine s1) w
          = Some (state', w) /\
        sock_out state' = sock_out state ++ line "NOT_FOUND")).
Proof.
  intros Hinv Hidle. split.
  - intros value Hwf Hbytes Hpayload.
    destruct Hidle as (Hfifo & Htbuf & Hquit & Hclosed).
    destruct state as [fifo tb q out closed writers released].
    cbn [command_head tbuf quit sock_closed sock_out] in *. subst.
    set (state := {| command_head := []; tbuf := []; quit := false;
                     sock_out := out; sock_closed := false;
                     sock_writers := writers; rbuf_released := released |}).
    destruct (mc_process_set_ok w k 0 0 value false Hinv Hwf)
      as (w1 & Hset & Hinv1 & Hgeo1 & He1 & (rest & Hbk1) & Hcas1).
    cbv zeta in Hset, He1, Hbk1.
    set (a := w_next w) in *.
    set (e := entry_with_ref_count 2
                (new_entry k (len k) value 0 (u64 (w_cas w + 1)))) in *.
    rewrite <- (key_index_geometry w w1) in Hbk1 by exact Hgeo1.
    pose proof (current_entry_head w1 a e k rest He1 Hbk1
                  (key_matches_new k value 0 _)) as Hcur1.
    destruct (process_arith_ok incr_value mc_desc_incr w1 k 1 Hinv1)
      as (r & Hr & Hcase).
    rewrite Hcur1 in Hr. injection Hr as <-.
    destruct Hcase as (e0 & _ & He0 & _ & Hcase).
    rewrite <- (heap_at_inj w1 a _ _ He1 He0) in Hcase.
    assert (Hdec : entry_decimal e 0).
    { unfold entry_decimal, e. cbn. rewrite Hpayload, Hbytes.
      split; [reflexivity|]. split; [discriminate|]. split; reflexivity. }
    rewrite (mc_entry_value_u64_decimal e 0 Hdec ltac:(lia)) in Hcase.
    change (incr_value 0 1) with 1 in Hcase.
    destruct Hcase as (w2 & Hincr & Hinv2 & He2 & _); [lia|].
    set (c1 := mc_reply (set_command k 0 0 value false) (line "STORED")) in *.
    set (c2 := with_result MC_RESULT_VALUE (result_entry (w_next w1))
                 (incr_command k 1 false)).
    set (s2 := mm_net_spawn_writer
                 (mc_queue_command
                    (mm_net_spawn_writer (mc_queue_command state c1)) c2)).
    destruct (writer_reply_value w2 s2 (w_next w1) _ c1 c2 mc_desc_set
                mc_desc_incr (line "STORED") He2)
      as (state' & w3 & Hwr & _ & _ & Hout); try reflexivity.
    exists state', w3. split.
    + rewrite (bind_Some _ _ _ _ _
                 (mc_process_command_ok state (set_command k 0 0 value false)
                    c1 mc_desc_set w w1
                    eq_refl eq_refl Hset)).
      rewrite (bind_Some _ _ _ _ _
                 (mc_process_command_ok _ (incr_command k 1 false) c2
                    mc_desc_incr w1 w2 eq_refl eq_refl Hincr)).
      exact Hwr.
    + rewrite Hout. reflexivity.
  - intros command delta Hcommand. split.
    + intros old e Hcur He Hlen Hdigits.
      pose proof (mc_entry_value_u64_non_digit e Hlen Hdigits) as Hnone.
      destruct Hcommand as [-> | ->].
      * destruct (process_arith_ok incr_value mc_desc_incr w k delta Hinv)
          as (r & Hr & Hcase).
        rewrite Hcur in Hr. injection Hr as <-.
        destruct Hcase as (e0 & _ & He0 & _ & Hcase).
        rewrite <- (heap_at_inj w old _ _ He He0), Hnone in Hcase.
        now apply (arith_reply_on_wire incr_value mc_desc_incr w state k delta).
      * destruct (process_arith_ok decr_value mc_desc_decr w k delta Hinv)
          as (r & Hr & Hcase).
        rewrite Hcur in Hr. injection Hr as <-.
        destruct Hcase as (e0 & _ & He0 & _ & Hcase).
        rewrite <- (heap_at_inj w old _ _ He He0), Hnone in Hcase.
        now apply (arith_reply_on_wire decr_value mc_desc_decr w state k delta).
    + intros Hcur. destruct Hcommand as [-> | ->].
      * destruct (process_arith_ok incr_value mc_desc_incr w k delta Hinv)
          as (r & Hr & Hcase).
        rewrite Hcur in Hr. injection Hr as <-. destruct Hcase as (_ & Hrun).
        now apply (arith_reply_on_wire incr_value mc_desc_incr w state k delta).
      * destruct (process_arith_ok decr_value mc_desc_decr w k delta Hinv)
          as (r & Hr & Hcase).
        rewrite Hcur in Hr. injection Hr as <-. destruct Hcase as (_ & Hrun).
        now apply (arith_reply_on_wire decr_value mc_desc_decr w state k delta).
Qed.

Lemma abc_value_wf : value_wf abc_value.
Proof.
  split.
  - vm_compute. split; discriminate.
  - discriminate.
  - vm_compute. split; [discriminate|reflexivity].
  - vm_compute. discriminate.
  - repeat constructor.
Qed.

Lemma zero_value_wf : value_wf zero_value.
Proof.
  split.
  - vm_compute. split; discriminate.
  - discriminate.
  - vm_compute. split; [discriminate|reflexivity].
  - vm_compute. discriminate.
  - repeat constructor.
Qed.

Lemma mc_create_idle : idle mc_create.
Proof. repeat split. Qed.

Lemma incr_decr_replies_witness :
  (exists state' w',
     (s1 <- mc_process_command mc_create
              (set_command (bytes "k") 0 0 zero_value false) ;;
      s2 <- mc_process_command s1 (incr_command (bytes "k") 1 false) ;;
      mc_writer_routine s2) abc_world = Some (state', w') /\
     sock_out state' = [] ++ line "STORED" ++ bytes "1" ++ line "END") /\
  (exists state',
     (s1 <- mc_process_command mc_create (decr_command (bytes "k") 1 false) ;;
      mc_writer_routine s1) abc_world = Some (state', abc_world) /\
     sock_out state'
       = [] ++ line "CLIENT_ERROR cannot increment or decrement non-numeric value") /\
  (exists state',
     (s1 <- mc_process_command mc_create (incr_command (bytes "k") 1 false) ;;
      mc_writer_routine s1) mc_world_init = Some (state', mc_world_init) /\
     sock_out state' = [] ++ line "NOT_FOUND").
Proof.
  destruct (incr_decr_replies abc_world mc_create (bytes "k")
              (world_after_set_inv _ _ abc_value_wf) mc_create_idle)
    as (Hincr & Hreplies).
  destruct (incr_decr_replies mc_world_init mc_create (bytes "k")
              world_inv_init mc_create_idle) as (_ & Habsent).
  split; [|split].
  - apply (Hincr zero_value zero_value_wf); reflexivity.
  - apply (proj1 (Hreplies (decr_command (bytes "k") 1 false) 1
                    (or_intror eq_refl)) 1%nat
             (entry_with_ref_count 2 (new_entry (bytes "k") 1 abc_value 0 1)));
      vm_compute; reflexivity.
  - apply (proj2 (Habsent (incr_command (bytes "k") 1 false) 1
                    (or_introl eq_refl))).
    vm_compute. reflexivity.
Defined.

(** ** When striding starts *)

Lemma mc_table_is_full_spec (t : mc_table) :
  (exists k, 12 <= k <= 29 /\ t_size t = 2 ^ k) ->
  mc_table_is_full t = true <->
  4 * t_size t < t_nentries t /\
  ~ (t_size t = MC_TABLE_SIZE_MAX /\ t_used t = t_size t).
Proof.
  intros (k & Hk & Hsize). unfold mc_table_is_full.
  assert (Hs : 0 < t_size t <= 2 ^ 29).
  { rewrite Hsize. split; [apply Z.pow_pos_nonneg; lia|].
    apply Z.pow_le_mono_r; lia. }
  rewrite u32_small by (change (2 ^ 29) with 536870912 in Hs; lia).
  destruct (Z.eqb_spec (t_size t) MC_TABLE_SIZE_MAX) as [Hmax|Hmax];
    destruct (Z.eqb_spec (t_used t) (t_size t)) as [Hused|Hused]; cbn [andb].
  - split; [discriminate|]. intros [_ H]. now destruct H.
  - rewrite Z.ltb_lt. split; [intros H; split; [lia|tauto]|intros [H _]; lia].
  - rewrite Z.ltb_lt. split; [intros H; split; [lia|tauto]|intros [H _]; lia].
  - rewrite Z.ltb_lt. split; [intros H; split; [lia|tauto]|intros [H _]; lia].
Qed.

Lemma mc_table_check_size_spec (nbuckets_max : Z) (part : Tpart.mc_tpart) :
  Tpart.tpart_wf nbuckets_max part ->
  Tpart.mc_table_check_size nbuckets_max part = true <->
  2 * Tpart.nbuckets part < Tpart.entries_in_use part /\
  Tpart.nbuckets part < nbuckets_max.
Proof.
  intros [Hmax Hb He]. unfold Tpart.mc_table_check_size.
  unfold Tpart.entries_in_use in *.
  assert (Hne : u32 (u32 (Tpart.nentries part - Tpart.nentries_free part)
                     - Tpart.nentries_void part)
                = Tpart.nentries part - Tpart.nentries_free part
                  - Tpart.nentries_void part).
  { unfold u32. rewrite Zminus_mod_idemp_l. apply Z.mod_small. lia. }
  rewrite Hne. rewrite andb_true_iff, !Z.ltb_lt.
  change (2 ^ 31) with 2147483648 in Hmax.
  split.
  - intros [H1 H2]. rewrite u32_small in H1 by lia. lia.
  - intros [H1 H2]. rewrite u32_small by lia. lia.
Qed.

(** [set] of a key the table has no entry for. *)
Lemma mc_process_set_fresh (w : mc_world) key flags exptime value :
  world_inv w -> value_wf value -> current_entry w key = Some None ->
  let command := set_command key flags exptime value false in
  let index := mc_table_key_index (w_table w) key (len key) in
  let a := w_next w in
  let e := new_entry key (len key) value flags (u64 (w_cas w + 1)) in
  exists w',
    mc_process_set command w = Some (mc_reply command (line "STORED"), w') /\
    world_inv w' /\ same_geometry w w' /\
    w_heap w' = <[a := entry_with_ref_count 2 e]> (w_heap w) /\
    (forall b, bucket w' b =
       if decide (b = index) then a :: bucket w index else bucket w b) /\
    t_nentries (w_table w') = u64 (t_nentries (w_table w) + 1) /\
    let full := mc_table_is_full
                  (with_nentries (u64 (t_nentries (w_table w) + 1)) (w_table w)) in
    t_striding (w_table w') = t_striding (w_table w) || full /\
    w_posted w' =
      (if negb (t_striding (w_table w)) && full
       then S (w_posted w) else w_posted w).
Proof.
  intros Hinv Hwf Hcur command index a e.
  assert (Hindex : 0 <= index < t_size (w_table w)) by apply index_range, Hinv.
  destruct (mc_table_remove_ok w index key (len key) Hinv Hindex)
    as (r & w1 & Hrm & Hlk & _ & _ & _ & _ & _ & _ & _ & Hr).
  unfold current_entry in Hcur. fold index in Hcur.
  rewrite Hcur in Hlk. injection Hlk as <-. subst w1.
  destruct (store_new_entry_ok w key (len key) value flags Hinv Hwf)
    as (w3 & Hst & Hinv3 & Hheap3 & Hgeo3 & Hnext3 & Hcas3 & Hbk3 & Hn3
        & Hfull3).
  fold index a e in Hst, Hheap3, Hbk3.
  assert (He3 : heap_at w3 a e).
  { unfold heap_at. rewrite Hheap3. apply lookup_insert_eq. }
  pose proof (mc_entry_ref_ok w3 a e He3 ltac:(cbn; lia)) as Href.
  eexists. split; [|split_and!].
  - unfold mc_process_set, command, set_command, parsed.
    cbn [params with_params set_key set_value set_flags set_noreply].
    rewrite (bind_Some _ _ _ _ _ (key_index_ok w key (len key))).
    fold index. rewrite (bind_Some _ _ _ _ _ Hrm).
    erewrite bind_Some by reflexivity.
    rewrite (bind_Some _ _ _ _ _ Hst).
    rewrite (bind_Some _ _ _ _ _ Href). reflexivity.
  - now apply world_inv_update with (e := e).
  - exact Hgeo3.
  - cbn. rewrite Hheap3. apply insert_insert_eq.
  - intros b. rewrite bucket_with_heap. apply Hbk3.
  - exact Hn3.
  - exact Hfull3.
Qed.

Lemma numeral_inj (i j : Z) :
  0 <= i < 2 ^ 64 -> 0 <= j < 2 ^ 64 -> numeral i = numeral j -> i = j.
Proof.
  intros Hi Hj H.
  destruct (numeral_spec i Hi) as ((_ & _ & <-) & _).
  destruct (numeral_spec j Hj) as ((_ & _ & <-) & _).
  now rewrite H.
Qed.

Lemma numeral_key (i : Z) :
  0 <= i < 2 ^ 64 ->
  u8 (len (numeral i)) = len (numeral i) /\
  ztake (len (numeral i)) (numeral i) = numeral i.
Proof.
  intros Hi. destruct (numeral_spec i Hi) as (_ & _ & Hl).
  split; [apply u8_small; lia|]. apply ztake_all. lia.
Qed.

(** Filling a table just initialised with up to 16384 entries leaves its
    geometry as it is and does not start striding. *)
Lemma fill_table_filled (n : nat) :
  Z.of_nat n <= 16384 ->
  exists w, fill_table n mc_world_init = Some w /\ filled n w.
Proof.
  induction n as [|n IH]; intros Hn.
  - exists mc_world_init. split; [reflexivity|].
    split; [apply world_inv_init|]. split; [reflexivity|].
    intros a e [b Hb]. unfold bucket in Hb. cbn in Hb.
    rewrite lookup_empty in Hb. cbn in Hb. now apply elem_of_nil in Hb.
  - destruct IH as (w & Hrun & Hinv & Hc & Hkeys); [lia|].
    unfold table_counters in Hc.
    injection Hc as Hne Hsize Hused Hstr Hposted.
    set (k := numeral (Z.of_nat (S n))).
    assert (Hrange : 0 <= Z.of_nat (S n) < 2 ^ 64).
    { change (2 ^ 64) with 18446744073709551616. lia. }
    destruct (numeral_key _ Hrange) as (Hu8 & Htake). fold k in Hu8, Htake.
    assert (Hcur : current_entry w k = Some None).
    { unfold current_entry.
      destruct (lookup_chain_spec (w_heap w)
                  (bucket w (mc_table_key_index (w_table w) k (len k)))
                  k (u8 (len k))) as (r & Hl & Hr); [now apply chain_live|].
      rewrite Hl. destruct r as [a|]; [exfalso|reflexivity].
      destruct Hr as (Hin & e & He & Hm).
      assert (Hst : stored w a) by (eexists; exact Hin).
      destruct (Hkeys a e Hst He) as (i & Hi & Hk & Hkl).
      assert (Hri : 0 <= Z.of_nat i < 2 ^ 64).
      { change (2 ^ 64) with 18446744073709551616. lia. }
      destruct (numeral_key _ Hri) as (_ & Htake').
      unfold key_matches, mc_entry_key in Hm.
      apply andb_true_iff in Hm as (Hlen & Heq).
      apply Z.eqb_eq in Hlen. apply bool_decide_eq_true in Heq.
      rewrite Hu8 in Hlen, Heq. rewrite Hk, Htake in Heq.
      rewrite Hlen, Hkl, Htake' in Heq.
      apply numeral_inj in Heq; [lia|exact Hrange|exact Hri]. }
    destruct (mc_process_set_fresh w k 0 0 zero_value Hinv zero_value_wf Hcur)
      as (w' & Hset & Hinv' & (Hm' & Hs' & Hu') & Hheap' & Hbk' & Hn' & Hstr'
          & Hposted').
    exists w'. split.
    { cbn [fill_table]. rewrite Hrun. fold k. now rewrite Hset. }
    assert (Hfull : mc_table_is_full
              (with_nentries (u64 (t_nentries (w_table w) + 1)) (w_table w))
              = false).
    { unfold mc_table_is_full. cbn. rewrite Hsize, Hused, Hne.
      rewrite u64_small by (change (2 ^ 64) with 18446744073709551616; lia).
      change (4096 =? MC_TABLE_SIZE_MAX) with false. cbn [andb].
      change (u32 (4096 * 4)) with 16384. apply Z.ltb_ge. lia. }
    rewrite Hfull, Hstr in Hstr', Hposted'. cbn in Hstr', Hposted'.
    split; [exact Hinv'|]. split.
    { unfold table_counters. rewrite Hn', Hs', Hu', Hstr', Hposted', Hne.
      rewrite Hsize, Hused, Hposted.
      rewrite u64_small by (change (2 ^ 64) with 18446744073709551616; lia).
      repeat f_equal. lia. }
    intros x ex Hx Hex. unfold heap_at in Hex. rewrite Hheap' in Hex.
    destruct (decide (x = w_next w)) as [->|Hne'].
    + rewrite lookup_insert_eq in Hex. injection Hex as <-.
      exists (S n). split; [lia|].
      cbn [entry_key entry_key_len entry_with_ref_count new_entry].
      fold k. rewrite Hu8, Htake. now split.
    + rewrite lookup_insert_ne in Hex by congruence.
      destruct (Hkeys x ex) as (i & Hi & Hk & Hkl); [|exact Hex|].
      * destruct Hx as [b Hb]. rewrite Hbk' in Hb. unfold stored.
        destruct (decide _) as [->|_]; [|eauto].
        apply elem_of_cons in Hb as [->|Hb]; [congruence|eauto].
      * exists i. split; [lia|]. now split.
Qed.

(** C5, as stated, fails for [mc_table_insert] of [memcache.c]: 8193 [set]
    commands with keys of their own into a table just initialised leave it
    with 4096 buckets, far below the maximum, and 8193 entries, more than
    twice the buckets, and striding has not been started. *)
Lemma insert_above_twice_buckets_no_striding :
  exists w,
    fill_table (Z.to_nat 8193) mc_world_init = Some w /\
    t_nentries (w_table w) = 8193 /\
    t_size (w_table w) = 4096 /\ t_used (w_table w) = 4096 /\
    2 * t_size (w_table w) < t_nentries (w_table w) /\
    t_size (w_table w) < MC_TABLE_SIZE_MAX /\
    t_striding (w_table w) = false /\ w_posted w = 0%nat.
Proof.
  destruct (fill_table_filled (Z.to_nat 8193) ltac:(lia))
    as (w & Hrun & _ & Hc & _).
  unfold table_counters in Hc. rewrite Z2Nat.id in Hc by lia.
  injection Hc as Hn Hsize Hused Hstr Hposted.
  exists w. split; [exact Hrun|].
  rewrite Hn, Hsize, Hused, Hstr, Hposted.
  split_and!; reflexivity.
Qed.

(** C5, amended: [mc_table_insert] of [memcache.c] starts striding exactly
    when none is in progress and the entries, counted after the insert,
    exceed four times the table size, unless the size is at its maximum
    and all of it is in use; [mc_table_reserve_entries] of the partitioned
    table starts it exactly when none is in progress, the entries in use
    exceed twice the buckets and the buckets are below their maximum. *)
Theorem striding_started_iff_full (w : mc_world) (index : Z) (a : addr)
    (e : mc_entry) (nbuckets_max : Z) (part : Tpart.mc_tpart) :
  world_inv w -> 0 <= index < t_size (w_table w) ->
  w_heap w !! a = Some e ->
  mc_table_index (w_table w) (entry_hash e) = index ->
  ~ stored w a ->
  Tpart.tpart_wf nbuckets_max part ->
  (exists w',
     mc_table_insert index a w = Some (tt, w') /\
     t_nentries (w_table w') = u64 (t_nentries (w_table w) + 1) /\
     t_size (w_table w') = t_size (w_table w) /\
     t_used (w_table w') = t_used (w_table w) /\
     (striding_started w w' <->
      t_striding (w_table w) = false /\
      4 * t_size (w_table w') < t_nentries (w_table w') /\
      ~ (t_size (w_table w') = MC_TABLE_SIZE_MAX /\
         t_used (w_table w') = t_size (w_table w'))) /\
     (~ striding_started w w' ->
      t_striding (w_table w') = t_striding (w_table w) /\
      w_posted w' = w_posted w)) /\
  (let part' := Tpart.mc_table_reserve_entries nbuckets_max part in
   (tpart_striding_started part part' <->
    Tpart.striding part = false /\
    2 * Tpart.nbuckets part < Tpart.entries_in_use part /\
    Tpart.nbuckets part < nbuckets_max) /\
   (~ tpart_striding_started part part' -> part' = part)).
Proof.
  intros Hinv Hindex He Hidx Hns Hwf. split.
  - destruct (mc_table_insert_ok w index a e Hinv Hindex He Hidx Hns)
      as (w' & Hrun & Hinv' & _ & (Hmask & Hsize & Hused) & _ & _ & _ & Hn
          & Hstr & Hposted).
    cbv zeta in Hstr, Hposted.
    set (full := mc_table_is_full
                   (with_nentries (u64 (t_nentries (w_table w) + 1))
                      (w_table w))) in *.
    assert (Hfull : full = true <->
              4 * t_size (w_table w') < t_nentries (w_table w') /\
              ~ (t_size (w_table w') = MC_TABLE_SIZE_MAX /\
                 t_used (w_table w') = t_size (w_table w'))).
    { unfold full. rewrite mc_table_is_full_spec by apply Hinv.
      cbn. now rewrite Hn, Hsize, Hused. }
    exists w'. split; [exact Hrun|]. split; [exact Hn|].
    split; [exact Hsize|]. split; [exact Hused|].
    unfold striding_started. rewrite Hstr, Hposted, <- Hfull.
    destruct (t_striding (w_table w)), full; cbn;
      intuition (try discriminate; try lia; auto).
  - cbv zeta. unfold tpart_striding_started, Tpart.mc_table_reserve_entries.
    rewrite <- (mc_table_check_size_spec nbuckets_max part Hwf).
    destruct (Tpart.striding part) eqn:Hs,
             (Tpart.mc_table_check_size nbuckets_max part);
      cbn; rewrite ?Hs;
      intuition (try discriminate; try lia; auto).
Qed.

Lemma brim_world_inv : world_inv brim_world.
Proof.
  apply world_inv_alloc; [vm_compute; split; [discriminate|reflexivity]|].
  apply (world_inv_same mc_world_init); try reflexivity.
  - now split_and!.
  - apply world_inv_init.
Qed.

Lemma striding_started_iff_full_witness :
  (exists w',
     mc_table_insert (mc_table_index (w_table brim_world) (entry_hash brim_entry))
       1%nat brim_world = Some (tt, w') /\
     striding_started brim_world w') /\
  tpart_striding_started brim_part
    (Tpart.mc_table_reserve_entries (2 ^ 20) brim_part).
Proof.
  destruct (striding_started_iff_full brim_world
              (mc_table_index (w_table brim_world) (entry_hash brim_entry))
              1%nat brim_entry (2 ^ 20) brim_part brim_world_inv)
    as ((w' & Hrun & Hn & Hsize & Hused & Hiff & _) & Hpart & _).
  - vm_compute. split; [discriminate|reflexivity].
  - reflexivity.
  - reflexivity.
  - intros [b Hb]. unfold bucket in Hb. cbn in Hb.
    rewrite lookup_empty in Hb. cbn in Hb. now apply elem_of_nil in Hb.
  - split; vm_compute; split; try discriminate; reflexivity.
  - split.
    + exists w'. split; [exact Hrun|]. apply Hiff.
      rewrite Hn, Hsize, Hused. split; [reflexivity|].
      split; [vm_compute; reflexivity|].
      intros [H _]. vm_compute in H. discriminate.
    + apply Hpart. split; [reflexivity|]. split; vm_compute; reflexivity.
Defined.

(** ** Reference counts *)

(** C2 does not hold of the code.  After [set k 0 0 1] has been processed
    and its reply written, the entry is chained once, no command and no
    buffer refers to it, and its count is 2: [mc_process_set] takes a
    reference nobody gives back.  And [delete] frees the entry it unchains
    with [mc_entry_destroy], whatever its count: after [set], [get] and
    [delete] have been processed the result of the [get] still refers to the
    entry, which is gone, and the writer reads freed memory. *)
Theorem delete_frees_entry_of_pending_get :
  let k := bytes "k" in
  let set := set_command k 0 0 zero_value false in
  (exists state w e,
     (s1 <- mc_process_command mc_create set ;; mc_writer_routine s1)
       mc_world_init = Some (state, w) /\
     command_head state = [] /\ tbuf state = [] /\
     bucket w (mc_table_key_index (w_table w) k (len k)) = [1%nat] /\
     heap_at w 1%nat e /\ entry_ref_count e = 2) /\
  (exists state w c1 c2 c3 e,
     (s1 <- mc_process_command mc_create set ;;
      mc_process_command s1 (get_command [k])) mc_world_init
       = Some (state, w) /\
     heap_at w 1%nat e /\ entry_ref_count e = 3 /\
     exists state' w',
       mc_process_command state (delete_command k false) w
         = Some (state', w') /\
       command_head state' = [c1; c2; c3] /\
       result_type c2 = MC_RESULT_ENTRY /\
       result c2 = result_entries [1%nat] /\
       reply_of c3 = Some (line "DELETED") /\
       w_heap w' !! 1%nat = None /\
       mc_writer_routine state' w' = None).
Proof.
  cbv zeta. split.
  - eexists _, _, _. split; [vm_compute; reflexivity|].
    split_and!; vm_compute; reflexivity.
  - eexists _, _, _, _, _, _. split; [vm_compute; reflexivity|].
    split; [vm_compute; reflexivity|]. split; [vm_compute; reflexivity|].
    eexists _, _. split; [vm_compute; reflexivity|].
    split_and!; vm_compute; reflexivity.
Qed.

(** ** The command FIFO and the writer *)












(** The writer on a FIFO whose second command has no result yet: the reply
    of the first is written, the others stay queued. *)
Lemma writer_stops_at_pending_command :
  exists state',
    mc_writer_routine stalled_state mc_world_init = Some (state', mc_world_init) /\
    sock_out state' = line "STORED" /\
    command_head state'
      = [get_command [bytes "k"];
         mc_reply (delete_command (bytes "k") false) (line "NOT_FOUND")].
Proof. eexists. split_and!; vm_compute; reflexivity. Qed.

(** ** The multi-producer multi-consumer ring *)

Lemma ring_slot (r : Ring.mm_ring_mpmc) (x : Z) :
  Ring.ring_wf r -> 0 <= x ->
  exists n, Ring.ring r !! Z.to_nat (Z.land x (Ring.mask r)) = Some n.
Proof.
  intros [(k & Hk & Hm) Hslots _ _] Hx.
  assert (Hr : 0 <= Z.land x (Ring.mask r) < 2 ^ k).
  { rewrite Hm. replace (2 ^ k - 1) with (Z.ones k)
      by (rewrite Z.ones_equiv; lia).
    rewrite Z.land_ones by lia. apply Z.mod_pos_bound.
    apply Z.pow_pos_nonneg; lia. }
  apply lookup_lt_is_Some_2. unfold len in Hslots. lia.
Qed.

Lemma rbind_Some {A B} (m : Ring.R A) (f : A -> Ring.R B) s a s' :
  m s = Some (a, s') -> Ring.rbind m f s = f a s'.
Proof. intros H. unfold Ring.rbind. now rewrite H. Qed.

Lemma mm_memory_load_ok r log l v :
  Ring.read_loc r l = Some v ->
  Ring.mm_memory_load l (r, log) = Some (v, (r, log ++ [Ring.ev_load l v])).
Proof. intros H. unfold Ring.mm_memory_load. now rewrite H. Qed.

Lemma mm_memory_store_ok r r' log l v :
  Ring.write_loc r l v = Some r' ->
  Ring.mm_memory_store l v (r, log)
    = Some (tt, (r', log ++ [Ring.ev_store l v])).
Proof. intros H. unfold Ring.mm_memory_store. now rewrite H. Qed.

Lemma mm_atomic_uintptr_cas_ok r r' log l v desired :
  Ring.read_loc r l = Some v -> Ring.write_loc r l desired = Some r' ->
  Ring.mm_atomic_uintptr_cas l v desired (r, log)
    = Some (v, (r', log ++ [Ring.ev_cas l v desired v])).
Proof.
  intros Hr Hw. unfold Ring.mm_atomic_uintptr_cas.
  now rewrite Hr, Z.eqb_refl, Hw.
Qed.

Lemma mm_ring_mpmc_put_ok (r : Ring.mm_ring_mpmc) (log : list Ring.event)
    (d : Z) (n : Ring.mm_ring_node) :
  let t := Ring.tail r in
  let node := Z.land t (Ring.mask r) in
  Ring.ring r !! Z.to_nat node = Some n ->
  Ring.mm_ring_mpmc_put d (r, log) =
    if Ring.lock n =? t then
      Some (true,
            (after_put r d,
             log ++ [Ring.ev_load Ring.loc_tail t; Ring.ev_load_fence;
                     Ring.ev_load (Ring.loc_lock node) t;
                     Ring.ev_cas Ring.loc_tail t (u64 (t + 1)) t;
                     Ring.ev_store (Ring.loc_data node) d;
                     Ring.ev_store_fence;
                     Ring.ev_store (Ring.loc_lock node) (u64 (t + 1))]))
    else
      Some (false,
            (r, log ++ [Ring.ev_load Ring.loc_tail t; Ring.ev_load_fence;
                        Ring.ev_load (Ring.loc_lock node) (Ring.lock n)])).
Proof.
  intros t node Hn. destruct r as [h t' m slots]. cbn in t, node, Hn.
  subst t node. set (node := Z.land t' m) in *.
  unfold Ring.mm_ring_mpmc_put.
  erewrite rbind_Some by (apply mm_memory_load_ok; reflexivity).
  erewrite rbind_Some by reflexivity.
  cbn [Ring.read_loc Ring.tail Ring.mask]. fold node.
  erewrite rbind_Some by reflexivity.
  erewrite rbind_Some.
  2:{ apply mm_memory_load_ok. cbn [Ring.read_loc Ring.ring].
      rewrite Hn. reflexivity. }
  destruct (Z.eqb_spec (Ring.lock n) t') as [Hl|Hl]; cbn [negb].
  - erewrite rbind_Some by (apply mm_atomic_uintptr_cas_ok; reflexivity).
    rewrite Z.eqb_refl. cbn [negb Ring.write_loc Ring.head Ring.mask Ring.ring].
    erewrite rbind_Some.
    2:{ apply mm_memory_store_ok. cbn [Ring.write_loc Ring.ring].
        rewrite Hn. reflexivity. }
    erewrite rbind_Some by reflexivity.
    erewrite rbind_Some.
    2:{ apply mm_memory_store_ok. cbn [Ring.write_loc Ring.ring].
        rewrite list_lookup_insert_eq by (now apply lookup_lt_Some in Hn).
        reflexivity. }
    cbn [Ring.head Ring.tail Ring.mask Ring.ring Ring.data Ring.lock].
    rewrite list_insert_insert_eq, Hl.
    unfold Ring.rret, after_put.
    cbn [Ring.head Ring.tail Ring.mask Ring.ring]. fold node.
    rewrite <- !app_assoc. reflexivity.
  - unfold Ring.rret. rewrite <- !app_assoc. reflexivity.
Qed.

Lemma mm_ring_mpmc_get_ok (r : Ring.mm_ring_mpmc) (log : list Ring.event)
    (n : Ring.mm_ring_node) :
  let h := Ring.head r in
  let node := Z.land h (Ring.mask r) in
  Ring.ring r !! Z.to_nat node = Some n ->
  Ring.mm_ring_mpmc_get (r, log) =
    if Ring.lock n =? u64 (h + 1) then
      Some ((true, Ring.data n),
            (after_get r (Ring.data n),
             log ++ [Ring.ev_load Ring.loc_head h; Ring.ev_load_fence;
                     Ring.ev_load (Ring.loc_lock node) (u64 (h + 1));
                     Ring.ev_cas Ring.loc_head h (u64 (h + 1)) h;
                     Ring.ev_load (Ring.loc_data node) (Ring.data n);
                     Ring.ev_fence;
                     Ring.ev_store (Ring.loc_lock node)
                       (u64 (h + 1 + Ring.mask r))]))
    else
      Some ((false, 0),
            (r, log ++ [Ring.ev_load Ring.loc_head h; Ring.ev_load_fence;
                        Ring.ev_load (Ring.loc_lock node) (Ring.lock n)])).
Proof.
  intros h node Hn. destruct r as [h' t m slots]. cbn in h, node, Hn.
  subst h node. set (node := Z.land h' m) in *.
  unfold Ring.mm_ring_mpmc_get.
  erewrite rbind_Some by (apply mm_memory_load_ok; reflexivity).
  erewrite rbind_Some by reflexivity.
  cbn [Ring.read_loc Ring.head Ring.mask]. fold node.
  erewrite rbind_Some by reflexivity.
  erewrite rbind_Some.
  2:{ apply mm_memory_load_ok. cbn [Ring.read_loc Ring.ring].
      rewrite Hn. reflexivity. }
  destruct (Z.eqb_spec (Ring.lock n) (u64 (h' + 1))) as [Hl|Hl]; cbn [negb].
  - erewrite rbind_Some by (apply mm_atomic_uintptr_cas_ok; reflexivity).
    rewrite Z.eqb_refl. cbn [negb Ring.write_loc Ring.tail Ring.mask Ring.ring].
    erewrite rbind_Some.
    2:{ apply mm_memory_load_ok. cbn [Ring.read_loc Ring.ring].
        rewrite Hn. reflexivity. }
    erewrite rbind_Some by reflexivity.
    erewrite rbind_Some.
    2:{ apply mm_memory_store_ok. cbn [Ring.write_loc Ring.ring].
        rewrite Hn. reflexivity. }
    rewrite Hl.
    unfold Ring.rret, after_get.
    cbn [Ring.head Ring.tail Ring.mask Ring.ring]. fold node.
    rewrite <- !app_assoc. reflexivity.
  - unfold Ring.rret. rewrite <- !app_assoc. reflexivity.
Qed.

Lemma ring4_wf : Ring.ring_wf ring4.
Proof.
  split; cbn.
  - exists 2. split; [lia|reflexivity].
  - reflexivity.
  - lia.
  - lia.
Qed.

(** C9, as stated, fails: a get at head [0] of a ring of four slots leaves
    the lock of the slot at [4], one below [0 + 1 + 4]. *)
Lemma get_lock_is_not_head_plus_one_plus_capacity :
  exists r1 log1 r2 log2 n,
    Ring.mm_ring_mpmc_put 7 (ring4, []) = Some (true, (r1, log1)) /\
    Ring.mm_ring_mpmc_get (r1, log1) = Some ((true, 7), (r2, log2)) /\
    Z.of_nat (length (Ring.ring r2)) = 4 /\ Ring.capacity r2 = 4 /\
    Ring.ring r2 !! 0%nat = Some n /\
    Ring.lock n = 4 /\
    Ring.lock n <> Ring.head r1 + 1 + Ring.capacity r2.
Proof.
  eexists _, _, _, _, _.
  split; [vm_compute; reflexivity|]. split; [vm_compute; reflexivity|].
  split_and!; try (vm_compute; reflexivity). vm_compute. discriminate.
Qed.

(** C9, amended: a put that finds the lock of the slot of the tail [t] at
    [t] moves the tail to [t + 1] by CAS, stores the data and then sets the
    lock to [t + 1]; a get that finds the lock of the slot of the head [h]
    at [h + 1] moves the head to [h + 1] by CAS, loads the data and then
    sets the lock to [h + 1 + mask], which is [h] plus the number of slots;
    otherwise they fail and leave the ring as it is.  Counters are taken
    modulo [2^64]. *)
Theorem mpmc_put_get_lock_values (r : Ring.mm_ring_mpmc)
    (log : list Ring.event) (d : Z) :
  Ring.ring_wf r ->
  let t := Ring.tail r in
  let h := Ring.head r in
  let slot_t := Z.land t (Ring.mask r) in
  let slot_h := Z.land h (Ring.mask r) in
  len (Ring.ring r) = Ring.capacity r /\
  (exists n,
     Ring.ring r !! Z.to_nat slot_t = Some n /\
     Ring.mm_ring_mpmc_put d (r, log) =
       (if Ring.lock n =? t then
          Some (true,
                (after_put r d,
                 log ++ [Ring.ev_load Ring.loc_tail t; Ring.ev_load_fence;
                         Ring.ev_load (Ring.loc_lock slot_t) t;
                         Ring.ev_cas Ring.loc_tail t (u64 (t + 1)) t;
                         Ring.ev_store (Ring.loc_data slot_t) d;
                         Ring.ev_store_fence;
                         Ring.ev_store (Ring.loc_lock slot_t) (u64 (t + 1))]))
        else
          Some (false,
                (r, log ++ [Ring.ev_load Ring.loc_tail t; Ring.ev_load_fence;
                            Ring.ev_load (Ring.loc_lock slot_t) (Ring.lock n)])))
     /\
     Ring.tail (after_put r d) = u64 (t + 1) /\
     Ring.head (after_put r d) = h /\
     Ring.ring (after_put r d) !! Z.to_nat slot_t
       = Some {| Ring.data := d; Ring.lock := u64 (t + 1) |}) /\
  (exists n,
     Ring.ring r !! Z.to_nat slot_h = Some n /\
     Ring.mm_ring_mpmc_get (r, log) =
       (if Ring.lock n =? u64 (h + 1) then
          Some ((true, Ring.data n),
                (after_get r (Ring.data n),
                 log ++ [Ring.ev_load Ring.loc_head h; Ring.ev_load_fence;
                         Ring.ev_load (Ring.loc_lock slot_h) (u64 (h + 1));
                         Ring.ev_cas Ring.loc_head h (u64 (h + 1)) h;
                         Ring.ev_load (Ring.loc_data slot_h) (Ring.data n);
                         Ring.ev_fence;
                         Ring.ev_store (Ring.loc_lock slot_h)
                           (u64 (h + Ring.capacity r))]))
        else
          Some ((false, 0),
                (r, log ++ [Ring.ev_load Ring.loc_head h; Ring.ev_load_fence;
                            Ring.ev_load (Ring.loc_lock slot_h) (Ring.lock n)])))
     /\
     Ring.head (after_get r (Ring.data n)) = u64 (h + 1) /\
     Ring.tail (after_get r (Ring.data n)) = t /\
     Ring.ring (after_get r (Ring.data n)) !! Z.to_nat slot_h
       = Some {| Ring.data := Ring.data n;
                 Ring.lock := u64 (h + Ring.capacity r) |}).
Proof.
  intros Hwf t h slot_t slot_h.
  assert (Hcap : h + Ring.capacity r = h + 1 + Ring.mask r)
    by (unfold Ring.capacity; lia).
  split; [apply (Ring.wf_slots r Hwf)|]. split.
  - destruct (ring_slot r t Hwf) as (n & Hn); [apply (Ring.wf_tail r Hwf)|].
    exists n. split; [exact Hn|].
    split; [now apply mm_ring_mpmc_put_ok|].
    split; [reflexivity|]. split; [reflexivity|].
    unfold after_put. cbn [Ring.ring].
    apply list_lookup_insert_eq. now apply lookup_lt_Some in Hn.
  - destruct (ring_slot r h Hwf) as (n & Hn); [apply (Ring.wf_head r Hwf)|].
    exists n. split; [exact Hn|]. rewrite Hcap.
    split; [now apply mm_ring_mpmc_get_ok|].
    split; [reflexivity|]. split; [reflexivity|].
    unfold after_get. cbn [Ring.ring].
    apply list_lookup_insert_eq. now apply lookup_lt_Some in Hn.
Qed.

Lemma mpmc_put_get_lock_values_witness :
  Ring.mm_ring_mpmc_put 7 (ring4, []) =
    Some (true,
          (after_put ring4 7,
           [Ring.ev_load Ring.loc_tail 0; Ring.ev_load_fence;
            Ring.ev_load (Ring.loc_lock 0) 0;
            Ring.ev_cas Ring.loc_tail 0 1 0;
            Ring.ev_store (Ring.loc_data 0) 7;
            Ring.ev_store_fence;
            Ring.ev_store (Ring.loc_lock 0) 1])) /\
  Ring.mm_ring_mpmc_get (after_put ring4 7, []) =
    Some ((true, 7),
          (after_get (after_put ring4 7) 7,
           [Ring.ev_load Ring.loc_head 0; Ring.ev_load_fence;
            Ring.ev_load (Ring.loc_lock 0) 1;
            Ring.ev_cas Ring.loc_head 0 1 0;
            Ring.ev_load (Ring.loc_data 0) 7;
            Ring.ev_fence;
            Ring.ev_store (Ring.loc_lock 0) 4])).
Proof.
  assert (Hwf : Ring.ring_wf (after_put ring4 7)).
  { split; cbn.
    - exists 2. split; [lia|reflexivity].
    - reflexivity.
    - lia.
    - vm_compute. split; [discriminate|reflexivity]. }
  destruct (mpmc_put_get_lock_values ring4 [] 7 ring4_wf)
    as (_ & (n & Hn & Hput & _) & _).
  destruct (mpmc_put_get_lock_values (after_put ring4 7) [] 7 Hwf)
    as (_ & _ & (n' & Hn' & Hget & _)).
  vm_compute in Hn. injection Hn as <-.
  vm_compute in Hn'. injection Hn' as <-.
  split; [exact Hput|exact Hget].
Defined.

(** ** The parser *)

Lemma after_newline_app (l1 l2 : list ascii) :
  after_newline (l1 ++ l2) =
    match after_newline l1 with
    | Some post => Some (post ++ l2)
    | None => after_newline l2
    end.
Proof.
  induction l1 as [|c l1 IH]; [reflexivity|]. cbn.
  destruct (Ascii.eqb c LF); [reflexivity|exact IH].
Qed.

Lemma after_newline_Some (l post : list ascii) :
  after_newline l = Some post <->
  exists pre, l = pre ++ LF :: post /\ LF ∉ pre.
Proof.
  split.
  - revert post. induction l as [|c l IH]; intros post H; [discriminate|].
    cbn in H. destruct (Ascii.eqb_spec c LF) as [->|Hc].
    + injection H as <-. exists []. split; [reflexivity|]. apply not_elem_of_nil.
    + destruct (IH post H) as (pre & -> & Hpre). exists (c :: pre).
      split; [reflexivity|]. apply not_elem_of_cons. split; congruence.
  - intros (pre & -> & Hpre). induction pre as [|c pre IH]; cbn.
    + reflexivity.
    + apply not_elem_of_cons in Hpre as [Hc Hpre].
      destruct (Ascii.eqb_spec c LF); [congruence|]. now apply IH.
Qed.

Lemma after_newline_None (l : list ascii) :
  after_newline l = None <-> LF ∉ l.
Proof.
  induction l as [|c l IH]; cbn.
  - split; [intros _; apply not_elem_of_nil|reflexivity].
  - destruct (Ascii.eqb_spec c LF) as [->|Hc].
    + split; [discriminate|]. intros H. exfalso. apply H. left.
    + rewrite IH, not_elem_of_cons. split; [intros H; split; congruence|tauto].
Qed.

Lemma memchr_newline (s : list ascii) :
  match memchr s LF with
  | Some i => 0 <= i < len s /\ after_newline s = Some (zdrop (i + 1) s)
  | None => after_newline s = None
  end.
Proof.
  induction s as [|c s IH]; [reflexivity|]. cbn [memchr after_newline].
  destruct (Ascii.eqb c LF).
  - unfold len. cbn. split; [lia|reflexivity].
  - destruct (memchr s LF) as [i|]; [|exact IH].
    destruct IH as (Hi & ->). unfold len in *. cbn [length].
    split; [lia|]. unfold zdrop. f_equal.
    replace (Z.to_nat (i + 1 + 1)) with (S (Z.to_nat (i + 1))) by lia.
    reflexivity.
Qed.

Lemma zdrop_zdrop {A} (l : list A) (a b : Z) :
  0 <= a -> 0 <= b -> zdrop b (zdrop a l) = zdrop (a + b) l.
Proof.
  intros Ha Hb. unfold zdrop. rewrite drop_drop. f_equal. lia.
Qed.

Lemma len_zdrop_le {A} (l : list A) (n : Z) :
  0 <= n <= len l -> len (zdrop n l) = len l - n.
Proof. intros H. unfold len, zdrop in *. rewrite length_drop. lia. Qed.

(** [mc_parse_error]: with a LF in the input that is left, the cursor goes
    behind the first one and the command gets the reply; without, more input
    is asked for and neither the command nor the quit flag change. *)
Lemma parse_error_loop_spec (error_string : list ascii) :
  forall next p,
    next = cursor_next p -> cursor_wf p ->
    exists p',
      cursor_wf p' /\ parser_error p' = parser_error p /\
      state_quit p' = state_quit p /\
      match after_newline (cursor_rest p) with
      | Some post =>
          parse_error_loop next p error_string = (true, p') /\
          cursor_rest p' = post /\
          parser_command p' = mc_reply (parser_command p) error_string
      | None =>
          parse_error_loop next p error_string = (false, p') /\
          parser_command p' = parser_command p
      end.
Proof.
  induction next as [|seg next IH]; intros p Hnext Hwf.
  - cbn [parse_error_loop]. unfold cursor_rest, mm_buffer_next_out.
    rewrite <- Hnext. cbn [concat]. rewrite app_nil_r.
    pose proof (memchr_newline (zdrop (cursor_ptr p) (cursor_seg p))) as Hm.
    destruct (memchr _ LF) as [i|].
    + destruct Hm as (Hi & ->).
      exists (with_command (mc_reply (parser_command p) error_string)
                (with_ptr (cursor_ptr p + i + 1) p)).
      split.
      { unfold cursor_wf in *. cbn. rewrite len_zdrop_le in Hi by lia. lia. }
      do 3 (split; [reflexivity|]). split; [|reflexivity].
      cbn. rewrite <- Hnext. cbn. rewrite app_nil_r.
      rewrite zdrop_zdrop by (unfold cursor_wf in Hwf; lia).
      f_equal. lia.
    + rewrite Hm. exists p. now split_and!.
  - cbn [parse_error_loop]. unfold cursor_rest, mm_buffer_next_out.
    rewrite <- Hnext. rewrite after_newline_app.
    pose proof (memchr_newline (zdrop (cursor_ptr p) (cursor_seg p))) as Hm.
    destruct (memchr _ LF) as [i|].
    + destruct Hm as (Hi & ->).
      exists (with_command (mc_reply (parser_command p) error_string)
                (with_ptr (cursor_ptr p + i + 1) p)).
      split.
      { unfold cursor_wf in *. cbn. rewrite len_zdrop_le in Hi by lia. lia. }
      do 3 (split; [reflexivity|]). split; [|reflexivity].
      cbn. rewrite <- Hnext.
      rewrite zdrop_zdrop by (unfold cursor_wf in Hwf; lia).
      do 2 f_equal. lia.
    + rewrite Hm.
      destruct (IH (with_cursor seg next 0 p) eq_refl) as (p' & H1 & H2 & H3 & H4).
      { unfold cursor_wf. cbn. pose proof (len_nonneg seg). lia. }
      exists p'. split_and!; auto.
Qed.

Lemma mc_parse_error_spec (p : mc_parser) (error_string : list ascii) :
  cursor_wf p ->
  exists p',
    cursor_wf p' /\ parser_error p' = true /\ state_quit p' = state_quit p /\
    match after_newline (cursor_rest p) with
    | Some post =>
        mc_parse_error p error_string = (true, p') /\
        cursor_rest p' = post /\
        parser_command p' = mc_reply (parser_command p) error_string
    | None =>
        mc_parse_error p error_string = (false, p') /\
        parser_command p' = parser_command p
    end.
Proof.
  intros Hwf. unfold mc_parse_error.
  destruct (parse_error_loop_spec error_string (cursor_next p)
              (with_error true p) eq_refl Hwf) as (p' & H1 & H2 & H3 & H4).
  exists p'. split_and!; auto.
Qed.

Lemma len_cons {A} (x : A) (l : list A) : len (x :: l) = len l + 1.
Proof. unfold len. cbn [length]. lia. Qed.

Lemma scan_positions (chars : list ascii) :
  forall s state start rest command,
    scan_within s (s + len chars) (scan chars s state start rest command).
Proof.
  induction chars as [|ch chars IH]; intros s state start rest command.
  - exact I.
  - assert (Hrec : forall st start rest command,
              scan_within s (s + len (ch :: chars))
                (scan chars (s + 1) st start rest command)).
    { intros st start' rest' command'.
      pose proof (IH (s + 1) st start' rest' command') as H.
      rewrite len_cons. pose proof (len_nonneg chars).
      destruct (scan chars (s + 1) st start' rest' command'); cbn in *; lia. }
    pose proof (len_nonneg chars) as Hlen.
    cbn [scan]. cbv zeta.
    destruct state;
      repeat match goal with
             | |- context [match command_start ?a ?b with _ => _ end] =>
                 destruct (command_start a b) as [[? [[? ?]|]]|]
             | |- scan_within _ _ (if ?b then _ else _) => destruct b
             end;
      try apply Hrec; cbn [scan_within]; rewrite len_cons; lia.
Qed.

Lemma zdrop_split {A} (l : list A) (s t : Z) :
  0 <= s <= t ->
  zdrop s l = ztake (t - s) (zdrop s l) ++ zdrop t l.
Proof.
  intros H. unfold zdrop, ztake.
  rewrite <- (take_drop (Z.to_nat (t - s)) (drop (Z.to_nat s) l)) at 1.
  f_equal. rewrite drop_drop. f_equal. lia.
Qed.

Lemma parse_command_loop_spec :
  forall next state start rest count p,
    next = cursor_next p -> cursor_wf p -> parser_error p = false ->
    exists rc p',
      parse_command_loop next state start rest count p = (rc, p') /\
      command_outcome count p rc p'.
Proof.
  induction next as [|seg next IH]; intros state start rest count p Hnext
    Hwf Herr.
  all: cbn [parse_command_loop];
    pose proof (scan_positions (zdrop (cursor_ptr p) (cursor_seg p))
                  (cursor_ptr p) state start rest (parser_command p)) as Hpos;
    rewrite len_zdrop_le in Hpos by exact Hwf;
    replace (cursor_ptr p + (len (cursor_seg p) - cursor_ptr p))
      with (len (cursor_seg p)) in Hpos by lia;
    destruct (scan _ _ state start rest (parser_command p))
      as [ptr c|ptr c|state' start' rest' c]; cbn [scan_within] in Hpos.
  all: try (
    (* leave *)
    eexists _, _; split; [reflexivity|]; left;
    split; [reflexivity|]; split; [exact Herr|]; split; [reflexivity|];
    exists (ztake (ptr - cursor_ptr p) (zdrop (cursor_ptr p) (cursor_seg p)));
    unfold cursor_rest; cbn [cursor_ptr cursor_seg cursor_next with_ptr
      with_cursor with_command];
    rewrite app_assoc; f_equal; apply zdrop_split; unfold cursor_wf in Hwf;
    lia).
  all: try (
    (* error *)
    set (p_err := with_ptr ptr (with_command c p));
    assert (Hsplit : cursor_rest p
              = ztake (ptr - cursor_ptr p) (zdrop (cursor_ptr p) (cursor_seg p))
                ++ cursor_rest p_err)
      by (unfold cursor_rest, p_err; cbn [cursor_ptr cursor_seg cursor_next
            with_ptr with_cursor with_command];
          rewrite app_assoc; f_equal; apply zdrop_split;
          unfold cursor_wf in Hwf; lia);
    destruct (mc_parse_error_spec p_err (line "ERROR")) as
      (p' & _ & He & Hq & Hcase);
    [unfold cursor_wf, p_err; cbn; unfold cursor_wf in Hwf; lia|];
    destruct (after_newline (cursor_rest p_err)) as [post|] eqn:Hnl;
    [ destruct Hcase as (Hrun & Hrest & Hcmd);
      apply after_newline_Some in Hnl as (pre & Hpre & _);
      exists true, p'; split; [exact Hrun|]; right; left;
      split; [reflexivity|]; split; [exact He|]; split; [exact Hq|];
      split; [now rewrite Hcmd|];
      eexists; rewrite Hsplit, Hpre, Hrest, app_assoc; reflexivity
    | destruct Hcase as (Hrun & Hcmd);
      apply after_newline_None in Hnl;
      exists false, p'; split; [exact Hrun|]; right; right; left;
      split; [reflexivity|]; split; [exact He|]; split; [exact Hq|];
      eexists _, _; split; [exact Hsplit|exact Hnl] ]).
  - (* the input ends here *)
    cbv zeta. unfold mc_more_input.
    cbn [cursor_seg cursor_ptr with_command].
    assert (Hrest : len (cursor_rest p) = len (cursor_seg p) - cursor_ptr p).
    { unfold cursor_rest. rewrite <- Hnext. cbn [concat]. rewrite app_nil_r.
      now apply len_zdrop_le. }
    destruct (Z.ltb_spec 1024 (count + (len (cursor_seg p) - cursor_ptr p))).
    + eexists _, _. split; [reflexivity|]. do 3 right. left.
      split_and!; try reflexivity; [exact Herr|lia].
    + unfold mm_buffer_next_out. cbn [cursor_next with_command].
      rewrite <- Hnext. eexists _, _. split; [reflexivity|]. do 4 right.
      split_and!; try reflexivity; [exact Herr|lia].
  - (* on to the next segment *)
    cbv zeta. unfold mc_more_input.
    cbn [cursor_seg cursor_ptr with_command].
    assert (Hrest : len (cursor_rest p)
                    = len (cursor_seg p) - cursor_ptr p
                      + len (seg ++ concat next)).
    { unfold cursor_rest. rewrite <- Hnext. cbn [concat]. rewrite len_app.
      now rewrite len_zdrop_le. }
    destruct (Z.ltb_spec 1024 (count + (len (cursor_seg p) - cursor_ptr p))).
    + eexists _, _. split; [reflexivity|]. do 3 right. left.
      pose proof (len_nonneg (seg ++ concat next)).
      split_and!; try reflexivity; [exact Herr|lia].
    + unfold mm_buffer_next_out. cbn [cursor_next with_command].
      rewrite <- Hnext.
      set (p1 := with_cursor seg next 0 (with_command c p)).
      destruct (IH state' start' rest'
                  (count + (len (cursor_seg p) - cursor_ptr p)) p1 eq_refl)
        as (rc & p' & Hrun & Hout).
      { unfold cursor_wf, p1. cbn. pose proof (len_nonneg seg). lia. }
      { exact Herr. }
      exists rc, p'. split; [exact Hrun|].
      assert (Hp1 : cursor_rest p
                    = zdrop (cursor_ptr p) (cursor_seg p) ++ cursor_rest p1).
      { unfold cursor_rest, p1. cbn. now rewrite <- Hnext. }
      assert (Hl1 : len (cursor_rest p1) = len (seg ++ concat next))
        by reflexivity.
      destruct Hout as [H1|[H1|[H1|[H1|H1]]]].
      * left. destruct H1 as (-> & He & Hq & consumed & Hc).
        split_and!; auto. eexists. rewrite Hp1, Hc, app_assoc. reflexivity.
      * right; left. destruct H1 as (-> & He & Hq & Hr & consumed & Hc).
        split_and!; auto. eexists. rewrite Hp1, Hc, app_assoc. reflexivity.
      * right; right; left.
        destruct H1 as (-> & He & Hq & consumed & behind & Hc & Hb).
        split_and!; auto. eexists _, behind.
        split; [|exact Hb]. rewrite Hp1, Hc, app_assoc. reflexivity.
      * do 3 right. left. destruct H1 as (-> & He & Hq & Hr & Hc).
        split_and!; auto. lia.
      * do 4 right. destruct H1 as (-> & He & Hq & Hc).
        split_and!; auto. lia.
Qed.

Lemma scan_spaces (n : nat) :
  forall s start rest command,
    scan (replicate n SP) s S_START start rest command
      = scan_more S_START start rest command.
Proof.
  induction n as [|n IH]; intros s start rest command; [reflexivity|].
  cbn [replicate scan]. exact (IH (s + 1) start rest command).
Qed.

Lemma mc_parse_command_spaces (p : mc_parser) (n : nat) :
  cursor_wf p -> zdrop (cursor_ptr p) (cursor_seg p) = replicate n SP ->
  1024 < Z.of_nat n ->
  exists p',
    mc_parse_command p = (false, p') /\ state_quit p' = true /\
    result_type (parser_command p') = MC_RESULT_QUIT /\
    parser_error p' = parser_error p.
Proof.
  intros Hwf Hsp Hn. unfold mc_parse_command.
  assert (Hlen : len (cursor_seg p) - cursor_ptr p = Z.of_nat n).
  { rewrite <- len_zdrop_le by exact Hwf. rewrite Hsp. unfold len.
    now rewrite length_replicate. }
  assert (Hstep : forall next,
    parse_command_loop next S_START (u32 (-1)) [] 0 p
      = mc_more_input p (0 + (len (cursor_seg p) - cursor_ptr p))).
  { intros next. destruct next; cbn [parse_command_loop];
      rewrite Hsp, scan_spaces; cbv zeta;
      (replace (with_command (parser_command p) p) with p
         by now destruct p);
      unfold mc_more_input; rewrite Hlen;
      destruct (Z.ltb_spec 1024 (0 + Z.of_nat n)); try lia; reflexivity. }
  rewrite Hstep. unfold mc_more_input. rewrite Hlen.
  destruct (Z.ltb_spec 1024 (0 + Z.of_nat n)); [|lia].
  eexists. split; [reflexivity|]. now split_and!.
Qed.

(** [mc_parse_data] on a payload that lies in the segment of the cursor
    with two bytes or more behind it. *)
Lemma mc_parse_data_in_segment (p : mc_parser) (bytes : Z) :
  cursor_wf p -> 0 <= bytes ->
  bytes + 1 < len (cursor_seg p) - cursor_ptr p < 2 ^ 32 ->
  let ptr := cursor_ptr p + bytes in
  let c0 := byte_at (cursor_seg p) ptr in
  let c1 := byte_at (cursor_seg p) (ptr + 1) in
  fst (mc_parse_data p bytes) =
    if Ascii.eqb c0 LF then data_done true (with_ptr (ptr + 1) p)
    else if Ascii.eqb c0 CR && Ascii.eqb c1 LF
    then data_done true (with_ptr (ptr + 2) p)
    else data_done true
           (with_ptr (ptr + 2)
              (with_command
                 (mc_reply (parser_command p)
                    (line "CLIENT_ERROR bad data chunk"))
                 (with_error true p))).
Proof.
  intros Hwf Hb Hlen ptr c0 c1. unfold mc_parse_data. cbn [fst].
  assert (Hstep : forall next,
    parse_data_loop next bytes 1 p =
      if Ascii.eqb c0 LF then data_done true (with_ptr (ptr + 1) p)
      else if Ascii.eqb c0 CR && Ascii.eqb c1 LF
      then data_done true (with_ptr (ptr + 2) p)
      else data_done true
             (with_ptr (ptr + 2)
                (with_command
                   (mc_reply (parser_command p)
                      (line "CLIENT_ERROR bad data chunk"))
                   (with_error true p)))).
  { intros next.
    assert (Hbody :
      (let seg := cursor_seg p in
       let avail := u32 (len seg - cursor_ptr p) in
       bytes <? avail) = true /\
      (1 <? u32 (u32 (len (cursor_seg p) - cursor_ptr p) - bytes)) = true).
    { cbv zeta. rewrite !u32_small by lia. split; apply Z.ltb_lt; lia. }
    destruct Hbody as (H1 & H2). cbv zeta in H1.
    destruct next; cbn [parse_data_loop]; cbv zeta; rewrite H1, H2;
      fold ptr; fold c0; fold c1; cbn [Z.eqb orb andb negb];
      destruct (Ascii.eqb c0 LF); try reflexivity;
      destruct (Ascii.eqb c0 CR), (Ascii.eqb c1 LF); reflexivity. }
  apply Hstep.
Qed.

(** C8, as stated, fails twice.  A payload not followed by CR LF makes
    [mc_parse_data] reply [CLIENT_ERROR bad data chunk] and step over two
    bytes only, so that the rest of the line, LF included, is left to be
    parsed as the next command.  And junk without LF that is no command
    makes [mc_parse_command] ask for more input, however long it is: 2000
    chars do not make the connection quit. *)
Lemma parse_failure_keeps_line_and_junk_does_not_quit :
  (exists p' value,
     mc_parse_data
       (with_ptr 13 (mc_start_input long_payload_input mc_command_create)) 1
       = (data_done true p', value) /\
     parser_error p' = true /\
     reply_of (parser_command p') = Some (line "CLIENT_ERROR bad data chunk") /\
     cursor_rest p' = bytes "def" ++ CRLF) /\
  (exists p',
     mc_parse_command (mc_start_input junk_input mc_command_create)
       = (false, p') /\
     parser_error p' = true /\ state_quit p' = false /\
     result_type (parser_command p') = MC_RESULT_NONE /\
     1024 < len (concat junk_input)).
Proof.
  split.
  - eexists _, _. split; [vm_compute; reflexivity|].
    split_and!; vm_compute; reflexivity.
  - eexists. split; [vm_compute; reflexivity|].
    split_and!; vm_compute; reflexivity.
Qed.

(** The malformed line is skipped and answered with [ERROR]; the [get]
    behind it is what the cursor is left at. *)
Lemma malformed_line_example :
  exists p',
    mc_parse_command (mc_start_input malformed_input mc_command_create)
      = (true, p') /\
    parser_error p' = true /\
    reply_of (parser_command p') = Some (line "ERROR") /\
    cursor_rest p' = bytes "get k" ++ CRLF.
Proof.
  eexists. split; [vm_compute; reflexivity|].
  split_and!; vm_compute; reflexivity.
Qed.

(** ** The invariants on a table with one counter *)

Lemma counter_world_stamps : stamps_inv counter_world.
Proof.
  split; [vm_compute; split; [discriminate|reflexivity]|].
  intros a e Ha.
  assert (Hall : map_Forall
            (fun (_ : addr) (e : mc_entry) =>
               0 <= entry_cas e <= w_cas counter_world)
            (w_heap counter_world)).
  { refine (bool_decide_unpack _ _). vm_compute. exact I. }
  exact (Hall a e Ha).
Qed.

Lemma striding_world_inv : table_inv striding_world.
Proof.
  destruct (winv_table _ (world_after_set_inv (bytes "n") five_value
                            five_value_wf))
    as [Hsz Hm Hu Hs Hp Hk].
  split; auto.
Qed.

Lemma stride_keeps_entries_findable_witness :
  exists w',
    mc_table_stride_routine striding_world = Some (tt, w') /\
    table_inv w' /\
    t_size (w_table w') = 8192 /\ t_used (w_table w') = 4160 /\
    exists a' e',
      mc_table_lookup (mc_table_key_index (w_table w') (bytes "n") 1)
        (bytes "n") 1 w' = Some (Some a', w') /\
      w_heap w' !! a' = Some e' /\
      key_matches (bytes "n") 1 e' = true.
Proof.
  destruct (stride_keeps_entries_findable striding_world striding_world_inv)
    as [_ H].
  destruct H as (w' & Hrun & Hinv & Hsize & _ & Hused & Hfind).
  - reflexivity.
  - intros _. vm_compute. reflexivity.
  - exists w'. split; [exact Hrun|]. split; [exact Hinv|].
    split; [rewrite Hsize; vm_compute; reflexivity|].
    split; [rewrite Hused; vm_compute; reflexivity|].
    destruct (Hfind 1%nat counter_entry) as (_ & _ & a' & e' & H1 & H2 & H3).
    + exists (mc_table_key_index (w_table striding_world) (bytes "n") 1).
      vm_compute. constructor.
    + vm_compute. reflexivity.
    + exists a', e'. split; [exact H1|]. split; [exact H2|exact H3].
Defined.

Lemma cas_stores_iff_stamp_matches_witness :
  exists command' w',
    mc_process_cas (cas_command (bytes "n") 0 0 zero_value 1 false)
      counter_world = Some (command', w') /\
    stamps_inv w' /\
    reply_of command' = Some (line "STORED") /\
    heap_at w' 2%nat (new_entry (bytes "n") 1 zero_value 0 2) /\
    current_entry w' (bytes "n") = Some (Some 2%nat) /\
    ~ stored w' 1%nat.
Proof.
  destruct (cas_stores_iff_stamp_matches counter_world (bytes "n") 0
              zero_value 1
              (world_after_set_inv (bytes "n") five_value five_value_wf)
              counter_world_stamps)
    as [(r & command' & w' & Hcur & Hrun & Hst & Hcase) _].
  - vm_compute. reflexivity.
  - apply zero_value_wf.
  - assert (r = Some 1%nat) as ->.
    { vm_compute in Hcur. congruence. }
    destruct Hcase as (e_old & _ & He_old & _ & Hcase).
    assert (e_old = counter_entry) as ->.
    { vm_compute in He_old. injection He_old as <-. reflexivity. }
    change (entry_cas counter_entry =? 1) with true in Hcase.
    cbv zeta in Hcase.
    destruct Hcase as (Hreply & Hnew & Hcur' & Hold & _).
    exists command', w'. split; [exact Hrun|]. split; [exact Hst|].
    split; [exact Hreply|]. split; [exact Hnew|]. split; [exact Hcur'|exact Hold].
Defined.

(** ** The other storage commands *)

Lemma stored_after_insert (w w' : mc_world) (index : Z) (a : addr) :
  (forall b, bucket w' b =
     if decide (b = index) then a :: bucket w index else bucket w b) ->
  forall x, stored w x -> stored w' x.
Proof.
  intros Hbk x [b Hb]. exists b. rewrite Hbk.
  destruct (decide (b = index)) as [->|]; [now right|exact Hb].
Qed.

Lemma stored_before_insert (w w' : mc_world) (index : Z) (a : addr) :
  (forall b, bucket w' b =
     if decide (b = index) then a :: bucket w index else bucket w b) ->
  forall x, stored w' x -> x = a \/ stored w x.
Proof.
  intros Hbk x [b Hb]. rewrite Hbk in Hb.
  destruct (decide (b = index)) as [->|].
  - apply elem_of_cons in Hb as [->|Hb]; [now left|right; now exists index].
  - right. now exists b.
Qed.

Lemma heap_at_fresh (w : mc_world) (x : addr) (e : mc_entry) :
  world_inv w -> heap_at w x e -> x <> w_next w.
Proof.
  intros Hinv He ->.
  pose proof (winv_fresh w Hinv _ (ex_intro _ e He)). lia.
Qed.

(** X1: [add] stores its value if and only if the table holds no entry for the
    key: with an entry there it replies [NOT_STORED] and changes nothing;
    without one it replies [STORED], chains a fresh entry that a lookup of
    the key finds, and leaves every other entry chained as it was. *)
Theorem add_stores_iff_absent (w : mc_world) (k : list ascii)
    (f exptime : Z) (value : mc_value) :
  world_inv w -> value_wf value ->
  exists r command' w',
    current_entry w k = Some r /\
    mc_process_add (add_command k f exptime value false) w
      = Some (command', w') /\
    world_inv w' /\
    match r with
    | Some old => reply_of command' = Some (line "NOT_STORED") /\ w' = w
    | None =>
        let a := w_next w in
        reply_of command' = Some (line "STORED") /\
        heap_at w' a (new_entry k (len k) value f (u64 (w_cas w + 1))) /\
        current_entry w' k = Some (Some a) /\
        t_nentries (w_table w') = u64 (t_nentries (w_table w) + 1) /\
        forall x e, stored w x -> heap_at w x e ->
                    stored w' x /\ heap_at w' x e
    end.
Proof.
  intros Hinv Hwf.
  set (index := mc_table_key_index (w_table w) k (len k)).
  assert (Hindex : 0 <= index < t_size (w_table w)) by apply index_range, Hinv.
  destruct (mc_table_lookup_ok w index k (len k) Hinv Hindex)
    as (r & Hlook & Hcur & Hr).
  exists r.
  assert (Hrun : forall new_entry w',
    (match r with
     | None =>
         a <- store_new_entry index k (len k) value f ;; ret (Some a)
     | Some _ => ret None
     end) w = Some (new_entry, w') ->
    mc_process_add (add_command k f exptime value false) w =
      Some (if non_null new_entry
            then mc_reply (add_command k f exptime value false) (line "STORED")
            else mc_reply (add_command k f exptime value false)
                   (line "NOT_STORED"),
            w')).
  { intros ne w' Hbody. unfold mc_process_add.
    cbn [params add_command parsed with_params set_key set_value set_flags
         set_noreply].
    rewrite (bind_Some _ _ _ _ _ (key_index_ok w k (len k))). fold index.
    rewrite (bind_Some _ _ _ _ _ Hlook).
    unfold bind at 1. destruct r as [old|]; rewrite Hbody; reflexivity. }
  destruct r as [old|].
  - eexists _, w. split; [exact Hcur|]. split; [now apply (Hrun None)|].
    split; [exact Hinv|]. split; reflexivity.
  - destruct (store_new_entry_ok w k (len k) value f Hinv Hwf)
      as (w1 & Hsto & Hinv1 & Hheap1 & Hgeo1 & Hnext1 & Hcas1 & Hbk1 & Hn1 & _).
    fold index in Hsto, Hbk1.
    assert (He1 : heap_at w1 (w_next w)
                    (new_entry k (len k) value f (u64 (w_cas w + 1)))).
    { unfold heap_at. rewrite Hheap1. apply lookup_insert_eq. }
    eexists _, w1. split; [exact Hcur|]. split.
    { apply (Hrun (Some (w_next w))).
      rewrite (bind_Some _ _ _ _ _ Hsto). reflexivity. }
    split; [exact Hinv1|]. cbv zeta. split; [reflexivity|].
    split; [exact He1|]. split; [|split; [exact Hn1|]].
    + eapply current_entry_head; [exact He1| |apply key_matches_new_entry].
      rewrite (key_index_geometry w w1) by exact Hgeo1. fold index.
      rewrite Hbk1. destruct (decide (index = index)); [reflexivity|congruence].
    + intros x e Hx He. split; [now apply (stored_after_insert w w1 index _ Hbk1)|].
      unfold heap_at. rewrite Hheap1, lookup_insert_ne; [exact He|].
      intros E. now apply (heap_at_fresh w x e Hinv He).
Qed.

(** X2: [replace] stores its value if and only if the table holds an entry for
    the key: without one it replies [NOT_STORED] and changes nothing; with
    one it replies [STORED], unchains the old entry and chains a fresh one
    that a lookup of the key finds, the number of entries staying as it
    was. *)
Theorem replace_stores_iff_present (w : mc_world) (k : list ascii)
    (f exptime : Z) (value : mc_value) :
  world_inv w -> value_wf value ->
  exists r command' w',
    current_entry w k = Some r /\
    mc_process_replace (replace_command k f exptime value false) w
      = Some (command', w') /\
    world_inv w' /\
    match r with
    | None => reply_of command' = Some (line "NOT_STORED") /\ w' = w
    | Some old =>
        let a := w_next w in
        reply_of command' = Some (line "STORED") /\
        heap_at w' a (new_entry k (len k) value f (u64 (w_cas w + 1))) /\
        current_entry w' k = Some (Some a) /\
        stored w old /\ ~ stored w' old /\
        t_nentries (w_table w')
          = u64 (u64 (t_nentries (w_table w) - 1) + 1)
    end.
Proof.
  intros Hinv Hwf.
  set (index := mc_table_key_index (w_table w) k (len k)).
  assert (Hindex : 0 <= index < t_size (w_table w)) by apply index_range, Hinv.
  destruct (mc_table_remove_ok w index k (len k) Hinv Hindex)
    as (r & w1 & Hrm & Hcur & Hinv1 & Hheap1 & Hgeo1 & Hstr1 & Hnext1 & Hcas1
        & Hsub1 & Hr).
  exists r.
  assert (Hrun : forall new_entry w',
    (match r with
     | Some old =>
         mc_entry_unref old ;;;
         a <- store_new_entry index k (len k) value f ;; ret (Some a)
     | None => ret None
     end) w1 = Some (new_entry, w') ->
    mc_process_replace (replace_command k f exptime value false) w =
      Some (if non_null new_entry
            then mc_reply (replace_command k f exptime value false)
                   (line "STORED")
            else mc_reply (replace_command k f exptime value false)
                   (line "NOT_STORED"),
            w')).
  { intros ne w' Hbody. unfold mc_process_replace.
    cbn [params replace_command parsed with_params set_key set_value
         set_flags set_noreply].
    rewrite (bind_Some _ _ _ _ _ (key_index_ok w k (len k))). fold index.
    rewrite (bind_Some _ _ _ _ _ Hrm).
    unfold bind at 1. destruct r as [old|]; rewrite Hbody; reflexivity. }
  destruct r as [old|].
  - destruct Hr as (Hin & Hns1 & Hn1).
    destruct (mc_entry_unref_inv w1 old Hinv1) as
      (w2 & Hun & Hinv2 & Htab2 & Hnext2 & Hcas2 & Hsame2 & Hfrom2); auto.
    { rewrite Hheap1. now apply (chain_live w index). }
    assert (Hgeo2 : same_geometry w w2).
    { eapply same_geometry_trans; [exact Hgeo1|].
      now apply same_geometry_table. }
    destruct (store_new_entry_ok w2 k (len k) value f Hinv2 Hwf)
      as (w3 & Hsto & Hinv3 & Hheap3 & Hgeo3 & Hnext3 & Hcas3 & Hbk3 & Hn3 & _).
    rewrite (key_index_geometry w w2) in Hsto, Hbk3 by exact Hgeo2.
    fold index in Hsto, Hbk3.
    rewrite Hnext2, Hnext1 in Hsto, Hheap3, Hbk3.
    rewrite Hcas2, Hcas1 in Hheap3, Hcas3.
    assert (He3 : heap_at w3 (w_next w)
                    (new_entry k (len k) value f (u64 (w_cas w + 1)))).
    { unfold heap_at. rewrite Hheap3. apply lookup_insert_eq. }
    eexists _, w3. split; [exact Hcur|]. split.
    { apply (Hrun (Some (w_next w))).
      rewrite (bind_Some _ _ _ _ _ Hun).
      rewrite (bind_Some _ _ _ _ _ Hsto). reflexivity. }
    split; [exact Hinv3|]. cbv zeta. split; [reflexivity|].
    split; [exact He3|]. split_and!.
    + eapply current_entry_head; [exact He3| |apply key_matches_new_entry].
      rewrite (key_index_geometry w w3).
      2:{ eapply same_geometry_trans; [exact Hgeo2|exact Hgeo3]. }
      fold index. rewrite Hbk3.
      destruct (decide (index = index)); [reflexivity|congruence].
    + now exists index.
    + intros Hst.
      assert (Hold2 : ~ stored w2 old).
      { intros [b' Hb']. apply Hns1. exists b'.
        unfold bucket in *. now rewrite <- Htab2. }
      destruct (stored_before_insert w2 w3 index _ Hbk3 old Hst) as [E|H2];
        [|now apply Hold2].
      destruct (chain_live w index Hinv old Hin) as [e_old He_old].
      now apply (heap_at_fresh w old e_old Hinv He_old).
    + rewrite Hn3, Htab2, Hn1. reflexivity.
  - subst w1. eexists _, w. split; [exact Hcur|].
    split; [now apply (Hrun None)|]. split; [exact Hinv|]. split; reflexivity.
Qed.

(** ** One entry per key *)

Lemma key_matches_same_key key key_len (ea eb : mc_entry) :
  key_matches key key_len ea = true -> key_matches key key_len eb = true ->
  same_key ea eb.
Proof.
  unfold key_matches. intros Ha Hb.
  apply andb_true_iff in Ha as [La Ka]. apply andb_true_iff in Hb as [Lb Kb].
  apply Z.eqb_eq in La, Lb. apply bool_decide_eq_true in Ka, Kb.
  split; [congruence|]. rewrite <- La, <- Lb. congruence.
Qed.

Lemma same_key_matches key key_len (ea eb : mc_entry) :
  same_key ea eb -> key_matches key key_len ea = true ->
  key_matches key key_len eb = true.
Proof.
  unfold key_matches. intros [Hl Hk] Ha.
  apply andb_true_iff in Ha as [La Ka].
  apply Z.eqb_eq in La. apply bool_decide_eq_true in Ka.
  apply andb_true_iff. split; [apply Z.eqb_eq; congruence|].
  apply bool_decide_eq_true. rewrite Ka, La, Hk, <- Hl. reflexivity.
Qed.

Lemma keys_unique_init : keys_unique mc_world_init.
Proof.
  intros a b ea eb [i Ha]. unfold bucket in Ha. cbn in Ha.
  rewrite lookup_empty in Ha. inversion Ha.
Qed.

(** Uniqueness looks at the chained entries and their keys only. *)
Lemma keys_unique_sub (w w' : mc_world) :
  (forall x e', stored w' x -> heap_at w' x e' ->
     stored w x /\ exists e, heap_at w x e /\
       entry_key_len e = entry_key_len e' /\ entry_key e = entry_key e') ->
  keys_unique w -> keys_unique w'.
Proof.
  intros Hsub Hu a b ea eb Sa Sb Ha Hb [Hl Hk].
  destruct (Hsub a ea Sa Ha) as (Sa0 & ea0 & Ha0 & La & Ka).
  destruct (Hsub b eb Sb Hb) as (Sb0 & eb0 & Hb0 & Lb & Kb).
  apply (Hu a b ea0 eb0 Sa0 Sb0 Ha0 Hb0).
  unfold same_key, mc_entry_key in *. rewrite La, Lb, Ka, Kb. auto.
Qed.

Lemma same_key_sym (ea eb : mc_entry) : same_key ea eb -> same_key eb ea.
Proof. intros [Hl Hk]. split; congruence. Qed.

(** Chaining an entry whose key no chained entry carries. *)
Lemma keys_unique_insert (w w' : mc_world) (a : addr) (e : mc_entry) :
  (forall x, stored w' x -> x = a \/ stored w x) ->
  heap_at w' a e ->
  (forall x ex, x <> a -> stored w x -> heap_at w' x ex -> heap_at w x ex) ->
  (forall x ex, x <> a -> stored w x -> heap_at w x ex -> ~ same_key e ex) ->
  keys_unique w -> keys_unique w'.
Proof.
  intros Hst He Hheap Hnew Hu x y ex ey Sx Sy Hx Hy Hk.
  destruct (decide (x = a)) as [->|Nx]; destruct (decide (y = a)) as [->|Ny];
    [reflexivity|..].
  - exfalso. destruct (Hst y Sy) as [?|Sy0]; [contradiction|].
    rewrite (heap_at_inj w' a ex e Hx He) in Hk.
    exact (Hnew y ey Ny Sy0 (Hheap y ey Ny Sy0 Hy) Hk).
  - exfalso. destruct (Hst x Sx) as [?|Sx0]; [contradiction|].
    rewrite (heap_at_inj w' a ey e Hy He) in Hk.
    exact (Hnew x ex Nx Sx0 (Hheap x ex Nx Sx0 Hx) (same_key_sym _ _ Hk)).
  - destruct (Hst x Sx) as [?|Sx0]; [contradiction|].
    destruct (Hst y Sy) as [?|Sy0]; [contradiction|].
    apply (Hu x y ex ey); auto.
Qed.

(** After [mc_table_remove] for a key no chained entry carries the key, when
    entries are unique. *)
Lemma remove_no_match (w w1 : mc_world) (k : list ascii) (r : option addr) :
  world_inv w -> keys_unique w ->
  let index := mc_table_key_index (w_table w) k (len k) in
  mc_table_remove index k (len k) w = Some (r, w1) ->
  forall x e, stored w1 x -> heap_at w1 x e ->
              key_matches k (u8 (len k)) e = false.
Proof.
  intros Hinv Hu index Hrun x e Sx Hx.
  assert (Hindex : 0 <= index < t_size (w_table w)) by apply index_range, Hinv.
  destruct (mc_table_remove_ok w index k (len k) Hinv Hindex)
    as (r' & w1' & Hrm & Hcur & Hinv1 & Hheap1 & Hgeo1 & Hstr1 & Hnext1 & Hcas1
        & Hsub1 & Hr).
  rewrite Hrun in Hrm. injection Hrm as <- <-.
  destruct r as [old|].
  - destruct Hr as (Hin & Hns & _).
    destruct (mc_table_lookup_ok w index k (len k) Hinv Hindex)
      as (r2 & _ & Hcur2 & Hr2).
    rewrite Hcur in Hcur2. injection Hcur2 as <-.
    destruct Hr2 as (_ & e_old & He_old & Hk_old).
    destruct (key_matches k (u8 (len k)) e) eqn:Hk; [|reflexivity].
    exfalso. apply Hns.
    assert (Sx0 : stored w x).
    { destruct Sx as [b Hb]. exists b. now apply Hsub1. }
    assert (Hx0 : heap_at w x e) by (unfold heap_at; now rewrite <- Hheap1).
    assert (E : x = old).
    { apply (Hu x old e e_old); auto; [now exists index|].
      now apply (key_matches_same_key k (u8 (len k))). }
    now subst x.
  - subst w1. now apply (current_entry_none w k Hinv Hcur x e).
Qed.

Lemma key_matches_ref_count key key_len rc (e : mc_entry) :
  key_matches key key_len (entry_with_ref_count rc e)
    = key_matches key key_len e.
Proof. reflexivity. Qed.

Lemma mc_process_set_unique (w : mc_world) (k : list ascii)
    (f exptime : Z) (value : mc_value) :
  world_inv w -> keys_unique w -> value_wf value ->
  exists command' w',
    mc_process_set (set_command k f exptime value false) w
      = Some (command', w') /\
    reply_of command' = Some (line "STORED") /\
    world_inv w' /\ keys_unique w' /\
    current_entry w' k = Some (Some (w_next w)).
Proof.
  intros Hinv Hu Hwf.
  set (index := mc_table_key_index (w_table w) k (len k)).
  assert (Hindex : 0 <= index < t_size (w_table w)) by apply index_range, Hinv.
  destruct (mc_table_remove_ok w index k (len k) Hinv Hindex)
    as (r & w1 & Hrm & Hlk & Hinv1 & Hheap1 & Hgeo1 & Hstr1 & Hnext1 & Hcas1
        & Hsub1 & Hr).
  pose proof (remove_no_match w w1 k r Hinv Hu Hrm) as Hnone.
  assert (Hrel : exists w2,
    match r with Some old => mc_entry_unref old | None => ret tt end w1
      = Some (tt, w2) /\
    world_inv w2 /\ w_table w2 = w_table w1 /\ w_next w2 = w_next w1 /\
    w_cas w2 = w_cas w1 /\
    forall x, stored w1 x -> w_heap w2 !! x = w_heap w1 !! x).
  { destruct r as [old|].
    - destruct Hr as (Hin & Hns & _).
      destruct (mc_entry_unref_inv w1 old Hinv1)
        as (w2 & Hun & Hinv2 & Ht & Hn & Hc & Hsame & _).
      + rewrite Hheap1. now apply (chain_live w index).
      + exact Hns.
      + exists w2. split_and!; auto. intros x Sx. apply Hsame.
        intros ->. contradiction.
    - exists w1. split_and!; auto. }
  destruct Hrel as (w2 & Hrel & Hinv2 & Htab2 & Hnext2 & Hcas2 & Hsame2).
  assert (Hgeo2 : same_geometry w w2).
  { eapply same_geometry_trans; [exact Hgeo1|]. now apply same_geometry_table. }
  destruct (store_new_entry_ok w2 k (len k) value f Hinv2 Hwf)
    as (w3 & Hst & Hinv3 & Hheap3 & Hgeo3 & Hnext3 & Hcas3 & Hbk3 & _).
  rewrite (key_index_geometry w w2) in Hst, Hbk3 by exact Hgeo2.
  fold index in Hst, Hbk3.
  rewrite Hnext2, Hnext1 in Hst, Hheap3, Hbk3.
  set (a := w_next w) in *.
  set (e := new_entry k (len k) value f (u64 (w_cas w2 + 1))) in *.
  assert (He3 : heap_at w3 a e).
  { unfold heap_at. rewrite Hheap3. apply lookup_insert_eq. }
  assert (Hw4 : mc_entry_ref a w3 = Some (tt, with_heap
            (<[a := entry_with_ref_count (entry_ref_count e + 1) e]> (w_heap w3)) w3)).
  { apply (mc_entry_ref_ok w3 a e He3). cbn. lia. }
  match type of Hw4 with _ = Some (tt, ?x) => set (w4 := x) in * end.
  assert (He4 : heap_at w4 a (entry_with_ref_count (entry_ref_count e + 1) e)).
  { unfold heap_at. cbn. apply lookup_insert_eq. }
  assert (Hinv4 : world_inv w4) by now apply world_inv_update with (e := e).
  assert (S12 : forall x, stored w2 x -> stored w1 x).
  { intros x [b Hb]. exists b. unfold bucket in *. now rewrite <- Htab2. }
  eexists _, w4. split; [|split_and!].
  - unfold mc_process_set, set_command, parsed.
    cbn [params with_params set_key set_value set_flags set_noreply].
    rewrite (bind_Some _ _ _ _ _ (key_index_ok w k (len k))).
    fold index. rewrite (bind_Some _ _ _ _ _ Hrm).
    rewrite (bind_Some _ _ _ _ _ Hrel).
    rewrite (bind_Some _ _ _ _ _ Hst).
    rewrite (bind_Some _ _ _ _ _ Hw4). reflexivity.
  - reflexivity.
  - exact Hinv4.
  - eapply (keys_unique_insert w1 w4 a); [| exact He4 | | |].
    + intros x Sx.
      destruct (stored_before_insert w2 w3 index a Hbk3 x Sx) as [->|S2];
        [now left|right; now apply S12].
    + intros x ex Nx Sx Hx. unfold heap_at in *. cbn in Hx.
      rewrite lookup_insert_ne in Hx by congruence.
      rewrite Hheap3, lookup_insert_ne in Hx by congruence.
      now rewrite Hsame2 in Hx.
    + intros x ex Nx Sx Hx Hk.
      pose proof (Hnone x ex Sx Hx) as Hno.
      rewrite (same_key_matches k (u8 (len k)) _ ex Hk) in Hno;
        [discriminate|].
      rewrite key_matches_ref_count. apply key_matches_new_entry.
    + apply (keys_unique_sub w w1); [|exact Hu].
      intros x ex [b Hb] Hx. split; [exists b; now apply Hsub1|].
      exists ex. unfold heap_at in *. now rewrite <- Hheap1.
  - eapply current_entry_head; [exact He4| |].
    + change (w_table w4) with (w_table w3).
      rewrite (key_index_geometry w w3).
      2:{ eapply same_geometry_trans; [exact Hgeo2|exact Hgeo3]. }
      fold index. change (bucket w4 index) with (bucket w3 index).
      rewrite Hbk3. destruct (decide (index = index)); [reflexivity|congruence].
    + rewrite key_matches_ref_count. apply key_matches_new_entry.
Qed.

(** X3: [set] keeps the table at one entry per key: it answers [STORED], and
    if no two chained entries carried the same key before, none do
    afterwards; a lookup of the key finds the entry just stored. *)
Theorem set_keeps_keys_unique (w : mc_world) (k : list ascii)
    (f exptime : Z) (value : mc_value) :
  world_inv w -> keys_unique w -> value_wf value ->
  exists command' w',
    mc_process_set (set_command k f exptime value false) w
      = Some (command', w') /\
    reply_of command' = Some (line "STORED") /\
    world_inv w' /\ keys_unique w' /\
    current_entry w' k = Some (Some (w_next w)).
Proof. exact (mc_process_set_unique w k f exptime value). Qed.

Lemma world_after_set_unique (key : list ascii) (value : mc_value) :
  value_wf value -> keys_unique (world_after_set key value).
Proof.
  intros Hwf. unfold world_after_set.
  destruct (mc_process_set_unique mc_world_init key 0 0 value
              world_inv_init keys_unique_init Hwf)
    as (c & w' & Hrun & _ & _ & Hu & _).
  now rewrite Hrun.
Qed.

Lemma remove_chain_keeps heap c key key_len :
  forall r c', remove_chain heap c key key_len = Some (r, c') ->
  forall x, x ∈ c -> Some x <> r -> x ∈ c'.
Proof.
  induction c as [|y c IH]; intros r c' Hrm x Hx Hne.
  - inversion Hx.
  - cbn [remove_chain] in Hrm. destruct (heap !! y) as [ey|]; [|discriminate].
    destruct (key_matches key key_len ey).
    + injection Hrm as <- <-.
      apply elem_of_cons in Hx as [->|Hx]; [congruence|exact Hx].
    + destruct (remove_chain heap c key key_len) as [[r0 c0]|] eqn:Hrec;
        [|discriminate].
      injection Hrm as <- <-.
      apply elem_of_cons in Hx as [->|Hx]; [left|right].
      now apply (IH r0 c0).
Qed.

(** [mc_table_remove] unchains nothing but the entry it returns. *)
Lemma mc_table_remove_keeps (w w1 : mc_world) (index : Z) key key_len r :
  0 <= index < t_size (w_table w) ->
  mc_table_remove index key key_len w = Some (r, w1) ->
  forall x, stored w x -> Some x <> r -> stored w1 x.
Proof.
  intros Hi Hrun x [b Hb] Hne.
  unfold mc_table_remove in Hrun. unfold bind at 1 in Hrun.
  rewrite table_get_ok in Hrun by exact Hi.
  unfold bind at 1 in Hrun. unfold get_world in Hrun.
  destruct (remove_chain (w_heap w) (bucket w index) key (u8 key_len))
    as [[r0 c']|] eqn:Hrm; [|discriminate].
  pose proof (remove_chain_keeps _ _ _ _ _ _ Hrm) as Hkeep.
  destruct r0 as [a|].
  - unfold bind at 1 in Hrun. unfold mm_list_delete in Hrun.
    unfold bind at 1 in Hrun. rewrite table_set_ok in Hrun by exact Hi.
    unfold bind at 1 in Hrun. unfold modify_table, ret in Hrun.
    injection Hrun as <- <-. exists b.
    change (x ∈ bucket (set_bucket w index c') b).
    rewrite bucket_set_bucket. destruct (decide (b = index)) as [->|]; auto.
  - unfold ret in Hrun. injection Hrun as <- <-. now exists b.
Qed.

(** X4: [delete] unchains and frees the entry of the key, and no other: with
    no entry for the key it replies [NOT_FOUND] and changes nothing; with
    one it replies [DELETED], the entry is gone from the table and from
    memory, the count of entries drops by one and every other entry stays.
    With one entry per key, a lookup of the key fails afterwards. *)
Theorem delete_removes_key (w : mc_world) (k : list ascii) :
  world_inv w -> keys_unique w ->
  exists r command' w',
    current_entry w k = Some r /\
    mc_process_delete (delete_command k false) w = Some (command', w') /\
    world_inv w' /\ keys_unique w' /\
    current_entry w' k = Some None /\
    match r with
    | None => reply_of command' = Some (line "NOT_FOUND") /\ w' = w
    | Some old =>
        reply_of command' = Some (line "DELETED") /\
        stored w old /\ ~ stored w' old /\ w_heap w' !! old = None /\
        t_nentries (w_table w') = u64 (t_nentries (w_table w) - 1) /\
        forall x e, x <> old -> stored w x -> heap_at w x e ->
                    stored w' x /\ heap_at w' x e
    end.
Proof.
  intros Hinv Hu.
  set (index := mc_table_key_index (w_table w) k (len k)).
  assert (Hindex : 0 <= index < t_size (w_table w)) by apply index_range, Hinv.
  destruct (mc_table_remove_ok w index k (len k) Hinv Hindex)
    as (r & w1 & Hrm & Hcur & Hinv1 & Hheap1 & Hgeo1 & Hstr1 & Hnext1 & Hcas1
        & Hsub1 & Hr).
  pose proof (remove_no_match w w1 k r Hinv Hu Hrm) as Hnone.
  pose proof (mc_table_remove_keeps w w1 index k (len k) r Hindex Hrm) as Hkeep.
  assert (Hu1 : keys_unique w1).
  { apply (keys_unique_sub w w1); [|exact Hu].
    intros x ex [b Hb] Hx. split; [exists b; now apply Hsub1|].
    exists ex. unfold heap_at in *. now rewrite <- Hheap1. }
  exists r.
  assert (Hrun : forall w',
    mc_entry_destroy r w1 = Some (tt, w') ->
    mc_process_delete (delete_command k false) w =
      Some (if non_null r
            then mc_reply (delete_command k false) (line "DELETED")
            else mc_reply (delete_command k false) (line "NOT_FOUND"), w')).
  { intros w' Hd. unfold mc_process_delete.
    cbn [params delete_command parsed with_params del_key del_noreply].
    rewrite (bind_Some _ _ _ _ _ (key_index_ok w k (len k))). fold index.
    rewrite (bind_Some _ _ _ _ _ Hrm).
    rewrite (bind_Some _ _ _ _ _ Hd). reflexivity. }
  destruct r as [old|].
  - destruct Hr as (Hin & Hns & Hn).
    destruct (chain_live w index Hinv old Hin) as [e_old He_old].
    set (w2 := with_heap (delete old (w_heap w1)) w1).
    assert (Hd : mc_entry_destroy (Some old) w1 = Some (tt, w2)).
    { rewrite <- Hheap1 in He_old. unfold mc_entry_destroy.
      now rewrite He_old. }
    assert (Hinv2 : world_inv w2) by now apply world_inv_delete.
    assert (Hsub2 : forall x ex, stored w2 x -> heap_at w2 x ex ->
                      stored w1 x /\ heap_at w1 x ex).
    { intros x ex Sx Hx. split; [exact Sx|].
      unfold heap_at in *. cbn in Hx.
      now apply lookup_delete_Some in Hx as [_ Hx]. }
    eexists _, w2. split; [exact Hcur|]. split; [now apply Hrun|].
    split; [exact Hinv2|]. split; [|split; [|split_and!]].
    + apply (keys_unique_sub w1 w2); [|exact Hu1].
      intros x ex Sx Hx. destruct (Hsub2 x ex Sx Hx) as [S1 H1].
      split; [exact S1|]. now exists ex.
    + unfold current_entry.
      set (i2 := mc_table_key_index (w_table w2) k (len k)).
      destruct (lookup_chain_spec (w_heap w2) (bucket w2 i2) k (u8 (len k)))
        as (r2 & Hl2 & Hr2); [now apply chain_live|].
      rewrite Hl2. destruct r2 as [x|]; [exfalso|reflexivity].
      destruct Hr2 as (Hx & ex & Hex & Hk).
      destruct (Hsub2 x ex (ex_intro _ i2 Hx) Hex) as [S1 H1].
      rewrite (Hnone x ex S1 H1) in Hk. discriminate.
    + reflexivity.
    + now exists index.
    + exact Hns.
    + cbn. apply lookup_delete_eq.
    + exact Hn.
    + intros x e Nx Sx Hx. split.
      * apply Hkeep; [exact Sx|congruence].
      * unfold heap_at. cbn. rewrite lookup_delete_ne by congruence.
        now rewrite Hheap1.
  - subst w1. eexists _, w. split; [exact Hcur|].
    split; [now apply Hrun|]. split; [exact Hinv|]. split; [exact Hu|].
    split; [exact Hcur|]. split; reflexivity.
Qed.

(** X8: [mc_table_insert] followed by [mc_table_remove] for the key of the
    entry gives the entry back and leaves every chain, and the heap, as
    they were: an entry is chained at the head of its bucket, where the
    removal finds it first. *)
Theorem insert_remove_round_trip (w : mc_world) (a : addr) (e : mc_entry) :
  world_inv w -> heap_at w a e -> ~ stored w a ->
  let index := mc_table_index (w_table w) (entry_hash e) in
  exists w1 w2,
    mc_table_insert index a w = Some (tt, w1) /\
    bucket w1 index = a :: bucket w index /\
    mc_table_remove index (mc_entry_key e) (entry_key_len e) w1
      = Some (Some a, w2) /\
    world_inv w2 /\
    (forall b, bucket w2 b = bucket w b) /\ w_heap w2 = w_heap w /\
    t_nentries (w_table w2) = u64 (u64 (t_nentries (w_table w) + 1) - 1).
Proof.
  intros Hinv He Hns index.
  assert (Hindex : 0 <= index < t_size (w_table w)) by apply index_range, Hinv.
  destruct (mc_table_insert_ok w index a e Hinv Hindex He eq_refl Hns)
    as (w1 & Hins & Hinv1 & Hheap1 & Hgeo1 & Hnext1 & Hcas1 & Hbk1 & Hn1 & _).
  assert (Hindex1 : 0 <= index < t_size (w_table w1)).
  { destruct Hgeo1 as (_ & -> & _). exact Hindex. }
  assert (Hhead : bucket w1 index = a :: bucket w index).
  { rewrite Hbk1. destruct (decide (index = index)); [reflexivity|congruence]. }
  pose proof (inv_keys w (winv_table w Hinv) a e He) as Hkl.
  assert (Hk : key_matches (mc_entry_key e) (u8 (entry_key_len e)) e = true).
  { unfold key_matches. rewrite u8_small by lia. rewrite Z.eqb_refl.
    now rewrite bool_decide_true. }
  destruct (mc_table_remove_ok w1 index (mc_entry_key e) (entry_key_len e)
              Hinv1 Hindex1)
    as (r & w2 & Hrm & Hlk & Hinv2 & Hheap2 & _ & _ & _ & _ & _ & Hr).
  assert (r = Some a) as ->.
  { rewrite Hhead in Hlk. cbn [lookup_chain] in Hlk.
    unfold heap_at in He. rewrite Hheap1, He, Hk in Hlk. congruence. }
  destruct Hr as (_ & _ & Hn2).
  exists w1, w2. split; [exact Hins|]. split; [exact Hhead|].
  split; [exact Hrm|]. split; [exact Hinv2|]. split; [|split].
  - (* the chains *)
    unfold mc_table_remove in Hrm. unfold bind at 1 in Hrm.
    rewrite table_get_ok in Hrm by exact Hindex1.
    unfold bind at 1 in Hrm. unfold get_world in Hrm.
    rewrite Hhead in Hrm. cbn [remove_chain] in Hrm.
    unfold heap_at in He. rewrite Hheap1, He, Hk in Hrm.
    unfold bind at 1 in Hrm. unfold mm_list_delete in Hrm.
    unfold bind at 1 in Hrm. rewrite table_set_ok in Hrm by exact Hindex1.
    unfold bind at 1 in Hrm. unfold modify_table, ret in Hrm.
    injection Hrm as <-. intros b.
    change (bucket (set_bucket w1 index (bucket w index)) b = bucket w b).
    rewrite bucket_set_bucket, Hbk1.
    destruct (decide (b = index)) as [->|]; reflexivity.
  - now rewrite Hheap2.
  - now rewrite Hn2, Hn1.
Qed.

(** ** Retrieval of several keys *)

Lemma lookup_chain_ref_count (heap : gmap addr mc_entry) (a : addr)
    (e : mc_entry) (rc : Z) c key key_len :
  heap !! a = Some e ->
  lookup_chain (<[a := entry_with_ref_count rc e]> heap) c key key_len
    = lookup_chain heap c key key_len.
Proof.
  intros He. induction c as [|x c IH]; [reflexivity|].
  cbn [lookup_chain]. destruct (decide (x = a)) as [->|Hne].
  - rewrite lookup_insert_eq, He, key_matches_ref_count.
    destruct (key_matches key key_len e); [reflexivity|exact IH].
  - rewrite lookup_insert_ne by congruence.
    destruct (heap !! x) as [ex|]; [|reflexivity].
    destruct (key_matches key key_len ex); [reflexivity|exact IH].
Qed.

Lemma found_ref_count (w : mc_world) (a : addr) (e : mc_entry) (rc : Z) keys :
  heap_at w a e ->
  found (with_heap (<[a := entry_with_ref_count rc e]> (w_heap w)) w) keys
    = found w keys.
Proof.
  intros He. induction keys as [|key keys IH]; [reflexivity|].
  cbn [found]. rewrite IH. unfold current_entry. cbn [w_heap with_heap w_table].
  rewrite bucket_with_heap. now rewrite lookup_chain_ref_count.
Qed.

Lemma occurrences_cons (a x : addr) (l : list addr) :
  occurrences a (x :: l)
    = (if decide (x = a) then 1 else 0) + occurrences a l.
Proof.
  unfold occurrences. rewrite filter_cons.
  destruct (decide (x = a)); [rewrite len_cons|]; lia.
Qed.

Lemma entry_with_ref_count_same (e : mc_entry) :
  entry_with_ref_count (entry_ref_count e) e = e.
Proof. now destruct e. Qed.

Lemma process_get_keys_ok (keys : list (list ascii)) :
  forall (w : mc_world) (entries : list addr),
    world_inv w ->
    (forall a e, heap_at w a e ->
       0 <= entry_ref_count e /\ entry_ref_count e + len keys < 2 ^ 32) ->
    exists w',
      process_get_keys keys entries w = Some (entries ++ found w keys, w') /\
      w_table w' = w_table w /\
      (forall a, w_heap w !! a = None -> w_heap w' !! a = None) /\
      forall a e, heap_at w a e ->
        heap_at w' a
          (entry_with_ref_count
             (entry_ref_count e + occurrences a (found w keys)) e).
Proof.
  induction keys as [|key keys IH]; intros w entries Hinv Hrc.
  - exists w. cbn [process_get_keys found]. rewrite app_nil_r.
    split; [reflexivity|]. split; [reflexivity|]. split; [auto|].
    intros a e He. change (occurrences a []) with 0.
    now rewrite Z.add_0_r, entry_with_ref_count_same.
  - rewrite len_cons in Hrc. pose proof (len_nonneg keys) as Hlen.
    set (index := mc_table_key_index (w_table w) key (len key)).
    assert (Hindex : 0 <= index < t_size (w_table w))
      by apply index_range, Hinv.
    destruct (mc_table_lookup_ok w index key (len key) Hinv Hindex)
      as (r & Hlook & Hcur & Hr).
    cbn [process_get_keys found].
    rewrite (bind_Some _ _ _ _ _ (key_index_ok w key (len key))). fold index.
    rewrite (bind_Some _ _ _ _ _ Hlook).
    unfold current_entry. fold index. rewrite Hcur.
    destruct r as [a|].
    + destruct Hr as (Hin & e & He & Hk).
      destruct (Hrc a e He) as [Hlo Hhi].
      rewrite (bind_Some _ _ _ _ _
                 (mc_entry_ref_ok w a e He ltac:(lia))).
      set (e1 := entry_with_ref_count (entry_ref_count e + 1) e).
      set (w1 := with_heap (<[a := e1]> (w_heap w)) w).
      assert (Hinv1 : world_inv w1) by now apply world_inv_update with (e := e).
      destruct (IH w1 (entries ++ [a]) Hinv1) as (w' & Hrun & Htab & Hdom & Hheap).
      { intros x ex. unfold heap_at. cbn [w1 w_heap with_heap].
        destruct (decide (x = a)) as [->|Hne].
        - rewrite lookup_insert_eq. intros [= <-]. cbn. lia.
        - rewrite lookup_insert_ne by congruence. intros Hx.
          specialize (Hrc x ex Hx). lia. }
      unfold w1, e1 in Hrun, Hheap.
      rewrite (found_ref_count w a e _ keys He) in Hrun, Hheap.
      exists w'. rewrite <- app_assoc in Hrun. split; [exact Hrun|].
      split; [exact Htab|]. split.
      * intros x Hx. apply Hdom. cbn.
        rewrite lookup_insert_ne; [exact Hx|]. intros <-.
        unfold heap_at in He. congruence.
      * intros x ex Hx. rewrite occurrences_cons.
        destruct (decide (a = x)) as [<-|Hne].
        -- rewrite (heap_at_inj w a ex e Hx He).
           specialize (Hheap a e1). unfold e1 in Hheap.
           replace (entry_ref_count e + (1 + occurrences a (found w keys)))
             with (entry_ref_count e + 1 + occurrences a (found w keys)) by lia.
           apply Hheap. unfold heap_at. cbn. apply lookup_insert_eq.
        -- rewrite Z.add_0_l. apply Hheap. unfold heap_at. cbn.
           rewrite lookup_insert_ne by congruence. exact Hx.
    + destruct (IH w entries Hinv) as (w' & Hrun & Htab & Hdom & Hheap).
      { intros x ex Hx. specialize (Hrc x ex Hx). lia. }
      exists w'. auto.
Qed.

(** X5: A retrieval command answers with the entries the table holds for its
    keys, in the order of the keys and without the keys it misses; it takes
    one reference on an entry for every time it returns it, and changes
    nothing else: the table, the keys and the values stay as they were. *)
Theorem get_returns_found_entries (w : mc_world) (command : mc_command)
    (res_type : mc_result_t) (keys : list (list ascii)) :
  world_inv w -> params command = params_get keys ->
  (forall a e, heap_at w a e ->
     0 <= entry_ref_count e /\ entry_ref_count e + len keys < 2 ^ 32) ->
  exists w',
    mc_process_get2 command res_type w
      = Some (with_result res_type (result_entries (found w keys)) command,
              w') /\
    w_table w' = w_table w /\
    (forall a, w_heap w !! a = None -> w_heap w' !! a = None) /\
    forall a e, heap_at w a e ->
      heap_at w' a
        (entry_with_ref_count
           (entry_ref_count e + occurrences a (found w keys)) e).
Proof.
  intros Hinv Hp Hrc.
  destruct (process_get_keys_ok keys w [] Hinv Hrc)
    as (w' & Hrun & Htab & Hdom & Hheap).
  exists w'. split; [|auto].
  unfold mc_process_get2. rewrite Hp.
  rewrite (bind_Some _ _ _ _ _ Hrun). reflexivity.
Qed.

(** ** Append and prepend *)

Lemma mc_process_value_at w a e value offset :
  value_wf value -> w_heap w !! a = Some e ->
  mc_process_value a value offset w =
    Some (tt, with_heap
                (<[a := entry_with_value
                          (memcpy_at (mc_entry_value e) offset
                             (value_payload value)) e]> (w_heap w)) w).
Proof.
  intros Hwf He. unfold mc_process_value.
  pose proof (copy_segments_wf value Hwf) as Hcopy.
  destruct Hwf as [Hs Hseg Hb Hroom Hsz].
  destruct (value_seg value) as [|data next] eqn:Hsegs; [congruence|].
  cbn [hd] in Hs. unfold bind at 1.
  replace ((0 <=? value_start value) && (value_start value <=? len data))
    with true by (symmetry; apply andb_true_iff; split; apply Z.leb_le; lia).
  cbn [ASSERT]. unfold ret at 1. rewrite Hcopy.
  now rewrite (update_entry_ok w a e
             (fun e0 => entry_with_value
                          (memcpy_at (mc_entry_value e0) offset
                             (value_payload value)) e0) He).
Qed.

(** Two copies that fill a buffer, the second right behind the first. *)
Lemma memcpy_at_concat (buf x y : list ascii) :
  len buf = len x + len y ->
  memcpy_at (memcpy_at buf 0 x) (len x) y = x ++ y.
Proof.
  intros H. unfold memcpy_at, ztake, zdrop, len in *.
  rewrite Z.add_0_l, !Nat2Z.id. change (Z.to_nat 0) with 0%nat.
  rewrite take_0, app_nil_l, take_app_length. f_equal.
  rewrite drop_ge; [apply app_nil_r|].
  rewrite length_app, length_drop. lia.
Qed.

Lemma process_concat_ok (front : bool) (d : mc_command_desc) (w : mc_world)
    (k : list ascii) (f exptime : Z) (value : mc_value) :
  world_inv w -> value_wf value ->
  (forall old e, current_entry w k = Some (Some old) -> heap_at w old e ->
     entry_wf e /\ entry_value_len e + value_bytes value < 2 ^ 32) ->
  let command :=
    parsed d (params_set {| set_key := k; set_flags := f;
                            set_exptime := exptime; set_value := value;
                            set_noreply := false |}) in
  exists r command' w',
    current_entry w k = Some r /\
    process_concat front command w = Some (command', w') /\
    world_inv w' /\
    match r with
    | None => reply_of command' = Some (line "NOT_STORED") /\ w' = w
    | Some old =>
        exists e_old, heap_at w old e_old /\
          let a := w_next w in
          reply_of command' = Some (line "STORED") /\
          heap_at w' a
            (concat_entry k (len k)
               (if front then value_payload value ++ mc_entry_value e_old
                else mc_entry_value e_old ++ value_payload value)
               (entry_flags e_old) (u64 (w_cas w + 1))) /\
          current_entry w' k = Some (Some a) /\
          stored w old /\ ~ stored w' old
    end.
Proof.
  intros Hinv Hwf Hold command.
  set (index := mc_table_key_index (w_table w) k (len k)).
  assert (Hindex : 0 <= index < t_size (w_table w)) by apply index_range, Hinv.
  destruct (mc_table_remove_ok w index k (len k) Hinv Hindex)
    as (r & w1 & Hrm & Hcur & Hinv1 & Hheap1 & Hgeo1 & Hstr1 & Hnext1 & Hcas1
        & Hsub1 & Hr).
  exists r.
  destruct r as [old|].
  2:{ subst w1. eexists _, w. split; [exact Hcur|]. split.
      - unfold process_concat, command, parsed.
        cbn [params with_params set_key set_value set_flags set_noreply].
        rewrite (bind_Some _ _ _ _ _ (key_index_ok w k (len k))). fold index.
        rewrite (bind_Some _ _ _ _ _ Hrm). reflexivity.
      - split; [exact Hinv|]. split; reflexivity. }
  destruct Hr as (Hin & Hns1 & Hn1).
  destruct (chain_live w index Hinv old Hin) as [e_old He_old].
  destruct (Hold old e_old Hcur He_old) as [Hewf Hov].
  unfold entry_wf in Hewf.
  pose proof (len_nonneg (mc_entry_value e_old)) as Hvl.
  pose proof (vwf_bytes value Hwf) as Hb.
  pose proof (value_payload_len value Hwf) as Hpl.
  assert (Hload : load_entry old w1 = Some (e_old, w1)).
  { apply load_entry_ok. now rewrite Hheap1. }
  set (n := entry_value_len e_old + value_bytes value) in *.
  assert (Hn : u32 n = n) by (apply u32_small; unfold n; lia).
  set (cas := u64 (w_cas w1 + 1)).
  set (e0 := {| entry_key_len := u8 (len k);
                entry_value_len := u32 (u32 n);
                entry_ref_count := 1; entry_flags := 0; entry_cas := cas;
                entry_key := replicate (Z.to_nat (u8 (len k))) NUL;
                entry_value := replicate (Z.to_nat (u32 (u32 n))) NUL |}).
  set (a := w_next w1).
  assert (Hcreate : mc_entry_create (len k) (u32 n) w1
                    = Some (a, alloc w1 e0 cas)) by reflexivity.
  set (e1 := entry_with_key (ztake (entry_key_len e0) k) e0).
  assert (Hstep1 : mc_entry_set_key a k (alloc w1 e0 cas)
                   = Some (tt, alloc w1 e1 cas)).
  { unfold mc_entry_set_key. rewrite (update_entry_ok _ a e0).
    - cbv beta. fold e1. unfold a. now rewrite with_heap_alloc.
    - cbn. apply lookup_insert_eq. }
  set (V := if front then value_payload value ++ mc_entry_value e_old
            else mc_entry_value e_old ++ value_payload value).
  set (e2 := entry_with_value V e1).
  set (e3 := entry_with_flags (entry_flags e_old) e2).
  assert (Hbuf : len (mc_entry_value e1) = n).
  { change (len (replicate (Z.to_nat (u32 (u32 n))) NUL) = n).
    rewrite len_replicate by apply u32_range. now rewrite !Hn. }
  assert (Htake : ztake (entry_value_len e_old) (mc_entry_value e_old)
                  = mc_entry_value e_old) by (apply ztake_all; lia).
  assert (Hl1 : w_heap (alloc w1 e1 cas) !! a = Some e1)
    by (cbn; apply lookup_insert_eq).
  assert (He3 : e3 = concat_entry k (len k) V (entry_flags e_old) cas).
  { unfold e3, e2, e1, e0, concat_entry, entry_with_flags, entry_with_value,
      entry_with_key. cbn. f_equal. rewrite !Hn. unfold V.
    destruct front; rewrite len_app; unfold n; lia. }
  assert (Hinv3 : world_inv (alloc w1 e3 cas)).
  { apply world_inv_alloc; auto. cbn. apply u8_range. }
  assert (Hindex1 : 0 <= index < t_size (w_table w1)).
  { destruct Hgeo1 as (_ & -> & _). exact Hindex. }
  assert (Hfresh : ~ stored (alloc w1 e3 cas) a).
  { intros [b Hb']. apply (fresh_not_stored w1 a Hinv1); [unfold a; lia|].
    now exists b. }
  destruct (mc_table_insert_ok (alloc w1 e3 cas) index a e3 Hinv3 Hindex1)
    as (w5 & Hins & Hinv5 & Hheap5 & Hgeo5 & Hnext5 & Hcas5 & Hbk5 & _); auto.
  { cbn. apply lookup_insert_eq. }
  { rewrite He3. unfold entry_hash. cbn.
    rewrite mc_hash_take.
    change (mc_table_index (w_table w1) (mc_hash k (u8 (len k)))) with
      (mc_table_key_index (w_table w1) k (len k)).
    now rewrite (key_index_geometry w w1). }
  assert (Hne : old <> a).
  { intros E. apply (heap_at_fresh w old e_old Hinv He_old).
    rewrite E. unfold a. exact Hnext1. }
  assert (Hns5 : ~ stored w5 old).
  { intros S5.
    destruct (stored_before_insert (alloc w1 e3 cas) w5 index a Hbk5 old S5)
      as [E|[b Hb']]; [contradiction|].
    apply Hns1. now exists b. }
  destruct (mc_entry_unref_inv w5 old Hinv5) as
    (w6 & Hun & Hinv6 & Htab6 & Hnext6 & Hcas6 & Hsame6 & _); auto.
  { rewrite Hheap5. cbn.
    rewrite lookup_insert_ne by (intros E; now apply Hne).
    rewrite Hheap1. now exists e_old. }
  assert (He6 : heap_at w6 a e3).
  { unfold heap_at. rewrite Hsame6 by congruence. rewrite Hheap5. cbn.
    apply lookup_insert_eq. }
  eexists _, w6. split; [exact Hcur|]. split; [|split; [exact Hinv6|]].
  - unfold process_concat, command, parsed.
    cbn [params with_params set_key set_value set_flags set_noreply].
    rewrite (bind_Some _ _ _ _ _ (key_index_ok w k (len k))). fold index.
    rewrite (bind_Some _ _ _ _ _ Hrm).
    unfold bind at 1.
    rewrite (bind_Some _ _ _ _ _ Hload). cbv zeta. fold n.
    rewrite (bind_Some _ _ _ _ _ Hcreate).
    rewrite (bind_Some _ _ _ _ _ Hstep1).
    match goal with
    | |- context [bind (if front then ?A else ?B) _] =>
        assert (Hval : (if front then A else B) (alloc w1 e1 cas)
                       = Some (tt, alloc w1 e2 cas))
    end.
    { rewrite Htake. unfold e2, V. destruct front.
      - rewrite (bind_Some _ _ _ _ _
                   (mc_process_value_at _ a e1 value 0 Hwf Hl1)).
        rewrite (update_entry_ok _ a _ _ (lookup_insert_eq _ _ _)).
        cbn [mc_entry_value entry_value entry_with_value].
        rewrite <- Hpl.
        rewrite memcpy_at_concat by (rewrite Hbuf; unfold n; lia).
        unfold with_heap, alloc. cbn. now rewrite !insert_insert_eq.
      - rewrite (bind_Some _ _ _ _ _ (load_entry_ok _ a e1 Hl1)).
        rewrite (bind_Some _ _ _ _ _ (store_entry_ok _ a e1 _ Hl1)).
        rewrite (mc_process_value_at _ a _ value _ Hwf (lookup_insert_eq _ _ _)).
        cbn [mc_entry_value entry_value entry_with_value].
        rewrite <- Hewf.
        rewrite memcpy_at_concat by (rewrite Hbuf; unfold n; lia).
        unfold with_heap, alloc. cbn. now rewrite !insert_insert_eq. }
    rewrite (bind_Some _ _ _ _ _ Hval).
    assert (Hflags : set_entry_flags a (entry_flags e_old) (alloc w1 e2 cas)
                     = Some (tt, alloc w1 e3 cas)).
    { unfold set_entry_flags. rewrite (update_entry_ok _ a e2).
      - cbv beta. fold e3. unfold a. now rewrite with_heap_alloc.
      - cbn. apply lookup_insert_eq. }
    rewrite (bind_Some _ _ _ _ _ Hflags).
    rewrite (bind_Some _ _ _ _ _ Hins).
    rewrite (bind_Some _ _ _ _ _ Hun). reflexivity.
  - exists e_old. split; [exact He_old|]. cbv zeta. split; [reflexivity|].
    rewrite <- Hnext1, <- Hcas1. fold a cas V. rewrite <- He3.
    split; [exact He6|]. split_and!.
    + eapply current_entry_head; [exact He6| |].
      * rewrite Htab6.
        rewrite (key_index_geometry w w5).
        2:{ eapply same_geometry_trans; [exact Hgeo1|].
            eapply same_geometry_trans; [|exact Hgeo5].
            now apply same_geometry_table. }
        fold index. unfold bucket. rewrite Htab6. fold (bucket w5 index).
        rewrite Hbk5. destruct (decide (index = index)); [reflexivity|congruence].
      * rewrite He3. unfold key_matches, concat_entry. cbn.
        rewrite Z.eqb_refl. cbn. apply bool_decide_eq_true.
        unfold ztake. now rewrite take_take, Nat.min_id.
    + now exists index.
    + intros [b Hb']. apply Hns5. exists b. unfold bucket in *.
      now rewrite <- Htab6.
Qed.

(** X6: [append] puts its payload behind the value the table holds for the
    key: with no entry for the key it replies [NOT_STORED] and changes
    nothing; with one it replies [STORED] and a lookup of the key finds a
    fresh entry whose value is the old value followed by the payload, with
    the flags of the old entry, not those of the command. *)
Theorem append_extends_value (w : mc_world) (k : list ascii)
    (f exptime : Z) (value : mc_value) :
  world_inv w -> value_wf value ->
  (forall old e, current_entry w k = Some (Some old) -> heap_at w old e ->
     entry_wf e /\ entry_value_len e + value_bytes value < 2 ^ 32) ->
  exists r command' w',
    current_entry w k = Some r /\
    mc_process_append (append_command k f exptime value false) w
      = Some (command', w') /\
    world_inv w' /\
    match r with
    | None => reply_of command' = Some (line "NOT_STORED") /\ w' = w
    | Some old =>
        exists e_old, heap_at w old e_old /\
          let a := w_next w in
          reply_of command' = Some (line "STORED") /\
          heap_at w' a
            (concat_entry k (len k)
               (mc_entry_value e_old ++ value_payload value)
               (entry_flags e_old) (u64 (w_cas w + 1))) /\
          current_entry w' k = Some (Some a) /\
          stored w old /\ ~ stored w' old
    end.
Proof.
  intros Hinv Hwf Hold.
  exact (process_concat_ok false mc_desc_append w k f exptime value
           Hinv Hwf Hold).
Qed.

(** X7: [prepend] puts its payload before the value the table holds for the
    key: with no entry for the key it replies [NOT_STORED] and changes
    nothing; with one it replies [STORED] and a lookup of the key finds a
    fresh entry whose value is the payload followed by the old value, with
    the flags of the old entry. *)
Theorem prepend_extends_value (w : mc_world) (k : list ascii)
    (f exptime : Z) (value : mc_value) :
  world_inv w -> value_wf value ->
  (forall old e, current_entry w k = Some (Some old) -> heap_at w old e ->
     entry_wf e /\ entry_value_len e + value_bytes value < 2 ^ 32) ->
  exists r command' w',
    current_entry w k = Some r /\
    mc_process_prepend (prepend_command k f exptime value false) w
      = Some (command', w') /\
    world_inv w' /\
    match r with
    | None => reply_of command' = Some (line "NOT_STORED") /\ w' = w
    | Some old =>
        exists e_old, heap_at w old e_old /\
          let a := w_next w in
          reply_of command' = Some (line "STORED") /\
          heap_at w' a
            (concat_entry k (len k)
               (value_payload value ++ mc_entry_value e_old)
               (entry_flags e_old) (u64 (w_cas w + 1))) /\
          current_entry w' k = Some (Some a) /\
          stored w old /\ ~ stored w' old
    end.
Proof.
  intros Hinv Hwf Hold.
  exact (process_concat_ok true mc_desc_prepend w k f exptime value
           Hinv Hwf Hold).
Qed.

(** ** Buckets in use, reference counts and numbers *)

(** X9: [mc_table_index] never yields a bucket that striding has not reached
    yet: the index is below [used], whatever the hash. *)
Theorem mc_table_index_below_used (w : mc_world) (h : Z) :
  table_inv w ->
  0 <= mc_table_index (w_table w) h < t_used (w_table w).
Proof.
  intros Hinv. split; [now apply index_range|].
  destruct Hinv as [(k & Hk & Hsz) Hm Hu _ _ _]. rewrite Hsz in *.
  rewrite pow_half in Hu by lia.
  apply (index_below k ltac:(lia) (w_table w) h Hm). unfold half. lia.
Qed.

Lemma with_heap_same (w : mc_world) (a : addr) (e : mc_entry) :
  heap_at w a e -> with_heap (<[a := e]> (w_heap w)) w = w.
Proof.
  intros He. destruct w. unfold with_heap, heap_at in *. cbn in *.
  now rewrite insert_id.
Qed.

(** X10: Reference counting of entries: a reference taken and given back leaves
    everything as it was; giving back the last reference frees the entry;
    taking a reference when the 32-bit counter is at its maximum aborts. *)
Theorem entry_reference_counting (w : mc_world) (a : addr) (e : mc_entry) :
  heap_at w a e ->
  (1 <= entry_ref_count e < 2 ^ 32 - 1 ->
   (mc_entry_ref a ;;; mc_entry_unref a) w = Some (tt, w)) /\
  (entry_ref_count e = 1 ->
   mc_entry_unref a w = Some (tt, with_heap (delete a (w_heap w)) w)) /\
  (entry_ref_count e = 2 ^ 32 - 1 -> mc_entry_ref a w = None).
Proof.
  intros He. split; [|split].
  - intros Hrc.
    rewrite (bind_Some _ _ _ _ _ (mc_entry_ref_ok w a e He ltac:(lia))).
    rewrite (mc_entry_unref_ok _ a (entry_with_ref_count (entry_ref_count e + 1) e))
      by (cbn; apply lookup_insert_eq).
    cbn [entry_ref_count entry_with_ref_count].
    replace (entry_ref_count e + 1 - 1) with (entry_ref_count e) by lia.
    rewrite u32_small by lia.
    destruct (Z.eqb_spec (entry_ref_count e) 0); [lia|].
    unfold with_heap at 1. cbn [w_heap with_heap w_table w_next w_cas
                                w_entry_list w_posted].
    rewrite insert_insert_eq.
    change (Some (tt, with_heap
                        (<[a := entry_with_ref_count (entry_ref_count e)
                                  (entry_with_ref_count
                                     (entry_ref_count e + 1) e)]> (w_heap w)) w)
            = Some (tt, w)).
    replace (entry_with_ref_count (entry_ref_count e)
               (entry_with_ref_count (entry_ref_count e + 1) e)) with e
      by now destruct e.
    now rewrite with_heap_same.
  - intros Hrc. rewrite (mc_entry_unref_ok w a e He), Hrc. reflexivity.
  - intros Hrc. unfold mc_entry_ref, bind, load_entry, store_entry.
    unfold heap_at in He. rewrite He. cbv beta. rewrite He, Hrc. reflexivity.
Qed.

(** X11: Printing a number into an entry and reading it back: for every
    unsigned 64-bit [v], [mc_entry_create_u64] makes an entry of one to
    twenty digits without superfluous zeros, from which
    [mc_entry_value_u64] reads [v]. *)
Theorem u64_entry_round_trip (w : mc_world) (key_len v : Z) :
  0 <= v < 2 ^ 64 ->
  exists a e w',
    mc_entry_create_u64 key_len v w = Some (a, w') /\
    heap_at w' a e /\
    mc_entry_value_u64 e = Some v /\
    canonical (entry_value e) /\
    entry_value_len e = len (entry_value e) /\
    0 < entry_value_len e <= 20.
Proof.
  intros Hv. eexists _, _, _.
  split; [now apply mc_entry_create_u64_ok|].
  split; [unfold heap_at; cbn; apply lookup_insert_eq|].
  destruct (numeral_entry_decimal (replicate (Z.to_nat (u8 key_len)) NUL)
              key_len v 0 (u64 (w_cas w + 1)) 1 Hv) as (Hdec & Hcan).
  destruct (numeral_spec v Hv) as (_ & _ & Hlen).
  split; [now apply mc_entry_value_u64_decimal|].
  split; [exact Hcan|]. split; [reflexivity|exact Hlen].
Qed.

(** X12: [incr] counts modulo 2^64: when the entry of [k] holds the decimal
    representation of an unsigned 64-bit number [v], [incr k d] replaces it
    by an entry holding the decimal representation, without superfluous
    zeros, of [(v + d) mod 2^64]. *)
Theorem incr_wraps_at_64_bits (w : mc_world) (k : list ascii) (d : Z)
    (old : addr) (e_old : mc_entry) (v : Z) :
  world_inv w ->
  current_entry w k = Some (Some old) -> heap_at w old e_old ->
  entry_decimal e_old v -> 0 <= v < 2 ^ 64 -> 0 <= d < 2 ^ 64 ->
  let v' := (v + d) mod 2 ^ 64 in
  exists a e w',
    mc_process_incr (incr_command k d false) w
      = Some (with_result MC_RESULT_VALUE (result_entry a)
                (incr_command k d false), w') /\
    world_inv w' /\
    current_entry w' k = Some (Some a) /\ heap_at w' a e /\
    ~ stored w' old /\
    entry_decimal e v' /\ canonical (entry_value e) /\
    entry_flags e = entry_flags e_old.
Proof.
  intros Hinv Hcur He_old Hdec Hv Hd v'.
  destruct (process_arith_ok incr_value mc_desc_incr w k d Hinv)
    as (r & Hr & Hcase).
  rewrite Hcur in Hr. injection Hr as <-.
  destruct Hcase as (e0 & _ & He0 & _ & Hcase).
  rewrite <- (heap_at_inj w old _ _ He_old He0) in Hcase.
  rewrite (mc_entry_value_u64_decimal e_old v Hdec Hv) in Hcase.
  assert (Hv' : 0 <= v' < 2 ^ 64) by (apply Z.mod_pos_bound; reflexivity).
  change (incr_value v d) with v' in Hcase.
  destruct Hcase as (w' & Hrun & Hinv' & He' & Hcur' & Hold); [lia|].
  destruct (numeral_entry_decimal (ztake (u8 (len k)) k) (len k) v'
              (entry_flags e_old) (u64 (w_cas w + 1)) 2 Hv')
    as (Hdec' & Hcan).
  eexists _, _, w'. split_and!; eauto.
Qed.

(** ** The multi-producer multi-consumer ring as a queue *)

Lemma mod_window_inj (c h i j : Z) :
  0 < c -> 0 <= i < c -> 0 <= j < c ->
  (h + i) mod c = (h + j) mod c -> i = j.
Proof.
  intros Hc Hi Hj H.
  pose proof (Z.div_mod (h + i) c ltac:(lia)) as Di.
  pose proof (Z.div_mod (h + j) c ltac:(lia)) as Dj.
  rewrite H in Di.
  assert (E : i - j = c * ((h + i) / c - (h + j) / c)) by lia.
  assert ((h + i) / c - (h + j) / c = 0) by nia. lia.
Qed.

Lemma capacity_pos (r : Ring.mm_ring_mpmc) :
  Ring.ring_wf r -> 0 < Ring.capacity r.
Proof.
  intros [(k & Hk & Hm) _ _ _]. unfold Ring.capacity. rewrite Hm.
  pose proof (Z.pow_pos_nonneg 2 k ltac:(lia) ltac:(lia)). lia.
Qed.

Lemma land_mask_mod (r : Ring.mm_ring_mpmc) (p : Z) :
  Ring.ring_wf r -> Z.land p (Ring.mask r) = p mod Ring.capacity r.
Proof.
  intros [(k & Hk & Hm) _ _ _]. unfold Ring.capacity. rewrite Hm.
  replace (2 ^ k - 1) with (Z.ones k) by (rewrite Z.ones_equiv; lia).
  rewrite Z.land_ones by lia. f_equal. rewrite Z.ones_equiv. lia.
Qed.

Lemma slot_inj (r : Ring.mm_ring_mpmc) (i j : Z) :
  Ring.ring_wf r -> 0 <= i < Ring.capacity r -> 0 <= j < Ring.capacity r ->
  i <> j -> slot r (Ring.head r + i) <> slot r (Ring.head r + j).
Proof.
  intros Hwf Hi Hj Hne E. apply Hne. unfold slot in E.
  rewrite !land_mask_mod in E by exact Hwf.
  pose proof (capacity_pos r Hwf) as Hc.
  pose proof (Z.mod_pos_bound (Ring.head r + i) _ Hc).
  pose proof (Z.mod_pos_bound (Ring.head r + j) _ Hc).
  apply (mod_window_inj (Ring.capacity r) (Ring.head r)); auto. lia.
Qed.

Lemma slot_lap (r : Ring.mm_ring_mpmc) (p : Z) :
  Ring.ring_wf r -> slot r (p + Ring.capacity r) = slot r p.
Proof.
  intros Hwf. unfold slot. rewrite !land_mask_mod by exact Hwf.
  f_equal. rewrite <- (Z.mul_1_l (Ring.capacity r)) at 1.
  apply Z.mod_add. pose proof (capacity_pos r Hwf). lia.
Qed.

Lemma holds_nil_length (q : list Z) : len q = 0 -> q = [].
Proof. destruct q; [reflexivity|]. unfold len. cbn. lia. Qed.

(** The slot of the tail is free exactly when the queue is shorter than
    the ring. *)
Lemma holds_tail_slot (r : Ring.mm_ring_mpmc) (q : list Z) :
  Ring.ring_wf r -> holds r q -> 2 <= Ring.capacity r ->
  exists n,
    Ring.ring r !! Z.to_nat (Z.land (Ring.tail r) (Ring.mask r)) = Some n /\
    (Ring.lock n =? Ring.tail r) = (len q <? Ring.capacity r).
Proof.
  intros Hwf (Ht & Hlen & Hdata & Hfree) Hcap.
  pose proof (len_nonneg q) as Hq.
  destruct (ring_slot r (Ring.tail r) Hwf) as (n & Hn);
    [apply (Ring.wf_tail r Hwf)|].
  exists n. split; [exact Hn|].
  destruct (Z.ltb_spec (len q) (Ring.capacity r)) as [Hroom|Hfull].
  - pose proof (Hfree (len q) ltac:(lia)) as Hfq. rewrite <- Ht in Hfq.
    unfold slot in Hfq. rewrite Hn in Hfq. injection Hfq as Hl.
    rewrite Hl. apply Z.eqb_refl.
  - assert (Hlenq : len q = Ring.capacity r) by lia.
    destruct q as [|x q']; [unfold len in Hlenq; cbn in Hlenq; lia|].
    specialize (Hdata 0%nat x eq_refl).
    rewrite Z.add_0_r in Hdata.
    rewrite Ht, Hlenq in Hn. fold (slot r (Ring.head r + Ring.capacity r)) in Hn.
    rewrite slot_lap in Hn by exact Hwf. rewrite Hdata in Hn.
    injection Hn as <-. cbn [Ring.lock]. apply Z.eqb_neq. lia.
Qed.

Lemma after_put_holds (r : Ring.mm_ring_mpmc) (q : list Z) (d : Z) :
  Ring.ring_wf r -> holds r q -> len q < Ring.capacity r ->
  Ring.head r + Ring.capacity r < 2 ^ 64 ->
  holds (after_put r d) (q ++ [d]) /\ Ring.ring_wf (after_put r d).
Proof.
  intros Hwf (Ht & Hlen & Hdata & Hfree) Hroom Hmax.
  pose proof (len_nonneg q) as Hq.
  pose proof (Ring.wf_head r Hwf) as Hh.
  destruct (ring_slot r (Ring.tail r) Hwf) as (n & Hn);
    [apply (Ring.wf_tail r Hwf)|].
  assert (Hu : u64 (Ring.tail r + 1) = Ring.tail r + 1)
    by (apply u64_small; lia).
  assert (Hlt : (Z.to_nat (Z.land (Ring.tail r) (Ring.mask r))
                 < length (Ring.ring r))%nat)
    by now apply lookup_lt_Some in Hn.
  split.
  - unfold holds.
    change (Ring.capacity (after_put r d)) with (Ring.capacity r).
    unfold after_put, slot.
    cbn [Ring.head Ring.tail Ring.mask Ring.ring].
    rewrite Hu, len_app.
    change (len [d]) with 1.
    split; [lia|]. split; [lia|]. split.
    + intros i x Hi. rewrite Ht.
      destruct (decide (i = length q)) as [->|Hne].
      * rewrite lookup_app_r, Nat.sub_diag in Hi by lia.
        injection Hi as <-. fold (len q).
        rewrite list_lookup_insert_eq by (rewrite <- Ht; exact Hlt).
        reflexivity.
      * assert (Hi' : (i < length q)%nat).
        { apply lookup_lt_Some in Hi. rewrite length_app in Hi.
          cbn in Hi. lia. }
        rewrite lookup_app_l in Hi by exact Hi'.
        rewrite list_lookup_insert_ne; [now apply Hdata|].
        apply (slot_inj r (len q) (Z.of_nat i) Hwf); unfold len in *; lia.
    + intros i Hi. rewrite Ht.
      rewrite list_lookup_insert_ne; [apply Hfree; lia|].
      apply (slot_inj r (len q) i Hwf); lia.
  - destruct Hwf as [Hm Hs Hhd Htl]. split; cbn; auto.
    + unfold len in *. now rewrite length_insert.
    + rewrite Hu. lia.
Qed.

(** The slot of the head is ready exactly when the queue is not empty,
    and carries its first element then. *)
Lemma holds_head_slot (r : Ring.mm_ring_mpmc) (q : list Z) :
  Ring.ring_wf r -> holds r q ->
  Ring.head r + Ring.capacity r < 2 ^ 64 ->
  exists n,
    Ring.ring r !! Z.to_nat (Z.land (Ring.head r) (Ring.mask r)) = Some n /\
    match q with
    | [] => (Ring.lock n =? u64 (Ring.head r + 1)) = false
    | x :: _ => (Ring.lock n =? u64 (Ring.head r + 1)) = true /\
                Ring.data n = x
    end.
Proof.
  intros Hwf (Ht & Hlen & Hdata & Hfree) Hmax.
  pose proof (Ring.wf_head r Hwf) as Hh.
  pose proof (capacity_pos r Hwf) as Hc.
  destruct (ring_slot r (Ring.head r) Hwf) as (n & Hn); [lia|].
  exists n. split; [exact Hn|].
  rewrite u64_small by lia.
  destruct q as [|x q'].
  - pose proof (Hfree 0 ltac:(unfold len; cbn; lia)) as Hf0.
    rewrite Z.add_0_r in Hf0. unfold slot in Hf0. rewrite Hn in Hf0.
    injection Hf0 as Hl. rewrite Hl. apply Z.eqb_neq. lia.
  - pose proof (Hdata 0%nat x eq_refl) as Hd0.
    rewrite Z.add_0_r in Hd0. unfold slot in Hd0. rewrite Hn in Hd0.
    injection Hd0 as ->. cbn [Ring.lock Ring.data].
    split; [apply Z.eqb_refl|reflexivity].
Qed.

Lemma after_get_holds (r : Ring.mm_ring_mpmc) (x : Z) (q' : list Z) :
  Ring.ring_wf r -> holds r (x :: q') ->
  Ring.head r + Ring.capacity r < 2 ^ 64 ->
  holds (after_get r x) q' /\ Ring.ring_wf (after_get r x) /\
  Ring.head (after_get r x) = Ring.head r + 1.
Proof.
  intros Hwf (Ht & Hlen & Hdata & Hfree) Hmax.
  pose proof (Ring.wf_head r Hwf) as Hh.
  pose proof (capacity_pos r Hwf) as Hc.
  destruct (ring_slot r (Ring.head r) Hwf) as (n & Hn); [lia|].
  assert (Hu : u64 (Ring.head r + 1) = Ring.head r + 1)
    by (apply u64_small; lia).
  assert (Hu' : u64 (Ring.head r + 1 + Ring.mask r)
                = Ring.head r + Ring.capacity r)
    by (unfold Ring.capacity in *; rewrite u64_small; lia).
  rewrite len_cons in *. pose proof (len_nonneg q') as Hq'.
  assert (Hlt : (Z.to_nat (Z.land (Ring.head r) (Ring.mask r))
                 < length (Ring.ring r))%nat)
    by now apply lookup_lt_Some in Hn.
  split; [|split].
  - unfold holds.
    change (Ring.capacity (after_get r x)) with (Ring.capacity r).
    unfold after_get, slot.
    cbn [Ring.head Ring.tail Ring.mask Ring.ring]. rewrite Hu, Hu'.
    split; [lia|]. split; [lia|]. split.
    + intros i y Hi. pose proof (lookup_lt_Some _ _ _ Hi) as Hil.
      rewrite list_lookup_insert_ne.
      * replace (Ring.head r + 1 + Z.of_nat i)
          with (Ring.head r + Z.of_nat (S i)) by lia.
        now apply Hdata.
      * replace (Ring.head r) with (Ring.head r + 0) at 1 by lia.
        replace (Ring.head r + 1 + Z.of_nat i)
          with (Ring.head r + (1 + Z.of_nat i)) by lia.
        apply (slot_inj r 0 (1 + Z.of_nat i) Hwf); unfold len in *; lia.
    + intros i Hi.
      destruct (decide (i + 1 = Ring.capacity r)) as [E|Hne].
      * replace (Ring.head r + 1 + i)
          with (Ring.head r + Ring.capacity r) by lia.
        fold (slot r (Ring.head r + Ring.capacity r)).
        rewrite slot_lap by exact Hwf. unfold slot.
        rewrite list_lookup_insert_eq by exact Hlt. reflexivity.
      * rewrite list_lookup_insert_ne.
        -- replace (Ring.head r + 1 + i)
             with (Ring.head r + (i + 1)) by lia.
           apply Hfree. lia.
        -- replace (Ring.head r) with (Ring.head r + 0) at 1 by lia.
           replace (Ring.head r + 1 + i)
             with (Ring.head r + (1 + i)) by lia.
           apply (slot_inj r 0 (1 + i) Hwf); lia.
  - destruct Hwf as [Hm Hs Hhd Htl]. split; cbn; auto.
    + unfold len in *. now rewrite length_insert.
    + rewrite Hu. lia.
  - cbn. exact Hu.
Qed.

(** X13: A put on a ring that holds a queue appends to the queue: with room
    left it succeeds and the ring holds the queue with the data at its end;
    on a full ring it fails and leaves the ring as it is.  The ring has at
    least two slots, and its counters are a lap away from wrapping. *)
Theorem mpmc_put_enqueues (r : Ring.mm_ring_mpmc) (log : list Ring.event)
    (d : Z) (q : list Z) :
  Ring.ring_wf r -> holds r q -> 2 <= Ring.capacity r ->
  Ring.head r + Ring.capacity r < 2 ^ 64 ->
  exists r' log',
    Ring.mm_ring_mpmc_put d (r, log)
      = Some (len q <? Ring.capacity r, (r', log')) /\
    if len q <? Ring.capacity r
    then holds r' (q ++ [d]) /\ Ring.ring_wf r' /\
         Ring.mask r' = Ring.mask r /\ Ring.head r' = Ring.head r
    else r' = r.
Proof.
  intros Hwf Hholds Hcap Hmax.
  destruct (holds_tail_slot r q Hwf Hholds Hcap) as (n & Hn & Hlock).
  rewrite (mm_ring_mpmc_put_ok r log d n Hn), Hlock.
  destruct (Z.ltb_spec (len q) (Ring.capacity r)) as [Hroom|Hfull].
  - destruct (after_put_holds r q d Hwf Hholds Hroom Hmax) as [Hh' Hwf'].
    eexists _, _. split; [reflexivity|]. now split_and!.
  - eexists _, _. split; reflexivity.
Qed.

(** X14: A get on a ring that holds a queue takes the oldest element: on an
    empty queue it fails and leaves the ring as it is; otherwise it returns
    the first element and the ring holds the rest, the slot being free for
    the position one lap ahead. *)
Theorem mpmc_get_dequeues (r : Ring.mm_ring_mpmc) (log : list Ring.event)
    (q : list Z) :
  Ring.ring_wf r -> holds r q ->
  Ring.head r + Ring.capacity r < 2 ^ 64 ->
  exists r' log',
    Ring.mm_ring_mpmc_get (r, log)
      = Some (match q with [] => (false, 0) | x :: _ => (true, x) end,
              (r', log')) /\
    match q with
    | [] => r' = r
    | x :: q' =>
        holds r' q' /\ Ring.ring_wf r' /\
        Ring.mask r' = Ring.mask r /\ Ring.head r' = Ring.head r + 1
    end.
Proof.
  intros Hwf Hholds Hmax.
  destruct (holds_head_slot r q Hwf Hholds Hmax) as (n & Hn & Hcase).
  rewrite (mm_ring_mpmc_get_ok r log n Hn).
  destruct q as [|x q'].
  - rewrite Hcase. eexists _, _. split; reflexivity.
  - destruct Hcase as [-> Hx]. rewrite Hx.
    destruct (after_get_holds r x q' Hwf Hholds Hmax)
      as (Hh' & Hwf' & Hhead).
    eexists _, _. split; [reflexivity|]. now split_and!.
Qed.

(** *** Relaxed access *)

Lemma mm_ring_relaxed_put_ok (r : Ring.mm_ring_mpmc) (log : list Ring.event)
    (d : Z) (n : Ring.mm_ring_node) :
  let t := Ring.tail r in
  let node := Z.land t (Ring.mask r) in
  Ring.ring r !! Z.to_nat node = Some n ->
  Relaxed.mm_ring_relaxed_put d (r, log) =
    if Ring.lock n =? t then
      Some (true,
            (after_put r d,
             log ++ [Ring.ev_load_fence;
                     Ring.ev_load (Ring.loc_lock node) t;
                     Ring.ev_store (Ring.loc_data node) d;
                     Ring.ev_store_fence;
                     Ring.ev_store (Ring.loc_lock node) (u64 (t + 1))]))
    else
      Some (false,
            (r, log ++ [Ring.ev_load_fence;
                        Ring.ev_load (Ring.loc_lock node) (Ring.lock n)])).
Proof.
  intros t node Hn. destruct r as [h t' m slots]. cbn in t, node, Hn.
  subst t node. set (node := Z.land t' m) in *.
  unfold Relaxed.mm_ring_relaxed_put.
  erewrite rbind_Some by reflexivity.
  erewrite rbind_Some by reflexivity.
  cbn [Ring.tail Ring.mask]. fold node.
  erewrite rbind_Some by reflexivity.
  erewrite rbind_Some.
  2:{ apply mm_memory_load_ok. cbn [Ring.read_loc Ring.ring].
      rewrite Hn. reflexivity. }
  destruct (Z.eqb_spec (Ring.lock n) t') as [Hl|Hl]; cbn [negb].
  - erewrite rbind_Some by reflexivity.
    cbn [Ring.head Ring.mask Ring.ring Ring.tail].
    erewrite rbind_Some.
    2:{ apply mm_memory_store_ok. cbn [Ring.write_loc Ring.ring].
        rewrite Hn. reflexivity. }
    erewrite rbind_Some by reflexivity.
    erewrite rbind_Some.
    2:{ apply mm_memory_store_ok. cbn [Ring.write_loc Ring.ring].
        rewrite list_lookup_insert_eq by (now apply lookup_lt_Some in Hn).
        reflexivity. }
    cbn [Ring.head Ring.tail Ring.mask Ring.ring Ring.data Ring.lock].
    rewrite list_insert_insert_eq, Hl.
    unfold Ring.rret, after_put.
    cbn [Ring.head Ring.tail Ring.mask Ring.ring]. fold node.
    rewrite <- !app_assoc. reflexivity.
  - unfold Ring.rret. rewrite <- !app_assoc. reflexivity.
Qed.

Lemma mm_ring_relaxed_get_ok (r : Ring.mm_ring_mpmc) (log : list Ring.event)
    (n : Ring.mm_ring_node) :
  let h := Ring.head r in
  let node := Z.land h (Ring.mask r) in
  Ring.ring r !! Z.to_nat node = Some n ->
  Relaxed.mm_ring_relaxed_get (r, log) =
    if Ring.lock n =? u64 (h + 1) then
      Some ((true, Ring.data n),
            (after_get r (Ring.data n),
             log ++ [Ring.ev_load_fence;
                     Ring.ev_load (Ring.loc_lock node) (u64 (h + 1));
                     Ring.ev_load (Ring.loc_data node) (Ring.data n);
                     Ring.ev_fence;
                     Ring.ev_store (Ring.loc_lock node)
                       (u64 (h + 1 + Ring.mask r))]))
    else
      Some ((false, 0),
            (r, log ++ [Ring.ev_load_fence;
                        Ring.ev_load (Ring.loc_lock node) (Ring.lock n)])).
Proof.
  intros h node Hn. destruct r as [h' t m slots]. cbn in h, node, Hn.
  subst h node. set (node := Z.land h' m) in *.
  unfold Relaxed.mm_ring_relaxed_get.
  erewrite rbind_Some by reflexivity.
  erewrite rbind_Some by reflexivity.
  cbn [Ring.head Ring.mask]. fold node.
  erewrite rbind_Some by reflexivity.
  erewrite rbind_Some.
  2:{ apply mm_memory_load_ok. cbn [Ring.read_loc Ring.ring].
      rewrite Hn. reflexivity. }
  destruct (Z.eqb_spec (Ring.lock n) (u64 (h' + 1))) as [Hl|Hl]; cbn [negb].
  - erewrite rbind_Some by reflexivity.
    cbn [Ring.head Ring.mask Ring.ring Ring.tail].
    erewrite rbind_Some.
    2:{ apply mm_memory_load_ok. cbn [Ring.read_loc Ring.ring].
        rewrite Hn. reflexivity. }
    erewrite rbind_Some by reflexivity.
    erewrite rbind_Some.
    2:{ apply mm_memory_store_ok. cbn [Ring.write_loc Ring.ring].
        rewrite Hn. reflexivity. }
    rewrite Hl.
    unfold Ring.rret, after_get.
    cbn [Ring.head Ring.tail Ring.mask Ring.ring]. fold node.
    rewrite <- !app_assoc. reflexivity.
  - unfold Ring.rret. rewrite <- !app_assoc. reflexivity.
Qed.

(** X15: Used by one thread, the relaxed operations do what the multi-producer
    multi-consumer ones do: [mm_ring_relaxed_put] and [mm_ring_relaxed_get]
    return the result and leave the ring that [mm_ring_mpmc_put] and
    [mm_ring_mpmc_get] do, without any compare-and-swap. *)
Theorem relaxed_agrees_with_mpmc (r : Ring.mm_ring_mpmc)
    (log : list Ring.event) (d : Z) :
  Ring.ring_wf r ->
  (exists rc r' events events',
     Relaxed.mm_ring_relaxed_put d (r, log) = Some (rc, (r', log ++ events)) /\
     Ring.mm_ring_mpmc_put d (r, log) = Some (rc, (r', log ++ events')) /\
     forallb (fun e => negb (is_cas e)) events = true) /\
  (exists rc r' events events',
     Relaxed.mm_ring_relaxed_get (r, log) = Some (rc, (r', log ++ events)) /\
     Ring.mm_ring_mpmc_get (r, log) = Some (rc, (r', log ++ events')) /\
     forallb (fun e => negb (is_cas e)) events = true).
Proof.
  intros Hwf. split.
  - destruct (ring_slot r (Ring.tail r) Hwf) as (n & Hn);
      [apply (Ring.wf_tail r Hwf)|].
    rewrite (mm_ring_relaxed_put_ok r log d n Hn).
    rewrite (mm_ring_mpmc_put_ok r log d n Hn).
    destruct (Ring.lock n =? Ring.tail r); eexists _, _, _, _;
      (split; [reflexivity|]; split; reflexivity).
  - destruct (ring_slot r (Ring.head r) Hwf) as (n & Hn);
      [apply (Ring.wf_head r Hwf)|].
    rewrite (mm_ring_relaxed_get_ok r log n Hn).
    rewrite (mm_ring_mpmc_get_ok r log n Hn).
    destruct (Ring.lock n =? u64 (Ring.head r + 1)); eexists _, _, _, _;
      (split; [reflexivity|]; split; reflexivity).
Qed.

(** *** Busy wait *)

Lemma busywait_ready (fuel : nat) (r : Ring.mm_ring_mpmc)
    (log : list Ring.event) (node lock : Z) (n : Ring.mm_ring_node) :
  Ring.ring r !! Z.to_nat node = Some n -> Ring.lock n = lock ->
  Busy.mm_ring_mpmc_busywait (S fuel) node lock (r, log)
    = Some (true, (r, log ++ [Ring.ev_load (Ring.loc_lock node) lock])).
Proof.
  intros Hn Hl. cbn [Busy.mm_ring_mpmc_busywait].
  erewrite rbind_Some.
  2:{ apply mm_memory_load_ok. cbn [Ring.read_loc]. rewrite Hn. reflexivity. }
  rewrite Hl, Z.eqb_refl. reflexivity.
Qed.

Lemma busywait_spins (r : Ring.mm_ring_mpmc) (node lock : Z)
    (n : Ring.mm_ring_node) :
  Ring.ring r !! Z.to_nat node = Some n -> Ring.lock n <> lock ->
  forall fuel log,
    exists log',
      Busy.mm_ring_mpmc_busywait fuel node lock (r, log)
        = Some (false, (r, log')).
Proof.
  intros Hn Hl. induction fuel as [|fuel IH]; intros log.
  - exists log. reflexivity.
  - cbn [Busy.mm_ring_mpmc_busywait].
    erewrite rbind_Some.
    2:{ apply mm_memory_load_ok. cbn [Ring.read_loc]. rewrite Hn.
        reflexivity. }
    destruct (Z.eqb_spec (Ring.lock n) lock); [contradiction|]. cbn [negb].
    apply IH.
Qed.

(** X23: [mm_ring_mpmc_enqueue] on a ring that holds a queue, with nobody
    else at work: with room left it returns after one look at the lock
    and the ring holds the queue with the data at its end; on a full ring
    it never comes back, however long it waits, and has moved the tail
    already. *)
Theorem mpmc_enqueue_waits_for_room (r : Ring.mm_ring_mpmc)
    (log : list Ring.event) (d : Z) (q : list Z) :
  Ring.ring_wf r -> holds r q -> 2 <= Ring.capacity r ->
  Ring.head r + Ring.capacity r < 2 ^ 64 ->
  (len q < Ring.capacity r ->
   forall fuel, exists r' log',
     Busy.mm_ring_mpmc_enqueue (S fuel) d (r, log) = Some (true, (r', log')) /\
     holds r' (q ++ [d]) /\ Ring.ring_wf r') /\
  (len q = Ring.capacity r ->
   forall fuel, exists r' log',
     Busy.mm_ring_mpmc_enqueue fuel d (r, log) = Some (false, (r', log')) /\
     Ring.tail r' = u64 (Ring.tail r + 1) /\ Ring.ring r' = Ring.ring r).
Proof.
  intros Hwf Hholds Hcap Hmax.
  destruct (holds_tail_slot r q Hwf Hholds Hcap) as (n & Hn & Hlock).
  split.
  - intros Hroom fuel.
    destruct (after_put_holds r q d Hwf Hholds Hroom Hmax) as [Hh' Hwf'].
    destruct (Z.ltb_spec (len q) (Ring.capacity r)); [|lia].
    apply Z.eqb_eq in Hlock.
    destruct r as [h t m slots]. cbn [Ring.tail Ring.mask Ring.ring] in *.
    unfold Busy.mm_ring_mpmc_enqueue.
    erewrite rbind_Some by reflexivity.
    erewrite rbind_Some by reflexivity.
    cbn [Ring.head Ring.tail Ring.mask Ring.ring].
    erewrite rbind_Some by (apply (busywait_ready fuel _ _ _ _ n); assumption).
    cbn [negb].
    erewrite rbind_Some by reflexivity.
    erewrite rbind_Some.
    2:{ apply mm_memory_store_ok. cbn [Ring.write_loc Ring.ring Ring.head Ring.tail Ring.mask].
        rewrite Hn. reflexivity. }
    erewrite rbind_Some by reflexivity.
    erewrite rbind_Some.
    2:{ apply mm_memory_store_ok. cbn [Ring.write_loc Ring.ring Ring.head Ring.tail Ring.mask].
        rewrite list_lookup_insert_eq by (now apply lookup_lt_Some in Hn).
        reflexivity. }
    cbn [Ring.head Ring.tail Ring.mask Ring.ring Ring.data Ring.lock].
    rewrite list_insert_insert_eq.
    eexists _, _. split; [reflexivity|]. split; [exact Hh'|exact Hwf'].
  - intros Hfull fuel.
    destruct (Z.ltb_spec (len q) (Ring.capacity r)); [lia|].
    apply Z.eqb_neq in Hlock.
    destruct r as [h t m slots]. cbn [Ring.tail Ring.mask Ring.ring] in *.
    unfold Busy.mm_ring_mpmc_enqueue.
    erewrite rbind_Some by reflexivity.
    erewrite rbind_Some by reflexivity.
    cbn [Ring.head Ring.tail Ring.mask Ring.ring].
    destruct (busywait_spins
                {| Ring.head := h; Ring.tail := u64 (t + 1); Ring.mask := m;
                   Ring.ring := slots |} (Z.land t m) t n Hn Hlock fuel log)
      as (log' & Hspin).
    erewrite rbind_Some by exact Hspin.
    cbn [negb]. eexists _, _. split; [reflexivity|]. split; reflexivity.
Qed.

(** X24: [mm_ring_mpmc_dequeue] on a ring that holds a queue, with nobody
    else at work: on a queue that is not empty it returns the oldest
    element after one look at the lock and the ring holds the rest; on an
    empty queue it never comes back, however long it waits, and has moved
    the head already. *)
Theorem mpmc_dequeue_waits_for_data (r : Ring.mm_ring_mpmc)
    (log : list Ring.event) (q : list Z) :
  Ring.ring_wf r -> holds r q ->
  Ring.head r + Ring.capacity r < 2 ^ 64 ->
  match q with
  | x :: q' =>
      forall fuel, exists r' log',
        Busy.mm_ring_mpmc_dequeue (S fuel) (r, log)
          = Some (Some x, (r', log')) /\
        holds r' q' /\ Ring.ring_wf r'
  | [] =>
      forall fuel, exists r' log',
        Busy.mm_ring_mpmc_dequeue fuel (r, log) = Some (None, (r', log')) /\
        Ring.head r' = u64 (Ring.head r + 1) /\ Ring.ring r' = Ring.ring r
  end.
Proof.
  intros Hwf Hholds Hmax.
  destruct (holds_head_slot r q Hwf Hholds Hmax) as (n & Hn & Hcase).
  destruct q as [|x q'].
  - intros fuel. apply Z.eqb_neq in Hcase.
    destruct r as [h t m slots]. cbn [Ring.head Ring.mask Ring.ring] in *.
    unfold Busy.mm_ring_mpmc_dequeue.
    erewrite rbind_Some by reflexivity.
    erewrite rbind_Some by reflexivity.
    cbn [Ring.head Ring.tail Ring.mask Ring.ring].
    destruct (busywait_spins
                {| Ring.head := u64 (h + 1); Ring.tail := t; Ring.mask := m;
                   Ring.ring := slots |} (Z.land h m) (u64 (h + 1)) n Hn
                Hcase fuel log)
      as (log' & Hspin).
    erewrite rbind_Some by exact Hspin.
    cbn [negb]. eexists _, _. split; [reflexivity|]. split; reflexivity.
  - intros fuel. destruct Hcase as [Hl Hx]. apply Z.eqb_eq in Hl.
    destruct (after_get_holds r x q' Hwf Hholds Hmax) as (Hh' & Hwf' & _).
    destruct r as [h t m slots]. cbn [Ring.head Ring.mask Ring.ring] in *.
    unfold Busy.mm_ring_mpmc_dequeue.
    erewrite rbind_Some by reflexivity.
    erewrite rbind_Some by reflexivity.
    cbn [Ring.head Ring.tail Ring.mask Ring.ring].
    erewrite rbind_Some by (apply (busywait_ready fuel _ _ _ _ n); assumption).
    cbn [negb].
    erewrite rbind_Some by reflexivity.
    erewrite rbind_Some.
    2:{ apply mm_memory_load_ok. cbn [Ring.read_loc Ring.ring Ring.head Ring.tail Ring.mask].
        rewrite Hn. reflexivity. }
    erewrite rbind_Some by reflexivity.
    erewrite rbind_Some.
    2:{ apply mm_memory_store_ok. cbn [Ring.write_loc Ring.ring Ring.head Ring.tail Ring.mask].
        rewrite Hn. reflexivity. }
    rewrite Hx. eexists _, _. split; [reflexivity|].
    split; [exact Hh'|exact Hwf'].
Qed.

(** ** The single-producer single-consumer ring as a queue *)

Lemma spsc_capacity_pos (r : Spsc.mm_ring_spsc) (q : list Z) :
  Spsc.holds r q -> 0 < Spsc.capacity r < 2 ^ 64.
Proof.
  intros [(k & Hk & Hm) _ _ _ _ _ _]. unfold Spsc.capacity. rewrite Hm.
  pose proof (Z.pow_pos_nonneg 2 k ltac:(lia) ltac:(lia)).
  pose proof (Z.pow_lt_mono_r 2 k 64 ltac:(lia) ltac:(lia) ltac:(lia)). lia.
Qed.

Lemma spsc_next (r : Spsc.mm_ring_spsc) (q : list Z) (p : Z) :
  Spsc.holds r q -> 0 <= p < Spsc.capacity r ->
  Z.land (u64 (p + 1)) (Spsc.mask r) = (p + 1) mod Spsc.capacity r.
Proof.
  intros H Hp. pose proof (spsc_capacity_pos r q H) as Hc.
  destruct H as [(k & Hk & Hm) _ _ _ _ _ _].
  rewrite u64_small by lia. unfold Spsc.capacity. rewrite Hm.
  replace (2 ^ k - 1) with (Z.ones k) by (rewrite Z.ones_equiv; lia).
  rewrite Z.land_ones by lia. f_equal. rewrite Z.ones_equiv. lia.
Qed.

Lemma spsc_load (r : Spsc.mm_ring_spsc) (q : list Z) (p : Z) :
  Spsc.holds r q -> 0 <= p < Spsc.capacity r ->
  Spsc.load r p = Spsc.ring r !! Z.to_nat p.
Proof.
  intros H Hp. unfold Spsc.load. rewrite (Spsc.h_slots r q H).
  destruct (Z.leb_spec 0 p); [|lia].
  destruct (Z.ltb_spec p (Spsc.capacity r)); [reflexivity|lia].
Qed.

Lemma spsc_index_ne (c h i j : Z) :
  0 < c -> 0 <= i < c -> 0 <= j < c -> i <> j ->
  Z.to_nat ((h + i) mod c) <> Z.to_nat ((h + j) mod c).
Proof.
  intros Hc Hi Hj Hne E. apply Hne.
  pose proof (Z.mod_pos_bound (h + i) c Hc).
  pose proof (Z.mod_pos_bound (h + j) c Hc).
  apply (mod_window_inj c h); auto. lia.
Qed.

(** X16: A put of a pointer other than [NULL] on a ring that holds a queue
    appends to the queue: with room left it succeeds and the ring holds the
    queue with the pointer at its end; on a full ring it fails and leaves the
    ring as it is. *)
Theorem spsc_put_enqueues (r : Spsc.mm_ring_spsc) (data : Z) (q : list Z) :
  Spsc.holds r q -> data <> Spsc.NULL ->
  exists r',
    Spsc.mm_ring_spsc_put r data = Some (len q <? Spsc.capacity r, r') /\
    if len q <? Spsc.capacity r then Spsc.holds r' (q ++ [data]) else r' = r.
Proof.
  intros H Hd. pose proof (spsc_capacity_pos r q H) as Hc.
  pose proof (len_nonneg q) as Hq.
  pose proof (Spsc.h_head r q H) as Hh.
  pose proof (Spsc.h_len r q H) as Hlen.
  pose proof (Spsc.h_tail r q H) as Ht.
  assert (Htr : 0 <= Spsc.tail r < Spsc.capacity r)
    by (rewrite Ht; apply Z.mod_pos_bound; lia).
  unfold Spsc.mm_ring_spsc_put. rewrite (spsc_load r q _ H Htr).
  destruct (Z.ltb_spec (len q) (Spsc.capacity r)) as [Hroom|Hfull].
  - pose proof (Spsc.h_free r q H (len q) ltac:(lia)) as Hf.
    rewrite <- Ht in Hf. rewrite Hf. cbn [Z.eqb Spsc.NULL].
    eexists. split; [reflexivity|].
    assert (Hlt : (Z.to_nat (Spsc.tail r) < length (Spsc.ring r))%nat)
      by now apply lookup_lt_Some in Hf.
    pose proof (spsc_next r q (Spsc.tail r) H Htr) as Hnext.
    destruct H as [Hm Hs _ _ _ Hdata Hfree].
    split; unfold Spsc.capacity in *; cbn [Spsc.head Spsc.tail Spsc.mask Spsc.ring];
      fold (Spsc.capacity r) in *; unfold Spsc.store.
    + exact Hm.
    + unfold len in *. now rewrite length_insert.
    + exact Hh.
    + rewrite Hnext, Ht, len_app. change (len [data]) with 1.
      rewrite Zplus_mod_idemp_l. f_equal. lia.
    + rewrite len_app. change (len [data]) with 1. lia.
    + intros i x Hi. destruct (decide (i = length q)) as [->|Hne].
      * rewrite lookup_app_r, Nat.sub_diag in Hi by lia. injection Hi as <-.
        split; [exact Hd|]. fold (len q). rewrite <- Ht.
        now apply list_lookup_insert_eq.
      * assert (Hi' : (i < length q)%nat).
        { apply lookup_lt_Some in Hi. rewrite length_app in Hi.
          cbn in Hi. lia. }
        rewrite lookup_app_l in Hi by exact Hi'.
        destruct (Hdata i x Hi) as [Hx Hr]. split; [exact Hx|].
        rewrite list_lookup_insert_ne; [exact Hr|]. rewrite Ht.
        apply spsc_index_ne; unfold len in *; lia.
    + intros i Hi. rewrite len_app in Hi. change (len [data]) with 1 in Hi.
      rewrite list_lookup_insert_ne; [apply Hfree; lia|]. rewrite Ht.
      apply spsc_index_ne; lia.
  - assert (Hlenq : len q = Spsc.capacity r) by lia.
    destruct q as [|x q']; [unfold len in Hlenq; cbn in Hlenq; lia|].
    destruct (Spsc.h_data r _ H 0%nat x eq_refl) as [Hx Hr].
    assert (E : Spsc.tail r = (Spsc.head r + Z.of_nat 0) mod Spsc.capacity r).
    { rewrite Ht, Hlenq. change (Z.of_nat 0) with 0. rewrite Z.add_0_r.
      rewrite <- (Z.mul_1_l (Spsc.capacity r)) at 1.
      rewrite Z.mod_add by lia. reflexivity. }
    rewrite E, Hr.
    destruct (Z.eqb_spec x Spsc.NULL); [contradiction|].
    eexists. split; reflexivity.
Qed.

(** X17: A get on a ring that holds a queue takes the oldest element: on an
    empty queue it fails and leaves the ring as it is; otherwise it returns
    the first pointer and the ring holds the rest. *)
Theorem spsc_get_dequeues (r : Spsc.mm_ring_spsc) (q : list Z) :
  Spsc.holds r q ->
  exists r',
    Spsc.mm_ring_spsc_get r = Some (head q, r') /\
    match q with
    | [] => r' = r
    | x :: q' => Spsc.holds r' q'
    end.
Proof.
  intros H. pose proof (spsc_capacity_pos r q H) as Hc.
  pose proof (Spsc.h_head r q H) as Hh.
  pose proof (Spsc.h_len r q H) as Hlen.
  pose proof (Spsc.h_tail r q H) as Ht.
  unfold Spsc.mm_ring_spsc_get. rewrite (spsc_load r q _ H Hh).
  assert (E0 : (Spsc.head r + 0) mod Spsc.capacity r = Spsc.head r)
    by (rewrite Z.add_0_r; apply Z.mod_small; lia).
  destruct q as [|x q'].
  - pose proof (Spsc.h_free r _ H 0 ltac:(unfold len; cbn; lia)) as Hf.
    rewrite E0 in Hf. rewrite Hf. eexists. split; reflexivity.
  - destruct (Spsc.h_data r _ H 0%nat x eq_refl) as [Hx Hr].
    change (Z.of_nat 0) with 0 in Hr. rewrite E0 in Hr. rewrite Hr.
    destruct (Z.eqb_spec x Spsc.NULL); [contradiction|]. cbn [negb head].
    eexists. split; [reflexivity|].
    assert (Hlt : (Z.to_nat (Spsc.head r) < length (Spsc.ring r))%nat)
      by now apply lookup_lt_Some in Hr.
    rewrite len_cons in *. pose proof (len_nonneg q') as Hq'.
    pose proof (spsc_next r _ (Spsc.head r) H Hh) as Hnext.
    destruct H as [Hm Hs _ _ _ Hdata Hfree].
    split; unfold Spsc.capacity in *; cbn [Spsc.head Spsc.tail Spsc.mask Spsc.ring];
      fold (Spsc.capacity r) in *; unfold Spsc.store; rewrite ?Hnext.
    + exact Hm.
    + unfold len in *. now rewrite length_insert.
    + apply Z.mod_pos_bound. lia.
    + rewrite Ht, Zplus_mod_idemp_l. f_equal. lia.
    + lia.
    + intros i y Hi. pose proof (lookup_lt_Some _ _ _ Hi) as Hil.
      destruct (Hdata (S i) y Hi) as [Hy Hry]. split; [exact Hy|].
      rewrite Zplus_mod_idemp_l.
      replace (Spsc.head r + 1 + Z.of_nat i)
        with (Spsc.head r + Z.of_nat (S i)) by lia.
      rewrite list_lookup_insert_ne; [exact Hry|].
      rewrite <- E0 at 1. apply spsc_index_ne; unfold len in *; lia.
    + intros i Hi. rewrite Zplus_mod_idemp_l.
      destruct (decide (i + 1 = Spsc.capacity r)) as [E|Hne].
      * replace (Spsc.head r + 1 + i)
          with (Spsc.head r + 1 * Spsc.capacity r) by lia.
        rewrite Z.mod_add by lia. rewrite Z.mod_small by lia.
        now apply list_lookup_insert_eq.
      * replace (Spsc.head r + 1 + i) with (Spsc.head r + (i + 1)) by lia.
        rewrite list_lookup_insert_ne; [apply Hfree; rewrite len_cons; lia|].
        rewrite <- E0 at 1. apply spsc_index_ne; lia.
Qed.

(** ** Growing a partition *)

(** X18: [mc_table_expand] grows a partition by [n] entries but never beyond
    [nentries_max]: the new count is the smaller of [nentries + n] and
    [nentries_max], without wrapping around; the new entries are all void,
    so the number of entries in use stays as it was; and the result tells
    whether the partition has grown. *)
Theorem mc_table_expand_saturates (nentries_max : Z) (part : Tpart.mc_tpart)
    (n : Z) :
  0 <= Tpart.nentries part <= nentries_max -> nentries_max < 2 ^ 32 ->
  0 <= Tpart.nentries_void part <= Tpart.nentries part ->
  0 <= n < 2 ^ 32 ->
  let '(rc, part') := TableC.mc_table_expand nentries_max part n in
  Tpart.nentries part' = Z.min (Tpart.nentries part + n) nentries_max /\
  Tpart.nentries_void part'
    = Tpart.nentries_void part
      + (Tpart.nentries part' - Tpart.nentries part) /\
  Tpart.entries_in_use part' = Tpart.entries_in_use part /\
  Tpart.nbuckets part' = Tpart.nbuckets part /\
  Tpart.striding part' = Tpart.striding part /\
  (rc = true <-> Tpart.nentries part < Tpart.nentries part') /\
  (rc = false -> part' = part).
Proof.
  intros He Hmax Hv Hn. unfold TableC.mc_table_expand, TableC.UINT32_MAX.
  set (old := Tpart.nentries part) in *.
  set (void := Tpart.nentries_void part) in *.
  assert (Hnew : (if nentries_max <?
                     (if u32 (old + n) <? old then 2 ^ 32 - 1 else u32 (old + n))
                  then nentries_max
                  else if u32 (old + n) <? old then 2 ^ 32 - 1
                       else u32 (old + n))
                 = Z.min (old + n) nentries_max).
  { destruct (Z.lt_ge_cases (old + n) (2 ^ 32)) as [Hs|Hb].
    - rewrite (u32_small (old + n)) by lia.
      destruct (Z.ltb_spec (old + n) old); [lia|].
      destruct (Z.ltb_spec nentries_max (old + n)); lia.
    - assert (Hw : u32 (old + n) = old + n - 2 ^ 32).
      { unfold u32. symmetry. apply (Z.mod_unique _ _ 1); lia. }
      rewrite Hw. destruct (Z.ltb_spec (old + n - 2 ^ 32) old); [|lia].
      destruct (Z.ltb_spec nentries_max (2 ^ 32 - 1)); lia. }
  cbv zeta. rewrite Hnew.
  set (new := Z.min (old + n) nentries_max).
  assert (Hrange : old <= new < 2 ^ 32) by (unfold new; lia).
  rewrite (u32_small (new - old)) by lia.
  destruct (Z.eqb_spec (new - old) 0) as [E|E]; cbn [negb].
  - fold old void. split_and!; try reflexivity; try lia.
  - unfold Tpart.entries_in_use.
    cbn [Tpart.nentries Tpart.nentries_void Tpart.nentries_free
         Tpart.nbuckets Tpart.striding].
    fold old void. rewrite !u32_small by lia.
    split_and!; try reflexivity; try lia.
Qed.

(** ** The command [mc_parse_command] hands to [mc_parse] *)

Lemma command_start_dispatchable (start : Z) (command c' : mc_command) x :
  command_start start command = Some (c', x) -> dispatchable c' = true.
Proof.
  unfold command_start.
  repeat match goal with
         | |- context [if ?b then _ else _] => destruct b
         end; intros [= <- <-]; unfold dispatchable; cbn;
    rewrite ?orb_true_r; reflexivity.
Qed.

Lemma has_desc_dispatchable (command : mc_command) :
  has_desc command = true -> dispatchable command = true.
Proof. intros H. unfold dispatchable. now rewrite H. Qed.

Lemma scan_dispatchable (chars : list ascii) :
  forall s state start rest command,
    (late state = true -> dispatchable command = true) ->
    match scan chars s state start rest command with
    | scan_leave _ c => dispatchable c = true
    | scan_error _ _ => True
    | scan_more state' _ _ c => late state' = true -> dispatchable c = true
    end.
Proof.
  induction chars as [|ch chars IH]; intros s state start rest command Hc;
    [exact Hc|].
  cbn [scan].
  assert (Heol1 :
    late state = true ->
    match (if char_val ch =? 10 then scan_leave (s + 1) command
           else scan_error (s + 1) command) with
    | scan_leave _ c => dispatchable c = true
    | scan_error _ _ => True
    | scan_more state' _ _ c => late state' = true -> dispatchable c = true
    end).
  { intros Hl. destruct (char_val ch =? 10); [now apply Hc|exact I]. }
  assert (Heol0 :
    late state = true ->
    match (if char_val ch =? 13
           then scan chars (s + 1) S_EOL_1 start rest command
           else if char_val ch =? 32
                then scan chars (s + 1) S_EOL_0 start rest command
                else if char_val ch =? 10 then scan_leave (s + 1) command
                     else scan_error (s + 1) command) with
    | scan_leave _ c => dispatchable c = true
    | scan_error _ _ => True
    | scan_more state' _ _ c => late state' = true -> dispatchable c = true
    end).
  { intros Hl. destruct (char_val ch =? 13); [apply IH; auto|].
    destruct (char_val ch =? 32); [apply IH; auto|]. now apply Heol1. }
  destruct state; cbn [late] in *.
  - destruct (char_val ch =? 10); [exact I|].
    destruct (char_val ch =? 32); apply IH; discriminate.
  - destruct (char_val ch =? 10); [exact I|]. apply IH. discriminate.
  - destruct (char_val ch =? 10); [exact I|]. apply IH. discriminate.
  - destruct (command_start _ command) as [[c' [[state' rest']|]]|] eqn:E;
      [| |exact I].
    + apply IH. intros _. exact (command_start_dispatchable _ _ _ _ E).
    + exact (command_start_dispatchable _ _ _ _ E).
  - destruct (char_val ch =? char_val (hd NUL rest)).
    + destruct (char_val ch =? 0); [exact I|]. apply IH. auto.
    + destruct (negb (char_val (hd NUL rest) =? 0)); [exact I|].
      destruct (negb (char_val ch =? 32) && negb (char_val ch =? 13)
                && negb (char_val ch =? 10)); [exact I|].
      destruct (has_desc command) eqn:Hd.
      * now apply has_desc_dispatchable.
      * now apply Heol0.
  - now apply Heol0.
  - now apply Heol1.
Qed.

Lemma parse_error_loop_error (error_string : list ascii) :
  forall next p,
    parser_error (snd (parse_error_loop next p error_string))
      = parser_error p.
Proof.
  induction next as [|seg next IH]; intros p; cbn [parse_error_loop].
  - destruct (memchr _ LF); [reflexivity|].
    unfold mm_buffer_next_out. destruct (cursor_next p); reflexivity.
  - destruct (memchr _ LF); [reflexivity|].
    unfold mm_buffer_next_out. destruct (cursor_next p) as [|seg' next'];
      [reflexivity|].
    rewrite IH. reflexivity.
Qed.

Lemma mc_parse_error_sets_error (p : mc_parser) (error_string : list ascii) :
  parser_error (snd (mc_parse_error p error_string)) = true.
Proof. unfold mc_parse_error. now rewrite parse_error_loop_error. Qed.

Lemma parse_command_loop_dispatchable :
  forall next state start rest count p p',
    (late state = true -> dispatchable (parser_command p) = true) ->
    parse_command_loop next state start rest count p = (true, p') ->
    parser_error p' = false ->
    dispatchable (parser_command p') = true.
Proof.
  induction next as [|seg next IH];
    intros state start rest count p p' Hc Hrun Herr;
    cbn [parse_command_loop] in Hrun;
    pose proof (scan_dispatchable (zdrop (cursor_ptr p) (cursor_seg p))
                  (cursor_ptr p) state start rest (parser_command p) Hc) as Hs;
    destruct (scan _ _ state start rest (parser_command p))
      as [ptr c|ptr c|state' start' rest' c].
  all: try (injection Hrun as <-; exact Hs).
  all: try (
    pose proof (mc_parse_error_sets_error
                  (with_ptr ptr (with_command c p)) (line "ERROR")) as He;
    rewrite Hrun in He; cbn [snd] in He; congruence).
  - cbv zeta in Hrun. unfold mc_more_input, mm_buffer_next_out in Hrun.
    destruct (1024 <? _); [discriminate|].
    cbn [cursor_next with_command] in Hrun.
    destruct (cursor_next p); discriminate.
  - cbv zeta in Hrun. unfold mc_more_input, mm_buffer_next_out in Hrun.
    destruct (1024 <? _); [discriminate|].
    cbn [cursor_next with_command] in Hrun.
    destruct (cursor_next p) as [|seg' next']; [discriminate|].
    eapply IH; [|exact Hrun|exact Herr]. exact Hs.
Qed.

(** X19: [mc_parse] never calls through a null descriptor: when
    [mc_parse_command] succeeds without a parse error and leaves the result
    type at [MC_RESULT_NONE], which is when [mc_parse] goes on with
    [parser->command->desc->parse], it has set the descriptor. *)
Theorem mc_parse_command_sets_desc (p p' : mc_parser) :
  mc_parse_command p = (true, p') ->
  parser_error p' = false ->
  result_type (parser_command p') = MC_RESULT_NONE ->
  exists d, desc (parser_command p') = Some d.
Proof.
  intros Hrun Herr Hres. unfold mc_parse_command in Hrun.
  assert (Hd : dispatchable (parser_command p') = true).
  { eapply parse_command_loop_dispatchable; [|exact Hrun|exact Herr].
    cbn. discriminate. }
  unfold dispatchable, has_desc in Hd. rewrite Hres in Hd.
  destruct (desc (parser_command p')) as [d|]; [now exists d|discriminate].
Qed.

(** ** Spaces and the end of the line *)

Lemma char_val_inj (c : ascii) (x : ascii) :
  char_val c = char_val x -> c = x.
Proof.
  unfold char_val, byte_val. intros H.
  assert (E : N_of_ascii c = N_of_ascii x).
  { pose proof (N_ascii_bounded c). pose proof (N_ascii_bounded x).
    destruct (Z.ltb_spec (Z.of_N (N_of_ascii c)) 128);
      destruct (Z.ltb_spec (Z.of_N (N_of_ascii x)) 128); lia. }
  rewrite <- (ascii_N_embedding c), <- (ascii_N_embedding x). now rewrite E.
Qed.

Lemma char_val_is (c x : ascii) :
  (char_val c =? char_val x) = bool_decide (c = x).
Proof.
  destruct (Z.eqb_spec (char_val c) (char_val x)) as [E|E].
  - apply char_val_inj in E. now rewrite bool_decide_true.
  - rewrite bool_decide_false; [reflexivity|]. intros ->. now apply E.
Qed.

Lemma char_val_space (c : ascii) : (char_val c =? 32) = bool_decide (c = SP).
Proof. exact (char_val_is c SP). Qed.

Lemma char_val_cr (c : ascii) : (char_val c =? 13) = bool_decide (c = CR).
Proof. exact (char_val_is c CR). Qed.

Lemma char_val_lf (c : ascii) : (char_val c =? 10) = bool_decide (c = LF).
Proof. exact (char_val_is c LF). Qed.

Lemma spaces_split (n : nat) :
  forall (chars rest tail : list ascii),
    chars ++ rest = replicate n SP ++ tail ->
    (exists m, (m <= n)%nat /\ chars = replicate m SP /\
               rest = replicate (n - m) SP ++ tail) \/
    (exists c chars2, chars = replicate n SP ++ c :: chars2 /\
                      tail = c :: chars2 ++ rest).
Proof.
  induction n as [|n IH]; intros chars rest tail H.
  - destruct chars as [|c chars2].
    + left. exists 0%nat. cbn in *. auto.
    + right. exists c, chars2. cbn in *. auto.
  - destruct chars as [|x chars'].
    + left. exists 0%nat. cbn in *. split; [lia|]. auto.
    + cbn in H. injection H as -> H.
      destruct (IH chars' rest tail H) as [(m & Hm & -> & ->)|(c & chars2 & -> & ->)].
      * left. exists (S m). split; [lia|]. split; reflexivity.
      * right. exists c, chars2. split; reflexivity.
Qed.

Lemma skip_space_spaces (n : nat) :
  forall chars s,
    skip_space (replicate n SP ++ chars) s
      = skip_space chars (s + Z.of_nat n).
Proof.
  induction n as [|n IH]; intros chars s.
  - cbn. f_equal. lia.
  - cbn [replicate app skip_space].
    change (char_val SP =? 32) with true. cbn [negb].
    rewrite IH. f_equal. lia.
Qed.

Lemma len_spaces (n : nat) : len (replicate n SP) = Z.of_nat n.
Proof. unfold len. now rewrite length_replicate. Qed.

Lemma zdrop_spaces (n : nat) (chars : list ascii) :
  zdrop (Z.of_nat n) (replicate n SP ++ chars) = chars.
Proof.
  unfold zdrop. rewrite Nat2Z.id.
  now rewrite drop_app_length' by (symmetry; apply length_replicate).
Qed.

(** With a byte that is no space behind at most 1024 spaces, the loop
    stops at that byte. *)
Lemma parse_space_loop_found (c : ascii) (tail : list ascii) :
  c <> SP ->
  forall next count p (n : nat),
    next = cursor_next p -> cursor_wf p ->
    cursor_rest p = replicate n SP ++ c :: tail ->
    count + Z.of_nat n <= 1024 ->
    exists p',
      parse_space_loop next count p = (true, p') /\
      cursor_wf p' /\ cursor_rest p' = c :: tail /\
      parser_command p' = parser_command p /\
      state_quit p' = state_quit p /\ parser_error p' = parser_error p.
Proof.
  intros Hc.
  induction next as [|seg next IH]; intros count p n Hnext Hwf Hrest Hcount;
    unfold cursor_rest in Hrest; rewrite <- Hnext in Hrest;
    cbn [parse_space_loop];
    pose proof (len_zdrop_le (cursor_seg p) (cursor_ptr p) Hwf) as Hlen;
    destruct (spaces_split n _ _ _ Hrest)
      as [(m & Hm & Hchars & Hnx)|(c' & chars2 & Hchars & Htail)].
  all: try (
    (* the byte is in this segment *)
    injection Htail as <- Htail;
    rewrite Hchars, skip_space_spaces; cbn [skip_space];
    rewrite (char_val_space c), bool_decide_false by exact Hc; cbn [negb];
    eexists; split; [reflexivity|];
    rewrite Hchars, len_app, len_spaces, len_cons in Hlen;
    pose proof (len_nonneg chars2);
    split; [unfold cursor_wf in *; cbn; lia|];
    split; [|now split_and!];
    unfold cursor_rest;
    cbn [cursor_ptr cursor_seg cursor_next with_ptr with_cursor];
    rewrite <- Hnext;
    replace (zdrop (cursor_ptr p + Z.of_nat n) (cursor_seg p))
      with (zdrop (Z.of_nat n) (zdrop (cursor_ptr p) (cursor_seg p)))
      by (apply zdrop_zdrop; unfold cursor_wf in Hwf; lia);
    rewrite Hchars, zdrop_spaces, Htail; reflexivity).
  - (* the input ends with spaces: excluded *)
    cbn [concat] in Hnx. destruct (n - m)%nat; discriminate.
  - (* spaces to the end of the segment *)
    rewrite Hchars, <- (app_nil_r (replicate m SP)), skip_space_spaces.
    cbn [skip_space]. cbv zeta. unfold mc_more_input.
    rewrite Hchars, len_spaces in Hlen. rewrite <- Hlen.
    destruct (Z.ltb_spec 1024 (count + Z.of_nat m)); [lia|].
    unfold mm_buffer_next_out. rewrite <- Hnext.
    destruct (IH (count + Z.of_nat m) (with_cursor seg next 0 p) (n - m)%nat
                eq_refl)
      as (p' & Hrun & Hwf' & Hr' & Hcmd & Hq & He).
    { unfold cursor_wf. cbn. pose proof (len_nonneg seg). lia. }
    { unfold cursor_rest. cbn. exact Hnx. }
    { lia. }
    exists p'. split; [exact Hrun|]. now split_and!.
Qed.

(** With nothing but spaces in the input, the loop asks for more, or
    gives up when it has passed more than 1024 of them. *)
Lemma parse_space_loop_spaces :
  forall next count p (n : nat),
    next = cursor_next p -> cursor_wf p ->
    cursor_rest p = replicate n SP ->
    exists p',
      parse_space_loop next count p = (false, p') /\
      parser_error p' = parser_error p /\
      (count + Z.of_nat n <= 1024 ->
       parser_command p' = parser_command p /\
       state_quit p' = state_quit p) /\
      (1024 < count + Z.of_nat n ->
       state_quit p' = true /\
       result_type (parser_command p') = MC_RESULT_QUIT).
Proof.
  induction next as [|seg next IH]; intros count p n Hnext Hwf Hrest;
    unfold cursor_rest in Hrest; rewrite <- Hnext in Hrest;
    rewrite <- (app_nil_r (replicate n SP)) in Hrest;
    cbn [parse_space_loop];
    pose proof (len_zdrop_le (cursor_seg p) (cursor_ptr p) Hwf) as Hlen;
    destruct (spaces_split n _ _ _ Hrest)
      as [(m & Hm & Hchars & Hnx)|(c' & chars2 & _ & Htail)];
    try discriminate;
    rewrite Hchars, <- (app_nil_r (replicate m SP)), skip_space_spaces;
    cbn [skip_space]; cbv zeta; unfold mc_more_input;
    rewrite Hchars, len_spaces in Hlen; rewrite <- Hlen;
    rewrite app_nil_r in Hnx;
    destruct (Z.ltb_spec 1024 (count + Z.of_nat m)).
  all: try (eexists; split; [reflexivity|]; split; [reflexivity|];
            split; [intros; lia|]; intros; split; reflexivity).
  - unfold mm_buffer_next_out. rewrite <- Hnext.
    assert (n = m) by (cbn in Hnx; destruct (n - m)%nat eqn:E;
                       [lia|discriminate]).
    eexists. split; [reflexivity|]. split; [reflexivity|].
    split; [now split|]. intros. lia.
  - unfold mm_buffer_next_out. rewrite <- Hnext.
    destruct (IH (count + Z.of_nat m) (with_cursor seg next 0 p) (n - m)%nat
                eq_refl)
      as (p' & Hrun & He & Hsame & Hquit).
    { unfold cursor_wf. cbn. pose proof (len_nonneg seg). lia. }
    { unfold cursor_rest. cbn. exact Hnx. }
    exists p'. split; [exact Hrun|]. split; [exact He|]. split.
    + intros Hle. apply Hsame. lia.
    + intros Hgt. apply Hquit. lia.
Qed.

(** X20: [mc_parse_space] steps over the spaces at the cursor and over nothing
    else: with a byte that is no space behind at most 1024 spaces it leaves
    the cursor at that byte; with nothing but spaces in the buffer it asks
    for more input, changing neither the command nor the quit flag when
    there are at most 1024 of them, and setting the quit flag and the
    result [MC_RESULT_QUIT] when there are more. *)
Theorem mc_parse_space_skips_spaces (p : mc_parser) (n : nat)
    (tail : list ascii) :
  cursor_wf p -> cursor_rest p = replicate n SP ++ tail ->
  match tail with
  | c :: _ =>
      c <> SP -> Z.of_nat n <= 1024 ->
      exists p',
        mc_parse_space p = (true, p') /\
        cursor_wf p' /\ cursor_rest p' = tail /\
        parser_command p' = parser_command p /\
        state_quit p' = state_quit p /\ parser_error p' = parser_error p
  | [] =>
      exists p',
        mc_parse_space p = (false, p') /\ parser_error p' = parser_error p /\
        if 1024 <? Z.of_nat n
        then state_quit p' = true /\
             result_type (parser_command p') = MC_RESULT_QUIT
        else parser_command p' = parser_command p /\
             state_quit p' = state_quit p
  end.
Proof.
  intros Hwf Hrest. unfold mc_parse_space. destruct tail as [|c tail].
  - rewrite app_nil_r in Hrest.
    destruct (parse_space_loop_spaces (cursor_next p) 0 p n eq_refl Hwf Hrest)
      as (p' & Hrun & He & Hsame & Hquit).
    exists p'. split; [exact Hrun|]. split; [exact He|].
    destruct (Z.ltb_spec 1024 (Z.of_nat n)); [apply Hquit|apply Hsame]; lia.
  - intros Hc Hn.
    exact (parse_space_loop_found c tail Hc (cursor_next p) 0 p n eq_refl
             Hwf Hrest ltac:(lia)).
Qed.

Lemma eol_scan_spaces (n : nat) :
  forall chars s p,
    eol_scan (replicate n SP ++ chars) s p
      = eol_scan chars (s + Z.of_nat n) p.
Proof.
  induction n as [|n IH]; intros chars s p.
  - cbn. f_equal. lia.
  - cbn [replicate app eol_scan].
    change (char_val SP =? 13) with false.
    change (char_val SP =? 10) with false.
    change (char_val SP =? 32) with true. cbn [negb].
    rewrite IH. f_equal. lia.
Qed.

(** The loop of [mc_parse_eol] runs to the first byte that is no space,
    when at most 1024 spaces precede it: [p1] is the parser at the segment
    of that byte, [m] the number of spaces before it in the segment. *)
Lemma parse_eol_loop_reach (c : ascii) (tail : list ascii) :
  c <> SP ->
  forall next count p (n : nat),
    next = cursor_next p -> cursor_wf p ->
    cursor_rest p = replicate n SP ++ c :: tail ->
    count + Z.of_nat n <= 1024 ->
    exists p1 (m : nat) chars2,
      cursor_wf p1 /\
      zdrop (cursor_ptr p1) (cursor_seg p1)
        = replicate m SP ++ c :: chars2 /\
      tail = chars2 ++ concat (cursor_next p1) /\
      parser_command p1 = parser_command p /\
      state_quit p1 = state_quit p /\ parser_error p1 = parser_error p /\
      (forall P : list ascii -> Prop,
         Forall P (cursor_next p) -> Forall P (cursor_next p1)) /\
      parse_eol_loop next count p
        = match eol_scan (c :: chars2) (cursor_ptr p1 + Z.of_nat m) p1 with
          | Some r => r
          | None => (false, p1)
          end.
Proof.
  intros Hc.
  induction next as [|seg next IH]; intros count p n Hnext Hwf Hrest Hcount;
    unfold cursor_rest in Hrest; rewrite <- Hnext in Hrest;
    cbn [parse_eol_loop];
    pose proof (len_zdrop_le (cursor_seg p) (cursor_ptr p) Hwf) as Hlen;
    destruct (spaces_split n _ _ _ Hrest)
      as [(m & Hm & Hchars & Hnx)|(c' & chars2 & Hchars & Htail)].
  all: try (
    (* the byte is in this segment *)
    injection Htail as <- Htail;
    exists p, n, chars2; rewrite <- Hnext;
    split; [exact Hwf|]; split; [exact Hchars|]; split; [exact Htail|];
    do 3 (split; [reflexivity|]); split; [intros P HP; exact HP|];
    rewrite Hchars, eol_scan_spaces;
    cbn [eol_scan];
    rewrite (char_val_space c), (bool_decide_false (c = SP)) by exact Hc;
    cbn [negb];
    destruct (char_val c =? 13); [reflexivity|];
    destruct (char_val c =? 10); reflexivity).
  - cbn [concat] in Hnx. destruct (n - m)%nat; discriminate.
  - rewrite Hchars, <- (app_nil_r (replicate m SP)), eol_scan_spaces.
    cbn [eol_scan]. cbv zeta. unfold mc_more_input.
    rewrite Hchars, len_spaces in Hlen. rewrite <- Hlen.
    destruct (Z.ltb_spec 1024 (count + Z.of_nat m)); [lia|].
    unfold mm_buffer_next_out. rewrite <- Hnext.
    destruct (IH (count + Z.of_nat m) (with_cursor seg next 0 p) (n - m)%nat
                eq_refl)
      as (p1 & m1 & chars2 & Hwf1 & Hz1 & Ht1 & Hcmd & Hq & He & Hall & Hrun).
    { unfold cursor_wf. cbn. pose proof (len_nonneg seg). lia. }
    { unfold cursor_rest. cbn. exact Hnx. }
    { lia. }
    exists p1, m1, chars2. split_and!; auto.
    intros P HP. apply Hall. cbn.
    now apply Forall_cons in HP as [_ HP].
Qed.

Lemma cursor_rest_at (p : mc_parser) (m : nat) (pre chars : list ascii) :
  cursor_wf p ->
  zdrop (cursor_ptr p) (cursor_seg p) = replicate m SP ++ pre ++ chars ->
  cursor_wf (with_ptr (cursor_ptr p + Z.of_nat m + len pre) p) /\
  cursor_rest (with_ptr (cursor_ptr p + Z.of_nat m + len pre) p)
    = chars ++ concat (cursor_next p).
Proof.
  intros Hwf Hz.
  pose proof (len_zdrop_le (cursor_seg p) (cursor_ptr p) Hwf) as Hlen.
  rewrite Hz, !len_app, len_spaces in Hlen.
  pose proof (len_nonneg pre). pose proof (len_nonneg chars).
  split; [unfold cursor_wf in *; cbn; lia|].
  unfold cursor_rest.
  cbn [cursor_ptr cursor_seg cursor_next with_ptr with_cursor]. f_equal.
  replace (cursor_ptr p + Z.of_nat m + len pre)
    with (cursor_ptr p + (Z.of_nat m + len pre)) by lia.
  rewrite <- zdrop_zdrop by (unfold cursor_wf in Hwf; lia).
  rewrite Hz. rewrite <- (zdrop_zdrop _ (Z.of_nat m)) by lia.
  rewrite zdrop_spaces. unfold zdrop, len. rewrite Nat2Z.id.
  now rewrite drop_app_length.
Qed.

(** X21: [mc_parse_eol] accepts the end of a line and nothing else.  Behind at
    most 1024 spaces: at a LF, or a CR followed by a LF, it succeeds with
    the cursor behind the LF and changes nothing else; at any other byte it
    records a parse error and skips the line like [mc_parse_error], with the
    reply [CLIENT_ERROR unexpected parameter].  For a CR that ends its
    segment, the segments behind the cursor are taken not to be empty. *)
Theorem mc_parse_eol_accepts_line_end (p : mc_parser) (n : nat)
    (tail : list ascii) :
  cursor_wf p -> cursor_rest p = replicate n SP ++ tail ->
  Z.of_nat n <= 1024 ->
  (forall post,
     tail = LF :: post \/
     (tail = CR :: LF :: post /\
      Forall (fun seg => seg <> []) (cursor_next p)) ->
     exists p',
       mc_parse_eol p = (true, p') /\ cursor_wf p' /\
       cursor_rest p' = post /\ parser_command p' = parser_command p /\
       state_quit p' = state_quit p /\ parser_error p' = parser_error p) /\
  (forall c rest, tail = c :: rest -> c <> SP -> c <> CR -> c <> LF ->
     exists p',
       parser_error p' = true /\ state_quit p' = state_quit p /\
       match after_newline rest with
       | Some post =>
           mc_parse_eol p = (true, p') /\ cursor_rest p' = post /\
           reply_of (parser_command p') = Some unexpected_parameter
       | None =>
           mc_parse_eol p = (false, p') /\
           parser_command p' = parser_command p
       end).
Proof.
  intros Hwf Hrest Hn. unfold mc_parse_eol. split.
  - intros post [->|[-> Hsegs]].
    + destruct (parse_eol_loop_reach LF post ltac:(discriminate)
                  (cursor_next p) 0 p n eq_refl Hwf Hrest ltac:(lia))
        as (p1 & m & chars2 & Hwf1 & Hz1 & Ht1 & Hcmd & Hq & He & _ & Hrun).
      rewrite Hrun. cbn [eol_scan].
      change (char_val LF =? 13) with false.
      change (char_val LF =? 10) with true. cbv iota.
      destruct (cursor_rest_at p1 m [LF] chars2 Hwf1 Hz1) as [Hw Hr].
      change (len [LF]) with 1 in Hw, Hr.
      eexists. split; [reflexivity|]. split; [exact Hw|].
      split; [now rewrite Hr|]. now split_and!.
    + destruct (parse_eol_loop_reach CR (LF :: post) ltac:(discriminate)
                  (cursor_next p) 0 p n eq_refl Hwf Hrest ltac:(lia))
        as (p1 & m & chars2 & Hwf1 & Hz1 & Ht1 & Hcmd & Hq & He & Hall & Hrun).
      rewrite Hrun. cbn [eol_scan].
      change (char_val CR =? 13) with true. cbv iota.
      unfold eol_after_cr.
      destruct chars2 as [|x chars3].
      * (* the LF starts the next segment *)
        cbn [app] in Ht1. unfold mm_buffer_next_out.
        specialize (Hall _ Hsegs).
        destruct (cursor_next p1) as [|seg2 next2]; [discriminate|].
        apply Forall_cons in Hall as [Hne _].
        destruct seg2 as [|y seg2']; [contradiction|].
        cbn [concat app] in Ht1. injection Ht1 as <- Hpost.
        cbn [negb cursor_ptr cursor_seg with_cursor].
        change (zdrop 0 (LF :: seg2')) with (LF :: seg2').
        change (char_val LF =? 10) with true. cbn [negb].
        eexists. split; [reflexivity|].
        split; [unfold cursor_wf; cbn; rewrite len_cons;
                pose proof (len_nonneg seg2'); lia|].
        split; [|now split_and!].
        unfold cursor_rest. cbn. now rewrite Hpost.
      * cbn [app] in Ht1. injection Ht1 as <- Hpost.
        change (char_val LF =? 10) with true. cbn [negb].
        destruct (cursor_rest_at p1 m [CR; LF] chars3 Hwf1 Hz1) as [Hw Hr].
        change (len [CR; LF]) with 2 in Hw, Hr.
        replace (cursor_ptr p1 + Z.of_nat m + 1 + 1)
          with (cursor_ptr p1 + Z.of_nat m + 2) by lia.
        eexists. split; [reflexivity|]. split; [exact Hw|].
        split; [now rewrite Hr|]. now split_and!.
  - intros c rest -> Hsp Hcr Hlf.
    destruct (parse_eol_loop_reach c rest Hsp
                (cursor_next p) 0 p n eq_refl Hwf Hrest ltac:(lia))
      as (p1 & m & chars2 & Hwf1 & Hz1 & Ht1 & Hcmd & Hq & He & _ & Hrun).
    rewrite Hrun. cbn [eol_scan].
    rewrite char_val_cr, char_val_lf, char_val_space.
    rewrite !bool_decide_false by assumption. cbn [negb].
    destruct (cursor_rest_at p1 m [c] chars2 Hwf1 Hz1) as [Hw Hr].
    change (len [c]) with 1 in Hw, Hr.
    destruct (mc_parse_error_spec _ unexpected_parameter Hw)
      as (p' & _ & He' & Hq' & Hcase).
    rewrite Hr, <- Ht1 in Hcase.
    exists p'. split; [exact He'|]. split; [now rewrite Hq'|].
    destruct (after_newline rest).
    + destruct Hcase as (Hrun' & Hrest' & Hcmd').
      split; [exact Hrun'|]. split; [exact Hrest'|]. now rewrite Hcmd'.
    + destruct Hcase as (Hrun' & Hcmd'). split; [exact Hrun'|].
      now rewrite Hcmd'.
Qed.

(** ** References held while a retrieval is answered *)

Lemma bump_0 (e : mc_entry) : bump 0 e = e.
Proof. unfold bump. rewrite Z.add_0_r. now destruct e. Qed.

Lemma bumped_refl (w : mc_world) : bumped (fun _ => 0) w w.
Proof.
  split; [now destruct w|]. intros a.
  destruct (w_heap w !! a) as [e|]; cbn; [now rewrite bump_0|reflexivity].
Qed.

Lemma bumped_ext (n n' : addr -> Z) (w w' : mc_world) :
  (forall a, is_Some (w_heap w !! a) -> n a = n' a) ->
  bumped n w w' -> bumped n' w w'.
Proof.
  intros Hn [Hw Hh]. split; [exact Hw|]. intros a. rewrite Hh.
  destruct (w_heap w !! a) as [e|] eqn:E; [|reflexivity]. cbn.
  now rewrite (Hn a) by now exists e.
Qed.

Lemma bumped_zero (n : addr -> Z) (w w' : mc_world) :
  (forall a, is_Some (w_heap w !! a) -> n a = 0) ->
  bumped n w w' -> w' = w.
Proof.
  intros Hn [Hw Hh]. rewrite Hw.
  assert (E : w_heap w' = w_heap w).
  { apply map_eq. intros a. rewrite Hh.
    destruct (w_heap w !! a) as [e|] eqn:E; [|reflexivity]. cbn.
    rewrite (Hn a) by now exists e. now rewrite bump_0. }
  rewrite E. now destruct w.
Qed.

Lemma bumped_at (n : addr -> Z) (w w' : mc_world) (a : addr) (e : mc_entry) :
  bumped n w w' -> heap_at w a e -> heap_at w' a (bump (n a) e).
Proof. intros [_ Hh] He. unfold heap_at in *. now rewrite Hh, He. Qed.

Lemma bumped_table (n : addr -> Z) (w w' : mc_world) :
  bumped n w w' -> w_table w' = w_table w.
Proof. intros [Hw _]. now rewrite Hw. Qed.

Definition one_at (a x : addr) : Z := if decide (x = a) then 1 else 0.

Lemma bump_bump (n d : Z) (e : mc_entry) :
  entry_with_ref_count (entry_ref_count (bump n e) + d) (bump n e)
    = bump (n + d) e.
Proof.
  destruct e. unfold bump, entry_with_ref_count. cbn. f_equal. lia.
Qed.

Lemma bumped_update (n : addr -> Z) (w w' : mc_world) (a : addr)
    (e : mc_entry) (d : Z) :
  bumped n w w' -> heap_at w a e ->
  bumped (fun x => n x + d * one_at a x) w
    (with_heap (<[a := entry_with_ref_count (entry_ref_count (bump (n a) e) + d)
                          (bump (n a) e)]> (w_heap w')) w').
Proof.
  intros [Hw Hh] He. split.
  - rewrite Hw. reflexivity.
  - intros x. cbn [w_heap with_heap]. unfold one_at.
    destruct (decide (x = a)) as [->|Hne].
    + rewrite lookup_insert_eq, bump_bump. unfold heap_at in He.
      rewrite He. cbn. do 2 f_equal. lia.
    + rewrite lookup_insert_ne by congruence. rewrite Hh.
      destruct (w_heap w !! x); [|reflexivity]. cbn. do 2 f_equal. lia.
Qed.

Lemma bumped_ref (n : addr -> Z) (w w' : mc_world) (a : addr) (e : mc_entry) :
  bumped n w w' -> heap_at w a e ->
  0 <= entry_ref_count e + n a < 2 ^ 32 - 1 ->
  exists w'',
    mc_entry_ref a w' = Some (tt, w'') /\
    bumped (fun x => n x + one_at a x) w w''.
Proof.
  intros Hb He Hrc. pose proof (bumped_at n w w' a e Hb He) as He'.
  rewrite (mc_entry_ref_ok w' a _ He') by exact Hrc.
  eexists. split; [reflexivity|].
  eapply bumped_ext; [|exact (bumped_update n w w' a e 1 Hb He)].
  intros x _. cbv beta. lia.
Qed.

Lemma bumped_unref (n : addr -> Z) (w w' : mc_world) (a : addr)
    (e : mc_entry) :
  bumped n w w' -> heap_at w a e ->
  2 <= entry_ref_count e + n a < 2 ^ 32 ->
  exists w'',
    mc_entry_unref a w' = Some (tt, w'') /\
    bumped (fun x => n x - one_at a x) w w''.
Proof.
  intros Hb He Hrc. pose proof (bumped_at n w w' a e Hb He) as He'.
  rewrite (mc_entry_unref_ok w' a _ He').
  cbn [bump entry_ref_count entry_with_ref_count].
  rewrite u32_small by lia.
  destruct (Z.eqb_spec (entry_ref_count e + n a - 1) 0); [lia|].
  eexists. split; [reflexivity|].
  eapply bumped_ext; [|exact (bumped_update n w w' a e (-1) Hb He)].
  intros x _. cbv beta. lia.
Qed.

Lemma occurrences_nil (a : addr) : occurrences a [] = 0.
Proof. reflexivity. Qed.

Lemma occurrences_one_at (a x : addr) (l : list addr) :
  occurrences x (a :: l) = one_at a x + occurrences x l.
Proof.
  rewrite occurrences_cons. unfold one_at.
  destruct (decide (a = x)) as [->|Hne].
  - now rewrite decide_True.
  - now rewrite decide_False by congruence.
Qed.

Lemma occurrences_nonneg (a : addr) (l : list addr) : 0 <= occurrences a l.
Proof. unfold occurrences. apply len_nonneg. Qed.

Lemma occurrences_le (a : addr) (l : list addr) : occurrences a l <= len l.
Proof.
  induction l as [|x l IH]; [unfold occurrences, len; cbn; lia|].
  rewrite occurrences_cons, len_cons.
  destruct (decide (x = a)); lia.
Qed.

Lemma lookup_chain_bumped (n : addr -> Z) (h h' : gmap addr mc_entry) c
    key key_len :
  (forall a, h' !! a = bump (n a) <$> (h !! a)) ->
  lookup_chain h' c key key_len = lookup_chain h c key key_len.
Proof.
  intros Hh. induction c as [|x c IH]; [reflexivity|].
  cbn [lookup_chain]. rewrite Hh.
  destruct (h !! x) as [e|]; [|reflexivity]. cbn [fmap option_fmap option_map].
  unfold bump. rewrite key_matches_ref_count.
  destruct (key_matches key key_len e); [reflexivity|exact IH].
Qed.

Section Retrieval.
Variable w : mc_world.
Hypothesis Hinv : world_inv w.

Lemma mc_table_lookup_bumped (n : addr -> Z) (w' : mc_world) key :
  bumped n w w' ->
  exists r,
    current_entry w key = Some r /\
    (key_index key (len key) ;;; ret tt) w' = Some (tt, w') /\
    mc_table_lookup (mc_table_key_index (w_table w') key (len key))
      key (len key) w' = Some (r, w') /\
    match r with
    | Some a => is_Some (w_heap w !! a)
    | None => True
    end.
Proof.
  intros Hb. pose proof (bumped_table n w w' Hb) as Htab.
  set (index := mc_table_key_index (w_table w) key (len key)).
  assert (Hindex : 0 <= index < t_size (w_table w)) by apply index_range, Hinv.
  destruct (mc_table_lookup_ok w index key (len key) Hinv Hindex)
    as (r & _ & Hcur & Hr).
  exists r. split; [exact Hcur|]. split; [reflexivity|]. split.
  - rewrite Htab. fold index. unfold mc_table_lookup.
    unfold bind at 1. rewrite table_get_ok by (rewrite Htab; exact Hindex).
    unfold bind at 1. unfold get_world.
    assert (Hbk : bucket w' index = bucket w index)
      by (unfold bucket; now rewrite Htab).
    rewrite Hbk, (lookup_chain_bumped n (w_heap w)) by apply Hb.
    now rewrite Hcur.
  - destruct r as [a|]; [|exact I].
    destruct Hr as (_ & e & He & _). now exists e.
Qed.

Lemma found_live keys :
  forall a, a ∈ found w keys -> is_Some (w_heap w !! a).
Proof.
  induction keys as [|key keys IH]; intros a Ha; [inversion Ha|].
  cbn [found] in Ha.
  destruct (mc_table_lookup_bumped (fun _ => 0) w key (bumped_refl w))
    as (r & Hcur & _ & _ & Hr).
  rewrite Hcur in Ha. destruct r as [x|]; [|now apply IH].
  apply elem_of_cons in Ha as [->|Ha]; [exact Hr|now apply IH].
Qed.

Lemma found_len keys : len (found w keys) <= len keys.
Proof.
  induction keys as [|key keys IH]; [reflexivity|].
  cbn [found]. rewrite len_cons.
  destruct (current_entry w key) as [[a|]|]; rewrite ?len_cons; lia.
Qed.

Lemma process_get_keys_bumped keys :
  forall (n : addr -> Z) (w' : mc_world) (entries : list addr),
    bumped n w w' ->
    (forall a e, heap_at w a e ->
       0 <= entry_ref_count e + n a /\
       entry_ref_count e + n a + len keys < 2 ^ 32 - 1) ->
    exists w'',
      process_get_keys keys entries w' = Some (entries ++ found w keys, w'') /\
      bumped (fun x => n x + occurrences x (found w keys)) w w''.
Proof.
  induction keys as [|key keys IH]; intros n w' entries Hb Hrc.
  - exists w'. cbn [process_get_keys found]. rewrite app_nil_r.
    split; [reflexivity|]. eapply bumped_ext; [|exact Hb].
    intros x _. rewrite occurrences_nil. lia.
  - rewrite len_cons in Hrc. pose proof (len_nonneg keys) as Hlen.
    destruct (mc_table_lookup_bumped n w' key Hb)
      as (r & Hcur & _ & Hlook & Hr).
    cbn [process_get_keys found]. rewrite Hcur.
    rewrite (bind_Some _ _ _ _ _ (key_index_ok w' key (len key))).
    rewrite (bind_Some _ _ _ _ _ Hlook).
    destruct r as [a|].
    + destruct Hr as [e He]. destruct (Hrc a e He) as [Hlo Hhi].
      destruct (bumped_ref n w w' a e Hb He ltac:(lia)) as (w1 & Href & Hb1).
      rewrite (bind_Some _ _ _ _ _ Href).
      destruct (IH _ w1 (entries ++ [a]) Hb1) as (w2 & Hrun & Hb2).
      { intros x ex Hx. specialize (Hrc x ex Hx). unfold one_at.
        destruct (decide (x = a)); lia. }
      exists w2. rewrite <- app_assoc in Hrun. split; [exact Hrun|].
      eapply bumped_ext; [|exact Hb2].
      intros x _. cbv beta. rewrite occurrences_one_at. lia.
    + destruct (IH n w' entries Hb) as (w2 & Hrun & Hb2).
      { intros x ex Hx. specialize (Hrc x ex Hx). lia. }
      exists w2. split; [exact Hrun|exact Hb2].
Qed.


Lemma transmit_entries_bumped (with_cas : bool) (entries : list addr) :
  forall (n : addr -> Z) (w' : mc_world) (state : mc_state),
    bumped n w w' ->
    (forall a, a ∈ entries -> is_Some (w_heap w !! a)) ->
    (forall a e, heap_at w a e ->
       0 <= entry_ref_count e + n a /\
       entry_ref_count e + n a + occurrences a entries < 2 ^ 32 - 1) ->
    exists w'',
      transmit_entries with_cas state entries w'
        = Some (with_tbuf
                  (tbuf state ++ entry_chunks with_cas (w_heap w) entries)
                  state, w'') /\
      bumped (fun x => n x + occurrences x entries) w w''.
Proof.
  induction entries as [|a entries IH]; intros n w' state Hb Hlive Hrc.
  - exists w'. cbn [transmit_entries entry_chunks]. rewrite app_nil_r.
    split; [now destruct state|]. eapply bumped_ext; [|exact Hb].
    intros x _. rewrite occurrences_nil. lia.
  - destruct (Hlive a ltac:(left)) as [e He].
    change (heap_at w a e) in He.
    pose proof (Hrc a e He) as [Hlo Hhi]. rewrite occurrences_one_at in Hhi.
    pose proof (occurrences_nonneg a entries) as Hocc.
    assert (Hone : one_at a a = 1) by (unfold one_at; now rewrite decide_True).
    cbn [transmit_entries entry_chunks].
    rewrite (bind_Some _ _ _ _ _
               (load_entry_ok w' a _ (bumped_at n w w' a e Hb He))).
    cbv zeta.
    destruct (bumped_ref n w w' a e Hb He ltac:(lia)) as (w1 & Href & Hb1).
    rewrite (bind_Some _ _ _ _ _ Href).
    unfold heap_at in He. rewrite He.
    destruct (IH _ w1
                (mm_buffer_append
                   (mm_buffer_splice
                      (mm_buffer_append state
                         (bytes "VALUE "
                          ++ fmt_s (entry_key_len (bump (n a) e))
                               (mc_entry_key (bump (n a) e))
                          ++ [SP] ++ fmt_u (entry_flags (bump (n a) e))
                          ++ [SP] ++ fmt_u (entry_value_len (bump (n a) e))
                          ++ (if with_cas
                              then [SP] ++ fmt_u (entry_cas (bump (n a) e))
                              else [])
                          ++ CRLF))
                      a (entry_value_len (bump (n a) e)))
                   CRLF) Hb1)
      as (w2 & Hrun & Hb2).
    { intros x Hx. apply Hlive. now right. }
    { intros x ex Hx. specialize (Hrc x ex Hx).
      rewrite occurrences_one_at in Hrc. unfold one_at in Hrc |- *.
      destruct (decide (x = a)); lia. }
    exists w2. split.
    + rewrite Hrun. f_equal. f_equal.
      unfold mm_buffer_append, mm_buffer_splice, with_tbuf. cbn.
      rewrite <- !app_assoc. reflexivity.
    + eapply bumped_ext; [|exact Hb2].
      intros x _. cbv beta. rewrite occurrences_one_at. lia.
Qed.

Lemma mm_net_writebuf_chunks (with_cas : bool) (n : addr -> Z)
    (w' : mc_world) (entries : list addr) (tail : list ascii) :
  bumped n w w' ->
  (forall a, a ∈ entries -> is_Some (w_heap w !! a)) ->
  mm_net_writebuf (w_heap w')
    (entry_chunks with_cas (w_heap w) entries ++ [chunk_data tail])
    = Some (blocks with_cas (w_heap w) entries ++ tail).
Proof.
  intros Hb. induction entries as [|a entries IH]; intros Hlive.
  - cbn. now rewrite app_nil_r.
  - destruct (Hlive a ltac:(left)) as [e He].
    cbn [entry_chunks blocks]. rewrite He.
    cbn [app mm_net_writebuf].
    rewrite (bumped_at n w w' a e Hb He).
    rewrite IH by (intros x Hx; apply Hlive; now right).
    unfold value_block. cbn [bump mc_entry_value entry_value
                             entry_with_ref_count].
    destruct with_cas; list_norm; reflexivity.
Qed.

Lemma mm_buffer_rectify_chunks (with_cas : bool) (entries : list addr)
    (tail : list ascii) :
  forall (n : addr -> Z) (w' : mc_world),
    bumped n w w' ->
    (forall a, a ∈ entries -> is_Some (w_heap w !! a)) ->
    (forall a e, heap_at w a e ->
       1 <= entry_ref_count e /\ occurrences a entries <= n a /\
       entry_ref_count e + n a < 2 ^ 32) ->
    exists w'',
      mm_buffer_rectify
        (entry_chunks with_cas (w_heap w) entries ++ [chunk_data tail]) w'
        = Some (tt, w'') /\
      bumped (fun x => n x - occurrences x entries) w w''.
Proof.
  induction entries as [|a entries IH]; intros n w' Hb Hlive Hrc.
  - exists w'. split; [reflexivity|]. eapply bumped_ext; [|exact Hb].
    intros x _. rewrite occurrences_nil. lia.
  - destruct (Hlive a ltac:(left)) as [e He].
    change (heap_at w a e) in He.
    pose proof (Hrc a e He) as (Hlo & Hocc & Hhi).
    rewrite occurrences_one_at in Hocc.
    pose proof (occurrences_nonneg a entries) as Hpos.
    assert (Hone : one_at a a = 1) by (unfold one_at; now rewrite decide_True).
    cbn [entry_chunks]. unfold heap_at in He. rewrite He.
    cbn [app mm_buffer_rectify]. unfold mc_transmit_unref.
    destruct (bumped_unref n w w' a e Hb He ltac:(lia)) as (w1 & Hun & Hb1).
    rewrite (bind_Some _ _ _ _ _ Hun).
    destruct (IH _ w1 Hb1) as (w2 & Hrun & Hb2).
    { intros x Hx. apply Hlive. now right. }
    { intros x ex Hx. specialize (Hrc x ex Hx).
      rewrite occurrences_one_at in Hrc. unfold one_at in Hrc |- *.
      destruct (decide (x = a)); lia. }
    exists w2. split; [exact Hrun|].
    eapply bumped_ext; [|exact Hb2].
    intros x _. cbv beta. rewrite occurrences_one_at. lia.
Qed.

Lemma unref_all_bumped (entries : list addr) :
  forall (n : addr -> Z) (w' : mc_world),
    bumped n w w' ->
    (forall a, a ∈ entries -> is_Some (w_heap w !! a)) ->
    (forall a e, heap_at w a e ->
       1 <= entry_ref_count e /\ occurrences a entries <= n a /\
       entry_ref_count e + n a < 2 ^ 32) ->
    exists w'',
      unref_all entries w' = Some (tt, w'') /\
      bumped (fun x => n x - occurrences x entries) w w''.
Proof.
  induction entries as [|a entries IH]; intros n w' Hb Hlive Hrc.
  - exists w'. split; [reflexivity|]. eapply bumped_ext; [|exact Hb].
    intros x _. rewrite occurrences_nil. lia.
  - destruct (Hlive a ltac:(left)) as [e He].
    change (heap_at w a e) in He.
    pose proof (Hrc a e He) as (Hlo & Hocc & Hhi).
    rewrite occurrences_one_at in Hocc.
    pose proof (occurrences_nonneg a entries) as Hpos.
    assert (Hone : one_at a a = 1) by (unfold one_at; now rewrite decide_True).
    cbn [unref_all].
    destruct (bumped_unref n w w' a e Hb He ltac:(lia)) as (w1 & Hun & Hb1).
    rewrite (bind_Some _ _ _ _ _ Hun).
    destruct (IH _ w1 Hb1) as (w2 & Hrun & Hb2).
    { intros x Hx. apply Hlive. now right. }
    { intros x ex Hx. specialize (Hrc x ex Hx).
      rewrite occurrences_one_at in Hrc. unfold one_at in Hrc |- *.
      destruct (decide (x = a)); lia. }
    exists w2. split; [exact Hrun|].
    eapply bumped_ext; [|exact Hb2].
    intros x _. cbv beta. rewrite occurrences_one_at. lia.
Qed.

End Retrieval.

(** X22: Answering a retrieval gives back every reference it takes.  [get]
    (or [gets]) of several keys, processed on an idle connection and then
    written out by the writer, puts on the connection one block per entry
    found, in the order of the keys, followed by [END]; the reference the
    command takes on each entry, and the one the transmit buffer takes for
    the value it lends, are given back: the world afterwards is the world
    before. *)
Theorem retrieval_gives_references_back (w : mc_world) (state : mc_state)
    (with_cas : bool) (keys : list (list ascii)) :
  world_inv w -> idle state ->
  (forall a e, heap_at w a e ->
     1 <= entry_ref_count e /\
     entry_ref_count e + 2 * len keys < 2 ^ 32 - 1) ->
  exists state',
    (s1 <- mc_process_command state (retrieval with_cas keys) ;;
     mc_writer_routine s1) w = Some (state', w) /\
    command_head state' = [] /\ tbuf state' = [] /\
    sock_out state'
      = sock_out state ++ blocks with_cas (w_heap w) (found w keys)
        ++ line "END".
Proof.
  intros Hinv (Hfifo & Htbuf & Hquit & Hclosed) Hrc.
  destruct state as [fifo tb q out closed writers released].
  cbn [command_head tbuf quit sock_closed sock_out] in *. subst.
  set (state := {| command_head := []; tbuf := []; quit := false;
                   sock_out := out; sock_closed := false;
                   sock_writers := writers; rbuf_released := released |}).
  set (entries := found w keys).
  set (t := if with_cas then MC_RESULT_ENTRY_CAS else MC_RESULT_ENTRY).
  set (c := retrieval with_cas keys).
  set (c' := with_result t (result_entries entries) c).
  pose proof (found_len w keys) as Hfl. fold entries in Hfl.
  pose proof (found_live w Hinv keys) as Hlive. fold entries in Hlive.
  pose proof (len_nonneg entries) as Hel.
  assert (Hocc : forall a, 0 <= occurrences a entries <= len keys).
  { intros a. pose proof (occurrences_nonneg a entries).
    pose proof (occurrences_le a entries). lia. }
  (* the command *)
  destruct (process_get_keys_bumped w Hinv keys (fun _ => 0) w []
              (bumped_refl w)) as (w1 & Hget & Hb1).
  { intros a e He. specialize (Hrc a e He). lia. }
  fold entries in Hget, Hb1. cbn [app] in Hget.
  set (s1 := mm_net_spawn_writer (mc_queue_command state c')).
  assert (Hcmd : mc_process_command state c w = Some (s1, w1)).
  { unfold mc_process_command, c, retrieval, parsed.
    cbn [desc result_type with_params with_desc mc_command_create
         mc_result_t_eqb].
    assert (Hd : desc_process (if with_cas then mc_desc_gets else mc_desc_get)
                   (with_params (params_get keys)
                      (with_desc
                         (Some (if with_cas then mc_desc_gets else mc_desc_get))
                         mc_command_create)) w
                 = Some (c', w1)).
    { unfold c', c, t, retrieval, parsed.
      destruct with_cas; cbn [desc_process];
        unfold mc_process_gets, mc_process_get, mc_process_get2;
        cbn [params with_params]; rewrite (bind_Some _ _ _ _ _ Hget);
        reflexivity. }
    rewrite (bind_Some _ _ _ _ _ Hd). reflexivity. }
  (* the transmit buffer *)
  destruct (transmit_entries_bumped w with_cas entries _ w1 s1 Hb1 Hlive)
    as (w2 & Htr & Hb2).
  { intros a e He. specialize (Hrc a e He). specialize (Hocc a). lia. }
  set (chunks := entry_chunks with_cas (w_heap w) entries) in *.
  set (s2 := with_tbuf (tbuf s1 ++ chunks) s1) in *.
  set (s3 := mm_buffer_append s2 (line "END")).
  assert (Hbuf : mc_transmit_buffer s1 c' w1 = Some (s3, w2)).
  { unfold mc_transmit_buffer, c', t.
    destruct with_cas; cbn [result_type result with_result];
      rewrite (bind_Some _ _ _ _ _ Htr); reflexivity. }
  (* the write *)
  destruct (mm_buffer_rectify_chunks w with_cas entries (line "END") _ w2
              Hb2 Hlive) as (w3 & Hrect & Hb3).
  { intros a e He. specialize (Hrc a e He). specialize (Hocc a). lia. }
  set (written := blocks with_cas (w_heap w) entries ++ line "END").
  set (s4 := with_tbuf [] (with_sock (sock_out s3 ++ written)
                             (sock_closed s3) (sock_writers s3) s3)).
  assert (Hwrite : mc_transmit s3 w2 = Some (s4, w3)).
  { unfold mc_transmit. change (sock_closed s3) with false. cbv iota.
    unfold bind at 1. unfold get_world.
    change (tbuf s3) with (chunks ++ [chunk_data (line "END")]).
    unfold chunks.
    rewrite (mm_net_writebuf_chunks w with_cas _ w2 entries (line "END")
               Hb2 Hlive).
    rewrite (bind_Some _ _ _ _ _ Hrect). reflexivity. }
  (* the release of the command *)
  destruct (unref_all_bumped w entries _ w3 Hb3 Hlive) as (w4 & Hun & Hb4).
  { intros a e He. specialize (Hrc a e He). specialize (Hocc a). lia. }
  assert (Hw4 : w4 = w).
  { eapply bumped_zero; [|exact Hb4]. intros a _. cbv beta. lia. }
  subst w4.
  assert (Hdestroy : mc_command_destroy c' w3 = Some (tt, w)).
  { unfold mc_command_destroy, c', c, t, retrieval, parsed.
    destruct with_cas;
      cbn [desc with_result with_params with_desc desc_destroy];
      unfold mc_destroy_gets, mc_destroy_get;
      cbn [result_type result with_result]; exact Hun. }
  eexists. split; [|split; [|split]].
  - rewrite (bind_Some _ _ _ _ _ Hcmd).
    unfold mc_writer_routine.
    change (command_head s1) with [c'].
    assert (Ht : mc_result_t_eqb (result_type c') MC_RESULT_NONE = false)
      by (unfold c', t; now destruct with_cas).
    cbv iota. rewrite Ht.
    assert (Hloop : writer_loop s1 c' [] 0 w1 = Some ((s3, 0%nat), w2)).
    { cbn [writer_loop]. change (quit s1) with false. cbv iota.
      rewrite (bind_Some _ _ _ _ _ Hbuf). reflexivity. }
    rewrite (bind_Some _ _ _ _ _ Hloop). cbv iota beta.
    rewrite (bind_Some _ _ _ _ _ Hwrite).
    change (command_head s4) with [c']. cbn [nth_error].
    cbn [release_commands].
    change (command_head (mc_release_buffers s4 (end_ptr c'))) with [c'].
    cbv iota. rewrite (bind_Some _ _ _ _ _ Hdestroy). reflexivity.
  - reflexivity.
  - reflexivity.
  - reflexivity.
Qed.

(** * [mc_parse_noreply] *)

Lemma prefix_take_eq {A} (l1 l2 : list A) :
  l1 `prefix_of` l2 <-> take (length l1) l2 = l1.
Proof.
  split.
  - intros [k ->]. apply take_app_length.
  - intros H. exists (drop (length l1) l2).
    rewrite <- H at 1. symmetry. apply take_drop.
Qed.

Lemma prefix_len_le {A} (l1 l2 : list A) :
  l1 `prefix_of` l2 -> len l1 <= len l2.
Proof. intros [k ->]. rewrite len_app. pose proof (len_nonneg k). lia. Qed.

(** With a byte that is no space in the segment of the cursor,
    [mc_parse_space] stops there. *)
Lemma mc_parse_space_here (p : mc_parser) (n : nat) (c : ascii)
    (rest : list ascii) :
  zdrop (cursor_ptr p) (cursor_seg p) = replicate n SP ++ c :: rest ->
  c <> SP ->
  mc_parse_space p = (true, with_ptr (cursor_ptr p + Z.of_nat n) p).
Proof.
  intros Hz Hc. unfold mc_parse_space.
  destruct (cursor_next p); cbn [parse_space_loop];
    rewrite Hz, skip_space_spaces; cbn [skip_space];
    rewrite (char_val_space c), bool_decide_false by exact Hc; reflexivity.
Qed.

Lemma noreply_compare_prefix (p : mc_parser) (t : list ascii) :
  len t <= len (zdrop (cursor_ptr p) (cursor_seg p)) ->
  noreply_compare p t (len t)
    = if bool_decide (t `prefix_of` zdrop (cursor_ptr p) (cursor_seg p))
      then (true, true, with_ptr (cursor_ptr p + len t) p)
      else (true, false, p).
Proof.
  intros Hlen. unfold noreply_compare, memcmp_differs, ztake, len.
  rewrite Nat2Z.id, (take_ge t) by lia.
  destruct (decide (t `prefix_of` zdrop (cursor_ptr p) (cursor_seg p)))
    as [Hp|Hp].
  - rewrite (bool_decide_true _ Hp).
    rewrite bool_decide_true by (now apply prefix_take_eq). reflexivity.
  - rewrite (bool_decide_false _ Hp).
    rewrite bool_decide_false; [reflexivity|].
    intros E. apply Hp. now apply prefix_take_eq.
Qed.

(** X25: [mc_parse_noreply] behind spaces of the cursor's segment: input
    that starts with the word is passed up to the end of the word; input
    that neither starts with the word nor is the start of it is left where
    it is, with the value false; input that ends within the word is
    continued in the following segment, and nothing is decided when there
    is no such segment or it is too short for the rest of the word. *)
Theorem mc_parse_noreply_recognises_word (p : mc_parser) (value : bool)
    (n : nat) (c : ascii) (rest : list ascii) :
  cursor_wf p ->
  zdrop (cursor_ptr p) (cursor_seg p) = replicate n SP ++ c :: rest ->
  c <> SP ->
  let s := cursor_ptr p + Z.of_nat n in
  let input := c :: rest in
  (noreply_word `prefix_of` input ->
   mc_parse_noreply p value = (true, true, with_ptr (s + 7) p)) /\
  (~ noreply_word `prefix_of` input -> ~ input `prefix_of` noreply_word ->
   mc_parse_noreply p value = (true, false, with_ptr s p)) /\
  (input `prefix_of` noreply_word -> input <> noreply_word ->
   let t := drop (length input) noreply_word in
   mc_parse_noreply p value
     = match cursor_next p with
       | [] => (false, value, with_ptr s p)
       | seg :: next =>
           if len seg <? len t then (false, value, with_cursor seg next 0 p)
           else if bool_decide (t `prefix_of` seg)
                then (true, true, with_cursor seg next (len t) p)
                else (true, false, with_cursor seg next 0 p)
       end).
Proof.
  intros Hwf Hz Hc s input.
  pose proof (len_zdrop_le (cursor_seg p) (cursor_ptr p) Hwf) as Hlen.
  rewrite Hz, len_app, len_spaces in Hlen. fold input in Hlen.
  assert (Hrest : zdrop s (cursor_seg p) = input).
  { unfold s.
    rewrite <- (zdrop_zdrop (cursor_seg p) (cursor_ptr p) (Z.of_nat n))
      by (unfold cursor_wf in Hwf; lia).
    rewrite Hz. apply zdrop_spaces. }
  assert (Hn : len (cursor_seg p) - s = len input) by (unfold s; lia).
  assert (Hrun : mc_parse_noreply p value
    = let p1 := with_ptr s p in
      if 7 <? len input then noreply_compare p1 noreply_word 7
      else if len input <? 7 then
        if memcmp_differs input noreply_word (len input)
        then (true, false, p1)
        else
          let '(rc, p2) := mm_buffer_next_out p1 in
          if negb rc then (rc, value, p2)
          else
            let t := zdrop (len input) noreply_word in
            if len (cursor_seg p2) - cursor_ptr p2 <? 7 - len input
            then (false, value, p2)
            else noreply_compare p2 t (7 - len input)
      else noreply_compare p1 noreply_word (len input)).
  { unfold mc_parse_noreply.
    rewrite (mc_parse_space_here p n c rest Hz Hc). fold s. cbv zeta.
    cbn [negb cursor_ptr cursor_seg with_ptr with_cursor].
    rewrite Hn, Hrest. reflexivity. }
  assert (Hlong : 7 <= len input ->
    mc_parse_noreply p value
      = if bool_decide (noreply_word `prefix_of` input)
        then (true, true, with_ptr (s + 7) p) else (true, false, with_ptr s p)).
  { intros H7. rewrite Hrun. cbv zeta.
    pose proof (noreply_compare_prefix (with_ptr s p) noreply_word) as Hcmp.
    cbn [cursor_ptr cursor_seg with_ptr with_cursor] in Hcmp.
    rewrite Hrest in Hcmp. change (len noreply_word) with 7 in Hcmp.
    specialize (Hcmp H7).
    destruct (Z.ltb_spec 7 (len input)); [exact Hcmp|].
    destruct (Z.ltb_spec (len input) 7); [lia|].
    replace (len input) with 7 by lia. exact Hcmp. }
  assert (Hshort : len input < 7 ->
    memcmp_differs input noreply_word (len input)
      = negb (bool_decide (input `prefix_of` noreply_word))).
  { intros H7. unfold memcmp_differs, ztake, len. rewrite Nat2Z.id.
    rewrite (take_ge input) by lia. f_equal.
    apply bool_decide_ext. rewrite prefix_take_eq. split; intros E; now symmetry. }
  split; [|split].
  - intros Hp. pose proof (prefix_len_le _ _ Hp) as Hl.
    change (len noreply_word) with 7 in Hl.
    rewrite (Hlong Hl), bool_decide_true by exact Hp. reflexivity.
  - intros Hnp Hnq. destruct (Z.le_gt_cases 7 (len input)) as [H7|H7].
    + rewrite (Hlong H7), bool_decide_false by exact Hnp. reflexivity.
    + rewrite Hrun. cbv zeta.
      destruct (Z.ltb_spec 7 (len input)); [lia|].
      destruct (Z.ltb_spec (len input) 7); [|lia].
      rewrite (Hshort H7), bool_decide_false by exact Hnq. reflexivity.
  - intros Hq Hne t.
    assert (H7 : len input < 7).
    { pose proof (prefix_len_le _ _ Hq) as Hl.
      change (len noreply_word) with 7 in Hl.
      destruct (Z.eq_dec (len input) 7) as [E|E]; [|lia].
      exfalso. apply Hne. apply prefix_take_eq in Hq.
      rewrite <- Hq. apply take_ge. unfold len in E.
      change (length noreply_word) with 7%nat. lia. }
    assert (Ht : len t = 7 - len input).
    { unfold t, len. rewrite length_drop.
      change (length noreply_word) with 7%nat. unfold len in H7. lia. }
    rewrite Hrun. cbv zeta.
    destruct (Z.ltb_spec 7 (len input)); [lia|].
    destruct (Z.ltb_spec (len input) 7); [|lia].
    rewrite (Hshort H7), bool_decide_true by exact Hq. cbn [negb].
    unfold mm_buffer_next_out.
    cbn [cursor_next with_ptr with_cursor].
    destruct (cursor_next p) as [|seg next]; [reflexivity|].
    cbn [negb cursor_ptr cursor_seg with_cursor].
    rewrite Z.sub_0_r, <- Ht.
    destruct (Z.ltb_spec (len seg) (len t)) as [Hs|Hs]; [reflexivity|].
    pose proof (noreply_compare_prefix
                  (with_cursor seg next 0 (with_ptr s p)) t) as Hcmp.
    cbn [cursor_ptr cursor_seg with_cursor] in Hcmp.
    change (zdrop 0 seg) with seg in Hcmp.
    replace (zdrop (len input) noreply_word) with t
      by (unfold t, zdrop, len; now rewrite Nat2Z.id).
    rewrite (Hcmp Hs). cbn [Z.add].
    destruct (bool_decide (t `prefix_of` seg)); reflexivity.
Qed.

(** * The writer and the ready prefix of the FIFO *)

































(** * Lines that name no command *)

(** ** The four bytes in [start] *)

Lemma char_val_range (c : ascii) : -128 <= char_val c < 128.
Proof.
  unfold char_val, byte_val. pose proof (N_ascii_bounded c).
  destruct (Z.ltb_spec (Z.of_N (N_of_ascii c)) 128); lia.
Qed.

Lemma byte_of_lor (j a b : Z) :
  Z.land (Z.shiftr (Z.lor a b) j) 255
    = Z.lor (Z.land (Z.shiftr a j) 255) (Z.land (Z.shiftr b j) 255).
Proof. now rewrite Z.shiftr_lor, Z.land_lor_distr_l. Qed.

(** One byte of what a [char] shifted to its place contributes to [start]:
    the byte at its place, nothing below, the sign above. *)
Lemma byte_of_part (x k j : Z) :
  -128 <= x < 128 ->
  k = 0 \/ k = 8 \/ k = 16 \/ k = 24 ->
  j = 0 \/ j = 8 \/ j = 16 \/ j = 24 ->
  Z.land (Z.shiftr (u32 (Z.shiftl x k)) j) 255
    = if j =? k then x mod 256
      else if j <? k then 0
      else if 0 <=? x then 0 else 255.
Proof.
  intros Hx Hk Hj. change 255 with (Z.ones 8).
  rewrite Z.land_ones, Z.shiftr_div_pow2, Z.shiftl_mul_pow2 by lia.
  unfold u32.
  destruct (Z.leb_spec 0 x);
    destruct Hk as [->|[->|[->| ->]]]; destruct Hj as [->|[->|[->| ->]]];
    match goal with
    | |- _ = if ?j =? ?k then _ else if ?j <? ?k then _ else _ =>
        let e := eval vm_compute in (j =? k) in
        let l := eval vm_compute in (j <? k) in
        change (j =? k) with e; change (j <? k) with l; cbv iota
    end;
    change (2 ^ 0) with 1; change (2 ^ 8) with 256;
    change (2 ^ 16) with 65536; change (2 ^ 24) with 16777216;
    change (2 ^ 32) with 4294967296; change (Z.ones 8) with 255;
    Z.div_mod_to_equations; lia.
Qed.

Lemma packed_parts (c1 c2 c3 c4 : ascii) :
  packed c1 c2 c3 c4
    = Z.lor
        (Z.lor
           (Z.lor (u32 (Z.shiftl (char_val c1) 24))
              (u32 (Z.shiftl (char_val c2) 16)))
           (u32 (Z.shiftl (char_val c3) 8)))
        (u32 (Z.shiftl (char_val c4) 0)).
Proof. unfold packed. now rewrite Z.shiftl_0_r. Qed.

Lemma packed_byte (c1 c2 c3 c4 : ascii) (j : Z) :
  j = 0 \/ j = 8 \/ j = 16 \/ j = 24 ->
  let sign (c : ascii) := if 0 <=? char_val c then 0 else 255 in
  Z.land (Z.shiftr (packed c1 c2 c3 c4) j) 255
    = if j =? 0 then char_val c4 mod 256
      else if j =? 8 then Z.lor (char_val c3 mod 256) (sign c4)
      else if j =? 16
      then Z.lor (Z.lor (char_val c2 mod 256) (sign c3)) (sign c4)
      else Z.lor (Z.lor (Z.lor (char_val c1 mod 256) (sign c2)) (sign c3))
             (sign c4).
Proof.
  intros Hj sign. rewrite packed_parts, !byte_of_lor.
  rewrite !byte_of_part by (auto using char_val_range; lia).
  destruct Hj as [->|[->|[->| ->]]]; reflexivity.
Qed.

Lemma char_val_mod_inj (x y : ascii) :
  char_val x mod 256 = char_val y mod 256 -> x = y.
Proof.
  intros H. apply char_val_inj.
  pose proof (char_val_range x). pose proof (char_val_range y).
  revert H. Z.div_mod_to_equations. lia.
Qed.

(** [start] tells the four bytes apart from any four bytes of ASCII. *)
Lemma packed_inj (c1 c2 c3 c4 a b c d : ascii) :
  packed c1 c2 c3 c4 = packed a b c d ->
  0 <= char_val a -> 0 <= char_val b -> 0 <= char_val c -> 0 <= char_val d ->
  [c1; c2; c3; c4] = [a; b; c; d].
Proof.
  intros E Ha Hb Hc Hd.
  assert (Hsign : forall x, 0 <= char_val x ->
            (if 0 <=? char_val x then 0 else 255) = 0).
  { intros x Hx. now destruct (Z.leb_spec 0 (char_val x)); [|lia]. }
  assert (E4 : c4 = d).
  { pose proof (f_equal (fun v => Z.land (Z.shiftr v 0) 255) E) as H.
    cbv beta in H. rewrite !packed_byte in H by auto.
    now apply char_val_mod_inj. }
  subst c4.
  assert (E3 : c3 = c).
  { pose proof (f_equal (fun v => Z.land (Z.shiftr v 8) 255) E) as H.
    cbv beta in H. rewrite !packed_byte in H by auto. cbv zeta in H.
    change (8 =? 0) with false in H. change (8 =? 8) with true in H.
    cbv iota in H. rewrite !Hsign, !Z.lor_0_r in H by assumption.
    now apply char_val_mod_inj. }
  subst c3.
  assert (E2 : c2 = b).
  { pose proof (f_equal (fun v => Z.land (Z.shiftr v 16) 255) E) as H.
    cbv beta in H. rewrite !packed_byte in H by auto. cbv zeta in H.
    change (16 =? 0) with false in H. change (16 =? 8) with false in H.
    change (16 =? 16) with true in H.
    cbv iota in H. rewrite !Hsign, !Z.lor_0_r in H by assumption.
    now apply char_val_mod_inj. }
  subst c2.
  assert (E1 : c1 = a).
  { pose proof (f_equal (fun v => Z.land (Z.shiftr v 24) 255) E) as H.
    cbv beta in H. rewrite !packed_byte in H by auto. cbv zeta in H.
    change (24 =? 0) with false in H. change (24 =? 8) with false in H.
    change (24 =? 16) with false in H.
    cbv iota in H. rewrite !Hsign, !Z.lor_0_r in H by assumption.
    now apply char_val_mod_inj. }
  now subst c1.
Qed.

(** Four bytes that start none of the names are no command. *)
Lemma command_start_unknown (c1 c2 c3 c4 : ascii) (command : mc_command) :
  [c1; c2; c3; c4] ∉ command_starts ->
  command_start (packed c1 c2 c3 c4) command = None.
Proof.
  intros H. unfold command_start. cbv zeta.
  repeat match goal with
         | |- context [packed c1 c2 c3 c4 =? C ?a ?b ?c ?d] =>
             destruct (Z.eqb_spec (packed c1 c2 c3 c4) (C a b c d)) as [E|_];
               [ exfalso; apply H;
                 rewrite (packed_inj c1 c2 c3 c4 a b c d E)
                   by (vm_compute; discriminate);
                 refine (bool_decide_unpack _ _); vm_compute; exact I
               | ]
         end.
  reflexivity.
Qed.

(** What the four bytes that start a name are recognised as: a name of
    three bytes with the space behind it; the start of a name, with the
    rest of it to compare; or [quit]. *)
Lemma command_start_known (c1 c2 c3 c4 : ascii) (command : mc_command) :
  [c1; c2; c3; c4] ∈ command_starts ->
  (exists command',
     command_start (packed c1 c2 c3 c4) command = Some (command', None) /\
     c4 = SP /\ [c1; c2; c3] ∈ command_names /\
     forallb plain [c1; c2; c3] = true) \/
  (exists rest command',
     command_start (packed c1 c2 c3 c4) command
       = Some (command', Some (S_CMD_REST, rest)) /\
     [c1; c2; c3; c4] ++ rest ∈ command_names /\
     forallb plain ([c1; c2; c3; c4] ++ rest) = true) \/
  (exists command',
     command_start (packed c1 c2 c3 c4) command
       = Some (command', Some (S_EOL_0, [])) /\
     [c1; c2; c3; c4] = bytes "quit").
Proof.
  intros H. unfold command_starts in H. cbn [map] in H.
  repeat (apply elem_of_cons in H as [H|H]);
    [..|now apply elem_of_nil in H];
    injection H as -> -> -> ->;
    first
      [ left; eexists; split; [lazy; reflexivity|];
        split; [reflexivity|]; split; [|reflexivity];
        refine (bool_decide_unpack _ _); vm_compute; exact I
      | right; left; eexists _, _; split; [lazy; reflexivity|];
        split; [|reflexivity];
        refine (bool_decide_unpack _ _); vm_compute; exact I
      | right; right; eexists; split; [lazy; reflexivity|reflexivity] ].
Qed.

(** ** The first word of a line *)

Lemma is_delimiter_spec (c : ascii) :
  is_delimiter c = true <-> c = SP \/ c = CR \/ c = LF.
Proof.
  unfold is_delimiter.
  destruct (Ascii.eqb_spec c SP), (Ascii.eqb_spec c CR),
    (Ascii.eqb_spec c LF); cbn; intuition congruence.
Qed.

Lemma word_head (word tail l : list ascii) (d x : ascii) :
  word ++ d :: tail = x :: l -> is_delimiter d = true ->
  is_delimiter x = false ->
  exists w', word = x :: w' /\ l = w' ++ d :: tail.
Proof.
  intros E Hd Hx. destruct word as [|y w']; cbn [app] in E.
  - injection E as -> _. congruence.
  - injection E as -> <-. now exists w'.
Qed.

Lemma word_end (word tail l : list ascii) (d x : ascii) :
  word ++ d :: tail = x :: l ->
  forallb (fun c => negb (is_delimiter c)) word = true ->
  is_delimiter x = true -> word = [].
Proof.
  intros E Hw Hx. destruct word as [|y w']; [reflexivity|].
  cbn [app] in E. injection E as -> _. cbn [forallb] in Hw.
  rewrite Hx in Hw. discriminate.
Qed.

Lemma word_no_newline (word : list ascii) :
  forallb (fun c => negb (is_delimiter c)) word = true -> LF ∉ word.
Proof.
  intros Hw Hin. rewrite forallb_forall in Hw.
  apply list_elem_of_In, Hw in Hin. discriminate.
Qed.

Lemma plain_spec (c : ascii) :
  plain c = true -> is_delimiter c = false /\ c <> NUL.
Proof.
  unfold plain. destruct (is_delimiter c); [discriminate|].
  destruct (Ascii.eqb_spec c NUL); [discriminate|]. now split.
Qed.

Lemma delimiter_tests (c : ascii) :
  is_delimiter c = false ->
  (char_val c =? 32) = false /\ (char_val c =? 13) = false /\
  (char_val c =? 10) = false.
Proof.
  intros H. rewrite char_val_space, char_val_cr, char_val_lf.
  unfold is_delimiter in H.
  destruct (Ascii.eqb_spec c SP), (Ascii.eqb_spec c CR),
    (Ascii.eqb_spec c LF); try discriminate.
  now rewrite !bool_decide_false.
Qed.

(** ** The scan of a word that is no name *)

(** In [S_CMD_REST] a word that differs from [rest] ends the scan with an
    error, at a byte of the word or at the delimiter behind it. *)
Lemma scan_rest_differs (rest : list ascii) :
  forall (w' tail : list ascii) (d : ascii) (s start : Z)
         (command : mc_command),
    forallb plain rest = true ->
    forallb (fun c => negb (is_delimiter c)) w' = true ->
    is_delimiter d = true -> w' <> rest ->
    exists k,
      scan (w' ++ d :: tail) s S_CMD_REST start rest command
        = scan_error (s + k) command /\
      0 <= k <= len w'.
Proof.
  induction rest as [|r rest IH];
    intros w' tail d s start command Hrest Hw Hd Hne.
  - destruct w' as [|x w']; [congruence|].
    cbn [forallb] in Hw. apply andb_true_iff in Hw as [Hx Hw].
    apply negb_true_iff in Hx.
    destruct (delimiter_tests x Hx) as (H32 & H13 & H10).
    exists 1. rewrite len_cons. pose proof (len_nonneg w'). split; [|lia].
    cbn [app scan hd]. cbv zeta. change (char_val NUL) with 0.
    destruct (char_val x =? 0); [reflexivity|].
    cbn [negb]. change (0 =? 0) with true. cbn [negb].
    now rewrite H32, H13, H10.
  - cbn [forallb] in Hrest. apply andb_true_iff in Hrest as [Hr Hrest].
    apply plain_spec in Hr as [Hrd Hrn].
    assert (Hr0 : (char_val r =? 0) = false).
    { change 0 with (char_val NUL). rewrite char_val_is.
      now apply bool_decide_false. }
    destruct w' as [|x w'].
    + exists 0. split; [|unfold len; cbn; lia].
      cbn [app scan hd]. cbv zeta. rewrite char_val_is.
      rewrite bool_decide_false by (intros ->; congruence).
      rewrite Hr0. cbn [negb]. now rewrite Z.add_0_r.
    + cbn [forallb] in Hw. apply andb_true_iff in Hw as [Hx Hw].
      cbn [app scan hd tl]. cbv zeta. rewrite char_val_is.
      destruct (decide (x = r)) as [->|Hxr].
      * rewrite bool_decide_true by reflexivity. rewrite Hr0.
        destruct (IH w' tail d (s + 1) start command Hrest Hw Hd)
          as (k & Hrun & Hk); [congruence|].
        exists (k + 1). rewrite len_cons. split; [|lia].
        rewrite Hrun. f_equal. lia.
      * rewrite bool_decide_false by exact Hxr. rewrite Hr0. cbn [negb].
        exists 0. rewrite len_cons. pose proof (len_nonneg w').
        split; [now rewrite Z.add_0_r|lia].
Qed.

Lemma scan_leading_spaces (n : nat) :
  forall chars s start rest command,
    scan (replicate n SP ++ chars) s S_START start rest command
      = scan chars (s + Z.of_nat n) S_START start rest command.
Proof.
  induction n as [|n IH]; intros chars s start rest command.
  - cbn. f_equal. lia.
  - cbn [replicate app scan]. cbv zeta.
    change (char_val SP =? 10) with false.
    change (char_val SP =? 32) with true. cbv iota.
    rewrite IH. f_equal. lia.
Qed.

Lemma take_elem_of {A} (n : nat) (l : list A) (x : A) :
  x ∈ take n l -> x ∈ l.
Proof.
  revert l. induction n as [|n IH]; intros [|y l] H; cbn [take] in H;
    try (now apply elem_of_nil in H).
  apply elem_of_cons in H as [->|H]; [left|right; now apply IH].
Qed.

Lemma word_take_no_newline (word tail : list ascii) (d : ascii) (k : Z) :
  forallb (fun c => negb (is_delimiter c)) word = true ->
  0 <= k <= len word ->
  LF ∉ take (Z.to_nat k) (word ++ d :: tail).
Proof.
  intros Hw Hk Hin. rewrite take_app_le in Hin by (unfold len in Hk; lia).
  apply take_elem_of in Hin. now apply (word_no_newline word Hw).
Qed.

(** The scan of a line whose first word is not the name of a command ends
    with an error, before any LF is passed. *)
Lemma scan_unknown_word (word tail : list ascii) (d : ascii) (s start : Z)
    (rest : list ascii) (command : mc_command) :
  forallb (fun c => negb (is_delimiter c)) word = true ->
  is_delimiter d = true -> (word = [] -> d <> SP) ->
  LF ∈ take 3 (word ++ d :: tail) \/ 3 <= len (word ++ tail) ->
  word ∉ command_names ->
  exists k command',
    scan (word ++ d :: tail) s S_START start rest command
      = scan_error (s + k) command' /\
    0 <= k <= len (word ++ d :: tail) /\
    LF ∉ take (Z.to_nat k) (word ++ d :: tail).
Proof.
  intros Hw Hd Hsp Hlong Hname.
  assert (Hlong' : LF ∈ take 3 (word ++ d :: tail)
                   \/ 4 <= len (word ++ d :: tail)).
  { destruct Hlong as [H|H]; [now left|right].
    rewrite len_app, len_cons. rewrite len_app in H. lia. }
  clear Hlong.
  assert (Hfirst : forall c l, word ++ d :: tail = c :: l -> c <> SP).
  { intros c l E. destruct word as [|y w']; cbn [app] in E.
    - injection E as <- _. now apply Hsp.
    - injection E as <- _. cbn [forallb] in Hw.
      apply andb_true_iff in Hw as [Hy _]. apply negb_true_iff in Hy.
      intros ->. discriminate. }
  assert (Htest : forall c, c <> LF -> (char_val c =? 10) = false)
    by (intros c Hc; rewrite char_val_lf; now apply bool_decide_false).
  remember (word ++ d :: tail) as l eqn:Hl. symmetry in Hl.
  destruct l as [|c1 l]; [now destruct word|].
  pose proof (Hfirst c1 l eq_refl) as Hc1. clear Hfirst.
  assert (H32 : (char_val c1 =? 32) = false)
    by (rewrite char_val_space; now apply bool_decide_false).
  pose proof (len_nonneg l) as Hl0.
  (* the first byte *)
  destruct (decide (c1 = LF)) as [->|H1].
  { exists 0, command. split; [now rewrite Z.add_0_r|].
    split; [rewrite len_cons; lia|apply not_elem_of_nil]. }
  destruct l as [|c2 l].
  { exfalso. destruct Hlong' as [H|H]; [|unfold len in H; cbn in H; lia].
    cbn [take] in H. apply elem_of_cons in H as [H|H]; [congruence|].
    now apply elem_of_nil in H. }
  (* the second byte *)
  destruct (decide (c2 = LF)) as [->|H2].
  { exists 1, command. split; [|split].
    - cbn [scan]. cbv zeta. now rewrite (Htest c1 H1), H32.
    - rewrite !len_cons. pose proof (len_nonneg l). lia.
    - cbn [Z.to_nat Pos.to_nat Pos.iter_op Nat.add take].
      intros H. apply elem_of_cons in H as [H|H]; [congruence|].
      now apply elem_of_nil in H. }
  destruct l as [|c3 l].
  { exfalso. destruct Hlong' as [H|H]; [|unfold len in H; cbn in H; lia].
    cbn [take] in H. repeat (apply elem_of_cons in H as [H|H]; [congruence|]).
    now apply elem_of_nil in H. }
  (* the third byte *)
  destruct (decide (c3 = LF)) as [->|H3].
  { exists 2, command. split; [|split].
    - cbn [scan]. cbv zeta.
      rewrite (Htest c1 H1), H32, (Htest c2 H2).
      change (char_val LF =? 10) with true. cbv iota. f_equal. lia.
    - rewrite !len_cons. pose proof (len_nonneg l). lia.
    - change (Z.to_nat 2) with 2%nat. cbn [take].
      intros H. repeat (apply elem_of_cons in H as [H|H]; [congruence|]).
      now apply elem_of_nil in H. }
  destruct l as [|c4 l].
  { exfalso. destruct Hlong' as [H|H]; [|unfold len in H; cbn in H; lia].
    cbn [take] in H. repeat (apply elem_of_cons in H as [H|H]; [congruence|]).
    now apply elem_of_nil in H. }
  (* four bytes *)
  clear Hlong'.
  assert (Hscan : scan (c1 :: c2 :: c3 :: c4 :: l) s S_START start rest
                    command
                  = match command_start (packed c1 c2 c3 c4) command with
                    | Some (command', None) => scan_leave (s + 4) command'
                    | Some (command', Some (state', rest')) =>
                        scan l (s + 4) state' (packed c1 c2 c3 c4) rest'
                          command'
                    | None => scan_error (s + 3) command
                    end).
  { cbn [scan]. cbv zeta.
    rewrite (Htest c1 H1), H32, (Htest c2 H2), (Htest c3 H3).
    fold (packed c1 c2 c3 c4).
    replace (s + 1 + 1 + 1 + 1) with (s + 4) by lia.
    replace (s + 1 + 1 + 1) with (s + 3) by lia. reflexivity. }
  rewrite Hscan. clear Hscan.
  assert (Hlen4 : len (c1 :: c2 :: c3 :: c4 :: l) = len l + 4)
    by (rewrite !len_cons; lia).
  pose proof (len_nonneg l) as Hl4.
  destruct (decide ([c1; c2; c3; c4] ∈ command_starts)) as [Hin|Hnot].
  2:{ rewrite (command_start_unknown c1 c2 c3 c4 command Hnot).
      exists 3, command. split; [reflexivity|]. split; [lia|].
      change (Z.to_nat 3) with 3%nat. cbn [take].
      intros H. repeat (apply elem_of_cons in H as [H|H]; [congruence|]).
      now apply elem_of_nil in H. }
  destruct (command_start_known c1 c2 c3 c4 command Hin)
    as [(command' & Hcs & -> & Hn & Hp)
       |[(rest' & command' & Hcs & Hn & Hp)|(command' & Hcs & Hq)]].
  - (* a name of three bytes: excluded *)
    exfalso. cbn [forallb] in Hp.
    apply andb_true_iff in Hp as [Hp1 Hp].
    apply andb_true_iff in Hp as [Hp2 Hp].
    apply andb_true_iff in Hp as [Hp3 _].
    apply plain_spec in Hp1 as [Hp1 _]. apply plain_spec in Hp2 as [Hp2 _].
    apply plain_spec in Hp3 as [Hp3 _].
    destruct (word_head _ _ _ _ _ Hl Hd Hp1) as (w1 & -> & Hl1).
    cbn [forallb] in Hw. apply andb_true_iff in Hw as [_ Hw].
    symmetry in Hl1.
    destruct (word_head _ _ _ _ _ Hl1 Hd Hp2) as (w2 & -> & Hl2).
    cbn [forallb] in Hw. apply andb_true_iff in Hw as [_ Hw].
    symmetry in Hl2.
    destruct (word_head _ _ _ _ _ Hl2 Hd Hp3) as (w3 & -> & Hl3).
    cbn [forallb] in Hw. apply andb_true_iff in Hw as [_ Hw].
    symmetry in Hl3.
    rewrite (word_end _ _ _ _ _ Hl3 Hw eq_refl) in Hname.
    now apply Hname.
  - (* the start of a name *)
    rewrite Hcs.
    assert (Hp' := Hp). cbn [app forallb] in Hp'.
    apply andb_true_iff in Hp' as [Hp1 Hp'].
    apply andb_true_iff in Hp' as [Hp2 Hp'].
    apply andb_true_iff in Hp' as [Hp3 Hp'].
    apply andb_true_iff in Hp' as [Hp4 Hrest].
    apply plain_spec in Hp1 as [Hp1 _]. apply plain_spec in Hp2 as [Hp2 _].
    apply plain_spec in Hp3 as [Hp3 _]. apply plain_spec in Hp4 as [Hp4 _].
    assert (Hw0 := Hw).
    destruct (word_head _ _ _ _ _ Hl Hd Hp1) as (w1 & -> & Hl1).
    cbn [forallb] in Hw. apply andb_true_iff in Hw as [_ Hw].
    symmetry in Hl1.
    destruct (word_head _ _ _ _ _ Hl1 Hd Hp2) as (w2 & -> & Hl2).
    cbn [forallb] in Hw. apply andb_true_iff in Hw as [_ Hw].
    symmetry in Hl2.
    destruct (word_head _ _ _ _ _ Hl2 Hd Hp3) as (w3 & -> & Hl3).
    cbn [forallb] in Hw. apply andb_true_iff in Hw as [_ Hw].
    symmetry in Hl3.
    destruct (word_head _ _ _ _ _ Hl3 Hd Hp4) as (w4 & -> & Hl4').
    cbn [forallb] in Hw. apply andb_true_iff in Hw as [_ Hw].
    subst l.
    destruct (scan_rest_differs rest' w4 tail d (s + 4)
                (packed c1 c2 c3 c4) command' Hrest Hw Hd)
      as (k & Hrun & Hk).
    { intros ->. now apply Hname. }
    exists (4 + k), command'. split; [rewrite Hrun; f_equal; lia|].
    split; [rewrite Hlen4, len_app; pose proof (len_nonneg (d :: tail)); lia|].
    apply (word_take_no_newline (c1 :: c2 :: c3 :: c4 :: w4) tail d
             (4 + k) Hw0).
    rewrite !len_cons. lia.
  - (* [quit] with more behind it *)
    rewrite Hcs. injection Hq as -> -> -> ->.
    assert (Hw0 := Hw).
    destruct (word_head _ _ _ _ _ Hl Hd eq_refl) as (w1 & -> & Hl1).
    cbn [forallb] in Hw. apply andb_true_iff in Hw as [_ Hw].
    symmetry in Hl1.
    destruct (word_head _ _ _ _ _ Hl1 Hd eq_refl) as (w2 & -> & Hl2).
    cbn [forallb] in Hw. apply andb_true_iff in Hw as [_ Hw].
    symmetry in Hl2.
    destruct (word_head _ _ _ _ _ Hl2 Hd eq_refl) as (w3 & -> & Hl3).
    cbn [forallb] in Hw. apply andb_true_iff in Hw as [_ Hw].
    symmetry in Hl3.
    destruct (word_head _ _ _ _ _ Hl3 Hd eq_refl) as (w4 & -> & Hl4').
    cbn [forallb] in Hw. apply andb_true_iff in Hw as [_ Hw].
    subst l.
    destruct w4 as [|x w5].
    { exfalso. apply Hname.
      refine (bool_decide_unpack _ _). vm_compute. exact I. }
    cbn [forallb] in Hw. apply andb_true_iff in Hw as [Hx Hw].
    apply negb_true_iff in Hx.
    destruct (delimiter_tests x Hx) as (Hx32 & Hx13 & Hx10).
    exists 5, command'. split; [|split].
    + cbn [app scan]. cbv zeta. rewrite Hx13, Hx32, Hx10. f_equal. lia.
    + rewrite Hlen4. cbn [app]. rewrite len_cons.
      pose proof (len_nonneg (w5 ++ d :: tail)). lia.
    + apply (word_take_no_newline _ tail d 5 Hw0).
      rewrite !len_cons. pose proof (len_nonneg w5). lia.
Qed.

Lemma spaces_no_newline (n : nat) : after_newline (replicate n SP) = None.
Proof. induction n as [|n IH]; [reflexivity|exact IH]. Qed.

(** [mc_parse_command] on a line whose first word, in the segment of the
    cursor, is not the name of a command. *)
Lemma mc_parse_command_unknown_word (p : mc_parser) (n : nat)
    (word tail : list ascii) (d : ascii) :
  cursor_wf p ->
  zdrop (cursor_ptr p) (cursor_seg p) = replicate n SP ++ word ++ d :: tail ->
  forallb (fun c => negb (is_delimiter c)) word = true ->
  is_delimiter d = true -> (word = [] -> d <> SP) ->
  LF ∈ take 3 (word ++ d :: tail) \/ 3 <= len (word ++ tail) ->
  word ∉ command_names ->
  exists p',
    cursor_wf p' /\ parser_error p' = true /\
    state_quit p' = state_quit p /\
    match after_newline (cursor_rest p) with
    | Some post =>
        mc_parse_command p = (true, p') /\ cursor_rest p' = post /\
        reply_of (parser_command p') = Some (line "ERROR")
    | None => mc_parse_command p = (false, p')
    end.
Proof.
  intros Hwf Hz Hw Hd Hsp Hlong Hname.
  destruct (scan_unknown_word word tail d (cursor_ptr p + Z.of_nat n)
              (u32 (-1)) [] (parser_command p) Hw Hd Hsp Hlong Hname)
    as (k & command' & Hscan & Hk & Hnl).
  set (l := word ++ d :: tail) in *.
  set (p_err := with_ptr (cursor_ptr p + Z.of_nat n + k)
                  (with_command command' p)).
  assert (Hrun : mc_parse_command p = mc_parse_error p_err (line "ERROR")).
  { unfold mc_parse_command.
    destruct (cursor_next p); cbn [parse_command_loop];
      now rewrite Hz, scan_leading_spaces, Hscan. }
  pose proof (len_zdrop_le (cursor_seg p) (cursor_ptr p) Hwf) as Hlen.
  rewrite Hz, len_app, len_spaces in Hlen.
  assert (Hwf_err : cursor_wf p_err).
  { unfold cursor_wf, p_err in *. cbn. lia. }
  assert (Hdrop : zdrop (cursor_ptr p + Z.of_nat n + k) (cursor_seg p)
                  = drop (Z.to_nat k) l).
  { rewrite <- Z.add_assoc.
    rewrite <- (zdrop_zdrop (cursor_seg p) (cursor_ptr p) (Z.of_nat n + k))
      by (unfold cursor_wf in Hwf; lia).
    rewrite Hz.
    rewrite <- (zdrop_zdrop _ (Z.of_nat n) k) by lia.
    now rewrite zdrop_spaces. }
  assert (Hafter : after_newline (cursor_rest p)
                   = after_newline (cursor_rest p_err)).
  { unfold cursor_rest, p_err.
    cbn [cursor_ptr cursor_seg cursor_next with_ptr with_cursor
         with_command].
    rewrite Hdrop, Hz. rewrite <- (take_drop (Z.to_nat k) l) at 1.
    rewrite <- !app_assoc, !after_newline_app, spaces_no_newline.
    now rewrite (proj2 (after_newline_None _) Hnl). }
  destruct (mc_parse_error_spec p_err (line "ERROR") Hwf_err)
    as (p' & Hwf' & He & Hq & Hcase).
  exists p'. split; [exact Hwf'|]. split; [exact He|]. split; [exact Hq|].
  rewrite Hafter, Hrun.
  destruct (after_newline (cursor_rest p_err)) as [post|].
  - destruct Hcase as (Hr & Hrest & Hcmd).
    split; [exact Hr|]. split; [exact Hrest|]. now rewrite Hcmd.
  - now destruct Hcase as (Hr & _).
Qed.

(** C8, amended: a line whose first word is not the name of a command is
    found malformed by [mc_parse_command], which replies [ERROR\r\n] and
    moves the cursor behind the first LF of the input that is left, so
    that parsing goes on there; when no LF has been received it reports
    that more input is needed.  It does so through [mc_parse_error], which
    moves the cursor behind the first LF of the input that is left and
    stores the reply it is given; when no LF has been received it asks for
    more input and leaves the command and the quit flag as they are.
    [mc_more_input] makes the connection quit, with the result [QUIT],
    when more than 1024 chars have been scanned at the end of a segment,
    as [mc_parse_command] does on more than 1024 spaces; else it moves to
    the next segment.  [mc_parse_command] ends in one of the five ways of
    [command_outcome].  [mc_parse_data] steps over the payload and the
    CR LF or LF behind it; when something else is there it replies
    [CLIENT_ERROR bad data chunk] and steps over two bytes. *)
Theorem parse_error_skips_line (p : mc_parser) (error_string : list ascii)
    (count : Z) :
  cursor_wf p ->
  (forall (n : nat) (word tail : list ascii) (d : ascii),
     zdrop (cursor_ptr p) (cursor_seg p)
       = replicate n SP ++ word ++ d :: tail ->
     forallb (fun c => negb (is_delimiter c)) word = true ->
     is_delimiter d = true -> (word = [] -> d <> SP) ->
     LF ∈ take 3 (word ++ d :: tail) \/ 3 <= len (word ++ tail) ->
     word ∉ command_names ->
     exists p',
       cursor_wf p' /\ parser_error p' = true /\
       state_quit p' = state_quit p /\
       match after_newline (cursor_rest p) with
       | Some post =>
           mc_parse_command p = (true, p') /\ cursor_rest p' = post /\
           reply_of (parser_command p') = Some (line "ERROR")
       | None => mc_parse_command p = (false, p')
       end) /\
  (exists p',
     cursor_wf p' /\ parser_error p' = true /\
     state_quit p' = state_quit p /\
     match after_newline (cursor_rest p) with
     | Some post =>
         mc_parse_error p error_string = (true, p') /\
         cursor_rest p' = post /\
         reply_of (parser_command p') = Some error_string /\
         exists pre, cursor_rest p = pre ++ LF :: post /\ LF ∉ pre
     | None =>
         mc_parse_error p error_string = (false, p') /\
         parser_command p' = parser_command p /\ LF ∉ cursor_rest p
     end) /\
  (1024 < count ->
   exists p',
     mc_more_input p count = (false, p') /\ state_quit p' = true /\
     result_type (parser_command p') = MC_RESULT_QUIT /\
     cursor_rest p' = cursor_rest p) /\
  (count <= 1024 ->
   mc_more_input p count = mm_buffer_next_out p /\
   (cursor_next p = [] -> mc_more_input p count = (false, p)) /\
   (forall seg next, cursor_next p = seg :: next ->
      mc_more_input p count = (true, with_cursor seg next 0 p))) /\
  (parser_error p = false ->
   exists rc p',
     mc_parse_command p = (rc, p') /\ command_outcome 0 p rc p') /\
  (forall n : nat,
     zdrop (cursor_ptr p) (cursor_seg p) = replicate n SP ->
     1024 < Z.of_nat n ->
     exists p',
       mc_parse_command p = (false, p') /\ state_quit p' = true /\
       result_type (parser_command p') = MC_RESULT_QUIT /\
       parser_error p' = parser_error p) /\
  (forall bytes,
     0 <= bytes -> bytes + 1 < len (cursor_seg p) - cursor_ptr p < 2 ^ 32 ->
     let ptr := cursor_ptr p + bytes in
     let c0 := byte_at (cursor_seg p) ptr in
     let c1 := byte_at (cursor_seg p) (ptr + 1) in
     fst (mc_parse_data p bytes) =
       if Ascii.eqb c0 LF then data_done true (with_ptr (ptr + 1) p)
       else if Ascii.eqb c0 CR && Ascii.eqb c1 LF
       then data_done true (with_ptr (ptr + 2) p)
       else data_done true
              (with_ptr (ptr + 2)
                 (with_command
                    (mc_reply (parser_command p)
                       (line "CLIENT_ERROR bad data chunk"))
                    (with_error true p)))).
Proof.
  intros Hwf. split_and!.
  - intros n word tail d. now apply mc_parse_command_unknown_word.
  - destruct (mc_parse_error_spec p error_string Hwf)
      as (p' & H1 & H2 & H3 & H4).
    exists p'. split; [exact H1|]. split; [exact H2|]. split; [exact H3|].
    destruct (after_newline (cursor_rest p)) as [post|] eqn:Hnl.
    + destruct H4 as (Hrun & Hrest & Hcmd).
      split; [exact Hrun|]. split; [exact Hrest|].
      split; [now rewrite Hcmd|]. now apply after_newline_Some.
    + destruct H4 as (Hrun & Hcmd). split; [exact Hrun|].
      split; [exact Hcmd|]. now apply after_newline_None.
  - intros Hc. unfold mc_more_input.
    destruct (Z.ltb_spec 1024 count); [|lia].
    eexists. split; [reflexivity|]. now split_and!.
  - intros Hc. unfold mc_more_input.
    destruct (Z.ltb_spec 1024 count); [lia|].
    split; [reflexivity|]. unfold mm_buffer_next_out.
    split; [now intros ->|]. now intros seg next ->.
  - intros Herr. unfold mc_parse_command.
    now apply parse_command_loop_spec.
  - intros n Hsp Hn. exact (mc_parse_command_spaces p n Hwf Hsp Hn).
  - intros bytes Hb Hlen. now apply mc_parse_data_in_segment.
Qed.

Lemma parse_error_skips_line_witness :
  exists p',
    mc_parse_command (mc_start_input malformed_input mc_command_create)
      = (true, p') /\
    parser_error p' = true /\
    reply_of (parser_command p') = Some (line "ERROR") /\
    cursor_rest p' = bytes "get k" ++ CRLF.
Proof.
  destruct (parse_error_skips_line
              (mc_start_input malformed_input mc_command_create)
              (line "ERROR") 0) as [H _].
  - unfold cursor_wf. vm_compute. split; discriminate.
  - destruct (H 0%nat (bytes "foo") (bytes "bar" ++ CRLF ++ bytes "get k"
                                     ++ CRLF) SP)
      as (p' & _ & He & _ & Hrun & Hrest & Hreply).
    + reflexivity.
    + reflexivity.
    + reflexivity.
    + discriminate.
    + right. vm_compute. discriminate.
    + intros Hin. revert Hin. refine (bool_decide_unpack _ _).
      vm_compute. exact I.
    + exists p'. now split_and!.
Defined.

(** ** The properties on small tables, rings and inputs *)

Lemma de_value_wf : value_wf de_value.
Proof.
  split.
  - vm_compute. split; discriminate.
  - discriminate.
  - vm_compute. split; [discriminate|reflexivity].
  - vm_compute. discriminate.
  - constructor; [vm_compute; reflexivity|constructor].
Qed.

Lemma abc_world_inv : world_inv abc_world.
Proof. apply world_after_set_inv, abc_value_wf. Qed.

Lemma abc_world_unique : keys_unique abc_world.
Proof. apply world_after_set_unique, abc_value_wf. Qed.

Lemma abc_world_entry : heap_at abc_world 1%nat abc_entry.
Proof. vm_compute. reflexivity. Qed.

Lemma abc_world_current : current_entry abc_world (bytes "k") = Some (Some 1%nat).
Proof. vm_compute. reflexivity. Qed.

Lemma add_stores_iff_absent_witness :
  exists command' w',
    mc_process_add (add_command (bytes "foo") 0 0 bar_value false)
      mc_world_init = Some (command', w') /\
    reply_of command' = Some (line "STORED") /\
    current_entry w' (bytes "foo") = Some (Some 1%nat).
Proof.
  destruct (add_stores_iff_absent mc_world_init (bytes "foo") 0 0 bar_value
              world_inv_init bar_value_wf)
    as (r & command' & w' & Hcur & Hrun & _ & Hcase).
  assert (r = None) as -> by (vm_compute in Hcur; congruence).
  destruct Hcase as (Hreply & _ & Hcur' & _).
  exists command', w'. split; [exact Hrun|]. split; [exact Hreply|exact Hcur'].
Defined.

Lemma replace_stores_iff_present_witness :
  exists command' w',
    mc_process_replace (replace_command (bytes "k") 0 0 de_value false)
      abc_world = Some (command', w') /\
    reply_of command' = Some (line "STORED") /\
    current_entry w' (bytes "k") = Some (Some 2%nat) /\
    ~ stored w' 1%nat.
Proof.
  destruct (replace_stores_iff_present abc_world (bytes "k") 0 0 de_value
              abc_world_inv de_value_wf)
    as (r & command' & w' & Hcur & Hrun & _ & Hcase).
  assert (r = Some 1%nat) as ->
    by (rewrite abc_world_current in Hcur; congruence).
  destruct Hcase as (Hreply & _ & Hcur' & _ & Hold & _).
  exists command', w'. split; [exact Hrun|]. split; [exact Hreply|].
  split; [exact Hcur'|exact Hold].
Defined.

Lemma set_keeps_keys_unique_witness :
  exists command' w',
    mc_process_set (set_command (bytes "k") 0 0 de_value false) abc_world
      = Some (command', w') /\
    reply_of command' = Some (line "STORED") /\
    world_inv w' /\ keys_unique w' /\
    current_entry w' (bytes "k") = Some (Some (w_next abc_world)).
Proof.
  apply (set_keeps_keys_unique abc_world (bytes "k") 0 0 de_value).
  - apply abc_world_inv.
  - apply abc_world_unique.
  - apply de_value_wf.
Defined.

Lemma delete_removes_key_witness :
  exists command' w',
    mc_process_delete (delete_command (bytes "k") false) abc_world
      = Some (command', w') /\
    reply_of command' = Some (line "DELETED") /\
    current_entry w' (bytes "k") = Some None /\
    w_heap w' !! 1%nat = None.
Proof.
  destruct (delete_removes_key abc_world (bytes "k")
              abc_world_inv abc_world_unique)
    as (r & command' & w' & Hcur & Hrun & _ & _ & Hcur' & Hcase).
  assert (r = Some 1%nat) as ->
    by (rewrite abc_world_current in Hcur; congruence).
  destruct Hcase as (Hreply & _ & _ & Hfree & _).
  exists command', w'. split; [exact Hrun|]. split; [exact Hreply|].
  split; [exact Hcur'|exact Hfree].
Defined.

Lemma insert_remove_round_trip_witness :
  exists w1 w2,
    mc_table_insert (mc_table_index (w_table brim_world) (entry_hash brim_entry))
      1%nat brim_world = Some (tt, w1) /\
    mc_table_remove (mc_table_index (w_table brim_world) (entry_hash brim_entry))
      (mc_entry_key brim_entry) (entry_key_len brim_entry) w1
      = Some (Some 1%nat, w2) /\
    forall b, bucket w2 b = bucket brim_world b.
Proof.
  destruct (insert_remove_round_trip brim_world 1%nat brim_entry)
    as (w1 & w2 & Hins & _ & Hrm & _ & Hbk & _).
  - apply brim_world_inv.
  - vm_compute. reflexivity.
  - intros [b Hb]. unfold bucket in Hb. cbn in Hb.
    rewrite lookup_empty in Hb. inversion Hb.
  - exists w1, w2. split; [exact Hins|]. split; [exact Hrm|exact Hbk].
Defined.

Lemma get_returns_found_entries_witness :
  exists w',
    mc_process_get2 (get_command [bytes "x"; bytes "k"; bytes "k"])
      MC_RESULT_ENTRY abc_world
      = Some (with_result MC_RESULT_ENTRY (result_entries [1%nat; 1%nat])
                (get_command [bytes "x"; bytes "k"; bytes "k"]), w') /\
    w_table w' = w_table abc_world /\
    heap_at w' 1%nat (entry_with_ref_count 4 abc_entry).
Proof.
  destruct (get_returns_found_entries abc_world
              (get_command [bytes "x"; bytes "k"; bytes "k"]) MC_RESULT_ENTRY
              [bytes "x"; bytes "k"; bytes "k"] abc_world_inv eq_refl)
    as (w' & Hrun & Htab & _ & Hheap).
  - intros a e Ha.
    assert (Hall : map_Forall
              (fun (_ : addr) (e : mc_entry) =>
                 0 <= entry_ref_count e /\ entry_ref_count e + 3 < 2 ^ 32)
              (w_heap abc_world)).
    { refine (bool_decide_unpack _ _). vm_compute. exact I. }
    exact (Hall a e Ha).
  - exists w'. split; [exact Hrun|]. split; [exact Htab|].
    exact (Hheap 1%nat abc_entry abc_world_entry).
Defined.

Lemma append_extends_value_witness :
  exists command' w',
    mc_process_append (append_command (bytes "k") 9 0 de_value false)
      abc_world = Some (command', w') /\
    reply_of command' = Some (line "STORED") /\
    heap_at w' 2%nat
      (concat_entry (bytes "k") 1 (bytes "abcde") 0 2).
Proof.
  destruct (append_extends_value abc_world (bytes "k") 9 0 de_value
              abc_world_inv de_value_wf)
    as (r & command' & w' & Hcur & Hrun & _ & Hcase).
  - intros old e Hc He. rewrite abc_world_current in Hc. injection Hc as <-.
    rewrite (heap_at_inj _ _ _ _ He abc_world_entry).
    split; vm_compute; reflexivity.
  - assert (r = Some 1%nat) as ->
      by (rewrite abc_world_current in Hcur; congruence).
    destruct Hcase as (e_old & He_old & Hreply & Hnew & _).
    rewrite (heap_at_inj _ _ _ _ He_old abc_world_entry) in Hnew.
    exists command', w'. split; [exact Hrun|]. split; [exact Hreply|exact Hnew].
Defined.

Lemma prepend_extends_value_witness :
  exists command' w',
    mc_process_prepend (prepend_command (bytes "k") 9 0 de_value false)
      abc_world = Some (command', w') /\
    reply_of command' = Some (line "STORED") /\
    heap_at w' 2%nat
      (concat_entry (bytes "k") 1 (bytes "deabc") 0 2).
Proof.
  destruct (prepend_extends_value abc_world (bytes "k") 9 0 de_value
              abc_world_inv de_value_wf)
    as (r & command' & w' & Hcur & Hrun & _ & Hcase).
  - intros old e Hc He. rewrite abc_world_current in Hc. injection Hc as <-.
    rewrite (heap_at_inj _ _ _ _ He abc_world_entry).
    split; vm_compute; reflexivity.
  - assert (r = Some 1%nat) as ->
      by (rewrite abc_world_current in Hcur; congruence).
    destruct Hcase as (e_old & He_old & Hreply & Hnew & _).
    rewrite (heap_at_inj _ _ _ _ He_old abc_world_entry) in Hnew.
    exists command', w'. split; [exact Hrun|]. split; [exact Hreply|exact Hnew].
Defined.

Lemma mc_table_index_below_used_witness :
  0 <= mc_table_index (w_table abc_world) 123456789
    < t_used (w_table abc_world).
Proof.
  apply (mc_table_index_below_used abc_world 123456789).
  apply abc_world_inv.
Defined.

Lemma entry_reference_counting_witness :
  (mc_entry_ref 1%nat ;;; mc_entry_unref 1%nat) abc_world
    = Some (tt, abc_world).
Proof.
  destruct (entry_reference_counting abc_world 1%nat abc_entry
              abc_world_entry) as (H & _ & _).
  apply H. vm_compute. split; [discriminate|reflexivity].
Defined.

Lemma u64_entry_round_trip_witness :
  exists a e w',
    mc_entry_create_u64 1 18446744073709551615 mc_world_init = Some (a, w') /\
    heap_at w' a e /\
    mc_entry_value_u64 e = Some 18446744073709551615 /\
    canonical (entry_value e) /\
    entry_value_len e = len (entry_value e) /\
    0 < entry_value_len e <= 20.
Proof.
  apply (u64_entry_round_trip mc_world_init 1 18446744073709551615).
  vm_compute. split; [discriminate|reflexivity].
Defined.

Lemma incr_wraps_at_64_bits_witness :
  let k := bytes "n" in
  let d := 18446744073709551615 in
  let v' := (5 + d) mod 2 ^ 64 in
  exists a e w',
    mc_process_incr (incr_command k d false) counter_world
      = Some (with_result MC_RESULT_VALUE (result_entry a)
                (incr_command k d false), w') /\
    world_inv w' /\
    current_entry w' k = Some (Some a) /\ heap_at w' a e /\
    ~ stored w' 1%nat /\
    entry_decimal e v' /\ canonical (entry_value e) /\
    entry_flags e = entry_flags counter_entry.
Proof.
  apply (incr_wraps_at_64_bits counter_world (bytes "n")
           18446744073709551615 1%nat counter_entry 5).
  - apply world_after_set_inv, five_value_wf.
  - vm_compute. reflexivity.
  - vm_compute. reflexivity.
  - split; [vm_compute; reflexivity|].
    split; [discriminate|]. split; vm_compute; reflexivity.
  - lia.
  - lia.
Defined.

Lemma ring4_holds : holds ring4 [].
Proof.
  split; [reflexivity|]. split; [vm_compute; discriminate|]. split.
  - intros i x Hi. discriminate.
  - intros i Hi. change (len (@nil Z)) with 0 in Hi.
    change (Ring.capacity ring4) with 4 in Hi.
    assert (i = 0 \/ i = 1 \/ i = 2 \/ i = 3) as [->|[->|[->| ->]]] by lia;
      reflexivity.
Qed.

Lemma ring4_one_wf : Ring.ring_wf ring4_one.
Proof.
  split; cbn.
  - exists 2. split; [lia|reflexivity].
  - reflexivity.
  - lia.
  - lia.
Qed.

Lemma ring4_one_holds : holds ring4_one [7].
Proof.
  split; [reflexivity|]. split; [vm_compute; discriminate|]. split.
  - intros [|i] x Hi; [|destruct i; discriminate].
    injection Hi as <-. reflexivity.
  - intros i Hi. change (len [7]) with 1 in Hi.
    change (Ring.capacity ring4_one) with 4 in Hi.
    assert (i = 1 \/ i = 2 \/ i = 3) as [->|[->| ->]] by lia; reflexivity.
Qed.

Lemma mpmc_put_enqueues_witness :
  exists r' log',
    Ring.mm_ring_mpmc_put 7 (ring4, []) = Some (true, (r', log')) /\
    holds r' [7] /\ Ring.ring_wf r'.
Proof.
  destruct (mpmc_put_enqueues ring4 [] 7 [] ring4_wf ring4_holds)
    as (r' & log' & Hrun & Hcase).
  - vm_compute. discriminate.
  - vm_compute. reflexivity.
  - change (len (@nil Z) <? Ring.capacity ring4) with true in Hrun, Hcase.
    destruct Hcase as (Hh & Hwf & _).
    exists r', log'. split; [exact Hrun|]. split; [exact Hh|exact Hwf].
Defined.

Lemma mpmc_get_dequeues_witness :
  exists r' log',
    Ring.mm_ring_mpmc_get (ring4_one, []) = Some ((true, 7), (r', log')) /\
    holds r' [] /\ Ring.head r' = 1.
Proof.
  destruct (mpmc_get_dequeues ring4_one [] [7] ring4_one_wf ring4_one_holds)
    as (r' & log' & Hrun & Hh & _ & _ & Hhead).
  - vm_compute. reflexivity.
  - exists r', log'. split; [exact Hrun|]. split; [exact Hh|exact Hhead].
Defined.

Lemma relaxed_agrees_with_mpmc_witness :
  exists rc r' events events',
    Relaxed.mm_ring_relaxed_get (ring4_one, [])
      = Some (rc, (r', [] ++ events)) /\
    Ring.mm_ring_mpmc_get (ring4_one, []) = Some (rc, (r', [] ++ events')) /\
    forallb (fun e => negb (is_cas e)) events = true.
Proof.
  destruct (relaxed_agrees_with_mpmc ring4_one [] 0 ring4_one_wf) as [_ H].
  exact H.
Defined.

Lemma spsc_ring4_holds : Spsc.holds Spsc.ring4 [].
Proof.
  split.
  - exists 2. split; [lia|reflexivity].
  - reflexivity.
  - vm_compute. split; [discriminate|reflexivity].
  - reflexivity.
  - vm_compute. discriminate.
  - intros i x Hi. discriminate.
  - intros i Hi. change (len (@nil Z)) with 0 in Hi.
    change (Spsc.capacity Spsc.ring4) with 4 in Hi.
    assert (i = 0 \/ i = 1 \/ i = 2 \/ i = 3) as [->|[->|[->| ->]]] by lia;
      reflexivity.
Qed.

Lemma spsc_ring4_one_holds : Spsc.holds spsc_ring4_one [7].
Proof.
  split.
  - exists 2. split; [lia|reflexivity].
  - reflexivity.
  - vm_compute. split; [discriminate|reflexivity].
  - reflexivity.
  - vm_compute. discriminate.
  - intros [|i] x Hi; [|destruct i; discriminate].
    injection Hi as <-. split; [discriminate|reflexivity].
  - intros i Hi. change (len [7]) with 1 in Hi.
    change (Spsc.capacity spsc_ring4_one) with 4 in Hi.
    assert (i = 1 \/ i = 2 \/ i = 3) as [->|[->| ->]] by lia; reflexivity.
Qed.

Lemma spsc_put_enqueues_witness :
  exists r',
    Spsc.mm_ring_spsc_put spsc_ring4_one 9 = Some (true, r') /\
    Spsc.holds r' [7; 9].
Proof.
  destruct (spsc_put_enqueues spsc_ring4_one 9 [7] spsc_ring4_one_holds)
    as (r' & Hrun & Hh).
  - discriminate.
  - exists r'. split; [exact Hrun|exact Hh].
Defined.

Lemma spsc_get_dequeues_witness :
  exists r',
    Spsc.mm_ring_spsc_get spsc_ring4_one = Some (Some 7, r') /\
    Spsc.holds r' [].
Proof.
  exact (spsc_get_dequeues spsc_ring4_one [7] spsc_ring4_one_holds).
Defined.

Lemma mc_table_expand_saturates_witness :
  let '(rc, part') := TableC.mc_table_expand 10000 small_part 4096 in
  Tpart.nentries part' = Z.min (Tpart.nentries small_part + 4096) 10000 /\
  Tpart.nentries_void part'
    = Tpart.nentries_void small_part
      + (Tpart.nentries part' - Tpart.nentries small_part) /\
  Tpart.entries_in_use part' = Tpart.entries_in_use small_part /\
  Tpart.nbuckets part' = Tpart.nbuckets small_part /\
  Tpart.striding part' = Tpart.striding small_part /\
  (rc = true <-> Tpart.nentries small_part < Tpart.nentries part') /\
  (rc = false -> part' = small_part).
Proof.
  apply (mc_table_expand_saturates 10000 small_part 4096).
  - vm_compute. split; discriminate.
  - reflexivity.
  - vm_compute. split; discriminate.
  - vm_compute. split; [discriminate|reflexivity].
Defined.

Lemma mc_parse_command_sets_desc_witness :
  exists d,
    desc (parser_command
            (snd (mc_parse_command (mc_start_input get_input mc_command_create))))
      = Some d.
Proof.
  apply (mc_parse_command_sets_desc
           (mc_start_input get_input mc_command_create)).
  - vm_compute. reflexivity.
  - vm_compute. reflexivity.
  - vm_compute. reflexivity.
Defined.

Lemma mc_parse_space_skips_spaces_witness :
  exists p',
    mc_parse_space (mc_start_input spaces_input mc_command_create)
      = (true, p') /\
    cursor_wf p' /\ cursor_rest p' = bytes "k" ++ CRLF /\
    parser_command p' = mc_command_create /\
    state_quit p' = false /\ parser_error p' = false.
Proof.
  apply (mc_parse_space_skips_spaces
           (mc_start_input spaces_input mc_command_create) 5
           (bytes "k" ++ CRLF)).
  - vm_compute. split; discriminate.
  - reflexivity.
  - discriminate.
  - lia.
Defined.

Lemma mc_parse_eol_accepts_line_end_witness :
  exists p',
    mc_parse_eol (mc_start_input eol_input mc_command_create) = (true, p') /\
    cursor_wf p' /\ cursor_rest p' = bytes "get k" ++ CRLF /\
    parser_command p' = mc_command_create /\
    state_quit p' = false /\ parser_error p' = false.
Proof.
  destruct (mc_parse_eol_accepts_line_end
              (mc_start_input eol_input mc_command_create) 2
              (CR :: LF :: bytes "get k" ++ CRLF)) as [H _].
  - vm_compute. split; discriminate.
  - reflexivity.
  - lia.
  - apply (H (bytes "get k" ++ CRLF)). right. split; [reflexivity|].
    repeat constructor; discriminate.
Defined.

Lemma retrieval_gives_references_back_witness :
  exists state',
    (s1 <- mc_process_command mc_create
             (retrieval true [bytes "k"; bytes "x"; bytes "k"]) ;;
     mc_writer_routine s1) abc_world = Some (state', abc_world) /\
    command_head state' = [] /\ tbuf state' = [] /\
    sock_out state'
      = sock_out mc_create
        ++ blocks true (w_heap abc_world)
             (found abc_world [bytes "k"; bytes "x"; bytes "k"])
        ++ line "END".
Proof.
  apply (retrieval_gives_references_back abc_world mc_create true
           [bytes "k"; bytes "x"; bytes "k"] abc_world_inv mc_create_idle).
  intros a e Ha.
  assert (Hall : map_Forall
            (fun (_ : addr) (e : mc_entry) =>
               1 <= entry_ref_count e /\ entry_ref_count e + 6 < 2 ^ 32 - 1)
            (w_heap abc_world)).
  { refine (bool_decide_unpack _ _). vm_compute. exact I. }
  exact (Hall a e Ha).
Defined.

Lemma ring2_full_wf : Ring.ring_wf ring2_full.
Proof.
  split; cbn.
  - exists 1. split; [lia|reflexivity].
  - reflexivity.
  - lia.
  - lia.
Qed.

Lemma ring2_full_holds : holds ring2_full [7; 9].
Proof.
  split; [reflexivity|]. split; [vm_compute; discriminate|]. split.
  - intros [|[|i]] x Hi; [| |destruct i; discriminate];
      injection Hi as <-; reflexivity.
  - intros i Hi. change (len [7; 9]) with 2 in Hi.
    change (Ring.capacity ring2_full) with 2 in Hi. lia.
Qed.

Lemma mpmc_enqueue_waits_for_room_witness :
  (forall fuel, exists r' log',
     Busy.mm_ring_mpmc_enqueue (S fuel) 9 (ring4_one, [])
       = Some (true, (r', log')) /\
     holds r' [7; 9] /\ Ring.ring_wf r') /\
  (forall fuel, exists r' log',
     Busy.mm_ring_mpmc_enqueue fuel 5 (ring2_full, [])
       = Some (false, (r', log')) /\
     Ring.tail r' = 3 /\ Ring.ring r' = Ring.ring ring2_full).
Proof.
  split.
  - apply (mpmc_enqueue_waits_for_room ring4_one [] 9 [7] ring4_one_wf
             ring4_one_holds).
    + vm_compute. discriminate.
    + vm_compute. reflexivity.
    + vm_compute. reflexivity.
  - apply (mpmc_enqueue_waits_for_room ring2_full [] 5 [7; 9] ring2_full_wf
             ring2_full_holds).
    + vm_compute. discriminate.
    + vm_compute. reflexivity.
    + reflexivity.
Defined.

Lemma mpmc_dequeue_waits_for_data_witness :
  (forall fuel, exists r' log',
     Busy.mm_ring_mpmc_dequeue (S fuel) (ring4_one, [])
       = Some (Some 7, (r', log')) /\
     holds r' [] /\ Ring.ring_wf r') /\
  (forall fuel, exists r' log',
     Busy.mm_ring_mpmc_dequeue fuel (ring4, [])
       = Some (None, (r', log')) /\
     Ring.head r' = 1 /\ Ring.ring r' = Ring.ring ring4).
Proof.
  split.
  - apply (mpmc_dequeue_waits_for_data ring4_one [] [7] ring4_one_wf
             ring4_one_holds).
    vm_compute. reflexivity.
  - apply (mpmc_dequeue_waits_for_data ring4 [] [] ring4_wf ring4_holds).
    vm_compute. reflexivity.
Defined.

Lemma mc_parse_noreply_recognises_word_witness :
  mc_parse_noreply (mc_start_input noreply_input mc_command_create) false
    = (true, true,
       with_ptr 8 (mc_start_input noreply_input mc_command_create)) /\
  mc_parse_noreply (mc_start_input split_noreply_input mc_command_create) false
    = (true, true,
       with_cursor (bytes "eply" ++ CRLF) [] 4
         (mc_start_input split_noreply_input mc_command_create)).
Proof.
  split.
  - apply (mc_parse_noreply_recognises_word
             (mc_start_input noreply_input mc_command_create) false 1
             "n"%char (bytes "oreply" ++ CRLF)).
    + vm_compute. split; discriminate.
    + reflexivity.
    + discriminate.
    + exists CRLF. reflexivity.
  - apply (mc_parse_noreply_recognises_word
             (mc_start_input split_noreply_input mc_command_create) false 2
             "n"%char (bytes "or")).
    + vm_compute. split; discriminate.
    + reflexivity.
    + discriminate.
    + exists (bytes "eply"). reflexivity.
    + discriminate.
Defined.
